(** * oniguruma-parser: parser, traverser and optimizer transforms

    A shallow embedding of the parser ([parse] and the node factories), of
    the traverser ([traverse]) and of the transforms of the optimizer, with
    the properties of the specification proved (or refuted) about them.

    Conventions.
    - A JavaScript function that may throw returns a [result]; the loops and
      the recursive descent run on fuel, and [OutOfFuel] is a third outcome
      that the totality lemmas exclude.
    - JavaScript arrays are lists; an array that the source mutates in place
      is threaded through the functions that share it.
    - Strings are byte strings: the case mapping and the character classes
      of the string helpers are the ASCII ones. *)

From Stdlib Require Import ZArith List String Ascii Bool Lia.
From stdpp Require Import base option list strings gmap.

Set Default Proof Using "Type".
Set Warnings "-register-all".
Local Open Scope string_scope.
Local Open Scope list_scope.
Local Open Scope Z_scope.

(** ** Outcomes of a call *)

Inductive result (A : Type) : Type :=
| Ok (a : A)
| Throw (msg : string)
| OutOfFuel.
Arguments Ok {A} a.
Arguments Throw {A} msg.
Arguments OutOfFuel {A}.

(** Sequencing: [x ← e; k] runs [k] on the value of [e] and propagates a
    throw (or the lack of fuel) of [e]. *)
Global Instance result_bind : MBind result := fun A B k r =>
  match r with
  | Ok a => k a
  | Throw msg => Throw msg
  | OutOfFuel => OutOfFuel
  end.

Definition returned {A : Type} (r : result A) : Prop :=
  match r with Ok _ => True | _ => False end.

Definition thrown {A : Type} (r : result A) : Prop :=
  match r with Throw _ => True | _ => False end.

(** The message of a [TypeError] raised by the engine itself (a property
    read on [undefined] or [null]). *)
Definition TypeError : string := "TypeError".

(** ** JavaScript numbers, as far as the parser uses them *)

Inductive number : Type :=
| Int (z : Z)
| Infinity
| NaN.

(** [a < b] on numbers. *)
Definition num_lt (a b : number) : bool :=
  match a, b with
  | Int x, Int y => x <? y
  | Int _, Infinity => true
  | _, _ => false
  end.

Definition num_gt (a b : number) : bool := num_lt b a.

Definition num_add (a b : number) : number :=
  match a, b with
  | Int x, Int y => Int (x + y)
  | NaN, _ | _, NaN => NaN
  | _, _ => Infinity
  end.

Definition num_sub (a b : number) : number :=
  match a, b with
  | Int x, Int y => Int (x - y)
  | Infinity, Int _ => Infinity
  | _, _ => NaN
  end.

(** ** The AST (section 3 of the specification, [Node] of parse.ts) *)

Inductive NodeAbsentFunctionKind := repeater.

Inductive NodeAssertionKind :=
| grapheme_boundary | line_end | line_start | search_start
| string_end | string_end_newline | string_start | word_boundary.

Module NodeCharacterClassKinds.
Inductive t := union | intersection.
End NodeCharacterClassKinds.
Abbreviation NodeCharacterClassKind := NodeCharacterClassKinds.t.

Module NodeCharacterSetKinds.
Inductive t :=
| any | digit | grapheme | hex | newline | posix | property | space | word.
End NodeCharacterSetKinds.
Abbreviation NodeCharacterSetKind := NodeCharacterSetKinds.t.

Module NodeDirectiveKinds.
Inductive t := flags | keep.
End NodeDirectiveKinds.
Abbreviation NodeDirectiveKind := NodeDirectiveKinds.t.

Inductive NodeLookaroundAssertionKind := lookahead | lookbehind.

Inductive NodeQuantifierKind := greedy | lazy | possessive.

(** [type Ref = string | number]. *)
Inductive Ref :=
| RefNum (n : number)
| RefName (name : string).

Record FlagGroupSwitches := {
  sw_ignoreCase : bool;
  sw_dotAll : bool;
  sw_extended : bool;
}.

Record FlagGroupModifiers := {
  enable : option FlagGroupSwitches;
  disable : option FlagGroupSwitches;
}.

Record RegexFlags := {
  ignoreCase : bool;
  dotAll : bool;
  extended : bool;
  digitIsAscii : bool;
  posixIsAscii : bool;
  spaceIsAscii : bool;
  wordIsAscii : bool;
  textSegmentMode : option string;
}.

(** One type for every node, as in JavaScript: the TypeScript types of the
    children are casts in the source ([as AlternativeElementNode]), so a
    container holds nodes of any type.  An optional property is an [option];
    [None] is an absent property.  [Recursion] is a type the traverser
    knows and the parser does not build; [Undefined] stands for a hole
    of an array (what [array[i]] yields after an assignment past the end). *)
Inductive Node : Type :=
| AbsentFunction (kind : NodeAbsentFunctionKind) (alternatives : list Node)
| Alternative (elements : list Node)
| Assertion (kind : NodeAssertionKind) (negate : option bool)
| Backreference (ref : Ref) (orphan : bool)
| CapturingGroup (number : Z) (name : option string) (alternatives : list Node)
| Character (value : Z)
| CharacterClass (kind : NodeCharacterClassKind) (negate : bool) (elements : list Node)
| CharacterClassRange (min max : Node)
| CharacterSet (kind : NodeCharacterSetKind) (value : option string)
    (negate : option bool) (variableLength : bool)
| Directive (kind : NodeDirectiveKind) (flags : option FlagGroupModifiers)
| Flags (fl : RegexFlags)
| Group (atomic : bool) (flags : option FlagGroupModifiers) (alternatives : list Node)
| LookaroundAssertion (kind : NodeLookaroundAssertionKind) (negate : bool)
    (alternatives : list Node)
| Pattern (alternatives : list Node)
| Quantifier (kind : NodeQuantifierKind) (min max : number) (element : Node)
| Regex (pattern flags : Node)
| Subroutine (ref : Ref)
| Recursion
| Undefined.

(** [node.type]. *)
Inductive NodeType :=
| TAbsentFunction | TAlternative | TAssertion | TBackreference | TCapturingGroup
| TCharacter | TCharacterClass | TCharacterClassRange | TCharacterSet | TDirective
| TFlags | TGroup | TLookaroundAssertion | TPattern | TQuantifier | TRegex
| TSubroutine | TRecursion.

Definition type_of (n : Node) : option NodeType :=
  match n with
  | AbsentFunction _ _ => Some TAbsentFunction
  | Alternative _ => Some TAlternative
  | Assertion _ _ => Some TAssertion
  | Backreference _ _ => Some TBackreference
  | CapturingGroup _ _ _ => Some TCapturingGroup
  | Character _ => Some TCharacter
  | CharacterClass _ _ _ => Some TCharacterClass
  | CharacterClassRange _ _ => Some TCharacterClassRange
  | CharacterSet _ _ _ _ => Some TCharacterSet
  | Directive _ _ => Some TDirective
  | Flags _ => Some TFlags
  | Group _ _ _ => Some TGroup
  | LookaroundAssertion _ _ _ => Some TLookaroundAssertion
  | Pattern _ => Some TPattern
  | Quantifier _ _ _ _ => Some TQuantifier
  | Regex _ _ => Some TRegex
  | Subroutine _ => Some TSubroutine
  | Recursion => Some TRecursion
  | Undefined => None
  end.

Global Instance NodeType_eq_dec : EqDecision NodeType.
Proof. solve_decision. Defined.

Global Instance number_eq_dec : EqDecision number.
Proof. solve_decision. Defined.

Global Instance NodeCharacterSetKind_eq_dec : EqDecision NodeCharacterSetKind.
Proof. solve_decision. Defined.

Global Instance NodeQuantifierKind_eq_dec : EqDecision NodeQuantifierKind.
Proof. solve_decision. Defined.

(** ** String helpers of the parser *)

Definition is_digit (c : ascii) : bool :=
  let n := nat_of_ascii c in ((48 <=? n) && (n <=? 57))%nat.

Definition is_upper (c : ascii) : bool :=
  let n := nat_of_ascii c in ((65 <=? n) && (n <=? 90))%nat.

Definition is_lower (c : ascii) : bool :=
  let n := nat_of_ascii c in ((97 <=? n) && (n <=? 122))%nat.

Definition is_alpha (c : ascii) : bool := is_upper c || is_lower c.

Definition toLowerCase_char (c : ascii) : ascii :=
  if is_upper c then ascii_of_nat (nat_of_ascii c + 32) else c.

Definition toUpperCase_char (c : ascii) : ascii :=
  if is_lower c then ascii_of_nat (nat_of_ascii c - 32) else c.

(** The class [[- _]] of the two replacements below. *)
Definition is_separator (c : ascii) : bool :=
  match c with
  | "-"%char | " "%char | "_"%char => true
  | _ => false
  end.

(** [name.replace(/[- _]+/g, '').toLowerCase()]. *)
Fixpoint slug (name : string) : string :=
  match name with
  | EmptyString => EmptyString
  | String c rest =>
      if is_separator c then slug rest else String (toLowerCase_char c) (slug rest)
  end.

(** [raw.slice(3, -1)] and [raw.slice(1)]. *)
Definition slice_3_m1 (raw : string) : string :=
  substring 3 (String.length raw - 4) raw.

Definition slice_1 (raw : string) : string :=
  substring 1 (String.length raw - 1) raw.

(** The value of a string of decimal digits, [None] when a character is not
    a digit.  Numerals are read exactly. *)
Fixpoint digits_value (acc : Z) (s : string) : option Z :=
  match s with
  | EmptyString => Some acc
  | String c rest =>
      if is_digit c
      then digits_value (10 * acc + (Z.of_nat (nat_of_ascii c) - 48)) rest
      else None
  end.

Fixpoint drop_zeros (s : string) : string :=
  match s with
  | String "0" rest => drop_zeros rest
  | _ => s
  end.

(** The tail of the two numbered-reference patterns: any zeros, then the
    group [num], a digit from 1 to 9 followed by digits up to the end of the
    string.  The value of [num] when the string matches. *)
Definition match_num (s : string) : option Z :=
  match drop_zeros s with
  | EmptyString => None
  | String c rest => digits_value 0 (String c rest)
  end.

(** The numbered-reference pattern of [parseBackreference], an optional
    minus sign before the tail above: the pair of [!!sign] and [+num]. *)
Definition backref_numberedRef (ref : string) : option (bool * Z) :=
  match ref with
  | String "-" rest => n ← match_num rest; Some (true, n)
  | _ => n ← match_num ref; Some (false, n)
  end.

(** The numbered-reference pattern of [parseSubroutine], an optional sign
    before the tail above: [sign] and [+num]. *)
Definition subroutine_numberedRef (ref : string) : option (string * Z) :=
  match ref with
  | String "-" rest => n ← match_num rest; Some ("-", n)
  | String "+" rest => n ← match_num rest; Some ("+", n)
  | _ => n ← match_num ref; Some ("", n)
  end.

(** [+ref] for the lexeme of an unenclosed backreference: a string of
    decimal digits converts to its value, the empty string to [0], and
    a string with another character is taken to [NaN]. *)
Definition Number (s : string) : number :=
  match digits_value 0 s with
  | Some n => Int n
  | None => NaN
  end.

(** The test of [parseBackreference] on [raw]: a backslash, the letter k
    and an opening angle bracket or quote. *)
Definition hasKWrapper (raw : string) : bool :=
  match raw with
  | String "\" (String "k" (String c _)) =>
      match c with
      | "<"%char | "'"%char => true
      | _ => false
      end
  | _ => false
  end.

(** [/[-+]/.test(ref)]. *)
Fixpoint has_sign (ref : string) : bool :=
  match ref with
  | EmptyString => false
  | String c rest =>
      match c with
      | "-"%char | "+"%char => true
      | _ => has_sign rest
      end
  end.

(** [name.trim()], on the ASCII white space. *)
Definition is_space (c : ascii) : bool :=
  let n := nat_of_ascii c in (((9 <=? n) && (n <=? 13)) || (n =? 32))%nat.

Fixpoint trimStart (s : string) : string :=
  match s with
  | String c rest => if is_space c then trimStart rest else s
  | EmptyString => EmptyString
  end.

Fixpoint trimEnd (s : string) : string :=
  match s with
  | EmptyString => EmptyString
  | String c rest =>
      match trimEnd rest with
      | EmptyString => if is_space c then EmptyString else String c EmptyString
      | rest' => String c rest'
      end
  end.

Definition trim (s : string) : string := trimEnd (trimStart s).

(** [.replace(/[- _]+/g, '_')]; [after_sep] holds inside a run. *)
Fixpoint collapse_separators (after_sep : bool) (s : string) : string :=
  match s with
  | EmptyString => EmptyString
  | String c rest =>
      if is_separator c
      then (if after_sep then collapse_separators true rest
            else String "_" (collapse_separators true rest))
      else String c (collapse_separators false rest)
  end.

(** The second replacement of [normalizeUnicodePropertyName]: an underscore
    goes after each capital followed by small letters when the next
    character is a capital again.  The scan remembers whether it stands
    right after a capital or inside the small letters that follow one. *)
Inductive camel_state := Outside | AfterUpper | InRun.

Fixpoint camel_split (st : camel_state) (s : string) : string :=
  match s with
  | EmptyString => EmptyString
  | String c rest =>
      if is_upper c then
        match st with
        | InRun => String "_" (String c (camel_split AfterUpper rest))
        | _ => String c (camel_split AfterUpper rest)
        end
      else if is_lower c then
        String c (camel_split (match st with Outside => Outside | _ => InRun end) rest)
      else String c (camel_split Outside rest)
  end.

(** The third replacement: every run of letters gets a capital first letter
    and small letters after it. *)
Fixpoint title_case (in_word : bool) (s : string) : string :=
  match s with
  | EmptyString => EmptyString
  | String c rest =>
      if is_alpha c
      then String (if in_word then toLowerCase_char c else toUpperCase_char c)
                  (title_case true rest)
      else String c (title_case false rest)
  end.

Definition normalizeUnicodePropertyName (name : string) : string :=
  title_case false (camel_split Outside (collapse_separators false (trim name))).

(** ** Tokens

    The tokenizer is a collaborator of the parser; a token carries the
    properties the parser reads. *)

Module TokenGroupKinds.
Inductive t := absent_repeater | atomic | capturing | group | lookahead | lookbehind.
End TokenGroupKinds.
Abbreviation TokenGroupKind := TokenGroupKinds.t.

Inductive Token : Type :=
| AlternatorToken
| AssertionToken (kind : string)
| BackreferenceToken (raw : string)
| CharacterToken (value : Z)
| CharacterClassCloseToken
| CharacterClassHyphenToken
| CharacterClassIntersectorToken
| CharacterClassOpenToken (negate : bool)
| CharacterSetToken (kind : NodeCharacterSetKind) (negate : bool) (value : option string)
| DirectiveToken (kind : NodeDirectiveKind) (flags : option FlagGroupModifiers)
| GroupCloseToken
| GroupOpenToken (kind : TokenGroupKind) (flags : option FlagGroupModifiers)
    (name : option string) (negate : bool) (number : Z)
| QuantifierToken (min max : number) (kind : NodeQuantifierKind)
| SubroutineToken (raw : string).

Record TokenizerOptions := {
  tk_flags : string;
  tk_captureGroup : bool;
  tk_singleline : bool;
}.

(** What [tokenize] returns. *)
Record Tokenized := {
  tokenized_tokens : list Token;
  tokenized_flags : RegexFlags;
}.

(** ** Parser state *)

(** [ParserOptions], with the defaults of [parse] filled in by
    [defaultOptions]. *)
Record ParserOptions := {
  opt_flags : string;
  opt_normalizeUnknownPropertyNames : bool;
  opt_captureGroup : bool;
  opt_singleline : bool;
  opt_skipBackrefValidation : bool;
  opt_skipLookbehindValidation : bool;
  opt_skipPropertyNameValidation : bool;
  opt_unicodePropertyMap : option (gmap string string);
}.

Definition defaultOptions : ParserOptions := {|
  opt_flags := "";
  opt_normalizeUnknownPropertyNames := false;
  opt_captureGroup := false;
  opt_singleline := false;
  opt_skipBackrefValidation := false;
  opt_skipLookbehindValidation := false;
  opt_skipPropertyNameValidation := false;
  opt_unicodePropertyMap := None;
|}.

(** The options [{...opts, skipLookbehindValidation: b}]. *)
Definition with_skipLookbehindValidation (opts : ParserOptions) (b : bool)
  : ParserOptions := {|
  opt_flags := opt_flags opts;
  opt_normalizeUnknownPropertyNames := opt_normalizeUnknownPropertyNames opts;
  opt_captureGroup := opt_captureGroup opts;
  opt_singleline := opt_singleline opts;
  opt_skipBackrefValidation := opt_skipBackrefValidation opts;
  opt_skipLookbehindValidation := b;
  opt_skipPropertyNameValidation := opt_skipPropertyNameValidation opts;
  opt_unicodePropertyMap := opt_unicodePropertyMap opts;
|}.

(** [Context]: the data shared by the parser functions.  [parent] and
    [token] are arguments of the functions here, and [walk] is the function
    itself.  [capturingGroups] and the lists of [namedGroupsByName] hold
    the group nodes as they are when the group opens; the parser reads only
    their number. *)
Record Context := {
  capturingGroups : list Node;
  current : nat;
  hasNumberedRef : bool;
  namedGroupsByName : gmap string (list Node);
  normalizeUnknownPropertyNames : bool;
  skipBackrefValidation : bool;
  skipLookbehindValidation : bool;
  skipPropertyNameValidation : bool;
  subroutines : list Node;
  tokens : list Token;
  unicodePropertyMap : option (gmap string string);
}.

Definition set_current (ctx : Context) (c : nat) : Context := {|
  capturingGroups := capturingGroups ctx;
  current := c;
  hasNumberedRef := hasNumberedRef ctx;
  namedGroupsByName := namedGroupsByName ctx;
  normalizeUnknownPropertyNames := normalizeUnknownPropertyNames ctx;
  skipBackrefValidation := skipBackrefValidation ctx;
  skipLookbehindValidation := skipLookbehindValidation ctx;
  skipPropertyNameValidation := skipPropertyNameValidation ctx;
  subroutines := subroutines ctx;
  tokens := tokens ctx;
  unicodePropertyMap := unicodePropertyMap ctx;
|}.

Definition set_hasNumberedRef (ctx : Context) (b : bool) : Context := {|
  capturingGroups := capturingGroups ctx;
  current := current ctx;
  hasNumberedRef := b;
  namedGroupsByName := namedGroupsByName ctx;
  normalizeUnknownPropertyNames := normalizeUnknownPropertyNames ctx;
  skipBackrefValidation := skipBackrefValidation ctx;
  skipLookbehindValidation := skipLookbehindValidation ctx;
  skipPropertyNameValidation := skipPropertyNameValidation ctx;
  subroutines := subroutines ctx;
  tokens := tokens ctx;
  unicodePropertyMap := unicodePropertyMap ctx;
|}.

Definition push_subroutine (ctx : Context) (node : Node) : Context := {|
  capturingGroups := capturingGroups ctx;
  current := current ctx;
  hasNumberedRef := hasNumberedRef ctx;
  namedGroupsByName := namedGroupsByName ctx;
  normalizeUnknownPropertyNames := normalizeUnknownPropertyNames ctx;
  skipBackrefValidation := skipBackrefValidation ctx;
  skipLookbehindValidation := skipLookbehindValidation ctx;
  skipPropertyNameValidation := skipPropertyNameValidation ctx;
  subroutines := subroutines ctx ++ [node];
  tokens := tokens ctx;
  unicodePropertyMap := unicodePropertyMap ctx;
|}.

(** [capturingGroups.push(node)], and
    [getOrInsert(namedGroupsByName, node.name, []).push(node)] when the
    group has a (non-empty) name. *)
Definition push_capturingGroup (ctx : Context) (node : Node) (name : option string)
  : Context := {|
  capturingGroups := capturingGroups ctx ++ [node];
  current := current ctx;
  hasNumberedRef := hasNumberedRef ctx;
  namedGroupsByName :=
    match name with
    | Some (String c rest as nm) =>
        <[nm := default [] (namedGroupsByName ctx !! nm) ++ [node]]> (namedGroupsByName ctx)
    | _ => namedGroupsByName ctx
    end;
  normalizeUnknownPropertyNames := normalizeUnknownPropertyNames ctx;
  skipBackrefValidation := skipBackrefValidation ctx;
  skipLookbehindValidation := skipLookbehindValidation ctx;
  skipPropertyNameValidation := skipPropertyNameValidation ctx;
  subroutines := subroutines ctx;
  tokens := tokens ctx;
  unicodePropertyMap := unicodePropertyMap ctx;
|}.

(** [State]: an absent property reads as [false]. *)
Record State := {
  isCheckingRangeEnd : bool;
  isInAbsentFunction : bool;
  isInLookbehind : bool;
  isInNegLookbehind : bool;
}.

Definition emptyState : State := {|
  isCheckingRangeEnd := false;
  isInAbsentFunction := false;
  isInLookbehind := false;
  isInNegLookbehind := false;
|}.

(** ** Node accessors *)

Definition elements_of (n : Node) : option (list Node) :=
  match n with
  | Alternative els | CharacterClass _ _ els => Some els
  | _ => None
  end.

Definition alternatives_of (n : Node) : option (list Node) :=
  match n with
  | AbsentFunction _ alts | CapturingGroup _ _ alts | Group _ _ alts
  | LookaroundAssertion _ _ alts | Pattern alts => Some alts
  | _ => None
  end.

(** [node.alternatives = alts]. *)
Definition set_alternatives (n : Node) (alts : list Node) : Node :=
  match n with
  | AbsentFunction k _ => AbsentFunction k alts
  | CapturingGroup num nm _ => CapturingGroup num nm alts
  | Group a f _ => Group a f alts
  | LookaroundAssertion k neg _ => LookaroundAssertion k neg alts
  | Pattern _ => Pattern alts
  | _ => n
  end.

(** [node.elements = els]. *)
Definition set_elements (n : Node) (els : list Node) : Node :=
  match n with
  | Alternative _ => Alternative els
  | CharacterClass k neg _ => CharacterClass k neg els
  | _ => n
  end.

Definition isLookahead (node : Node) : bool :=
  match node with
  | LookaroundAssertion lookahead _ _ => true
  | _ => false
  end.

Definition isLookbehind (node : Node) : bool :=
  match node with
  | LookaroundAssertion lookbehind _ _ => true
  | _ => false
  end.

(** [node.negate], read as a condition. *)
Definition negate_of (node : Node) : bool :=
  match node with
  | Assertion _ neg | CharacterSet _ _ neg _ => default false neg
  | CharacterClass _ neg _ | LookaroundAssertion _ neg _ => neg
  | _ => false
  end.

(** ** Node factories

    The messages are those of the source, without the lexeme some of them
    quote. *)

Definition createAlternative : Node := Alternative [].

(** The one kind the type has is the one kind the source accepts. *)
Definition createAbsentFunction (kind : NodeAbsentFunctionKind) : Node :=
  AbsentFunction kind [createAlternative].

Definition createAssertion (kind : NodeAssertionKind) (negate : bool) : Node :=
  match kind with
  | word_boundary | grapheme_boundary => Assertion kind (Some negate)
  | _ => Assertion kind None
  end.

Definition createAssertionFromToken (kind : string) : result Node :=
  let negate := bool_decide (kind = "\B") || bool_decide (kind = "\Y") in
  if bool_decide (kind = "^") then Ok (createAssertion line_start negate)
  else if bool_decide (kind = "$") then Ok (createAssertion line_end negate)
  else if bool_decide (kind = "\A") then Ok (createAssertion string_start negate)
  else if bool_decide (kind = "\b") then Ok (createAssertion word_boundary negate)
  else if bool_decide (kind = "\B") then Ok (createAssertion word_boundary negate)
  else if bool_decide (kind = "\G") then Ok (createAssertion search_start negate)
  else if bool_decide (kind = "\y") then Ok (createAssertion grapheme_boundary negate)
  else if bool_decide (kind = "\Y") then Ok (createAssertion grapheme_boundary negate)
  else if bool_decide (kind = "\z") then Ok (createAssertion string_end negate)
  else if bool_decide (kind = "\Z") then Ok (createAssertion string_end_newline negate)
  else Throw "Unexpected assertion kind".

Definition createBackreference (ref : Ref) (orphan : bool) : Node :=
  Backreference ref orphan.

Definition createCharacter (charCode : Z) (useLastValid : bool) : result Node :=
  if 0x10FFFF <? charCode then
    if useLastValid then Ok (Character 0x10FFFF)
    else if 0x13FFFF <? charCode then Throw "Invalid code point out of range"
    else Throw "Invalid code point out of range in JS"
  else Ok (Character charCode).

Definition createCharacterClass (kind : NodeCharacterClassKind) (negate : bool) : Node :=
  CharacterClass kind negate [].

(** [node.value] of a [Character]; the range factory reads it on both ends. *)
Definition value_of (n : Node) : option Z :=
  match n with
  | Character v => Some v
  | _ => None
  end.

Definition createCharacterClassRange (min max : Node) : result Node :=
  match value_of min, value_of max with
  | Some lo, Some hi =>
      if hi <? lo then Throw "Character class range out of order"
      else Ok (CharacterClassRange min max)
  | _, _ => Ok (CharacterClassRange min max)
  end.

Definition createCharacterSet (kind : NodeCharacterSetKind) (negate : bool) : Node :=
  let neg :=
    match kind with
    | NodeCharacterSetKinds.digit | NodeCharacterSetKinds.hex
    | NodeCharacterSetKinds.newline | NodeCharacterSetKinds.space
    | NodeCharacterSetKinds.word => Some negate
    | _ => None
    end in
  let variableLength :=
    match kind with
    | NodeCharacterSetKinds.grapheme => true
    | NodeCharacterSetKinds.newline => negb negate
    | _ => false
    end in
  CharacterSet kind None neg variableLength.

Definition createDirective (kind : NodeDirectiveKind) (flags : option FlagGroupModifiers)
  : result Node :=
  match kind with
  | NodeDirectiveKinds.keep => Ok (Directive kind None)
  | NodeDirectiveKinds.flags =>
      match flags with
      | Some f => Ok (Directive kind (Some f))
      | None => Throw "Value expected"
      end
  end.

Definition createFlags (fl : RegexFlags) : Node := Flags fl.

Definition createGroup (atomic : bool) (flags : option FlagGroupModifiers) : Node :=
  Group atomic flags [createAlternative].

Definition createLookaroundAssertion (behind negate : bool) : Node :=
  LookaroundAssertion (if behind then lookbehind else lookahead) negate [createAlternative].

Definition createPattern : Node := Pattern [createAlternative].

Definition createQuantifier (element : Node) (min max : number) (kind : NodeQuantifierKind)
  : Node :=
  let node := Quantifier kind min max element in
  if num_lt max min then Quantifier possessive max min element else node.

Definition createRegex (pattern flags : Node) : Node := Regex pattern flags.

Definition createSubroutine (ref : Ref) : Node := Subroutine ref.

(** [array.at(-1)] and the write through the reference it returns. *)
Definition at_last {A : Type} (l : list A) : option A := last l.

Definition set_last {A : Type} (l : list A) (x : A) : list A :=
  match l with
  | [] => []
  | _ => removelast l ++ [x]
  end.

(** ** The parser *)

(** The type of [walk]: from the context, the [elements] of the parent and
    the state to the node, the [elements] of the parent (a quantifier or a
    range pops its left operand off them) and the context. *)
Definition Walk : Type :=
  Context -> list Node -> State -> result (Node * list Node * Context).

Definition lookbehindMsg : string :=
  "Lookbehind includes a pattern not allowed by Oniguruma".

Section Parser.

(** [PosixClassNames] of utils, the test of [isValidGroupName] (a Unicode
    property pattern) and the tokenizer are collaborators of the
    parser. *)
Variable PosixClassNames : gset string.
Variable isValidGroupName : string -> bool.
Variable tokenize : string -> TokenizerOptions -> string + Tokenized.

Definition createCapturingGroup (number : Z) (name : option string) : result Node :=
  match name with
  | Some nm =>
      if isValidGroupName nm
      then Ok (CapturingGroup number name [createAlternative])
      else Throw "Group name invalid in Oniguruma"
  | None => Ok (CapturingGroup number None [createAlternative])
  end.

Definition createPosixClass (name : option string) (negate : bool) : result Node :=
  match name with
  | Some nm =>
      if bool_decide (nm ∈ PosixClassNames)
      then Ok (CharacterSet NodeCharacterSetKinds.posix (Some nm) (Some negate) false)
      else Throw "Invalid POSIX class"
  | None => Throw "Invalid POSIX class"
  end.

(** A name the map sends to the empty string counts as unknown (the
    source tests [!normalized]) and still wins over [name] in
    [normalized ?? name]. *)
Definition createUnicodeProperty (name : string) (negate : bool)
    (normalizeUnknown skipValidation : bool) (map : option (gmap string string))
  : result Node :=
  let normalized := map ≫= (fun m => m !! slug name) in
  let known := match normalized with Some (String _ _) => true | _ => false end in
  normalized ←
    (if known then Ok normalized
     else if normalizeUnknown then Ok (Some (normalizeUnicodePropertyName name))
     else if bool_decide (is_Some map) && negb skipValidation
          then Throw "Invalid Unicode property"
          else Ok normalized);
  Ok (CharacterSet NodeCharacterSetKinds.property (Some (default name normalized))
        (Some negate) false).

Definition createByGroupKind (kind : TokenGroupKind) (flags : option FlagGroupModifiers)
    (name : option string) (negate : bool) (number : Z) : result Node :=
  match kind with
  | TokenGroupKinds.absent_repeater => Ok (createAbsentFunction repeater)
  | TokenGroupKinds.atomic => Ok (createGroup true None)
  | TokenGroupKinds.capturing => createCapturingGroup number name
  | TokenGroupKinds.group => Ok (createGroup false flags)
  | TokenGroupKinds.lookahead => Ok (createLookaroundAssertion false negate)
  | TokenGroupKinds.lookbehind => Ok (createLookaroundAssertion true negate)
  end.

Definition parseBackreference (ctx : Context) (raw : string) : result (Node * Context) :=
  let ref := if hasKWrapper raw then slice_3_m1 raw else slice_1 raw in
  let fromNum (num : number) (isRelative : bool) : result (Node * Context) :=
    let numCapturesToLeft := Int (Z.of_nat (length (capturingGroups ctx))) in
    orphan ←
      (if num_gt num numCapturesToLeft
       then (if skipBackrefValidation ctx then Ok true
             else Throw "Not enough capturing groups defined to the left")
       else Ok false);
    Ok (createBackreference
          (RefNum (if isRelative
                   then num_sub (num_add numCapturesToLeft (Int 1)) num
                   else num))
          orphan,
        set_hasNumberedRef ctx true) in
  if hasKWrapper raw then
    match backref_numberedRef ref with
    | Some (sign, num) => fromNum (Int num) sign
    | None =>
        if has_sign ref then Throw "Invalid backref name"
        else if bool_decide (is_Some (namedGroupsByName ctx !! ref))
        then Ok (createBackreference (RefName ref) false, ctx)
        else Throw "Group name not defined to the left"
    end
  else fromNum (Number ref) false.

Definition parseCharacterSet (ctx : Context) (kind : NodeCharacterSetKind)
    (negate : bool) (value : option string) : result Node :=
  match kind with
  | NodeCharacterSetKinds.property =>
      match value with
      | None => Throw TypeError
      | Some v =>
          let normalized := slug v in
          if bool_decide (normalized ∈ PosixClassNames)
             && negb (match unicodePropertyMap ctx with
                      | Some m => bool_decide (is_Some (m !! normalized))
                      | None => false
                      end)
          then createPosixClass (Some normalized) negate
          else createUnicodeProperty v negate (normalizeUnknownPropertyNames ctx)
                 (skipPropertyNameValidation ctx) (unicodePropertyMap ctx)
      end
  | NodeCharacterSetKinds.posix => createPosixClass value negate
  | _ => Ok (createCharacterSet kind negate)
  end.

(** The element that a quantifier cannot repeat. *)
Definition notQuantifiable (n : Node) : bool :=
  match n with
  | Assertion _ _ | Directive _ _ | LookaroundAssertion _ _ _ => true
  | _ => false
  end.

Definition parseQuantifier (parent : list Node) (min max : number)
    (kind : NodeQuantifierKind) : result (Node * list Node) :=
  match at_last parent with
  | None => Throw "Quantifier requires a repeatable token"
  | Some quantifiedNode =>
      if notQuantifiable quantifiedNode
      then Throw "Quantifier requires a repeatable token"
      else
        let node := createQuantifier quantifiedNode min max kind in
        Ok (node, removelast parent)
  end.

Definition parseSubroutine (ctx : Context) (raw : string) : result (Node * Context) :=
  let ref := slice_3_m1 raw in
  '(ref, ctx) ←
    match subroutine_numberedRef ref with
    | Some (sign, num) =>
        let numCapturesToLeft := Z.of_nat (length (capturingGroups ctx)) in
        let ctx := set_hasNumberedRef ctx true in
        let r :=
          if bool_decide (sign = "") then num
          else if bool_decide (sign = "+") then numCapturesToLeft + num
          else numCapturesToLeft + 1 - num in
        if r <? 1 then Throw "Invalid subroutine number"
        else Ok (RefNum (Int r), ctx)
    | None =>
        if bool_decide (ref = "0") then Ok (RefNum (Int 0), ctx)
        else Ok (RefName ref, ctx)
    end;
  let node := createSubroutine ref in
  Ok (node, push_subroutine ctx node).

Definition with_isCheckingRangeEnd (state : State) : State := {|
  isCheckingRangeEnd := true;
  isInAbsentFunction := isInAbsentFunction state;
  isInLookbehind := isInLookbehind state;
  isInNegLookbehind := isInNegLookbehind state;
|}.

(** The types of token that keep a hyphen literal when they follow it. *)
Definition isClassBoundaryToken (token : Token) : bool :=
  match token with
  | CharacterClassOpenToken _ | CharacterClassCloseToken
  | CharacterClassIntersectorToken => true
  | _ => false
  end.

Definition hasType (ty : NodeType) (node : Node) : bool :=
  bool_decide (type_of node = Some ty).

Definition parseCharacterClassHyphen (walk : Walk) (ctx : Context) (parent : list Node)
    (state : State) : result (Node * list Node * Context) :=
  let prevSiblingNode := at_last parent in
  let nextToken := tokens ctx !! current ctx in
  let literal := n ← createCharacter 45 false; Ok (n, parent, ctx) in
  match prevSiblingNode, nextToken with
  | Some prev, Some next =>
      if negb (isCheckingRangeEnd state)
         && negb (hasType TCharacterClass prev)
         && negb (hasType TCharacterClassRange prev)
         && negb (isClassBoundaryToken next)
      then
        '(nextNode, parent, ctx) ← walk ctx parent (with_isCheckingRangeEnd state);
        if hasType TCharacter prev && hasType TCharacter nextNode
        then
          range ← createCharacterClassRange prev nextNode;
          Ok (range, removelast parent, ctx)
        else Throw "Invalid character class range"
      else literal
  | _, _ => literal
  end.

(** The message of [throwIfUnclosedCharacterClass]. *)
Definition unclosedCharacterClassMsg (firstClassToken : option Token) : string :=
  match firstClassToken with
  | Some (CharacterToken 93) => "Empty character class"
  | _ => "Unclosed character class"
  end.

(** The [while] loop of [parseCharacterClassOpen], entered at the test of
    [nextToken]. *)
Fixpoint parseCharacterClassOpen_loop (walk : Walk) (fuel : nat) (ctx : Context)
    (firstClassToken : option Token) (intersections : list Node) (state : State)
  : result (list Node * Context) :=
  match fuel with
  | O => OutOfFuel
  | S fuel =>
      match tokens ctx !! current ctx with
      | None => Throw (unclosedCharacterClassMsg firstClassToken)
      | Some CharacterClassCloseToken => Ok (intersections, ctx)
      | Some CharacterClassIntersectorToken =>
          parseCharacterClassOpen_loop walk fuel (set_current ctx (S (current ctx)))
            firstClassToken
            (intersections ++ [createCharacterClass NodeCharacterClassKinds.union false])
            state
      | Some _ =>
          match at_last intersections with
          | Some cc =>
              match elements_of cc with
              | Some els =>
                  '(node, els, ctx) ← walk ctx els state;
                  parseCharacterClassOpen_loop walk fuel ctx firstClassToken
                    (set_last intersections (set_elements cc (els ++ [node]))) state
              | None => Throw TypeError
              end
          | None => Throw TypeError
          end
      end
  end.

Definition parseCharacterClassOpen (walk : Walk) (fuel : nat) (ctx : Context)
    (negate : bool) (state : State) : result (Node * Context) :=
  let firstClassToken := tokens ctx !! current ctx in
  let intersections := [createCharacterClass NodeCharacterClassKinds.union false] in
  '(intersections, ctx) ←
    parseCharacterClassOpen_loop walk fuel ctx firstClassToken intersections state;
  let node :=
    match intersections with
    | [cc] => CharacterClass NodeCharacterClassKinds.union negate
                (default [] (elements_of cc))
    | _ => CharacterClass NodeCharacterClassKinds.intersection negate
             (map (fun cc => match elements_of cc with
                             | Some [el] => el
                             | _ => cc
                             end) intersections)
    end in
  Ok (node, set_current ctx (S (current ctx))).

(** The state a group hands to its children. *)
Definition childState (state : State)
    (isThisAbsentFunction isThisLookbehind isThisNegLookbehind : bool) : State := {|
  isCheckingRangeEnd := isCheckingRangeEnd state;
  isInAbsentFunction := isInAbsentFunction state || isThisAbsentFunction;
  isInLookbehind := isInLookbehind state || isThisLookbehind;
  isInNegLookbehind := isInNegLookbehind state || isThisNegLookbehind;
|}.

(** The centralized validation of lookbehind contents: [true] when the
    child just pushed makes [parseGroupOpen] throw. *)
Definition lookbehindViolation (skipLookbehindValidation : bool) (state : State)
    (isThisLookbehind isThisNegLookbehind : bool) (child : Node) : bool :=
  if (isThisLookbehind || isInLookbehind state) && negb skipLookbehindValidation then
    if isThisNegLookbehind || isInNegLookbehind state
    then isLookahead child || bool_decide (type_of child = Some TCapturingGroup)
    else isLookahead child || (isLookbehind child && negate_of child)
  else false.

(** The [while] loop of [parseGroupOpen], entered at the test of
    [nextToken]. *)
Fixpoint parseGroupOpen_loop (walk : Walk) (fuel : nat) (ctx : Context) (node : Node)
    (state : State) (isThisAbsentFunction isThisLookbehind isThisNegLookbehind : bool)
  : result (Node * Context) :=
  match fuel with
  | O => OutOfFuel
  | S fuel =>
      match tokens ctx !! current ctx with
      | None => Throw "Unclosed group"
      | Some GroupCloseToken => Ok (node, ctx)
      | Some AlternatorToken =>
          parseGroupOpen_loop walk fuel (set_current ctx (S (current ctx)))
            (set_alternatives node
               (default [] (alternatives_of node) ++ [createAlternative]))
            state isThisAbsentFunction isThisLookbehind isThisNegLookbehind
      | Some _ =>
          match alternatives_of node ≫= at_last with
          | Some alt =>
              match elements_of alt with
              | Some els =>
                  '(child, els, ctx) ←
                    walk ctx els
                      (childState state isThisAbsentFunction isThisLookbehind
                         isThisNegLookbehind);
                  let node :=
                    set_alternatives node
                      (set_last (default [] (alternatives_of node))
                         (set_elements alt (els ++ [child]))) in
                  if lookbehindViolation (skipLookbehindValidation ctx) state
                       isThisLookbehind isThisNegLookbehind child
                  then Throw lookbehindMsg
                  else parseGroupOpen_loop walk fuel ctx node state
                         isThisAbsentFunction isThisLookbehind isThisNegLookbehind
              | None => Throw TypeError
              end
          | None => Throw TypeError
          end
      end
  end.

Definition parseGroupOpen (walk : Walk) (fuel : nat) (ctx : Context)
    (kind : TokenGroupKind) (flags : option FlagGroupModifiers) (name : option string)
    (negate : bool) (number : Z) (state : State) : result (Node * Context) :=
  node ← createByGroupKind kind flags name negate number;
  let isThisAbsentFunction := bool_decide (type_of node = Some TAbsentFunction) in
  let isThisLookbehind := isLookbehind node in
  let isThisNegLookbehind := isThisLookbehind && negate_of node in
  let ctx :=
    match node with
    | CapturingGroup _ nm _ => push_capturingGroup ctx node nm
    | _ => ctx
    end in
  if isThisAbsentFunction && isInAbsentFunction state
  then Throw "Nested absent function not supported by Oniguruma"
  else
    '(node, ctx) ←
      parseGroupOpen_loop walk fuel ctx node state
        isThisAbsentFunction isThisLookbehind isThisNegLookbehind;
    Ok (node, set_current ctx (S (current ctx))).

Fixpoint walk (fuel : nat) : Walk := fun ctx parent state =>
  match fuel with
  | O => OutOfFuel
  | S fuel =>
      match tokens ctx !! current ctx with
      | None => Throw TypeError
      | Some token =>
          let ctx := set_current ctx (S (current ctx)) in
          match token with
          | AlternatorToken => Ok (createAlternative, parent, ctx)
          | AssertionToken kind =>
              node ← createAssertionFromToken kind; Ok (node, parent, ctx)
          | BackreferenceToken raw =>
              '(node, ctx) ← parseBackreference ctx raw; Ok (node, parent, ctx)
          | CharacterToken value =>
              node ← createCharacter value (isCheckingRangeEnd state);
              Ok (node, parent, ctx)
          | CharacterClassHyphenToken =>
              parseCharacterClassHyphen (walk fuel) ctx parent state
          | CharacterClassOpenToken negate =>
              '(node, ctx) ← parseCharacterClassOpen (walk fuel) fuel ctx negate state;
              Ok (node, parent, ctx)
          | CharacterSetToken kind negate value =>
              node ← parseCharacterSet ctx kind negate value; Ok (node, parent, ctx)
          | DirectiveToken kind flags =>
              node ← createDirective kind flags; Ok (node, parent, ctx)
          | GroupOpenToken kind flags name negate number =>
              '(node, ctx) ←
                parseGroupOpen (walk fuel) fuel ctx kind flags name negate number state;
              Ok (node, parent, ctx)
          | QuantifierToken min max kind =>
              '(node, parent) ← parseQuantifier parent min max kind;
              Ok (node, parent, ctx)
          | SubroutineToken raw =>
              '(node, ctx) ← parseSubroutine ctx raw; Ok (node, parent, ctx)
          | CharacterClassCloseToken | CharacterClassIntersectorToken
          | GroupCloseToken => Throw "Unexpected token type"
          end
      end
  end.

(** The [while] loop of [parse] over the top-level tokens.  [top] is the
    alternative pushed last onto [ast.pattern.alternatives] (the first
    one before any push), so it is read as the last of the array. *)
Fixpoint parse_loop (walk : Walk) (fuel : nat) (ctx : Context) (alternatives : list Node)
  : result (list Node * Context) :=
  match fuel with
  | O => OutOfFuel
  | S fuel =>
      if (current ctx <? length (tokens ctx))%nat then
        match at_last alternatives with
        | Some top =>
            match elements_of top with
            | Some els =>
                '(node, els, ctx) ← walk ctx els emptyState;
                if bool_decide (type_of node = Some TAlternative)
                then parse_loop walk fuel ctx
                       (set_last alternatives (set_elements top els) ++ [node])
                else parse_loop walk fuel ctx
                       (set_last alternatives (set_elements top (els ++ [node])))
            | None => Throw TypeError
            end
        | None => Throw TypeError
        end
      else Ok (alternatives, ctx)
  end.

(** The body of the loop over [subroutines] at the end of [parse]. *)
Definition validateSubroutine (ctx : Context) (sub : Node) : result unit :=
  match sub with
  | Subroutine (RefNum ref) =>
      if num_gt ref (Int (Z.of_nat (length (capturingGroups ctx))))
      then Throw "Subroutine uses a group number that's not defined"
      else Ok tt
  | Subroutine (RefName ref) =>
      match namedGroupsByName ctx !! ref with
      | None => Throw "Subroutine uses a group name that's not defined"
      | Some groups =>
          if (1 <? length groups)%nat
          then Throw "Subroutine uses a duplicate group name"
          else Ok tt
      end
  | _ => Throw TypeError
  end.

Fixpoint validateSubroutines (ctx : Context) (subs : list Node) : result unit :=
  match subs with
  | [] => Ok tt
  | sub :: rest => _ ← validateSubroutine ctx sub; validateSubroutines ctx rest
  end.

Definition initialContext (opts : ParserOptions) (toks : list Token) : Context := {|
  capturingGroups := [];
  current := 0;
  hasNumberedRef := false;
  namedGroupsByName := ∅;
  normalizeUnknownPropertyNames := opt_normalizeUnknownPropertyNames opts;
  skipBackrefValidation := opt_skipBackrefValidation opts;
  skipLookbehindValidation := opt_skipLookbehindValidation opts;
  skipPropertyNameValidation := opt_skipPropertyNameValidation opts;
  subroutines := [];
  tokens := toks;
  unicodePropertyMap := opt_unicodePropertyMap opts;
|}.

(** The fuel [parse] runs on: every call of [walk] and every turn of a
    loop reads a token that no earlier one has read, or ends the loop. *)
Definition parseFuel (toks : list Token) : nat := S (length toks).

(** [parse] from the token stream on. *)
Definition parseTokens (tokenized : Tokenized) (opts : ParserOptions) : result Node :=
  let toks := tokenized_tokens tokenized in
  let fuel := parseFuel toks in
  let context := initialContext opts toks in
  '(alternatives, context) ←
    parse_loop (walk fuel) fuel context
      (default [] (alternatives_of createPattern));
  let ast := createRegex (Pattern alternatives) (createFlags (tokenized_flags tokenized)) in
  if hasNumberedRef context
     && negb (bool_decide (size (namedGroupsByName context) = 0%nat))
     && negb (opt_captureGroup opts)
  then Throw "Numbered backref/subroutine not allowed when using named capture"
  else
    _ ← validateSubroutines context (subroutines context);
    Ok ast.

Definition parse (pattern : string) (opts : ParserOptions) : result Node :=
  match tokenize pattern {| tk_flags := opt_flags opts;
                            tk_captureGroup := opt_captureGroup opts;
                            tk_singleline := opt_singleline opts |} with
  | inl msg => Throw msg
  | inr tokenized => parseTokens tokenized opts
  end.

End Parser.

(** ** The traverser

    [traverse] walks the tree and mutates it in place; here a walk returns
    the tree it leaves.  The model is of the callbacks that act on the tree
    through the operations of their path: a [Callback] is the list of the
    operations it calls.  A callback that assigns to a property of a node
    (the callbacks of [useShorthands] and of [alternationToClass] on the
    nodes with children do) is no [Callback]; what such a callback leaves
    of its node is a function on the node, further down, and not part of a
    walk.

    A node handed to [replaceWith] takes the place by value: it is a new
    node, or a part of the replaced one, and in no other place of the
    tree.  The path keeps the replaced object as its [node]; [view] shows
    that object as it was when the call of [traverseNode] began.  The code
    shows it so too until the walk has been below the new node, and
    afterwards unless the new node is a part of the replaced one.  No
    statement below reads a path after both a [replaceWith] and the walk
    of the children. *)

(** [path.key]: an index in an array container, the name of a slot, or
    [null] at the root. *)
Inductive Key :=
| KeyIndex (i : nat)
| KeyName (name : string)
| KeyNull.

(** What a callback reads from its path.  [traverse] hands the tree over
    as [ast]; [root] is the property the transforms read for it, which the
    paths of this [traverse] do not have. *)
Record Path := {
  path_node : Node;
  path_parent : option Node;
  path_key : Key;
  path_container : option (list Node);
  path_ast : Node;
  path_root : option Node;
}.

(** The operations of a path.  [replaceWithMultiple] is not among the
    operations of this traverser; its meaning, [applyReplaceWithMultiple]
    below, is modelled from the specification.  [raise msg] is not an
    operation: it is the callback throwing. *)
Inductive Action :=
| remove
| removeAllNextSiblings
| removeAllPrevSiblings
| replaceWith (newNode : Node)
| replaceWithMultiple (newNodes : list Node) (traverseNew : bool)
| skip
| raise (msg : string).

(** The slots of the nodes with single children. *)
Definition get_slot (parent : Node) (key : string) : option Node :=
  match parent with
  | Regex pattern flags =>
      if bool_decide (key = "pattern") then Some pattern
      else if bool_decide (key = "flags") then Some flags else None
  | CharacterClassRange min max =>
      if bool_decide (key = "min") then Some min
      else if bool_decide (key = "max") then Some max else None
  | Quantifier _ _ _ element =>
      if bool_decide (key = "element") then Some element else None
  | _ => None
  end.

(** [parent[key] = v] on these slots. *)
Definition set_slot (parent : Node) (key : string) (v : Node) : Node :=
  match parent with
  | Regex pattern flags =>
      if bool_decide (key = "pattern") then Regex v flags
      else if bool_decide (key = "flags") then Regex pattern v else parent
  | CharacterClassRange min max =>
      if bool_decide (key = "min") then CharacterClassRange v max
      else if bool_decide (key = "max") then CharacterClassRange min v else parent
  | Quantifier kind min max element =>
      if bool_decide (key = "element") then Quantifier kind min max v else parent
  | _ => parent
  end.

(** The array a node walks as its children, and the node with that array
    as it is after the walk. *)
Definition array_of (n : Node) : option (list Node) :=
  match elements_of n with
  | Some els => Some els
  | None => alternatives_of n
  end.

Definition set_array (n : Node) (array : list Node) : Node :=
  match elements_of n with
  | Some _ => set_elements n array
  | None => set_alternatives n array
  end.

(** Where a node sits: at the root, in a slot of its parent, or at an
    index of an array of its parent.  [parent] and [container] are the
    objects with their current contents; [up] gives the root back from the
    current parent. *)
Inductive Loc :=
| AtRoot
| InSlot (up : Node -> Node) (parent : Node) (key : string)
| InArray (up : Node -> Node) (parent : Node) (key : nat) (container : list Node).

(** The variables of one call of [traverseNode]: [node], [keyShift],
    [skipTraversingKidsOfPath], and whether [replaceWith] has run (then
    [path.node] is no longer [node]). *)
Record Frame := {
  fr_node : Node;
  fr_keyShift : Z;
  fr_skip : bool;
  fr_replaced : bool;
  fr_loc : Loc;
}.

(** [Math.max(0, key + keyShift)]. *)
Definition shiftedKey (key : nat) (keyShift : Z) : nat :=
  Z.to_nat (Z.max 0 (Z.of_nat key + keyShift)).

(** [container[i] = x]: an assignment at the length appends, one past it
    leaves holes. *)
Definition array_set (container : list Node) (i : nat) (x : Node) : list Node :=
  if (i <? length container)%nat then <[i := x]> container
  else container ++ replicate (i - length container) Undefined ++ [x].

(** [container.splice(i, 1, ...newNodes)]. *)
Definition splice_1 (container : list Node) (i : nat) (newNodes : list Node) : list Node :=
  take i container ++ newNodes ++ drop (S i) container.

Definition set_container (loc : Loc) (container : list Node) : Loc :=
  match loc with
  | InArray up parent key _ => InArray up parent key container
  | _ => loc
  end.

(** The path as a callback sees it.  [original] is the node the call of
    [traverseNode] received: [path.node] stays that object when
    [replaceWith] changes the variable [node].  The path has [ast] and no
    [root]. *)
Definition view (original : Node) (fr : Frame) : Path :=
  let node := if fr_replaced fr then original else fr_node fr in
  match fr_loc fr with
  | AtRoot =>
      {| path_node := node; path_parent := None; path_key := KeyNull;
         path_container := None; path_ast := node; path_root := None |}
  | InSlot up parent key =>
      {| path_node := node; path_parent := Some parent; path_key := KeyName key;
         path_container := None; path_ast := up parent; path_root := None |}
  | InArray up parent key container =>
      {| path_node := node; path_parent := Some (set_array parent container);
         path_key := KeyIndex key; path_container := Some container;
         path_ast := up (set_array parent container); path_root := None |}
  end.

(** The root seen from a child of the node of the frame, given the value
    of that node. *)
Definition up_from (fr : Frame) (nodeNow : Node) : Node :=
  match fr_loc fr with
  | AtRoot => nodeNow
  | InSlot up parent key => up (set_slot parent key nodeNow)
  | InArray up parent key container =>
      up (set_array parent (<[shiftedKey key (fr_keyShift fr) := nodeNow]> container))
  end.

(** The node of the frame written back to its place after the walk of its
    children changed it in place. *)
Definition write_back (fr : Frame) (nodeNow : Node) : Frame :=
  {| fr_node := nodeNow;
     fr_keyShift := fr_keyShift fr;
     fr_skip := fr_skip fr;
     fr_replaced := fr_replaced fr;
     fr_loc :=
       match fr_loc fr with
       | AtRoot => AtRoot
       | InSlot up parent key => InSlot up (set_slot parent key nodeNow) key
       | InArray up parent key container =>
           InArray up parent key
             (<[shiftedKey key (fr_keyShift fr) := nodeNow]> container)
       end |}.

Section Traverser.

(** The type of [state], the value every callback receives. *)
Context {St : Type}.

(** A callback: from the path and the state to the operations it calls
    on the path, in order, and the state it leaves.  It has no way to
    assign to a node. *)
Definition Callback : Type := Path -> St -> list Action * St.

(** An entry of a visitor; a plain function is an entry with [enter]
    alone. *)
Record VisitorNode := {
  enter : option Callback;
  exit : option Callback;
}.

(** [anyType] is [visitor['*']], [thisType ty] is [visitor[ty]]. *)
Record Visitor := {
  anyType : option VisitorNode;
  thisType : NodeType -> option VisitorNode;
}.

Definition TraverseNode : Type := Node -> Loc -> St -> result (Frame * St).

Definition container_of (loc : Loc) (fallback : list Node) : list Node :=
  match loc with
  | InArray _ _ _ container => container
  | _ => fallback
  end.

Definition parent_of (loc : Loc) (fallback : Node) : Node :=
  match loc with
  | InSlot _ parent _ => parent
  | _ => fallback
  end.

(** Modelled from the spec: the walk of the nodes that
    [replaceWithMultiple] inserted, which this traverser does not
    have.  Each inserted node is walked with the active visitor at
    the index it has, and the shifts of these walks add up in [acc]. *)
Fixpoint traverseInserted (traverseNode : TraverseNode) (newNodes : list Node)
    (up : Node -> Node) (parent : Node) (key : nat) (acc : Z) (container : list Node)
    (s : St) : result (Z * list Node * St) :=
  match newNodes with
  | [] => Ok (acc, container, s)
  | newNode :: rest =>
      '(fr, s) ← traverseNode newNode (InArray up parent (shiftedKey key acc) container) s;
      traverseInserted traverseNode rest up parent (S key) (acc + fr_keyShift fr)
        (container_of (fr_loc fr) container) s
  end.

(** Modelled from the spec: [replaceWithMultiple(newNodes, {traverse})],
    an operation the paths of this traverser do not have.  It replaces the
    node with the slice, shifts the cursor of the enclosing iteration past
    the inserted nodes, walks them first with the active visitor when
    [traverse] is set, and skips the children of the replaced node. *)
Definition applyReplaceWithMultiple (traverseNode : TraverseNode) (newNodes : list Node)
    (traverseNew : bool) (fr : Frame) (s : St) : result (Frame * St) :=
  let keyShift := fr_keyShift fr in
  match fr_loc fr with
  | InArray up parent key container =>
      let idx := shiftedKey key keyShift in
      let container := splice_1 container idx newNodes in
      let keyShift := keyShift + Z.of_nat (length newNodes) - 1 in
      '(acc, container, s) ←
        (if traverseNew
         then traverseInserted traverseNode newNodes up parent idx 0 container s
         else Ok (0, container, s));
      Ok ({| fr_node := fr_node fr;
             fr_keyShift := keyShift + acc;
             fr_skip := true;
             fr_replaced := fr_replaced fr;
             fr_loc := InArray up parent key container |}, s)
  | _ => Throw "Container expected"
  end.

(** One operation of the path, on the variables of the call. *)
Definition applyAction (traverseNode : TraverseNode) (a : Action) (fr : Frame) (s : St)
  : result (Frame * St) :=
  let keyShift := fr_keyShift fr in
  match a with
  | remove =>
      match fr_loc fr with
      | InArray up parent key container =>
          Ok ({| fr_node := fr_node fr;
                 fr_keyShift := keyShift - 1;
                 fr_skip := true;
                 fr_replaced := fr_replaced fr;
                 fr_loc := InArray up parent key
                             (delete (shiftedKey key keyShift) container) |}, s)
      | _ => Throw "Container expected"
      end
  | removeAllNextSiblings =>
      match fr_loc fr with
      | InArray up parent key container =>
          Ok ({| fr_node := fr_node fr;
                 fr_keyShift := keyShift;
                 fr_skip := fr_skip fr;
                 fr_replaced := fr_replaced fr;
                 fr_loc := InArray up parent key (take (S key) container) |}, s)
      | _ => Throw "Container expected"
      end
  | removeAllPrevSiblings =>
      match fr_loc fr with
      | InArray up parent key container =>
          let shifted := Z.of_nat key + keyShift in
          Ok ({| fr_node := fr_node fr;
                 fr_keyShift := keyShift - shifted;
                 fr_skip := fr_skip fr;
                 fr_replaced := fr_replaced fr;
                 fr_loc := InArray up parent key
                             (drop (Z.to_nat (Z.max 0 shifted)) container) |}, s)
      | _ => Throw "Container expected"
      end
  | replaceWith newNode =>
      loc ←
        match fr_loc fr with
        | InArray up parent key container =>
            Ok (InArray up parent key
                  (array_set container (shiftedKey key keyShift) newNode))
        | InSlot up parent key => Ok (InSlot up (set_slot parent key newNode) key)
        | AtRoot => Throw TypeError
        end;
      Ok ({| fr_node := newNode;
             fr_keyShift := keyShift;
             fr_skip := fr_skip fr;
             fr_replaced := true;
             fr_loc := loc |}, s)
  | replaceWithMultiple newNodes traverseNew =>
      applyReplaceWithMultiple traverseNode newNodes traverseNew fr s
  | skip =>
      Ok ({| fr_node := fr_node fr;
             fr_keyShift := keyShift;
             fr_skip := true;
             fr_replaced := fr_replaced fr;
             fr_loc := fr_loc fr |}, s)
  | raise msg => Throw msg
  end.

Fixpoint runActions (traverseNode : TraverseNode) (acts : list Action) (fr : Frame)
    (s : St) : result (Frame * St) :=
  match acts with
  | [] => Ok (fr, s)
  | a :: rest =>
      '(fr, s) ← applyAction traverseNode a fr s;
      runActions traverseNode rest fr s
  end.

(** [fn?.(path, state)]. *)
Definition invoke (traverseNode : TraverseNode) (fn : option Callback) (original : Node)
    (fr : Frame) (s : St) : result (Frame * St) :=
  match fn with
  | None => Ok (fr, s)
  | Some f =>
      let '(acts, s) := f (view original fr) s in
      runActions traverseNode acts fr s
  end.

(** The [for] loop of [traverseArray], entered at the test [i <
    array.length]. *)
Fixpoint traverseArray (traverseNode : TraverseNode) (fuel : nat) (i : nat)
    (array : list Node) (up : Node -> Node) (parent : Node) (s : St)
  : result (list Node * St) :=
  match fuel with
  | O => OutOfFuel
  | S fuel =>
      match array !! i with
      | None => Ok (array, s)
      | Some node =>
          '(fr, s) ← traverseNode node (InArray up parent i array) s;
          let keyShift := fr_keyShift fr in
          let i := Z.to_nat (Z.max (-1) (Z.of_nat i + keyShift) + 1) in
          traverseArray traverseNode fuel i (container_of (fr_loc fr) array) up parent s
      end
  end.

(** The walk of the child in the slot [key] of [parent]: the parent
    after the walk. *)
Definition traverseSlot (traverseNode : TraverseNode) (up : Node -> Node) (parent : Node)
    (key : string) (s : St) : result (Node * St) :=
  '(fr, s) ← traverseNode (default Undefined (get_slot parent key)) (InSlot up parent key) s;
  Ok (parent_of (fr_loc fr) parent, s).

(** The [switch] of [traverseNode] on [node.type]: the node after the walk
    of its children. *)
Definition traverseKids (traverseNode : TraverseNode) (fuel : nat) (up : Node -> Node)
    (node : Node) (s : St) : result (Node * St) :=
  match node with
  | Regex _ _ =>
      '(node, s) ← traverseSlot traverseNode up node "pattern" s;
      traverseSlot traverseNode up node "flags" s
  | Alternative elements | CharacterClass _ _ elements =>
      '(elements, s) ← traverseArray traverseNode fuel 0 elements up node s;
      Ok (set_elements node elements, s)
  | Assertion _ _ | Backreference _ _ | Character _ | CharacterSet _ _ _ _
  | Directive _ _ | Flags _ | Recursion | Subroutine _ => Ok (node, s)
  | AbsentFunction _ alternatives | CapturingGroup _ _ alternatives
  | Group _ _ alternatives | Pattern alternatives
  | LookaroundAssertion _ _ alternatives =>
      '(alternatives, s) ← traverseArray traverseNode fuel 0 alternatives up node s;
      Ok (set_alternatives node alternatives, s)
  | CharacterClassRange _ _ =>
      '(node, s) ← traverseSlot traverseNode up node "min" s;
      traverseSlot traverseNode up node "max" s
  | Quantifier _ _ _ _ => traverseSlot traverseNode up node "element" s
  | Undefined => Throw TypeError
  end.

Definition newFrame (node : Node) (loc : Loc) : Frame :=
  {| fr_node := node; fr_keyShift := 0; fr_skip := false; fr_replaced := false;
     fr_loc := loc |}.

Fixpoint traverseNode (visitor : Visitor) (fuel : nat) (node : Node) (loc : Loc) (s : St)
  {struct fuel} : result (Frame * St) :=
  match fuel with
  | O => OutOfFuel
  | S fuel =>
      let recur := traverseNode visitor fuel in
      let fr := newFrame node loc in
      match type_of node with
      | None => Throw TypeError
      | Some ty =>
          let anyT := anyType visitor in
          let thisT := thisType visitor ty in
          let enterAllFn := anyT ≫= enter in
          let enterThisFn := thisT ≫= enter in
          let exitAllFn := anyT ≫= exit in
          let exitThisFn := thisT ≫= exit in
          '(fr, s) ← invoke recur enterAllFn node fr s;
          '(fr, s) ← invoke recur enterThisFn node fr s;
          '(fr, s) ←
            (if fr_skip fr then Ok (fr, s)
             else
               '(nodeNow, s) ← traverseKids recur fuel (up_from fr) (fr_node fr) s;
               Ok (write_back fr nodeNow, s));
          '(fr, s) ← invoke recur exitAllFn node fr s;
          '(fr, s) ← invoke recur exitThisFn node fr s;
          Ok (fr, s)
      end
  end.

(** [traverse({node: ast}, state, visitor)]: the tree and the state the
    walk leaves. *)
Definition traverse (fuel : nat) (ast : Node) (state : St) (visitor : Visitor)
  : result (Node * St) :=
  '(fr, s) ← traverseNode visitor fuel ast AtRoot state;
  Ok (fr_node fr, s).

End Traverser.

Arguments Callback : clear implicits.
Arguments VisitorNode : clear implicits.
Arguments Visitor : clear implicits.
Arguments TraverseNode : clear implicits.

(** ** Transforms of the optimizer *)

(** [root.flags] on a path whose root is a [Regex] with its [Flags]; the
    read throws when the path has no [root]. *)
Definition rootFlags (path : Path) : result RegexFlags :=
  match path_root path with
  | Some (Regex _ (Flags fl)) => Ok fl
  | _ => Throw TypeError
  end.

(** The [CharacterSet] callback of [useShorthands] up to its last
    statement: [newNode].  The conditions read the flags of the root only
    where the source reaches [root.flags]. *)
Definition useShorthands_newNode (path : Path) : result (option Node) :=
  match path_node path with
  | CharacterSet kind value negate _ =>
      let negate := default false negate in
      let isProperty := bool_decide (kind = NodeCharacterSetKinds.property) in
      let isPosix := bool_decide (kind = NodeCharacterSetKinds.posix) in
      let valueIs (name : string) := bool_decide (value = Some name) in
      digitProperty ←
        (if isProperty && (valueIs "Decimal_Number" || valueIs "Nd")
         then fl ← rootFlags path; Ok (negb (digitIsAscii fl) && negb (posixIsAscii fl))
         else Ok false);
      if digitProperty || (isPosix && valueIs "digit")
      then Ok (Some (createCharacterSet NodeCharacterSetKinds.digit negate))
      else if (isProperty && (valueIs "ASCII_Hex_Digit" || valueIs "AHex"))
              || (isPosix && valueIs "xdigit")
      then Ok (Some (createCharacterSet NodeCharacterSetKinds.hex negate))
      else
        spaceProperty ←
          (if isProperty && (valueIs "White_Space" || valueIs "WSpace")
           then fl ← rootFlags path; Ok (negb (spaceIsAscii fl) && negb (posixIsAscii fl))
           else Ok false);
        if spaceProperty || (isPosix && valueIs "space")
        then Ok (Some (createCharacterSet NodeCharacterSetKinds.space negate))
        else
          cntrlPosix ←
            (if isPosix && valueIs "cntrl"
             then fl ← rootFlags path; Ok (negb (posixIsAscii fl))
             else Ok false);
          if (cntrlPosix : bool)
          then newNode ← createUnicodeProperty "Cc" negate false false None; Ok (Some newNode)
          else Ok None
  | _ => Ok None
  end.

(** The callback: [replaceWith(newNode)] when there is one.  The body
    runs no loop, so the last case does not arise. *)
Definition useShorthands_CharacterSet {St : Type} : Callback St := fun path state =>
  match useShorthands_newNode path with
  | Ok (Some newNode) => ([replaceWith newNode], state)
  | Ok None => ([], state)
  | Throw msg => ([raise msg], state)
  | OutOfFuel => ([], state)
  end.

(** The visitor [useShorthands] has this callback for the character sets
    and one for the character classes, which assigns [node.elements] and
    calls no operation of the path: [useShorthands_CharacterClass] below is
    what it leaves of the node.  A statement about the walk of the visitor
    is one about every [Visitor] that has [useShorthands_CharacterSet] as
    its [enter] callback on character sets, any entry for character
    classes, and no other entry. *)

(** [kid.negate = !kid.negate] on a character set. *)
Definition flipNegate (kid : Node) : Node :=
  match kid with
  | CharacterSet kind value negate variableLength =>
      CharacterSet kind value (Some (negb (default false negate))) variableLength
  | _ => kid
  end.

(** [kid.type === 'Character' && kid.value === 10]. *)
Definition isNewlineCharacter (kid : Node) : bool :=
  match kid with
  | Character 10 => true
  | _ => false
  end.

(** [parent.type !== 'Quantifier' || parent.kind === 'lazy']. *)
Definition notUnderNonLazyQuantifier (parent : Node) : bool :=
  match parent with
  | Quantifier kind _ _ _ => bool_decide (kind = lazy)
  | _ => true
  end.

(** The [CharacterClass] callback of [unwrapNegationWrappers]. *)
Definition unwrapNegationWrappers_CharacterClass {St : Type} : Callback St :=
  fun path state =>
  match path_node path with
  | CharacterClass NodeCharacterClassKinds.union true [kid] =>
      match kid with
      | CharacterSet _ _ _ _ => ([replaceWith (flipNegate kid)], state)
      | _ =>
          match path_parent path with
          | None => ([raise TypeError], state)
          | Some parent =>
              if negb (bool_decide (type_of parent = Some TCharacterClass))
                 && isNewlineCharacter kid
              then
                if notUnderNonLazyQuantifier parent
                then ([replaceWith
                         (createCharacterSet NodeCharacterSetKinds.newline true)], state)
                else ([], state)
              else ([], state)
          end
      end
  | _ => ([], state)
  end.

Definition unwrapNegationWrappers {St : Type} : Visitor St := {|
  anyType := None;
  thisType := fun ty =>
    match ty with
    | TCharacterClass =>
        Some {| enter := Some unwrapNegationWrappers_CharacterClass; exit := None |}
    | _ => None
    end;
|}.

(** ** The predicates of the specification *)

(** The alternative containers of the tree ([Pattern], [Group],
    [CapturingGroup], [LookaroundAssertion], [AbsentFunction]) all have at
    least one alternative. *)
Fixpoint alternativesNonEmpty (n : Node) : bool :=
  match n with
  | AbsentFunction _ alternatives | CapturingGroup _ _ alternatives
  | Group _ _ alternatives | LookaroundAssertion _ _ alternatives
  | Pattern alternatives =>
      negb (bool_decide (alternatives = [])) && forallb alternativesNonEmpty alternatives
  | Alternative elements | CharacterClass _ _ elements =>
      forallb alternativesNonEmpty elements
  | CharacterClassRange min max => alternativesNonEmpty min && alternativesNonEmpty max
  | Quantifier _ _ _ element => alternativesNonEmpty element
  | Regex pattern flags => alternativesNonEmpty pattern && alternativesNonEmpty flags
  | _ => true
  end.

(** The lookbehind-content rule (section 4.3 of the specification) on one
    child: inside a negative lookbehind no lookahead and no capturing
    group; inside a positive one no lookahead and no negative
    lookbehind. *)
Definition allowedInLookbehind (inLookbehind inNegLookbehind : bool) (child : Node) : bool :=
  if inLookbehind then
    if inNegLookbehind
    then negb (isLookahead child) && negb (bool_decide (type_of child = Some TCapturingGroup))
    else negb (isLookahead child) && negb (isLookbehind child && negate_of child)
  else true.

(** The rule on a tree.  [inLookbehind] and [inNegLookbehind] tell whether
    the node lies in a lookbehind and in a negative one, at any depth.
    The elements of every alternative obey the rule, and so does the
    operand of a quantifier that is such an element; [checked] holds for
    these nodes.  The elements of a character class are walked for the
    groups below them. *)
Fixpoint lookbehindOk (checked inLookbehind inNegLookbehind : bool) (n : Node) : bool :=
  (if checked then allowedInLookbehind inLookbehind inNegLookbehind n else true)
  &&
  match n with
  | LookaroundAssertion kind negate alternatives =>
      let thisLookbehind := isLookbehind (LookaroundAssertion kind negate []) in
      forallb (lookbehindOk false (inLookbehind || thisLookbehind)
                 (inNegLookbehind || (thisLookbehind && negate))) alternatives
  | AbsentFunction _ alternatives | CapturingGroup _ _ alternatives
  | Group _ _ alternatives | Pattern alternatives =>
      forallb (lookbehindOk false inLookbehind inNegLookbehind) alternatives
  | Alternative elements =>
      forallb (lookbehindOk true inLookbehind inNegLookbehind) elements
  | CharacterClass _ _ elements =>
      forallb (lookbehindOk false inLookbehind inNegLookbehind) elements
  | CharacterClassRange min max =>
      lookbehindOk false inLookbehind inNegLookbehind min
      && lookbehindOk false inLookbehind inNegLookbehind max
  | Quantifier _ _ _ element => lookbehindOk checked inLookbehind inNegLookbehind element
  | Regex pattern _ => lookbehindOk false false false pattern
  | _ => true
  end.

(** The nodes without children that [walk] builds from one token. *)
Definition isLeaf (n : Node) : bool :=
  match n with
  | Alternative [] | Assertion _ _ | Backreference _ _ | Character _
  | CharacterSet _ _ _ _ | Directive _ _ | Subroutine _ => true
  | _ => false
  end.

(** What a call of the parser leaves alone in the context. *)
Definition sameSettings (ctx ctx' : Context) : Prop :=
  tokens ctx' = tokens ctx
  /\ skipLookbehindValidation ctx' = skipLookbehindValidation ctx.

(** The tokens not read yet. *)
Definition remaining (ctx : Context) : nat := (length (tokens ctx) - current ctx)%nat.

(** The two invariants on a node, and what a call of [walk] guarantees
    when it returns: it has read a token, it keeps the settings, and it
    keeps the invariants, on the node it returns and on the elements of the
    parent.  [checked] tells whether the elements of the parent are under the
    check of [parseGroupOpen]. *)
Definition ANE (n : Node) : Prop := alternativesNonEmpty n = true.

Definition LB (checked : bool) (state : State) (n : Node) : Prop :=
  lookbehindOk checked (isInLookbehind state) (isInNegLookbehind state) n = true.

Definition nodePost (checked skipLb : bool) (parent : list Node) (state : State)
    (node : Node) (parent' : list Node) : Prop :=
  (Forall ANE parent -> ANE node /\ Forall ANE parent')
  /\ (skipLb = false ->
      Forall (LB checked state) parent ->
      Forall (LB checked state) parent'
      /\ LB false state node
      /\ (allowedInLookbehind (isInLookbehind state) (isInNegLookbehind state) node = true ->
          LB checked state node)).

Definition walkPost (checked : bool) (ctx : Context) (parent : list Node) (state : State)
    (node : Node) (parent' : list Node) (ctx' : Context) : Prop :=
  sameSettings ctx ctx'
  /\ (current ctx < current ctx')%nat
  /\ nodePost checked (skipLookbehindValidation ctx) parent state node parent'.

Definition GoodWalk (W : Walk) : Prop :=
  forall checked ctx parent state node parent' ctx',
    W ctx parent state = Ok (node, parent', ctx') ->
    walkPost checked ctx parent state node parent' ctx'.

(** The invariant of the alternatives of a group under construction, and
    of the top-level alternatives: there is one at least, and the elements
    of each keep the two invariants. *)
Definition altsInv (skipLb inLookbehind inNegLookbehind : bool) (alts : list Node) : Prop :=
  alts <> []
  /\ Forall (fun alt =>
              exists els, alt = Alternative els
                /\ Forall ANE els
                /\ (skipLb = false ->
                    Forall (fun e => lookbehindOk true inLookbehind inNegLookbehind e = true)
                      els)) alts.

(** The invariant of the classes [parseCharacterClassOpen] collects. *)
Definition classesInv (skipLb : bool) (state : State) (classes : list Node) : Prop :=
  Forall (fun cc =>
            exists k neg els, cc = CharacterClass k neg els
              /\ Forall ANE els
              /\ (skipLb = false -> Forall (LB false state) els)) classes.

(** A call that has fuel enough returns or throws, and what it throws is
    not the lookbehind error when the validation is skipped. *)
Definition settled {A : Type} (skipLb : bool) (r : result A) : Prop :=
  r <> OutOfFuel /\ (skipLb = true -> r <> Throw lookbehindMsg).

(** What the loops need from [walk]: it is good, and it is settled when
    fewer than [bound] tokens remain. *)
Definition SettledWalk (bound : nat) (W : Walk) : Prop :=
  GoodWalk W
  /\ forall ctx parent state,
      (remaining ctx < bound)%nat ->
      settled (skipLookbehindValidation ctx) (W ctx parent state).

(** The context of a run with the validation of lookbehinds skipped. *)
Definition skipping (ctx : Context) : Context := {|
  capturingGroups := capturingGroups ctx;
  current := current ctx;
  hasNumberedRef := hasNumberedRef ctx;
  namedGroupsByName := namedGroupsByName ctx;
  normalizeUnknownPropertyNames := normalizeUnknownPropertyNames ctx;
  skipBackrefValidation := skipBackrefValidation ctx;
  skipLookbehindValidation := true;
  skipPropertyNameValidation := skipPropertyNameValidation ctx;
  subroutines := subroutines ctx;
  tokens := tokens ctx;
  unicodePropertyMap := unicodePropertyMap ctx;
|}.

(** [skipping] on the context a call returns. *)
Definition skipping1 {A : Type} : A * Context -> A * Context :=
  fun '(a, ctx) => (a, skipping ctx).

(** The run with the validation skipped, [lenient], against the run of
    the same call without the option, [strict]: they end the same way, up
    to the option in the context they return ([f]), unless the strict run
    throws the lookbehind error. *)
Definition relaxes {A : Type} (f : A -> A) (strict lenient : result A) : Prop :=
  match strict with
  | Ok a => lenient = Ok (f a)
  | Throw msg => msg = lookbehindMsg \/ lenient = Throw msg
  | OutOfFuel => lenient = OutOfFuel
  end.

Definition RelaxedWalk (W W' : Walk) : Prop :=
  forall ctx parent state,
    relaxes skipping1 (W ctx parent state) (W' (skipping ctx) parent state).

(** Looking back from what a call of [walk] returns: a character leaves
    the elements of the parent alone, and when the node and the elements
    left obey the lookbehind rule, so did the elements before the call. *)
Definition BackWalk (W : Walk) : Prop :=
  forall c ctx parent state node parent' ctx',
    W ctx parent state = Ok (node, parent', ctx') ->
    (type_of node = Some TCharacter -> parent' = parent)
    /\ (Forall (LB c state) parent' -> LB c state node -> Forall (LB c state) parent).

(** No false alarm: when the strict run [W] throws the lookbehind error
    and the lenient run [W'] of the same call returns, the node it returns
    breaks the rule. *)
Definition NoFalseAlarm (W W' : Walk) : Prop :=
  forall c ctx parent state node parent' ctx',
    W ctx parent state = Throw lookbehindMsg ->
    W' (skipping ctx) parent state = Ok (node, parent', ctx') ->
    ~ LB c state node.

(** The nodes the loops keep in their arrays. *)
Definition isAlternative (n : Node) : Prop := exists els, n = Alternative els.

Definition isCharacterClass (n : Node) : Prop :=
  exists k neg els, n = CharacterClass k neg els.


(** ** Sample inputs

    The names of the POSIX classes, a test of group names that accepts
    every name, and a tokenizer that answers every pattern with a given
    token stream: the collaborators the examples run with. *)

Definition samplePosixClassNames : gset string :=
  list_to_set ["alnum"; "alpha"; "ascii"; "blank"; "cntrl"; "digit"; "graph"; "lower";
               "print"; "punct"; "space"; "upper"; "word"; "xdigit"].

Definition anyGroupName : string -> bool := fun _ => true.

Definition noFlags : RegexFlags := {|
  ignoreCase := false; dotAll := false; extended := false; digitIsAscii := false;
  posixIsAscii := false; spaceIsAscii := false; wordIsAscii := false;
  textSegmentMode := None;
|}.

Definition sampleTokenizer (toks : list Token) : string -> TokenizerOptions -> string + Tokenized :=
  fun _ _ => inr {| tokenized_tokens := toks; tokenized_flags := noFlags |}.

Definition sampleParse (toks : list Token) (opts : ParserOptions) : result Node :=
  parse samplePosixClassNames anyGroupName (sampleTokenizer toks) "" opts.

Definition skippingLookbehindValidation : ParserOptions :=
  with_skipLookbehindValidation defaultOptions true.

Definition lookbehindOpen (negate : bool) : Token :=
  GroupOpenToken TokenGroupKinds.lookbehind None None negate 0.

Definition lookaheadOpen (negate : bool) : Token :=
  GroupOpenToken TokenGroupKinds.lookahead None None negate 0.

Definition captureOpen (number : Z) : Token :=
  GroupOpenToken TokenGroupKinds.capturing None None false number.

Definition groupOpen : Token := GroupOpenToken TokenGroupKinds.group None None false 0.

(** The token streams of the four forbidden pairs, [(?<=(?=a))],
    [(?<=(?<!a))], [(?<!(?=a))] and [(?<!(a))], and of [(?<!(?:(a)|b))],
    where the capturing group lies one group deeper. *)
Definition forbiddenInLookbehind : list (list Token) :=
  [ [lookbehindOpen false; lookaheadOpen false; CharacterToken 97;
     GroupCloseToken; GroupCloseToken];
    [lookbehindOpen false; lookbehindOpen true; CharacterToken 97;
     GroupCloseToken; GroupCloseToken];
    [lookbehindOpen true; lookaheadOpen false; CharacterToken 97;
     GroupCloseToken; GroupCloseToken];
    [lookbehindOpen true; captureOpen 1; CharacterToken 97;
     GroupCloseToken; GroupCloseToken];
    [lookbehindOpen true; groupOpen; captureOpen 1; CharacterToken 97; GroupCloseToken;
     AlternatorToken; CharacterToken 98; GroupCloseToken; GroupCloseToken] ].

(** [(?<=(a)(?<=b))], which the rule allows. *)
Definition allowedInPositiveLookbehind : list Token :=
  [lookbehindOpen false; captureOpen 1; CharacterToken 97; GroupCloseToken;
   lookbehindOpen false; CharacterToken 98; GroupCloseToken; GroupCloseToken].



(** [[^\n]], [\N], and a pattern with the elements [els] and the flags
    [fl]. *)
Definition notNewlineClass : Node :=
  CharacterClass NodeCharacterClassKinds.union true [Character 10].

Definition notNewlineSet : Node :=
  CharacterSet NodeCharacterSetKinds.newline None (Some true) false.

Definition regexOf (els : list Node) (fl : RegexFlags) : Node :=
  Regex (Pattern [Alternative els]) (Flags fl).

(** ** The callbacks of a visitor at a node

    The four functions [traverseNode] picks for a node of type [ty], and
    what a function returns on a path; an absent function calls
    nothing. *)
Definition enterAllFn {St : Type} (visitor : Visitor St) : option (Callback St) :=
  anyType visitor ≫= enter.

Definition enterThisFn {St : Type} (visitor : Visitor St) (ty : NodeType)
  : option (Callback St) :=
  thisType visitor ty ≫= enter.

Definition exitAllFn {St : Type} (visitor : Visitor St) : option (Callback St) :=
  anyType visitor ≫= exit.

Definition exitThisFn {St : Type} (visitor : Visitor St) (ty : NodeType)
  : option (Callback St) :=
  thisType visitor ty ≫= exit.

Definition callbackResult {St : Type} (fn : option (Callback St)) (path : Path) (s : St)
  : list Action * St :=
  match fn with
  | Some f => f path s
  | None => ([], s)
  end.

(** The variables of the call after one operation in the [enter]
    callbacks of a node at the index [i] of [array]: after [remove()],
    and after [replaceWithMultiple(newNodes)] once its inserted nodes are
    walked, with the shift [acc] of these walks and the array [array'] they
    leave. *)
Definition removedFrame (up : Node -> Node) (parent : Node) (i : nat) (array : list Node)
    (node : Node) : Frame :=
  {| fr_node := node; fr_keyShift := -1; fr_skip := true; fr_replaced := false;
     fr_loc := InArray up parent i (delete i array) |}.

Definition multipliedFrame (up : Node -> Node) (parent : Node) (i : nat)
    (array' : list Node) (node : Node) (count : nat) (acc : Z) : Frame :=
  {| fr_node := node; fr_keyShift := Z.of_nat count - 1 + acc; fr_skip := true;
     fr_replaced := false; fr_loc := InArray up parent i array' |}.

(** The place of a node with [newNode] stored in it, and the variables of
    the call after [replaceWith(newNode)]. *)
Definition replacedLoc (loc : Loc) (newNode : Node) : Loc :=
  match loc with
  | InArray up parent key container => InArray up parent key (<[key := newNode]> container)
  | InSlot up parent key => InSlot up (set_slot parent key newNode) key
  | AtRoot => AtRoot
  end.

Definition replacedFrame (loc : Loc) (newNode : Node) : Frame :=
  {| fr_node := newNode; fr_keyShift := 0; fr_skip := false; fr_replaced := true;
     fr_loc := replacedLoc loc newNode |}.

(** A node occupies its place: it is the element at its key, or the child
    in its slot. *)
Definition occupies (node : Node) (loc : Loc) : Prop :=
  match loc with
  | InArray _ _ key container => container !! key = Some node
  | InSlot _ parent key => get_slot parent key = Some node
  | AtRoot => False
  end.

(** ** A visitor that records its calls

    Every callback of [logger skips] appends its kind and the node of its
    path to the state; the callback of the kind [kind] calls [skip()] on
    the nodes [skips kind] holds for, and no callback calls another
    operation.  [firedOrder] is the record of a walk as the traverser
    makes it, [claimedOrder] the one the specification words; the children
    of a node are walked unless one of its two [enter] callbacks has
    called [skip()]. *)
Inductive CallbackKind := WildcardEnter | TypeEnter | WildcardExit | TypeExit.

Definition Event : Type := CallbackKind * Node.

Definition logCallback (kind : CallbackKind) (skips : Node -> bool)
  : Callback (list Event) :=
  fun path log =>
    (if skips (path_node path) then [skip] else [], log ++ [(kind, path_node path)]).

Definition logger (skips : CallbackKind -> Node -> bool) : Visitor (list Event) := {|
  anyType := Some {| enter := Some (logCallback WildcardEnter (skips WildcardEnter));
                     exit := Some (logCallback WildcardExit (skips WildcardExit)) |};
  thisType := fun _ => Some {| enter := Some (logCallback TypeEnter (skips TypeEnter));
                               exit := Some (logCallback TypeExit (skips TypeExit)) |};
|}.

(** One of the [enter] callbacks calls [skip()] on the node. *)
Definition skipsKids (skips : CallbackKind -> Node -> bool) (n : Node) : bool :=
  skips WildcardEnter n || skips TypeEnter n.

Fixpoint firedOrder (skips : CallbackKind -> Node -> bool) (n : Node) : list Event :=
  [(WildcardEnter, n); (TypeEnter, n)]
  ++ (if skipsKids skips n then []
      else
        match n with
        | Regex pattern flags => firedOrder skips pattern ++ firedOrder skips flags
        | Alternative elements | CharacterClass _ _ elements =>
            flat_map (firedOrder skips) elements
        | AbsentFunction _ alternatives | CapturingGroup _ _ alternatives
        | Group _ _ alternatives | Pattern alternatives
        | LookaroundAssertion _ _ alternatives => flat_map (firedOrder skips) alternatives
        | CharacterClassRange min max => firedOrder skips min ++ firedOrder skips max
        | Quantifier _ _ _ element => firedOrder skips element
        | _ => []
        end)
  ++ [(WildcardExit, n); (TypeExit, n)].

Fixpoint claimedOrder (skips : CallbackKind -> Node -> bool) (n : Node) : list Event :=
  [(WildcardEnter, n); (TypeEnter, n)]
  ++ (if skipsKids skips n then []
      else
        match n with
        | Regex pattern flags => claimedOrder skips pattern ++ claimedOrder skips flags
        | Alternative elements | CharacterClass _ _ elements =>
            flat_map (claimedOrder skips) elements
        | AbsentFunction _ alternatives | CapturingGroup _ _ alternatives
        | Group _ _ alternatives | Pattern alternatives
        | LookaroundAssertion _ _ alternatives => flat_map (claimedOrder skips) alternatives
        | CharacterClassRange min max => claimedOrder skips min ++ claimedOrder skips max
        | Quantifier _ _ _ element => claimedOrder skips element
        | _ => []
        end)
  ++ [(TypeExit, n); (WildcardExit, n)].

(** A logger that never calls [skip()]. *)
Definition neverSkips : CallbackKind -> Node -> bool := fun _ _ => false.

(** Fuel enough for the walk of a tree that no callback changes: two for
    each node. *)
Fixpoint nodeFuel (n : Node) : nat :=
  match n with
  | Regex pattern flags => 2 + nodeFuel pattern + nodeFuel flags
  | Alternative elements | CharacterClass _ _ elements =>
      2 + list_sum (map nodeFuel elements)
  | AbsentFunction _ alternatives | CapturingGroup _ _ alternatives
  | Group _ _ alternatives | Pattern alternatives
  | LookaroundAssertion _ _ alternatives => 2 + list_sum (map nodeFuel alternatives)
  | CharacterClassRange min max => 2 + nodeFuel min + nodeFuel max
  | Quantifier _ _ _ element => 2 + nodeFuel element
  | _ => 2
  end%nat.

(** A tree without holes. *)
Fixpoint noHoles (n : Node) : bool :=
  match n with
  | Regex pattern flags => noHoles pattern && noHoles flags
  | Alternative elements | CharacterClass _ _ elements => forallb noHoles elements
  | AbsentFunction _ alternatives | CapturingGroup _ _ alternatives
  | Group _ _ alternatives | Pattern alternatives
  | LookaroundAssertion _ _ alternatives => forallb noHoles alternatives
  | CharacterClassRange min max => noHoles min && noHoles max
  | Quantifier _ _ _ element => noHoles element
  | Undefined => false
  | _ => true
  end.

(** [replaceWith] on the character 1 with a group around the character
    2, and a record of the nodes entered. *)
Definition replacingVisitor : Visitor (list Node) := {|
  anyType := Some {| enter := Some (fun path log => ([], log ++ [path_node path]));
                     exit := None |};
  thisType := fun ty =>
    match ty with
    | TCharacter =>
        Some {| enter := Some (fun path log =>
                  match path_node path with
                  | Character 1 =>
                      ([replaceWith (Group false None [Alternative [Character 2]])], log)
                  | _ => ([], log)
                  end);
                exit := None |}
    | _ => None
    end;
|}.

(** The calls between the two [enter] and the two [exit] calls of a
    node whose children are walked: those of the walks of its children. *)
Definition kidsFired (skips : CallbackKind -> Node -> bool) (n : Node) : list Event :=
  match n with
  | Regex pattern flags => firedOrder skips pattern ++ firedOrder skips flags
  | Alternative elements | CharacterClass _ _ elements => flat_map (firedOrder skips) elements
  | AbsentFunction _ alternatives | CapturingGroup _ _ alternatives
  | Group _ _ alternatives | Pattern alternatives
  | LookaroundAssertion _ _ alternatives => flat_map (firedOrder skips) alternatives
  | CharacterClassRange min max => firedOrder skips min ++ firedOrder skips max
  | Quantifier _ _ _ element => firedOrder skips element
  | _ => []
  end.

(** The variables of the call of [traverseNode] on [n] once the four
    callbacks of [logger skips] have run: the node is in its place as it
    was, and [skipTraversingKidsOfPath] is set if a callback has called
    [skip()]. *)
Definition loggedFrame (skips : CallbackKind -> Node -> bool) (n : Node) (loc : Loc)
  : Frame :=
  {| fr_node := n;
     fr_keyShift := 0;
     fr_skip := skipsKids skips n || skips WildcardExit n || skips TypeExit n;
     fr_replaced := false;
     fr_loc := if skipsKids skips n then loc else fr_loc (write_back (newFrame n loc) n) |}.

(** A walk [recur] of the nodes that works as the record says, on the
    trees it has fuel for. *)
Definition Records (skips : CallbackKind -> Node -> bool) (fuel : nat)
    (recur : TraverseNode (list Event)) : Prop :=
  forall n, (nodeFuel n <= fuel)%nat -> noHoles n = true ->
    forall loc log,
      recur n loc log = Ok (loggedFrame skips n loc, log ++ firedOrder skips n).

(** A visitor of the examples: [removingVisitor] records the nodes it
    enters and calls [remove()] on the character 2 and on every group. *)
Definition removingVisitor : Visitor (list Node) := {|
  anyType := Some {| enter := Some (fun path log => ([], log ++ [path_node path]));
                     exit := None |};
  thisType := fun ty =>
    match ty with
    | TCharacter =>
        Some {| enter := Some (fun path log =>
                  match path_node path with
                  | Character 2 => ([remove], log)
                  | _ => ([], log)
                  end);
                exit := None |}
    | TGroup => Some {| enter := Some (fun path log => ([remove], log)); exit := None |}
    | _ => None
    end;
|}.

(** [(?:els)]. *)
Definition groupOf (els : list Node) : Node := Group false None [Alternative els].

Definition oneTwoThree : list Node :=
  [Character 1; Character 2; groupOf [Character 5]; Character 3].

(** ** A visitor that removes

    [remover doomed] records every node it enters and calls [remove()] on
    the nodes [doomed] holds for.  [kept] is the tree such a walk leaves
    and [entered] its record: every element of an array once, in order,
    and nothing below a removed one. *)
Definition remover (doomed : Node -> bool) : Visitor (list Node) := {|
  anyType :=
    Some {| enter := Some (fun path log =>
                       (if doomed (path_node path) then [remove] else [],
                        log ++ [path_node path]));
            exit := None |};
  thisType := fun _ => None;
|}.

Fixpoint kept (doomed : Node -> bool) (n : Node) : Node :=
  let keptOf := flat_map (fun el => if doomed el then [] else [kept doomed el]) in
  match n with
  | Regex pattern flags => Regex (kept doomed pattern) (kept doomed flags)
  | Alternative elements => Alternative (keptOf elements)
  | CharacterClass kind negate elements => CharacterClass kind negate (keptOf elements)
  | AbsentFunction kind alternatives => AbsentFunction kind (keptOf alternatives)
  | CapturingGroup number name alternatives =>
      CapturingGroup number name (keptOf alternatives)
  | Group atomic flags alternatives => Group atomic flags (keptOf alternatives)
  | Pattern alternatives => Pattern (keptOf alternatives)
  | LookaroundAssertion kind negate alternatives =>
      LookaroundAssertion kind negate (keptOf alternatives)
  | CharacterClassRange min max => CharacterClassRange (kept doomed min) (kept doomed max)
  | Quantifier kind min max element => Quantifier kind min max (kept doomed element)
  | _ => n
  end.

Fixpoint entered (doomed : Node -> bool) (n : Node) : list Node :=
  let enteredOf := flat_map (fun el => if doomed el then [el] else entered doomed el) in
  n :: match n with
       | Regex pattern flags => entered doomed pattern ++ entered doomed flags
       | Alternative elements | CharacterClass _ _ elements => enteredOf elements
       | AbsentFunction _ alternatives | CapturingGroup _ _ alternatives
       | Group _ _ alternatives | Pattern alternatives
       | LookaroundAssertion _ _ alternatives => enteredOf alternatives
       | CharacterClassRange min max => entered doomed min ++ entered doomed max
       | Quantifier _ _ _ element => entered doomed element
       | _ => []
       end.

(** The trees [remover doomed] walks to the end: no hole, and no doomed
    node in a slot, where [remove()] throws. *)
Fixpoint removable (doomed : Node -> bool) (n : Node) : bool :=
  match n with
  | Regex pattern flags =>
      negb (doomed pattern) && negb (doomed flags)
      && removable doomed pattern && removable doomed flags
  | Alternative elements | CharacterClass _ _ elements => forallb (removable doomed) elements
  | AbsentFunction _ alternatives | CapturingGroup _ _ alternatives
  | Group _ _ alternatives | Pattern alternatives
  | LookaroundAssertion _ _ alternatives => forallb (removable doomed) alternatives
  | CharacterClassRange min max =>
      negb (doomed min) && negb (doomed max) && removable doomed min && removable doomed max
  | Quantifier _ _ _ element => negb (doomed element) && removable doomed element
  | Undefined => false
  | _ => true
  end.

Definition keptOf (doomed : Node -> bool) : list Node -> list Node :=
  flat_map (fun el => if doomed el then [] else [kept doomed el]).

Definition enteredOf (doomed : Node -> bool) : list Node -> list Node :=
  flat_map (fun el => if doomed el then [el] else entered doomed el).

(** A walk [recur] of the nodes that does what [remover doomed] does, on
    the trees it has fuel for. *)
Definition Removes (doomed : Node -> bool) (fuel : nat) (recur : TraverseNode (list Node))
  : Prop :=
  forall n, (nodeFuel n <= fuel)%nat -> removable doomed n = true ->
    forall loc log,
      (doomed n = false ->
       recur n loc log
       = Ok (write_back (newFrame n loc) (kept doomed n), log ++ entered doomed n))
      /\ (doomed n = true ->
          forall up parent i array, loc = InArray up parent i array ->
            recur n loc log = Ok (removedFrame up parent i array n, log ++ [n])).

(** ** What a parsed tree looks like

    [allNodes P] holds when [P] holds for a node and for every node below
    it.  [wellFormedNode] collects what the factories and the parser
    functions check on the node they build. *)
Fixpoint allNodes (P : Node -> bool) (n : Node) : bool :=
  P n
  && match n with
     | Regex pattern flags => allNodes P pattern && allNodes P flags
     | Alternative elements | CharacterClass _ _ elements => forallb (allNodes P) elements
     | AbsentFunction _ alternatives | CapturingGroup _ _ alternatives
     | Group _ _ alternatives | Pattern alternatives
     | LookaroundAssertion _ _ alternatives => forallb (allNodes P) alternatives
     | CharacterClassRange min max => allNodes P min && allNodes P max
     | Quantifier _ _ _ element => allNodes P element
     | _ => true
     end.

(** A character is a code point. *)
Definition characterInRange (n : Node) : bool :=
  match n with
  | Character value => value <=? 0x10FFFF
  | _ => true
  end.

(** A range runs between two characters in order. *)
Definition rangeInOrder (n : Node) : bool :=
  match n with
  | CharacterClassRange (Character lo) (Character hi) => lo <=? hi
  | CharacterClassRange _ _ => false
  | _ => true
  end.

(** A quantifier has its bounds in order and an operand it may repeat. *)
Definition quantifierInOrder (n : Node) : bool :=
  match n with
  | Quantifier _ min max element => negb (num_lt max min) && negb (notQuantifiable element)
  | _ => true
  end.

(** A backreference is an orphan only by number and where orphans are
    allowed; by number and not an orphan, it is not beyond the first
    [groups] groups. *)
Definition backreferenceInRange (allowOrphan : bool) (groups : nat) (n : Node) : bool :=
  match n with
  | Backreference (RefNum ref) orphan =>
      if orphan then allowOrphan else negb (num_gt ref (Int (Z.of_nat groups)))
  | Backreference (RefName _) orphan => negb orphan
  | _ => true
  end.

(** A POSIX set names a POSIX class, and the name of a group is valid. *)
Definition namesValid (PosixClassNames : gset string) (isValidGroupName : string -> bool)
    (n : Node) : bool :=
  match n with
  | CharacterSet NodeCharacterSetKinds.posix value _ _ =>
      match value with
      | Some name => bool_decide (name ∈ PosixClassNames)
      | None => false
      end
  | CapturingGroup _ (Some name) _ => isValidGroupName name
  | _ => true
  end.

(** A subroutine by number has a number, and not a negative one. *)
Definition subroutineNumbered (n : Node) : bool :=
  match n with
  | Subroutine (RefNum (Int r)) => 0 <=? r
  | Subroutine (RefNum _) => false
  | _ => true
  end.

(** An array of alternatives holds alternatives, and the root is a
    pattern with its flags. *)
Definition isAlternativeNode (n : Node) : bool :=
  match n with
  | Alternative _ => true
  | _ => false
  end.

Definition alternativesTyped (n : Node) : bool :=
  match n with
  | AbsentFunction _ alternatives | CapturingGroup _ _ alternatives
  | Group _ _ alternatives | LookaroundAssertion _ _ alternatives
  | Pattern alternatives => forallb isAlternativeNode alternatives
  | Regex (Pattern _) (Flags _) => true
  | Regex _ _ => false
  | _ => true
  end.

Definition wellFormedNode (PosixClassNames : gset string) (isValidGroupName : string -> bool)
    (allowOrphan : bool) (groups : nat) (n : Node) : bool :=
  characterInRange n && rangeInOrder n && quantifierInOrder n
  && backreferenceInRange allowOrphan groups n
  && namesValid PosixClassNames isValidGroupName n
  && subroutineNumbered n
  && alternativesTyped n.

(** The capturing groups of a tree, counted: all of them, or those of a
    name.  A group has a name when its name is not the empty string. *)
Definition groupWeight (name : option string) (n : Node) : nat :=
  match n with
  | CapturingGroup _ nm _ =>
      match name with
      | None => 1
      | Some name =>
          match nm with
          | Some (String _ _ as nm) => if bool_decide (nm = name) then 1 else 0
          | _ => 0
          end
      end
  | _ => 0
  end.

Fixpoint countOf (name : option string) (n : Node) : nat :=
  (groupWeight name n
   + match n with
     | Regex pattern flags => countOf name pattern + countOf name flags
     | Alternative elements | CharacterClass _ _ elements =>
         list_sum (map (countOf name) elements)
     | AbsentFunction _ alternatives | CapturingGroup _ _ alternatives
     | Group _ _ alternatives | Pattern alternatives
     | LookaroundAssertion _ _ alternatives => list_sum (map (countOf name) alternatives)
     | CharacterClassRange min max => countOf name min + countOf name max
     | Quantifier _ _ _ element => countOf name element
     | _ => 0
     end)%nat.

Definition captureCount (n : Node) : nat := countOf None n.

Definition namedCount (name : string) (n : Node) : nat := countOf (Some name) n.

Definition countsOf (name : option string) (l : list Node) : nat :=
  list_sum (map (countOf name) l).

(** The groups the parser has counted: all of them, or those of a
    name. *)
Definition ctxCount (name : option string) (ctx : Context) : nat :=
  match name with
  | None => length (capturingGroups ctx)
  | Some name => length (default [] (namedGroupsByName ctx !! name))
  end.

(** The subroutines of a tree, and its references: backreferences and
    subroutines. *)
Fixpoint subroutinesOf (n : Node) : list Node :=
  match n with
  | Subroutine _ => [n]
  | Regex pattern flags => subroutinesOf pattern ++ subroutinesOf flags
  | Alternative elements | CharacterClass _ _ elements => flat_map subroutinesOf elements
  | AbsentFunction _ alternatives | CapturingGroup _ _ alternatives
  | Group _ _ alternatives | Pattern alternatives
  | LookaroundAssertion _ _ alternatives => flat_map subroutinesOf alternatives
  | CharacterClassRange min max => subroutinesOf min ++ subroutinesOf max
  | Quantifier _ _ _ element => subroutinesOf element
  | _ => []
  end.

Fixpoint refsOf (n : Node) : list Node :=
  match n with
  | Subroutine _ | Backreference _ _ => [n]
  | Regex pattern flags => refsOf pattern ++ refsOf flags
  | Alternative elements | CharacterClass _ _ elements => flat_map refsOf elements
  | AbsentFunction _ alternatives | CapturingGroup _ _ alternatives
  | Group _ _ alternatives | Pattern alternatives
  | LookaroundAssertion _ _ alternatives => flat_map refsOf alternatives
  | CharacterClassRange min max => refsOf min ++ refsOf max
  | Quantifier _ _ _ element => refsOf element
  | _ => []
  end.

(** A reference by number: a backreference by number, or a subroutine
    that calls a group by its number (not the whole pattern, number 0). *)
Definition isNumberedRef (r : Node) : bool :=
  match r with
  | Backreference (RefNum _) _ => true
  | Subroutine (RefNum (Int n)) => 1 <=? n
  | _ => false
  end.

(** What the context knows of a reference: a reference by number has set
    [hasNumberedRef], and the name of a backreference is the name of a
    group opened before. *)
Definition refKnown (ctx : Context) (r : Node) : Prop :=
  (isNumberedRef r = true -> hasNumberedRef ctx = true)
  /\ match r with
     | Backreference (RefName name) _ => (1 <= ctxCount (Some name) ctx)%nat
     | _ => True
     end.

(** No name of [namedGroupsByName] is without a group. *)
Definition namesInUse (ctx : Context) : Prop :=
  forall name groups, namedGroupsByName ctx !! name = Some groups -> groups <> [].

(** A node is tidy in a context: it is well formed for every bound [N]
    on the groups that the groups opened so far respect, its subroutines
    are on the list of the context, and the context knows its
    references. *)
Definition Tidy (P : nat -> Node -> bool) (N : nat) (ctx : Context) (n : Node) : Prop :=
  ((length (capturingGroups ctx) <= N)%nat -> allNodes (P N) n = true)
  /\ Forall (fun s => s ∈ subroutines ctx) (subroutinesOf n)
  /\ Forall (refKnown ctx) (refsOf n).

(** What a call leaves of the context: an option, and the lists and the
    flag only grow. *)
Definition Grown (ctx ctx' : Context) : Prop :=
  skipBackrefValidation ctx' = skipBackrefValidation ctx
  /\ (forall name, ctxCount name ctx <= ctxCount name ctx')%nat
  /\ (forall s, s ∈ subroutines ctx -> s ∈ subroutines ctx')
  /\ (hasNumberedRef ctx = true -> hasNumberedRef ctx' = true)
  /\ (namesInUse ctx -> namesInUse ctx').

Definition captureCounts (l : list Node) : nat := countsOf None l.

(** What a call of [walk] guarantees when it returns, in a parse that
    allows orphans or not ([allowOrphan]). *)
Definition TidyWalk (P : bool -> nat -> Node -> bool) (allowOrphan : bool) (W : Walk)
  : Prop :=
  forall N ctx parent state node parent' ctx',
    W ctx parent state = Ok (node, parent', ctx') ->
    skipBackrefValidation ctx = allowOrphan ->
    Grown ctx ctx'
    /\ (forall name,
          ctxCount name ctx' + countsOf name parent
          = ctxCount name ctx + countOf name node + countsOf name parent')%nat
    /\ (namesInUse ctx ->
        Forall (Tidy (P allowOrphan) N ctx) parent ->
        Tidy (P allowOrphan) N ctx' node
        /\ Forall (Tidy (P allowOrphan) N ctx') parent').

(** ** Visitors that only read

    A callback only skips when [skip()] is the one operation of the path
    it ever calls, and a visitor is read-only when its callbacks all are
    so: a [Callback] assigns to no node, so such a visitor reads the tree
    and its state and writes its state only. *)
Definition onlySkips {St : Type} (fn : option (Callback St)) : Prop :=
  forall path s, Forall (fun a => a = skip) (callbackResult fn path s).1.

Definition readOnly {St : Type} (visitor : Visitor St) : Prop :=
  onlySkips (enterAllFn visitor) /\ onlySkips (exitAllFn visitor)
  /\ forall ty, onlySkips (enterThisFn visitor ty) /\ onlySkips (exitThisFn visitor ty).

(** The variables of a call that has changed nothing, with
    [skipTraversingKidsOfPath] as it may be. *)
Definition keptFrame (node : Node) (loc : Loc) (skipped : bool) : Frame :=
  {| fr_node := node; fr_keyShift := 0; fr_skip := skipped; fr_replaced := false;
     fr_loc := loc |}.

(** A walk [recur] of the nodes that returns and leaves each node as it
    is, on the trees it has fuel for. *)
Definition Preserves {St : Type} (fuel : nat) (recur : TraverseNode St) : Prop :=
  forall n, (nodeFuel n <= fuel)%nat -> noHoles n = true ->
    forall loc s,
      loc = AtRoot \/ occupies n loc ->
      exists skipped s', recur n loc s = Ok (keptFrame n loc skipped, s').

(** ** A visitor that removes the siblings

    [sweeper before after] records every node it enters, calls
    [removeAllNextSiblings()] on the nodes [after] holds for and then
    [removeAllPrevSiblings()] on those [before] holds for, in this order:
    [removeAllNextSiblings()] reads [key] as the call received it, so after
    [removeAllPrevSiblings()] it would cut at another place.  [swept] is
    the tree such a walk leaves and [met] its record.  In an array the
    walk goes from left to right: an element [before] holds for drops what
    the array has before it, and after an element [after] holds for the
    array ends. *)
Definition sweeper (before after : Node -> bool) : Visitor (list Node) := {|
  anyType :=
    Some {| enter := Some (fun path log =>
                       ((if after (path_node path) then [removeAllNextSiblings] else [])
                        ++ (if before (path_node path) then [removeAllPrevSiblings] else []),
                        log ++ [path_node path]));
            exit := None |};
  thisType := fun _ => None;
|}.

Definition sweepArray (before after : Node -> bool) (f : Node -> Node)
  : list Node -> list Node -> list Node :=
  fix go acc rest :=
    match rest with
    | [] => acc
    | el :: rest =>
        let acc := (if before el then [] else acc) ++ [f el] in
        if after el then acc else go acc rest
    end.

Definition metArray (after : Node -> bool) (g : Node -> list Node)
  : list Node -> list Node :=
  fix go rest :=
    match rest with
    | [] => []
    | el :: rest => g el ++ (if after el then [] else go rest)
    end.

Fixpoint swept (before after : Node -> bool) (n : Node) : Node :=
  let sweptOf := sweepArray before after (swept before after) [] in
  match n with
  | Regex pattern flags => Regex (swept before after pattern) (swept before after flags)
  | Alternative elements => Alternative (sweptOf elements)
  | CharacterClass kind negate elements => CharacterClass kind negate (sweptOf elements)
  | AbsentFunction kind alternatives => AbsentFunction kind (sweptOf alternatives)
  | CapturingGroup number name alternatives =>
      CapturingGroup number name (sweptOf alternatives)
  | Group atomic flags alternatives => Group atomic flags (sweptOf alternatives)
  | Pattern alternatives => Pattern (sweptOf alternatives)
  | LookaroundAssertion kind negate alternatives =>
      LookaroundAssertion kind negate (sweptOf alternatives)
  | CharacterClassRange min max =>
      CharacterClassRange (swept before after min) (swept before after max)
  | Quantifier kind min max element => Quantifier kind min max (swept before after element)
  | _ => n
  end.

Fixpoint met (before after : Node -> bool) (n : Node) : list Node :=
  let metOf := metArray after (met before after) in
  n :: match n with
       | Regex pattern flags => met before after pattern ++ met before after flags
       | Alternative elements | CharacterClass _ _ elements => metOf elements
       | AbsentFunction _ alternatives | CapturingGroup _ _ alternatives
       | Group _ _ alternatives | Pattern alternatives
       | LookaroundAssertion _ _ alternatives => metOf alternatives
       | CharacterClassRange min max => met before after min ++ met before after max
       | Quantifier _ _ _ element => met before after element
       | _ => []
       end.

(** The trees [sweeper before after] walks to the end: no hole, and in a
    slot no node that [before] or [after] holds for: the two operations
    throw there. *)
Fixpoint sweepable (before after : Node -> bool) (n : Node) : bool :=
  let plain := fun el => negb (before el) && negb (after el) in
  match n with
  | Regex pattern flags =>
      plain pattern && plain flags
      && sweepable before after pattern && sweepable before after flags
  | Alternative elements | CharacterClass _ _ elements =>
      forallb (sweepable before after) elements
  | AbsentFunction _ alternatives | CapturingGroup _ _ alternatives
  | Group _ _ alternatives | Pattern alternatives
  | LookaroundAssertion _ _ alternatives => forallb (sweepable before after) alternatives
  | CharacterClassRange min max =>
      plain min && plain max && sweepable before after min && sweepable before after max
  | Quantifier _ _ _ element => plain element && sweepable before after element
  | Undefined => false
  | _ => true
  end.

(** The variables of the call once the node [n], between [pre] and
    [rest] in its array, is walked. *)
Definition sweptFrame (before after : Node -> bool) (up : Node -> Node) (parent : Node)
    (pre rest : list Node) (n : Node) : Frame :=
  {| fr_node := swept before after n;
     fr_keyShift := if before n then - Z.of_nat (length pre) else 0;
     fr_skip := false;
     fr_replaced := false;
     fr_loc := InArray up parent (length pre)
                 ((if before n then [] else pre)
                  ++ swept before after n :: (if after n then [] else rest)) |}.

(** A walk [recur] of the nodes that does what [sweeper before after]
    does, on the trees it has fuel for. *)
Definition Sweeps (before after : Node -> bool) (fuel : nat)
    (recur : TraverseNode (list Node)) : Prop :=
  forall n, (nodeFuel n <= fuel)%nat -> sweepable before after n = true ->
    forall loc log,
      (before n = false -> after n = false ->
       recur n loc log
       = Ok (write_back (newFrame n loc) (swept before after n),
             log ++ met before after n))
      /\ (forall up parent pre rest,
            loc = InArray up parent (length pre) (pre ++ n :: rest) ->
            recur n loc log
            = Ok (sweptFrame before after up parent pre rest n,
                  log ++ met before after n)).

(** ** unwrap-classes.js

    The transform of the file (its default export) and the
    [CharacterClass] callback it consists of.  [newNode] is what the
    callback replaces the class with, if anything; the callback reads
    [parent.type] first, which throws at the root, where [parent] is
    [null].  The option of its call of [replaceWith] is one this traverser
    does not read. *)
Module UnwrapClasses.

Definition newNode (parent node : Node) : option Node :=
  match node with
  | CharacterClass kind negate elements =>
      if negb (bool_decide (type_of parent = Some TCharacterClass))
         && negb negate
         && match kind with NodeCharacterClassKinds.union => true | _ => false end
         && bool_decide (length elements = 1%nat)
      then
        match elements with
        | (Character _ | CharacterSet _ _ _ _) as firstEl :: _ => Some firstEl
        | _ => None
        end
      else None
  | _ => None
  end.

Definition CharacterClass {St : Type} : Callback St := fun path state =>
  match path_parent path with
  | None => ([raise TypeError], state)
  | Some parent =>
      match newNode parent (path_node path) with
      | Some firstEl => ([replaceWith firstEl], state)
      | None => ([], state)
      end
  end.

Definition transform {St : Type} : Visitor St := {|
  anyType := None;
  thisType := fun ty =>
    match ty with
    | TCharacterClass => Some {| enter := Some CharacterClass; exit := None |}
    | _ => None
    end;
|}.

End UnwrapClasses.

(** What the [CharacterClass] callback of [unwrapNegationWrappers]
    replaces the class with, if anything, under a parent. *)
Definition unwrapNegationWrappers_newNode (parent node : Node) : option Node :=
  match node with
  | CharacterClass NodeCharacterClassKinds.union true [kid] =>
      match kid with
      | CharacterSet _ _ _ _ => Some (flipNegate kid)
      | _ =>
          if negb (bool_decide (type_of parent = Some TCharacterClass))
             && isNewlineCharacter kid && notUnderNonLazyQuantifier parent
          then Some (createCharacterSet NodeCharacterSetKinds.newline true)
          else None
      end
  | _ => None
  end.

(** ** Visitors that replace classes

    [shell n] is the node [n] without its children.  A visitor replaces
    classes by [newNode] when its one callback is the [enter] callback on
    character classes, and that callback calls [replaceWith(x)] where
    [newNode parent node] is [x] and nothing where it is nothing.
    [rewriteClasses newNode n] is the tree such a walk leaves of [n]:
    below every node, a class that [newNode] has a node for gives way to
    that node, and the walk goes on below every other child. *)
Definition shell (n : Node) : Node :=
  match n with
  | Regex _ _ => Regex Undefined Undefined
  | Alternative _ => Alternative []
  | CharacterClass kind negate _ => CharacterClass kind negate []
  | AbsentFunction kind _ => AbsentFunction kind []
  | CapturingGroup number name _ => CapturingGroup number name []
  | Group atomic flags _ => Group atomic flags []
  | Pattern _ => Pattern []
  | LookaroundAssertion kind negate _ => LookaroundAssertion kind negate []
  | CharacterClassRange _ _ => CharacterClassRange Undefined Undefined
  | Quantifier kind min max _ => Quantifier kind min max Undefined
  | _ => n
  end.

Definition replacesClasses {St : Type} (visitor : Visitor St)
    (newNode : Node -> Node -> option Node) : Prop :=
  enterAllFn visitor = None /\ exitAllFn visitor = None
  /\ (forall ty, exitThisFn visitor ty = None)
  /\ (forall ty, ty <> TCharacterClass -> enterThisFn visitor ty = None)
  /\ forall path s parent,
       path_parent path = Some parent ->
       callbackResult (enterThisFn visitor TCharacterClass) path s
       = (match newNode parent (path_node path) with
          | Some x => [replaceWith x]
          | None => []
          end, s).

Definition newNodeOf (newNode : Node -> Node -> option Node) (parent child : Node)
  : option Node :=
  match child with
  | CharacterClass _ _ _ => newNode parent child
  | _ => None
  end.

Fixpoint rewriteClasses (newNode : Node -> Node -> option Node) (n : Node) : Node :=
  let child := fun c =>
    match newNodeOf newNode n c with
    | Some x => x
    | None => rewriteClasses newNode c
    end in
  match n with
  | Regex pattern flags => Regex (child pattern) (child flags)
  | Alternative elements => Alternative (map child elements)
  | CharacterClass kind negate elements => CharacterClass kind negate (map child elements)
  | AbsentFunction kind alternatives => AbsentFunction kind (map child alternatives)
  | CapturingGroup number name alternatives =>
      CapturingGroup number name (map child alternatives)
  | Group atomic flags alternatives => Group atomic flags (map child alternatives)
  | Pattern alternatives => Pattern (map child alternatives)
  | LookaroundAssertion kind negate alternatives =>
      LookaroundAssertion kind negate (map child alternatives)
  | CharacterClassRange min max => CharacterClassRange (child min) (child max)
  | Quantifier kind min max element => Quantifier kind min max (child element)
  | _ => n
  end.

(** The child [c] of the node [parent] after the walk. *)
Definition rewriteChild (newNode : Node -> Node -> option Node) (parent c : Node) : Node :=
  match newNodeOf newNode parent c with
  | Some x => x
  | None => rewriteClasses newNode c
  end.

(** What [newNode] must be like: it reads of the parent what [shell]
    keeps, and what it returns is a character or a character set. *)
Definition readsShell (newNode : Node -> Node -> option Node) : Prop :=
  forall parent node, newNode parent node = newNode (shell parent) node.

Definition returnsLeaf (newNode : Node -> Node -> option Node) : Prop :=
  forall parent node x, newNode parent node = Some x ->
    match x with
    | Character _ | CharacterSet _ _ _ _ => True
    | _ => False
    end.

(** The parent a callback sees at a place. *)
Definition parentAt (loc : Loc) : option Node :=
  match loc with
  | AtRoot => None
  | InSlot _ parent _ => Some parent
  | InArray _ parent _ container => Some (set_array parent container)
  end.

(** A walk [recur] of the nodes that replaces the classes by [newNode],
    on the trees it has fuel for. *)
Definition ReplacesClasses {St : Type} (newNode : Node -> Node -> option Node) (fuel : nat)
    (recur : TraverseNode St) : Prop :=
  forall n, (nodeFuel n <= fuel)%nat -> noHoles n = true ->
    forall loc s,
      match parentAt loc with
      | None =>
          type_of n <> Some TCharacterClass ->
          recur n loc s = Ok (write_back (newFrame n loc) (rewriteClasses newNode n), s)
      | Some parent =>
          occupies n loc ->
          recur n loc s
          = Ok ({| fr_node := rewriteChild newNode parent n;
                   fr_keyShift := 0;
                   fr_skip := false;
                   fr_replaced := bool_decide (is_Some (newNodeOf newNode parent n));
                   fr_loc := replacedLoc loc (rewriteChild newNode parent n) |}, s)
      end.

(** The children of a node, in the order of the walk. *)
Definition childrenOf (n : Node) : list Node :=
  match n with
  | Regex pattern flags => [pattern; flags]
  | Alternative elements | CharacterClass _ _ elements => elements
  | AbsentFunction _ alternatives | CapturingGroup _ _ alternatives
  | Group _ _ alternatives | Pattern alternatives
  | LookaroundAssertion _ _ alternatives => alternatives
  | CharacterClassRange min max => [min; max]
  | Quantifier _ _ _ element => [element]
  | _ => []
  end.

(** [newNode] is settled when a class it has nothing for stays one it
    has nothing for once the walk has been below it. *)
Definition settledOn (newNode : Node -> Node -> option Node) : Prop :=
  forall parent c,
    newNodeOf newNode parent c = None ->
    newNodeOf newNode parent (rewriteClasses newNode c) = None.

(** The operations of a path that need the container of the node. *)
Definition needsContainer (a : Action) : bool :=
  match a with
  | remove | removeAllNextSiblings | removeAllPrevSiblings => true
  | _ => false
  end.

(** ** alternation-to-class.ts

    What the callback of [alternationToClass] leaves of a node: its loop
    over [node.alternatives] with the variables [newAlts] and [ccNodes],
    and the assignment of [newAlts] to [node.alternatives].  The nodes of
    [alternativeContainerTypes] are those of the type
    [AlternativeContainerNode], the nodes with [alternatives];
    [universalCharacterSetKinds] is a set of node-utils.js. *)
Section AlternationToClass.

Variable universalCharacterSetKinds : NodeCharacterSetKind -> bool.

Definition createAlternativeWithCombinedNodes (nodes : list Node) : Node :=
  let node :=
    match nodes with
    | [] => None
    | [node] => Some node
    | _ => Some (set_elements (createCharacterClass NodeCharacterClassKinds.union false) nodes)
    end in
  match node with
  | Some node => set_elements createAlternative [node]
  | None => createAlternative
  end.

(** The test of the loop on [kid]. *)
Definition isSingleLength (kid : Node) : bool :=
  match kid with
  | Character _ | CharacterClass _ _ _ => true
  | CharacterSet kind _ _ _ => universalCharacterSetKinds kind
  | _ => false
  end.

(** The element of an alternative that goes to [ccNodes], if any. *)
Definition singleLengthKid (elements : list Node) : option Node :=
  match elements with
  | [kid] => if isSingleLength kid then Some kid else None
  | _ => None
  end.

(** [newAlts] once the nodes of [ccNodes] are pushed as one
    alternative. *)
Definition flushed (newAlts ccNodes : list Node) : list Node :=
  match ccNodes with
  | [] => newAlts
  | _ => newAlts ++ [createAlternativeWithCombinedNodes ccNodes]
  end.

Fixpoint alternationToClass_loop (alternatives newAlts ccNodes : list Node)
  : result (list Node) :=
  match alternatives with
  | [] => Ok (flushed newAlts ccNodes)
  | alt :: rest =>
      match elements_of alt with
      | None => Throw TypeError
      | Some elements =>
          match singleLengthKid elements with
          | Some kid => alternationToClass_loop rest newAlts (ccNodes ++ [kid])
          | None => alternationToClass_loop rest (flushed newAlts ccNodes ++ [alt]) []
          end
      end
  end.

Definition alternationToClass_node (node : Node) : result Node :=
  match alternatives_of node with
  | None => Ok node
  | Some alternatives =>
      newAlts ← alternationToClass_loop alternatives [] [];
      Ok (set_alternatives node newAlts)
  end.

(** An alternative with one element of single length, and a list of
    alternatives with no two of them side by side. *)
Definition isSingle (alt : Node) : bool :=
  match alt with
  | Alternative [kid] => isSingleLength kid
  | _ => false
  end.

(** An alternative the loop reads without a throw, and after which it
    writes the same alternative. *)
Definition steady (alt : Node) : Prop :=
  match elements_of alt with
  | None => False
  | Some elements =>
      singleLengthKid elements = None \/ isSingle alt = true
  end.

Fixpoint fused (alternatives : list Node) : Prop :=
  match alternatives with
  | [] => True
  | alt :: rest =>
      steady alt
      /\ match rest with
         | next :: _ => isSingle alt = true -> isSingle next = false
         | [] => True
         end
      /\ fused rest
  end.

End AlternationToClass.

(** ** use-shorthands.js, the callback on character classes

    The callback reads [node.elements] and assigns it; it calls no
    operation of the path.  It is a function of the path to the node it
    leaves.  [isUnicode] is called with the names of its tables only. *)
Definition hasValue (node : Node) (value : Z) : result bool :=
  match node with
  | Undefined => Throw TypeError
  | Character v => Ok (v =? value)
  | _ => Ok false
  end.

Definition isRange (node : Node) (min max : Z) : result bool :=
  match node with
  | Undefined => Throw TypeError
  | CharacterClassRange lo hi =>
      atMin ← hasValue lo min;
      if (atMin : bool) then hasValue hi max else Ok false
  | _ => Ok false
  end.

Definition fullNames (v : string) : option string :=
  if bool_decide (v = "L") then Some "Letter"
  else if bool_decide (v = "M") then Some "Mark"
  else if bool_decide (v = "N") then Some "Number"
  else if bool_decide (v = "P") then Some "Punctuation"
  else None.

Definition supercategories (v : string) : option string :=
  if bool_decide (v = "Pc") then Some "P" else None.

Definition subcategories (v : string) : option (list string) :=
  if bool_decide (v = "L") then Some ["Ll"; "Lm"; "Lo"; "Lt"; "Lu"]
  else if bool_decide (v = "M") then Some ["Mc"; "Me"; "Mn"]
  else if bool_decide (v = "N") then Some ["Nd"; "Nl"; "No"]
  else None.

(** [expanded], for the options [supercategories] and [subcategories]. *)
Definition expandedNames (names : list string) (supers subs : bool) : list string :=
  flat_map (fun v =>
    [v] ++ option_list (fullNames v)
    ++ (if supers
        then match supercategories v with
             | Some s => s :: option_list (fullNames s)
             | None => []
             end
        else [])
    ++ (if subs then default [] (subcategories v) else [])) names.

Definition isUnicode (node : Node) (names : list string) (supers subs : bool)
  : result bool :=
  match node with
  | Undefined => Throw TypeError
  | CharacterSet kind value negate _ =>
      Ok (bool_decide (kind = NodeCharacterSetKinds.property)
          && negb (default false negate)
          && match value with
             | Some v => bool_decide (v ∈ expandedNames names supers subs)
             | None => false
             end)
  | _ => Ok false
  end.

(** The object [has]. *)
Record Has := {
  range0To10FFFF : bool;
  rangeDigit0To9 : bool;
  rangeAToFLower : bool;
  rangeAToFUpper : bool;
  unicodeL : bool;
  unicodeM : bool;
  unicodeN : bool;
  unicodePc : bool;
}.

Definition hasNothing : Has := {|
  range0To10FFFF := false; rangeDigit0To9 := false;
  rangeAToFLower := false; rangeAToFUpper := false;
  unicodeL := false; unicodeM := false; unicodeN := false; unicodePc := false;
|}.

(** [flag ||= test]: the test is not run once the flag is set. *)
Definition orAssign (flag : bool) (test : result bool) : result bool :=
  if flag then Ok true else test.

(** One turn of the loop over [node.elements]. *)
Definition hasAfter (has : Has) (kid : Node) : result Has :=
  match kid with
  | Undefined => Throw TypeError
  | CharacterClassRange _ _ =>
      r0 ← orAssign (range0To10FFFF has) (isRange kid 0 1114111);
      r1 ← orAssign (rangeDigit0To9 has) (isRange kid 48 57);
      r2 ← orAssign (rangeAToFLower has) (isRange kid 97 102);
      r3 ← orAssign (rangeAToFUpper has) (isRange kid 65 70);
      Ok {| range0To10FFFF := r0; rangeDigit0To9 := r1;
            rangeAToFLower := r2; rangeAToFUpper := r3;
            unicodeL := unicodeL has; unicodeM := unicodeM has;
            unicodeN := unicodeN has; unicodePc := unicodePc has |}
  | CharacterSet _ _ _ _ =>
      u0 ← orAssign (unicodeL has) (isUnicode kid ["L"] false false);
      u1 ← orAssign (unicodeM has) (isUnicode kid ["M"] false false);
      u2 ← orAssign (unicodeN has) (isUnicode kid ["N"] false false);
      u3 ← orAssign (unicodePc has) (isUnicode kid ["Pc"] true false);
      Ok {| range0To10FFFF := range0To10FFFF has; rangeDigit0To9 := rangeDigit0To9 has;
            rangeAToFLower := rangeAToFLower has; rangeAToFUpper := rangeAToFUpper has;
            unicodeL := u0; unicodeM := u1; unicodeN := u2; unicodePc := u3 |}
  | _ => Ok has
  end.

Fixpoint hasOf (has : Has) (elements : list Node) : result Has :=
  match elements with
  | [] => Ok has
  | kid :: rest => has' ← hasAfter has kid; hasOf has' rest
  end.

(** [elements.filter(kid => !drop(kid))]; [filter] passes over the holes
    of an array. *)
Fixpoint filterKids (drop : Node -> result bool) (elements : list Node)
  : result (list Node) :=
  match elements with
  | [] => Ok []
  | Undefined :: rest => filterKids drop rest
  | kid :: rest =>
      dropped ← drop kid;
      kept ← filterKids drop rest;
      Ok (if (dropped : bool) then kept else kid :: kept)
  end.

Definition isHexRange (kid : Node) : result bool :=
  digits ← isRange kid 48 57;
  if (digits : bool) then Ok true
  else lower ← isRange kid 97 102;
       if (lower : bool) then Ok true else isRange kid 65 70.

Definition isAnyRange (kid : Node) : result bool := isRange kid 0 1114111.

Definition isWordProperty (kid : Node) : result bool :=
  isUnicode kid ["L"; "M"; "N"; "Pc"] false true.

(** The elements of a union once the callback is through; [flags] is the
    read of [root.flags], which the callback comes to only when [has]
    holds the four properties. *)
Definition useShorthands_elements (flags : result RegexFlags) (elements : list Node)
  : result (list Node) :=
  has ← hasOf hasNothing elements;
  elements ←
    (if rangeDigit0To9 has && rangeAToFUpper has && rangeAToFLower has
     then kept ← filterKids isHexRange elements;
          Ok (kept ++ [createCharacterSet NodeCharacterSetKinds.hex false])
     else Ok elements);
  elements ←
    (if range0To10FFFF has
     then kept ← filterKids isAnyRange elements;
          anySet ← createUnicodeProperty "Any" false false false None;
          Ok (kept ++ [anySet])
     else Ok elements);
  unicodeWord ←
    (if unicodeL has && unicodeM has && unicodeN has && unicodePc has
     then fl ← flags; Ok (negb (wordIsAscii fl) && negb (posixIsAscii fl))
     else Ok false);
  if (unicodeWord : bool)
  then kept ← filterKids isWordProperty elements;
       Ok (kept ++ [createCharacterSet NodeCharacterSetKinds.word false])
  else Ok elements.

Definition useShorthands_CharacterClass (path : Path) : result Node :=
  match path_node path with
  | CharacterClass NodeCharacterClassKinds.union negate elements =>
      elements ← useShorthands_elements (rootFlags path) elements;
      Ok (CharacterClass NodeCharacterClassKinds.union negate elements)
  | node => Ok node
  end.

(** One property of [has] over the loop, for its test and the value it
    starts from. *)
Fixpoint flagOf (test : Node -> result bool) (flag : bool) (elements : list Node)
  : result bool :=
  match elements with
  | [] => Ok flag
  | kid :: rest => flag' ← orAssign flag (test kid); flagOf test flag' rest
  end.

(** ** A visitor that unwraps the groups

    [unwrapper inWildcard traverseNew] is the visitor of the test of the
    traverser with a record of the nodes it enters.  On every group it
    calls [replaceWithMultiple] with [node.alternatives[0].elements] and
    the option [traverse: traverseNew], from its wildcard callback if
    [inWildcard] and from its callback on groups if not; the call throws
    when there is no such array.
    [unwrapped n] is what such a walk leaves in the place of [n] in an
    array: the nodes a group gives way to, or the node itself once its
    children are walked, which is [walked n].  [unwrapLog n] is the record
    of the walk of [n]. *)
Definition unwrapCalls (traverseNew : bool) (node : Node) : list Action :=
  match node with
  | Group _ _ alternatives =>
      match head alternatives ≫= elements_of with
      | Some els => [replaceWithMultiple els traverseNew]
      | None => [raise TypeError]
      end
  | _ => []
  end.

Definition unwrapper (inWildcard traverseNew : bool) : Visitor (list Node) := {|
  anyType :=
    Some {| enter := Some (fun path log =>
                       (if inWildcard then unwrapCalls traverseNew (path_node path) else [],
                        log ++ [path_node path]));
            exit := None |};
  thisType := fun ty =>
    match ty with
    | TGroup =>
        Some {| enter := Some (fun path log =>
                           (if inWildcard then []
                            else unwrapCalls traverseNew (path_node path), log));
                exit := None |}
    | _ => None
    end;
|}.

Definition isGroup (n : Node) : bool :=
  match n with
  | Group _ _ _ => true
  | _ => false
  end.

Fixpoint unwrapped (traverseNew : bool) (n : Node) : list Node :=
  let many := flat_map (unwrapped traverseNew) in
  let one := fun c => hd c (unwrapped traverseNew c) in
  match n with
  | Group _ _ alternatives =>
      match alternatives with
      | Alternative els :: _ => if traverseNew then many els else els
      | _ => [n]
      end
  | Regex pattern flags => [Regex (one pattern) (one flags)]
  | Alternative elements => [Alternative (many elements)]
  | CharacterClass kind negate elements => [CharacterClass kind negate (many elements)]
  | AbsentFunction kind alternatives => [AbsentFunction kind (many alternatives)]
  | CapturingGroup number name alternatives =>
      [CapturingGroup number name (many alternatives)]
  | Pattern alternatives => [Pattern (many alternatives)]
  | LookaroundAssertion kind negate alternatives =>
      [LookaroundAssertion kind negate (many alternatives)]
  | CharacterClassRange min max => [CharacterClassRange (one min) (one max)]
  | Quantifier kind min max element => [Quantifier kind min max (one element)]
  | _ => [n]
  end.

Definition walked (traverseNew : bool) (n : Node) : Node :=
  hd n (unwrapped traverseNew n).

Fixpoint unwrapLog (traverseNew : bool) (n : Node) : list Node :=
  let many := flat_map (unwrapLog traverseNew) in
  n :: match n with
       | Group _ _ alternatives =>
           match alternatives with
           | Alternative els :: _ => if traverseNew then many els else []
           | _ => []
           end
       | Regex pattern flags => unwrapLog traverseNew pattern ++ unwrapLog traverseNew flags
       | Alternative elements | CharacterClass _ _ elements => many elements
       | AbsentFunction _ alternatives | CapturingGroup _ _ alternatives
       | Pattern alternatives | LookaroundAssertion _ _ alternatives => many alternatives
       | CharacterClassRange min max => unwrapLog traverseNew min ++ unwrapLog traverseNew max
       | Quantifier _ _ _ element => unwrapLog traverseNew element
       | _ => []
       end.

(** The trees [unwrapper] walks to the end: no hole where the walk comes,
    no group in a slot, where [replaceWithMultiple] throws, and in every
    group a first alternative. *)
Fixpoint unwrappable (traverseNew : bool) (n : Node) : bool :=
  let all := forallb (unwrappable traverseNew) in
  match n with
  | Group _ _ alternatives =>
      match alternatives with
      | Alternative els :: _ => if traverseNew then all els else true
      | _ => false
      end
  | Regex pattern flags =>
      negb (isGroup pattern) && negb (isGroup flags)
      && unwrappable traverseNew pattern && unwrappable traverseNew flags
  | Alternative elements | CharacterClass _ _ elements => all elements
  | AbsentFunction _ alternatives | CapturingGroup _ _ alternatives
  | Pattern alternatives | LookaroundAssertion _ _ alternatives => all alternatives
  | CharacterClassRange min max =>
      negb (isGroup min) && negb (isGroup max)
      && unwrappable traverseNew min && unwrappable traverseNew max
  | Quantifier _ _ _ element => negb (isGroup element) && unwrappable traverseNew element
  | Undefined => false
  | _ => true
  end.

(** The variables of the call once the group [n], between [pre] and
    [rest] in its array, has given way. *)
Definition unwrappedFrame (traverseNew : bool) (up : Node -> Node) (parent : Node)
    (pre rest : list Node) (n : Node) : Frame :=
  {| fr_node := n;
     fr_keyShift := Z.of_nat (length (unwrapped traverseNew n)) - 1;
     fr_skip := true;
     fr_replaced := false;
     fr_loc := InArray up parent (length pre) (pre ++ unwrapped traverseNew n ++ rest) |}.

(** A walk [recur] of the nodes that does what [unwrapper] does, on the
    trees it has fuel for. *)
Definition Unwraps (traverseNew : bool) (fuel : nat) (recur : TraverseNode (list Node))
  : Prop :=
  forall n, (nodeFuel n <= fuel)%nat -> unwrappable traverseNew n = true ->
    forall loc log,
      (isGroup n = false ->
       recur n loc log
       = Ok (write_back (newFrame n loc) (walked traverseNew n),
             log ++ unwrapLog traverseNew n))
      /\ (isGroup n = true ->
          forall up parent pre rest,
            loc = InArray up parent (length pre) (pre ++ n :: rest) ->
            recur n loc log
            = Ok (unwrappedFrame traverseNew up parent pre rest n,
                  log ++ unwrapLog traverseNew n)).

(** * Properties *)

(** ** Facts about the helpers *)

Example normalize_camel :
  normalizeUnicodePropertyName " ScriptExtensions-x " = "Script_Extensions_X" /\
  normalizeUnicodePropertyName "old  italic" = "Old_Italic".
Proof. split; reflexivity. Qed.

Example slug_example : slug "Decimal_Number" = "decimalnumber".
Proof. reflexivity. Qed.

Example numberedRef_example :
  backref_numberedRef "-012" = Some (true, 12) /\ backref_numberedRef "0" = None /\
  backref_numberedRef "1a" = None /\ slice_3_m1 "\k<-2>" = "-2".
Proof. repeat split; reflexivity. Qed.


Lemma bind_Ok {A B : Type} (r : result A) (k : A -> result B) (b : B) :
  r ≫= k = Ok b -> exists a, r = Ok a /\ k a = Ok b.
Proof. destruct r as [a | msg |]; simpl; intros H; try discriminate. eauto. Qed.

Lemma at_last_app {A : Type} (l : list A) (x : A) : at_last (l ++ [x]) = Some x.
Proof. unfold at_last. apply last_snoc. Qed.

Lemma set_last_app {A : Type} (l : list A) (x y : A) : set_last (l ++ [x]) y = l ++ [y].
Proof.
  unfold set_last. destruct (l ++ [x]) eqn:E.
  - destruct l; discriminate.
  - rewrite <- E. now rewrite removelast_last.
Qed.

Lemma at_last_Some_app {A : Type} (l : list A) (x : A) :
  at_last l = Some x -> exists l', l = l' ++ [x].
Proof.
  unfold at_last. intros H. destruct (last_Some l x) as [[l' ->] _]; eauto.
Qed.

(** ** The parser *)

Arguments parseCharacterSet : simpl never.
Arguments parseBackreference : simpl never.
Arguments parseSubroutine : simpl never.
Arguments parseQuantifier : simpl never.
Arguments parseCharacterClassHyphen : simpl never.
Arguments parseCharacterClassOpen : simpl never.
Arguments parseGroupOpen : simpl never.
Arguments createAssertionFromToken : simpl never.
Arguments createCharacter : simpl never.
Arguments createDirective : simpl never.

Section ParserFacts.

Variable PosixClassNames : gset string.
Variable isValidGroupName : string -> bool.
Variable tokenize : string -> TokenizerOptions -> string + Tokenized.

Local Abbreviation walk := (walk PosixClassNames isValidGroupName).


Lemma createQuantifier_ordered element min max kind :
  num_lt max min = false ->
  createQuantifier element min max kind = Quantifier kind min max element.
Proof. unfold createQuantifier. now intros ->. Qed.


(** The scenario of the specification: the pattern [a{3,1}], for any
    tokenizer that reads it as the character [a] and a quantifier with
    the bounds 3 and 1. *)
Example parse_a_3_1 fl kind :
  tokenize "a{3,1}" {| tk_flags := ""; tk_captureGroup := false; tk_singleline := false |}
    = inr {| tokenized_tokens := [CharacterToken 97; QuantifierToken (Int 3) (Int 1) kind];
             tokenized_flags := fl |} ->
  parse PosixClassNames isValidGroupName tokenize "a{3,1}" defaultOptions =
    Ok (Regex (Pattern [Alternative [Quantifier possessive (Int 1) (Int 3) (Character 97)]])
          (Flags fl)).
Proof. unfold parse. simpl. intros ->. reflexivity. Qed.



End ParserFacts.



(** ** The transforms *)

(** The body of the callback returns or throws. *)
Lemma rootFlags_returns path : rootFlags path <> OutOfFuel.
Proof. unfold rootFlags. repeat case_match; discriminate. Qed.

Lemma useShorthands_newNode_returns path : useShorthands_newNode path <> OutOfFuel.
Proof.
  unfold useShorthands_newNode.
  destruct (path_node path); try discriminate.
  pose proof (rootFlags_returns path) as Hfl.
  destruct (rootFlags path) as [fl | msg |]; [| | contradiction];
    repeat (cbn [mbind result_bind];
            match goal with
            | |- (if ?b then _ else _) <> _ => destruct b
            | |- ((if ?b then _ else _) ≫= _) <> _ => destruct b
            | |- (match ?x with _ => _ end) <> _ => destruct x
            end);
    cbn [mbind result_bind]; discriminate.
Qed.

(** The callback alone, on a path that has a [root]: with the flags [fl]
    at the root, the callback of [useShorthands] replaces the property
    sets [\p{Decimal_Number}] and [\p{Nd}] with [\d] exactly when neither
    [digitIsAscii] nor [posixIsAscii] is set, and leaves them alone
    otherwise; it replaces the POSIX set [digit] (the parse of
    [\p{digit}] and of [[:digit:]]) with [\d] whatever the flags, and
    whatever the root.  The replacement keeps [negate]. *)
Lemma useShorthands_digit {St : Type} (state : St) parent key container ast root
    pattern fl negate variableLength value :
  let path := fun kind root =>
    {| path_node := CharacterSet kind (Some value) (Some negate) variableLength;
       path_parent := parent; path_key := key; path_container := container;
       path_ast := ast; path_root := root |} in
  let digitSet := CharacterSet NodeCharacterSetKinds.digit None (Some negate) false in
  (value = "Decimal_Number" \/ value = "Nd" ->
   useShorthands_CharacterSet
     (path NodeCharacterSetKinds.property (Some (Regex pattern (Flags fl)))) state
   = (if negb (digitIsAscii fl) && negb (posixIsAscii fl)
      then [replaceWith digitSet] else [], state))
  /\ (value = "digit" ->
      useShorthands_CharacterSet (path NodeCharacterSetKinds.posix root) state
      = ([replaceWith digitSet], state)).
Proof.
  intros path digitSet. split.
  - intros [-> | ->]; unfold useShorthands_CharacterSet, useShorthands_newNode; simpl;
      destruct (digitIsAscii fl), (posixIsAscii fl); reflexivity.
  - intros ->. reflexivity.
Qed.

(** The callback alone: on a negated union class whose one element is
    the character 10, outside a class, the callback of
    [unwrapNegationWrappers] replaces the class with the negated newline
    set [\N]; but under a quantifier that is not lazy it does nothing. *)
Lemma unwrapNegationWrappers_newline_callback {St : Type} (state : St) parent key container ast
    root :
  type_of parent <> Some TCharacterClass ->
  let path :=
    {| path_node := CharacterClass NodeCharacterClassKinds.union true [Character 10];
       path_parent := Some parent; path_key := key; path_container := container;
       path_ast := ast; path_root := root |} in
  unwrapNegationWrappers_CharacterClass path state
  = (match parent with
     | Quantifier greedy _ _ _ | Quantifier possessive _ _ _ => []
     | _ => [replaceWith (CharacterSet NodeCharacterSetKinds.newline None (Some true) false)]
     end, state).
Proof.
  intros Hparent path. unfold unwrapNegationWrappers_CharacterClass. simpl.
  rewrite bool_decide_eq_false_2 by assumption. simpl.
  destruct parent as [| | | | | | | | | | | | | |k ? ? ?| | | |]; try reflexivity.
  destruct k; reflexivity.
Qed.

(** The scenario of the specification through [traverse]: [[^\n]] as an
    element becomes [\N], under [{2}] it stays, and under the lazy [{2}?]
    it becomes [\N]. *)
Example unwrapNegationWrappers_scenario :
  traverse 8 (regexOf [notNewlineClass] noFlags) tt unwrapNegationWrappers
  = Ok (regexOf [notNewlineSet] noFlags, tt)
  /\ traverse 8 (regexOf [Quantifier greedy (Int 2) (Int 2) notNewlineClass] noFlags) tt
       unwrapNegationWrappers
     = Ok (regexOf [Quantifier greedy (Int 2) (Int 2) notNewlineClass] noFlags, tt)
  /\ traverse 8 (regexOf [Quantifier lazy (Int 2) (Int 2) notNewlineClass] noFlags) tt
       unwrapNegationWrappers
     = Ok (regexOf [Quantifier lazy (Int 2) (Int 2) notNewlineSet] noFlags, tt).
Proof. repeat split; vm_compute; reflexivity. Qed.

(** The tests of [useShorthands] on [\d], on the sets of the patterns
    with the flag [D], with the flag [P] and without them: the callback on
    [\p{Nd}], [\P{Nd}] and [[:^digit:]], on a path that has a [root]. *)
Example useShorthands_scenario :
  let calls := fun set fl =>
    (useShorthands_CharacterSet
       {| path_node := set; path_parent := Some (Alternative [set]);
          path_key := KeyIndex 0; path_container := Some [set];
          path_ast := regexOf [set] fl; path_root := Some (regexOf [set] fl) |} tt).1 in
  let nd := fun negate =>
    CharacterSet NodeCharacterSetKinds.property (Some "Nd") (Some negate) false in
  let posixDigit := fun negate =>
    CharacterSet NodeCharacterSetKinds.posix (Some "digit") (Some negate) false in
  let d := fun negate => CharacterSet NodeCharacterSetKinds.digit None (Some negate) false in
  let flagD := {| ignoreCase := false; dotAll := false; extended := false;
                  digitIsAscii := true; posixIsAscii := false; spaceIsAscii := false;
                  wordIsAscii := false; textSegmentMode := None |} in
  let flagP := {| ignoreCase := false; dotAll := false; extended := false;
                  digitIsAscii := false; posixIsAscii := true; spaceIsAscii := false;
                  wordIsAscii := false; textSegmentMode := None |} in
  calls (nd false) noFlags = [replaceWith (d false)]
  /\ calls (nd true) noFlags = [replaceWith (d true)]
  /\ calls (posixDigit true) noFlags = [replaceWith (d true)]
  /\ calls (nd false) flagD = []
  /\ calls (nd false) flagP = []
  /\ calls (posixDigit false) flagD = [replaceWith (d false)]
  /\ calls (posixDigit false) flagP = [replaceWith (d false)].
Proof. repeat split; reflexivity. Qed.

(** ** The lookbehind rule *)

(** The rule on the elements of a group: in a tree that obeys it, every
    element of every alternative of a group is allowed where the group
    lies, a lookbehind counting as inside itself. *)
Lemma lookbehindOk_elements checked inLookbehind inNegLookbehind node alternatives
    elements child :
  lookbehindOk checked inLookbehind inNegLookbehind node = true ->
  alternatives_of node = Some alternatives ->
  Alternative elements ∈ alternatives ->
  child ∈ elements ->
  allowedInLookbehind (inLookbehind || isLookbehind node)
    (inNegLookbehind || (isLookbehind node && negate_of node)) child = true.
Proof.
  intros Hok Halts Halt Hchild.
  assert (Hel : forall l n,
             forallb (lookbehindOk false l n) alternatives = true ->
             allowedInLookbehind l n child = true).
  { intros l n Hall. rewrite forallb_forall in Hall.
    specialize (Hall _ (proj1 (list_elem_of_In _ _) Halt)). simpl in Hall.
    rewrite forallb_forall in Hall.
    specialize (Hall _ (proj1 (list_elem_of_In _ _) Hchild)).
    destruct child; simpl in Hall; apply andb_true_iff in Hall as [Hall _]; exact Hall. }
  destruct node; simpl in Halts; try discriminate; injection Halts as <-;
    simpl in Hok; apply andb_true_iff in Hok as [_ Hok].
  - rewrite !orb_false_r. now apply Hel.
  - rewrite !orb_false_r. now apply Hel.
  - rewrite !orb_false_r. now apply Hel.
  - destruct kind; simpl in *; now apply Hel.
  - rewrite !orb_false_r. now apply Hel.
Qed.

(** The four forbidden pairs. *)
Lemma allowedInLookbehind_pairs inNegLookbehind child :
  allowedInLookbehind true inNegLookbehind child = true ->
  isLookahead child = false
  /\ (inNegLookbehind = false -> isLookbehind child && negate_of child = false)
  /\ (inNegLookbehind = true -> type_of child <> Some TCapturingGroup).
Proof.
  unfold allowedInLookbehind. intros H.
  destruct inNegLookbehind; apply andb_true_iff in H as [H1 H2];
    apply negb_true_iff in H1, H2; (split; [exact H1 |]); split; intros Hn;
    try discriminate.
  - now apply bool_decide_eq_false_1 in H2.
  - exact H2.
Qed.

(** ** Invariants of the parser

    Every tree that [parse] returns keeps two invariants, and [parse]
    has fuel enough.  The proofs follow the recursive descent: a lemma for
    each function of the parser, the loops by induction on their fuel, for
    any [walk] that keeps the invariants, and [walk] by induction on its
    own. *)

Section ParserInvariants.

Variable PosixClassNames : gset string.
Variable isValidGroupName : string -> bool.

Local Abbreviation walk := (walk PosixClassNames isValidGroupName).

Lemma leaf_ANE n : isLeaf n = true -> ANE n.
Proof.
  destruct n as [| els | | | | | | | | | | | | | | | | |]; simpl; intros H;
    try discriminate; try reflexivity.
  now destruct els.
Qed.

Lemma leaf_lookbehindOk c a b n : isLeaf n = true -> lookbehindOk c a b n = true.
Proof.
  destruct n as [| els | | | | | | | | | | | | | | | | |]; simpl; intros H;
    try discriminate; try (destruct c, a, b; reflexivity).
  destruct els; [| discriminate]. destruct c, a, b; reflexivity.
Qed.

Lemma lookbehindOk_weaken c a b n :
  lookbehindOk c a b n = true -> lookbehindOk false a b n = true.
Proof.
  destruct c; [| trivial].
  induction n; simpl; intros H; apply andb_true_iff in H as [_ H]; auto.
Qed.

(** Off a quantifier, the rule on a checked node is the rule on the
    node itself and the rule below it. *)
Lemma lookbehindOk_upgrade a b n :
  match n with Quantifier _ _ _ _ => False | _ => True end ->
  allowedInLookbehind a b n = true ->
  lookbehindOk false a b n = true ->
  lookbehindOk true a b n = true.
Proof.
  destruct n; simpl; intros Hq Ha H; try contradiction;
    rewrite ?Ha; simpl; simpl in Ha; rewrite ?Ha; auto.
Qed.

Lemma allowed_Quantifier a b k x y e :
  allowedInLookbehind a b (Quantifier k x y e) = true.
Proof. destruct a, b; reflexivity. Qed.

Lemma nodePost_leaf c skipLb parent state node :
  isLeaf node = true -> nodePost c skipLb parent state node parent.
Proof.
  intros Hleaf. split.
  - intros Hp. split; [now apply leaf_ANE | assumption].
  - intros _ Hp. repeat split; try assumption; intros; now apply leaf_lookbehindOk.
Qed.

Lemma sameSettings_refl ctx : sameSettings ctx ctx.
Proof. split; reflexivity. Qed.

Lemma sameSettings_trans ctx1 ctx2 ctx3 :
  sameSettings ctx1 ctx2 -> sameSettings ctx2 ctx3 -> sameSettings ctx1 ctx3.
Proof. intros [H1 H2] [H3 H4]. split; congruence. Qed.

Lemma createAssertionFromToken_leaf kind node :
  createAssertionFromToken kind = Ok node -> isLeaf node = true.
Proof.
  unfold createAssertionFromToken, createAssertion. intros H.
  repeat case_match; inversion H; reflexivity.
Qed.

Lemma createCharacter_leaf v b node : createCharacter v b = Ok node -> isLeaf node = true.
Proof.
  unfold createCharacter. intros H. repeat case_match; inversion H; reflexivity.
Qed.

Lemma createDirective_leaf k f node : createDirective k f = Ok node -> isLeaf node = true.
Proof.
  unfold createDirective. intros H. repeat case_match; inversion H; reflexivity.
Qed.

Lemma parseCharacterSet_leaf ctx k neg v node :
  parseCharacterSet PosixClassNames ctx k neg v = Ok node -> isLeaf node = true.
Proof.
  unfold parseCharacterSet, createPosixClass, createUnicodeProperty, createCharacterSet.
  intros H.
  repeat (case_match; simpl in H; try discriminate); inversion H; reflexivity.
Qed.

Lemma parseBackreference_spec ctx raw node ctx' :
  parseBackreference ctx raw = Ok (node, ctx') ->
  isLeaf node = true /\ sameSettings ctx ctx' /\ current ctx' = current ctx.
Proof.
  unfold parseBackreference, createBackreference. intros H.
  repeat (case_match; simpl in H; try discriminate); inversion H; subst;
    repeat split; reflexivity.
Qed.

Lemma parseSubroutine_spec ctx raw node ctx' :
  parseSubroutine ctx raw = Ok (node, ctx') ->
  isLeaf node = true /\ sameSettings ctx ctx' /\ current ctx' = current ctx.
Proof.
  unfold parseSubroutine, createSubroutine. intros H.
  repeat (case_match; simpl in H; try discriminate); inversion H; subst;
    repeat split; reflexivity.
Qed.

Lemma parseQuantifier_spec parent min max kind node parent' :
  parseQuantifier parent min max kind = Ok (node, parent') ->
  exists q k a b, parent = parent' ++ [q] /\ node = Quantifier k a b q.
Proof.
  unfold parseQuantifier, createQuantifier. intros H.
  destruct (at_last parent) as [q |] eqn:Hq; [| discriminate].
  apply at_last_Some_app in Hq as [l' ->].
  destruct (notQuantifiable q); [discriminate |].
  rewrite removelast_last in H.
  destruct (num_lt max min); inversion H; subst; do 4 eexists; split; reflexivity.
Qed.


Lemma Forall_removelast {A : Type} (P : A -> Prop) (l : list A) :
  Forall P l -> Forall P (removelast l).
Proof.
  intros H. destruct l as [| x l'] using rev_ind; [assumption |].
  rewrite removelast_last. now apply Forall_app in H as [H _].
Qed.

Lemma nodePost_range c skipLb parent state nextNode p1 a b :
  nodePost c skipLb parent (with_isCheckingRangeEnd state) nextNode p1 ->
  nodePost c skipLb parent state (CharacterClassRange (Character a) (Character b))
    (removelast p1).
Proof.
  intros [Hane Hlb]. split.
  - intros Hp. destruct (Hane Hp) as [_ H1]. split; [reflexivity |].
    now apply Forall_removelast.
  - intros Hs Hp. destruct (Hlb Hs Hp) as (H1 & _ & _).
    split; [now apply Forall_removelast |].
    split; [reflexivity |]. intros Ha. unfold LB. simpl.
    destruct c; [| reflexivity]. now rewrite Ha.
Qed.

Lemma createCharacter_hyphen : createCharacter 45 false = Ok (Character 45).
Proof. vm_compute. reflexivity. Qed.

Lemma parseCharacterClassHyphen_spec W c ctx parent state node parent' ctx' :
  GoodWalk W ->
  parseCharacterClassHyphen W ctx parent state = Ok (node, parent', ctx') ->
  sameSettings ctx ctx' /\ (current ctx <= current ctx')%nat
  /\ nodePost c (skipLookbehindValidation ctx) parent state node parent'.
Proof.
  intros HW H. unfold parseCharacterClassHyphen in H.
  rewrite createCharacter_hyphen in H. simpl in H.
  assert (Hlit : Ok (Character 45, parent, ctx) = Ok (node, parent', ctx') ->
             sameSettings ctx ctx' /\ (current ctx <= current ctx')%nat
             /\ nodePost c (skipLookbehindValidation ctx) parent state node parent').
  { intros Hr. injection Hr as <- <- <-.
    split; [apply sameSettings_refl |]. split; [lia |]. now apply nodePost_leaf. }
  destruct (at_last parent) as [prev |]; [| now apply Hlit].
  destruct (tokens ctx !! current ctx) as [next |]; [| now apply Hlit].
  destruct (_ && negb (isClassBoundaryToken next)); [| now apply Hlit].
  apply bind_Ok in H as [[[nextNode p1] ctx1] [HWeq H]].
  apply (HW c) in HWeq as (Hsame & Hcur & Hpost).
  destruct (hasType TCharacter prev && hasType TCharacter nextNode) eqn:Hty;
    [| discriminate].
  apply andb_true_iff in Hty as [Hp Hn].
  apply bool_decide_eq_true_1 in Hp, Hn.
  destruct prev; try discriminate. destruct nextNode; try discriminate.
  apply bind_Ok in H as [range [Hrange H]]. injection H as <- <- <-.
  unfold createCharacterClassRange in Hrange. simpl in Hrange.
  split; [assumption |]. split; [lia |].
  destruct (_ <? _) in Hrange; [discriminate |]. injection Hrange as <-.
  now apply (nodePost_range _ _ _ _ _ _ _ _ Hpost).
Qed.

Lemma classLoop_spec W fuel :
  GoodWalk W ->
  forall ctx first classes state classes' ctx',
    parseCharacterClassOpen_loop W fuel ctx first classes state = Ok (classes', ctx') ->
    classesInv (skipLookbehindValidation ctx) state classes ->
    sameSettings ctx ctx' /\ (current ctx <= current ctx')%nat
    /\ classesInv (skipLookbehindValidation ctx) state classes'.
Proof.
  intros HW. induction fuel as [| fuel IH]; intros ctx first classes state classes' ctx' H Hinv;
    [discriminate |].
  simpl in H. destruct (tokens ctx !! current ctx) as [tok |] eqn:Htok; [| discriminate].
  assert (Hstep : forall r,
             r = (match at_last classes with
                  | Some cc =>
                      match elements_of cc with
                      | Some els =>
                          '(node, els, ctx) ← W ctx els state;
                          parseCharacterClassOpen_loop W fuel ctx first
                            (set_last classes (set_elements cc (els ++ [node]))) state
                      | None => Throw TypeError
                      end
                  | None => Throw TypeError
                  end) ->
             r = Ok (classes', ctx') ->
             sameSettings ctx ctx' /\ (current ctx <= current ctx')%nat
             /\ classesInv (skipLookbehindValidation ctx) state classes').
  { intros r -> Hr.
    destruct (at_last classes) as [cc |] eqn:Hcc; [| discriminate].
    apply at_last_Some_app in Hcc as [front ->].
    apply Forall_app in Hinv as [Hfront Hcc].
    apply Forall_inv in Hcc as (k & neg & els & -> & Hane & Hlb).
    simpl in Hr.
    apply bind_Ok in Hr as [[[node els'] ctx1] [HWeq Hr]].
    apply (HW false) in HWeq as (Hsame & Hcur & Hane' & Hlb').
    rewrite set_last_app in Hr.
    apply IH in Hr as (Hsame2 & Hcur2 & Hinv2).
    - destruct Hsame as [Ht Hs]. rewrite Hs in Hinv2.
      split; [eapply sameSettings_trans; [split |]; eassumption |].
      split; [lia | assumption].
    - destruct Hsame as [Ht Hs]. rewrite Hs.
      apply Forall_app. split; [assumption |].
      apply Forall_singleton. exists k, neg, (els' ++ [node]).
      split; [reflexivity |]. split.
      + destruct (Hane' Hane) as [H1 H2]. apply Forall_app. split; [assumption |].
        now apply Forall_singleton.
      + intros Hskip. destruct (Hlb' Hskip (Hlb Hskip)) as (H1 & H2 & _).
        apply Forall_app. split; [assumption |]. now apply Forall_singleton. }
  destruct tok; try (now apply (Hstep _ eq_refl)).
  - inversion H; subst. split; [apply sameSettings_refl |]. split; [lia | assumption].
  - apply IH in H as (Hsame & Hcur & Hinv').
    + split; [assumption |]. simpl in Hcur. split; [lia | assumption].
    + apply Forall_app. split; [assumption |]. apply Forall_singleton.
      exists NodeCharacterClassKinds.union, false, []. repeat split; constructor.
Qed.

Lemma forallb_Forall_true {A : Type} (f : A -> bool) (l : list A) :
  Forall (fun x => f x = true) l -> forallb f l = true.
Proof. intros H. apply forallb_forall. intros x Hx. rewrite Forall_forall in H. apply H. now apply list_elem_of_In. Qed.

Lemma Forall_forallb_true {A : Type} (f : A -> bool) (l : list A) :
  forallb f l = true -> Forall (fun x => f x = true) l.
Proof. intros H. apply Forall_forall. intros x Hx. rewrite forallb_forall in H. apply H. now apply list_elem_of_In. Qed.

Lemma ANE_CharacterClass k neg els : Forall ANE els -> ANE (CharacterClass k neg els).
Proof. intros H. now apply forallb_Forall_true. Qed.

Lemma LB_CharacterClass state k neg els :
  Forall (LB false state) els -> LB false state (CharacterClass k neg els).
Proof. intros H. unfold LB. simpl. now apply forallb_Forall_true. Qed.

Lemma parseCharacterClassOpen_spec W fuel ctx negate state node ctx' :
  GoodWalk W ->
  parseCharacterClassOpen W fuel ctx negate state = Ok (node, ctx') ->
  sameSettings ctx ctx' /\ (current ctx <= current ctx')%nat
  /\ (exists k neg els, node = CharacterClass k neg els)
  /\ ANE node
  /\ (skipLookbehindValidation ctx = false -> LB false state node).
Proof.
  intros HW H. unfold parseCharacterClassOpen in H.
  apply bind_Ok in H as [[classes ctx1] [Hloop H]].
  apply classLoop_spec in Hloop as (Hsame & Hcur & Hinv); [| assumption |].
  2:{ apply Forall_singleton. exists NodeCharacterClassKinds.union, false, [].
      repeat split; constructor. }
  inversion H; subst; clear H.
  split; [assumption |]. split; [simpl; lia |].
  assert (Hmap : Forall ANE (map (fun cc => match elements_of cc with
                                             | Some [el] => el
                                             | _ => cc
                                             end) classes)
                 /\ (skipLookbehindValidation ctx = false ->
                     Forall (LB false state)
                       (map (fun cc => match elements_of cc with
                                       | Some [el] => el
                                       | _ => cc
                                       end) classes))).
  { clear - Hinv. induction Hinv as [| cc rest (k & neg & els & -> & Hane & Hlb) _ [IH1 IH2]].
    - split; [constructor | intros _; constructor].
    - split.
      + simpl. constructor; [| assumption].
        destruct els as [| el [| el2 els]].
        * reflexivity.
        * now apply Forall_inv in Hane.
        * now apply ANE_CharacterClass.
      + intros Hs. simpl. constructor; [| now apply IH2].
        specialize (Hlb Hs).
        destruct els as [| el [| el2 els]].
        * reflexivity.
        * now apply Forall_inv in Hlb.
        * now apply LB_CharacterClass. }
  destruct Hmap as [Hm1 Hm2].
  destruct classes as [| cc [| cc2 rest]].
  - split; [do 3 eexists; reflexivity |]. split.
    + now apply ANE_CharacterClass.
    + intros Hs. now apply LB_CharacterClass, Hm2.
  - apply Forall_inv in Hinv as (k & neg & els & -> & Hane & Hlb). simpl.
    split; [do 3 eexists; reflexivity |]. split.
    + now apply ANE_CharacterClass.
    + intros Hs. now apply LB_CharacterClass, Hlb.
  - split; [do 3 eexists; reflexivity |]. split.
    + now apply ANE_CharacterClass.
    + intros Hs. now apply LB_CharacterClass, Hm2.
Qed.

Lemma lookbehindViolation_allowed state l n child :
  lookbehindViolation false state l n child
  = negb (allowedInLookbehind (isInLookbehind state || l) (isInNegLookbehind state || n)
            child).
Proof.
  unfold lookbehindViolation, allowedInLookbehind.
  destruct l, n, (isInLookbehind state), (isInNegLookbehind state),
    (isLookahead child), (bool_decide (type_of child = Some TCapturingGroup)),
    (isLookbehind child), (negate_of child); reflexivity.
Qed.

Lemma alternatives_of_set node alts x :
  alternatives_of node = Some alts ->
  alternatives_of (set_alternatives node x) = Some x
  /\ forall y, set_alternatives (set_alternatives node x) y = set_alternatives node y.
Proof. destruct node; simpl; intros H; try discriminate; split; reflexivity. Qed.

Lemma groupLoop_spec W fuel :
  GoodWalk W ->
  forall ctx node state a l n node' ctx' alts,
    parseGroupOpen_loop W fuel ctx node state a l n = Ok (node', ctx') ->
    alternatives_of node = Some alts ->
    altsInv (skipLookbehindValidation ctx)
      (isInLookbehind state || l) (isInNegLookbehind state || n) alts ->
    sameSettings ctx ctx' /\ (current ctx <= current ctx')%nat
    /\ exists alts',
        node' = set_alternatives node alts'
        /\ altsInv (skipLookbehindValidation ctx)
             (isInLookbehind state || l) (isInNegLookbehind state || n) alts'.
Proof.
  intros HW. induction fuel as [| fuel IH];
    intros ctx node state a l n node' ctx' alts H Halts Hinv; [discriminate |].
  simpl in H. destruct (tokens ctx !! current ctx) as [tok |] eqn:Htok; [| discriminate].
  assert (Hstep : forall r,
             r = (match alternatives_of node ≫= at_last with
                  | Some alt =>
                      match elements_of alt with
                      | Some els =>
                          '(child, els, ctx) ←
                            W ctx els (childState state a l n);
                          let node :=
                            set_alternatives node
                              (set_last (default [] (alternatives_of node))
                                 (set_elements alt (els ++ [child]))) in
                          if lookbehindViolation (skipLookbehindValidation ctx) state l n child
                          then Throw lookbehindMsg
                          else parseGroupOpen_loop W fuel ctx node state a l n
                      | None => Throw TypeError
                      end
                  | None => Throw TypeError
                  end) ->
             r = Ok (node', ctx') ->
             sameSettings ctx ctx' /\ (current ctx <= current ctx')%nat
             /\ exists alts',
                 node' = set_alternatives node alts'
                 /\ altsInv (skipLookbehindValidation ctx)
                      (isInLookbehind state || l) (isInNegLookbehind state || n) alts').
  { intros r -> Hr. rewrite Halts in Hr. simpl in Hr.
    destruct (at_last alts) as [alt |] eqn:Halt; [| discriminate].
    apply at_last_Some_app in Halt as [front ->].
    destruct Hinv as [_ Hinv].
    apply Forall_app in Hinv as [Hfront Halt].
    apply Forall_inv in Halt as (els & -> & Hane & Hlb).
    simpl in Hr.
    apply bind_Ok in Hr as [[[child els'] ctx1] [HWeq Hr]].
    apply (HW true) in HWeq as (Hsame & Hcur & Hane' & Hlb').
    destruct Hsame as [Ht Hs].
    rewrite set_last_app, Hs in Hr.
    destruct (lookbehindViolation (skipLookbehindValidation ctx) state l n child) eqn:Hviol;
      [discriminate |].
    apply IH with (alts := front ++ [Alternative (els' ++ [child])]) in Hr
      as (Hsame2 & Hcur2 & alts' & -> & Hinv2).
    - rewrite Hs in Hinv2. split; [eapply sameSettings_trans; [split |]; eassumption |].
      split; [lia |]. exists alts'. split; [apply (alternatives_of_set node _ _ Halts) | assumption].
    - now apply (alternatives_of_set node _ _ Halts).
    - rewrite Hs. split; [now destruct front |].
      apply Forall_app. split; [assumption |]. apply Forall_singleton.
      exists (els' ++ [child]). split; [reflexivity |]. split.
      + destruct (Hane' Hane) as [H1 H2]. apply Forall_app. split; [assumption |].
        now apply Forall_singleton.
      + intros Hskip. destruct (Hlb' Hskip (Hlb Hskip)) as (H1 & H2 & H3).
        apply Forall_app. split; [exact H1 |]. apply Forall_singleton.
        apply H3. rewrite Hskip, lookbehindViolation_allowed in Hviol.
        now apply negb_false_iff in Hviol. }
  destruct tok; try (now apply (Hstep _ eq_refl)).
  - rewrite Halts in H. simpl in H.
    apply IH with (alts := alts ++ [createAlternative]) in H
      as (Hsame & Hcur & alts' & -> & Hinv').
    + split; [assumption |]. simpl in Hcur. split; [lia |].
      exists alts'. split; [apply (alternatives_of_set node _ _ Halts) | assumption].
    + now apply (alternatives_of_set node _ _ Halts).
    + destruct Hinv as [Hne Hinv]. split; [now destruct alts |].
      apply Forall_app. split; [assumption |]. apply Forall_singleton.
      exists []. repeat split; constructor.
  - injection H as Hn Hc. subst node' ctx'.
    split; [apply sameSettings_refl |]. split; [lia |].
    exists alts. split; [| assumption].
    destruct node; simpl in Halts; try discriminate; inversion Halts; reflexivity.
Qed.

Lemma altsInv_ANE skipLb a b alts :
  altsInv skipLb a b alts ->
  negb (bool_decide (alts = [])) && forallb alternativesNonEmpty alts = true.
Proof.
  intros [Hne H]. rewrite bool_decide_eq_false_2 by assumption. simpl.
  apply forallb_Forall_true. eapply Forall_impl; [exact H |].
  intros alt (els & -> & Hane & _). now apply forallb_Forall_true.
Qed.

Lemma altsInv_lookbehindOk a b alts :
  altsInv false a b alts -> forallb (lookbehindOk false a b) alts = true.
Proof.
  intros [_ H]. apply forallb_Forall_true. eapply Forall_impl; [exact H |].
  intros alt (els & -> & _ & Hlb). simpl. now apply forallb_Forall_true, Hlb.
Qed.

Lemma altsInv_initial skipLb a b : altsInv skipLb a b [createAlternative].
Proof.
  split; [discriminate |]. apply Forall_singleton. exists [].
  repeat split; constructor.
Qed.

Lemma parseGroupOpen_spec W fuel ctx kind flags name negate number state node ctx' :
  GoodWalk W ->
  parseGroupOpen isValidGroupName W fuel ctx kind flags name negate number state
    = Ok (node, ctx') ->
  sameSettings ctx ctx' /\ (current ctx <= current ctx')%nat
  /\ match node with Quantifier _ _ _ _ => False | _ => True end
  /\ ANE node
  /\ (skipLookbehindValidation ctx = false -> LB false state node).
Proof.
  intros HW H. unfold parseGroupOpen in H.
  apply bind_Ok in H as [node0 [Hnode0 H]].
  destruct (_ && isInAbsentFunction state) in H; [discriminate |].
  apply bind_Ok in H as [[node1 ctx1] [Hloop H]].
  injection H as Hn Hc. subst node ctx'.
  assert (Hnode0' :
            alternatives_of node0 = Some [createAlternative]
            /\ match node0 with
               | AbsentFunction _ _ | CapturingGroup _ _ _ | Group _ _ _
               | LookaroundAssertion _ _ _ => True
               | _ => False
               end).
  { unfold createByGroupKind, createCapturingGroup in Hnode0.
    destruct kind; repeat case_match; inversion Hnode0; subst; split; reflexivity || exact I. }
  destruct Hnode0' as [Halts Hshape].
  eapply groupLoop_spec in Hloop as (Hsame & Hcur & alts' & -> & Hinv);
    [| assumption | exact Halts | apply altsInv_initial].
  assert (Hctx0 : forall ctx0,
             ctx0 = match node0 with
                    | CapturingGroup _ nm _ => push_capturingGroup ctx node0 nm
                    | _ => ctx
                    end ->
             sameSettings ctx ctx0 /\ current ctx0 = current ctx).
  { intros ctx0 ->. destruct node0; repeat split; reflexivity. }
  destruct (Hctx0 _ eq_refl) as [[Ht0 Hs0] Hc0].
  rewrite Hs0 in Hinv. rewrite Hc0 in Hcur.
  split; [eapply sameSettings_trans; [split |]; eassumption |].
  split; [simpl; lia |].
  destruct node0; try contradiction; simpl in *.
  - split; [exact I |]. split; [eapply altsInv_ANE; eassumption |].
    intros Hs. rewrite Hs, !orb_false_r in Hinv. unfold LB. simpl.
    now apply altsInv_lookbehindOk.
  - split; [exact I |]. split; [eapply altsInv_ANE; eassumption |].
    intros Hs. rewrite Hs, !orb_false_r in Hinv. unfold LB. simpl.
    now apply altsInv_lookbehindOk.
  - split; [exact I |]. split; [eapply altsInv_ANE; eassumption |].
    intros Hs. rewrite Hs, !orb_false_r in Hinv. unfold LB. simpl.
    now apply altsInv_lookbehindOk.
  - split; [exact I |]. split; [eapply altsInv_ANE; eassumption |].
    intros Hs. rewrite Hs in Hinv. unfold LB. simpl.
    now apply altsInv_lookbehindOk.
Qed.

Lemma nodePost_upgrade c skipLb parent state node :
  match node with Quantifier _ _ _ _ => False | _ => True end ->
  ANE node ->
  (skipLb = false -> LB false state node) ->
  nodePost c skipLb parent state node parent.
Proof.
  intros Hq Hane Hlb. split.
  - intros Hp. now split.
  - intros Hs Hp. split; [assumption |]. split; [now apply Hlb |].
    intros Ha. destruct c; [| now apply Hlb].
    apply lookbehindOk_upgrade; [assumption | assumption | now apply Hlb].
Qed.

Lemma nodePost_Quantifier c skipLb parent' state q k a b :
  nodePost c skipLb (parent' ++ [q]) state (Quantifier k a b q) parent'.
Proof.
  split.
  - intros Hp. apply Forall_app in Hp as [Hp Hq]. apply Forall_inv in Hq. now split.
  - intros _ Hp. apply Forall_app in Hp as [Hp Hq]. apply Forall_inv in Hq.
    split; [assumption |].
    assert (Hc : LB c state (Quantifier k a b q)).
    { unfold LB in *. simpl. rewrite Hq.
      destruct c; [| reflexivity]. now rewrite allowed_Quantifier. }
    split; [| now intros _].
    eapply lookbehindOk_weaken, Hc.
Qed.

(** Every call of [walk] that returns has read a token and keeps the
    invariants. *)
Lemma walk_good fuel : GoodWalk (walk fuel).
Proof.
  induction fuel as [| fuel IH]; intros c ctx parent state node parent' ctx' H;
    [discriminate |].
  simpl in H. destruct (tokens ctx !! current ctx) as [tok |] eqn:Htok; [| discriminate].
  assert (Hleaf : forall node0,
             isLeaf node0 = true ->
             walkPost c ctx parent state node0 parent (set_current ctx (S (current ctx)))).
  { intros node0 Hl. split; [split; reflexivity |]. split; [simpl; lia |].
    now apply nodePost_leaf. }
  destruct tok.
  - injection H as <- <- <-. now apply Hleaf.
  - apply bind_Ok in H as [node0 [Hn H]]. injection H as <- <- <-.
    eapply Hleaf, createAssertionFromToken_leaf, Hn.
  - apply bind_Ok in H as [[node0 ctx0] [Hn H]]. injection H as <- <- <-.
    apply parseBackreference_spec in Hn as (Hl & Hsame & Hcur).
    split; [exact Hsame |]. split; [rewrite Hcur; simpl; lia |]. now apply nodePost_leaf.
  - apply bind_Ok in H as [node0 [Hn H]]. injection H as <- <- <-.
    eapply Hleaf, createCharacter_leaf, Hn.
  - discriminate.
  - eapply parseCharacterClassHyphen_spec in H as (Hsame & Hcur & Hpost); [| exact IH].
    split; [exact Hsame |]. split; [simpl in Hcur; lia | exact Hpost].
  - discriminate.
  - apply bind_Ok in H as [[node0 ctx0] [Hn H]]. injection H as <- <- <-.
    eapply parseCharacterClassOpen_spec in Hn
      as (Hsame & Hcur & (k & neg & els & ->) & Hane & Hlb); [| exact IH].
    split; [exact Hsame |]. split; [simpl in Hcur; lia |].
    now apply nodePost_upgrade.
  - apply bind_Ok in H as [node0 [Hn H]]. injection H as <- <- <-.
    eapply Hleaf, parseCharacterSet_leaf, Hn.
  - apply bind_Ok in H as [node0 [Hn H]]. injection H as <- <- <-.
    eapply Hleaf, createDirective_leaf, Hn.
  - discriminate.
  - apply bind_Ok in H as [[node0 ctx0] [Hn H]]. injection H as <- <- <-.
    eapply parseGroupOpen_spec in Hn as (Hsame & Hcur & Hq & Hane & Hlb); [| exact IH].
    split; [exact Hsame |]. split; [simpl in Hcur; lia |].
    now apply nodePost_upgrade.
  - apply bind_Ok in H as [[node0 parent0] [Hn H]]. injection H as <- <- <-.
    apply parseQuantifier_spec in Hn as (q & k & a & b & -> & ->).
    split; [split; reflexivity |]. split; [simpl; lia |].
    apply nodePost_Quantifier.
  - apply bind_Ok in H as [[node0 ctx0] [Hn H]]. injection H as <- <- <-.
    apply parseSubroutine_spec in Hn as (Hl & Hsame & Hcur).
    split; [exact Hsame |]. split; [rewrite Hcur; simpl; lia |]. now apply nodePost_leaf.
Qed.

Lemma parse_loop_spec W fuel :
  GoodWalk W ->
  forall ctx alts alts' ctx',
    parse_loop W fuel ctx alts = Ok (alts', ctx') ->
    altsInv (skipLookbehindValidation ctx) false false alts ->
    sameSettings ctx ctx' /\ altsInv (skipLookbehindValidation ctx) false false alts'.
Proof.
  intros HW. induction fuel as [| fuel IH]; intros ctx alts alts' ctx' H Hinv;
    [discriminate |].
  simpl in H. destruct (current ctx <? length (tokens ctx))%nat.
  2:{ injection H as <- <-. split; [apply sameSettings_refl | assumption]. }
  destruct (at_last alts) as [top |] eqn:Htop; [| discriminate].
  apply at_last_Some_app in Htop as [front ->].
  destruct Hinv as [_ Hinv]. apply Forall_app in Hinv as [Hfront Htop].
  apply Forall_inv in Htop as (els & -> & Hane & Hlb). simpl in H.
  apply bind_Ok in H as [[[node els'] ctx1] [HWeq H]].
  apply (HW true) in HWeq as ([Ht Hs] & Hcur & Hane' & Hlb').
  rewrite !set_last_app in H.
  destruct (Hane' Hane) as [Hnode Hels'].
  assert (Hlb2 : skipLookbehindValidation ctx = false ->
                 Forall (fun e => lookbehindOk true false false e = true) els'
                 /\ lookbehindOk true false false node = true).
  { intros Hskip. destruct (Hlb' Hskip (Hlb Hskip)) as (H1 & _ & H3).
    split; [exact H1 | now apply H3]. }
  destruct (bool_decide (type_of node = Some TAlternative)) eqn:Hty.
  - apply IH in H as (Hsame2 & Hinv2).
    + rewrite Hs in Hinv2. split; [eapply sameSettings_trans; [split |]; eassumption |].
      assumption.
    + rewrite Hs. split; [now destruct front |].
      apply Forall_app. split.
      * apply Forall_app. split; [assumption |]. apply Forall_singleton.
        exists els'. split; [reflexivity |]. split; [assumption |].
        intros Hskip. now apply Hlb2.
      * apply Forall_singleton. apply bool_decide_eq_true_1 in Hty.
        destruct node; try discriminate. eexists. split; [reflexivity |]. split.
        -- now apply Forall_forallb_true.
        -- intros Hskip. destruct (Hlb2 Hskip) as [_ H2]. simpl in H2.
           now apply Forall_forallb_true.
  - apply IH in H as (Hsame2 & Hinv2).
    + rewrite Hs in Hinv2. split; [eapply sameSettings_trans; [split |]; eassumption |].
      assumption.
    + rewrite Hs. split; [now destruct front |].
      apply Forall_app. split; [assumption |]. apply Forall_singleton.
      exists (els' ++ [node]). split; [reflexivity |]. split.
      * apply Forall_app. split; [assumption |]. now apply Forall_singleton.
      * intros Hskip. destruct (Hlb2 Hskip) as [H1 H2].
        apply Forall_app. split; [assumption |]. now apply Forall_singleton.
Qed.

(** The two invariants on every tree that [parseTokens] returns. *)
Lemma parseTokens_invariants tokenized opts ast :
  parseTokens PosixClassNames isValidGroupName tokenized opts = Ok ast ->
  alternativesNonEmpty ast = true
  /\ (opt_skipLookbehindValidation opts = false -> lookbehindOk false false false ast = true).
Proof.
  unfold parseTokens. intros H.
  apply bind_Ok in H as [[alts ctx'] [Hloop H]].
  apply parse_loop_spec in Hloop as [_ Hinv];
    [| apply walk_good | apply altsInv_initial].
  destruct (_ && _) in H; [discriminate |].
  apply bind_Ok in H as [_ [_ H]]. injection H as <-.
  simpl in Hinv. split.
  - simpl. rewrite andb_true_r. eapply altsInv_ANE, Hinv.
  - intros Hs. rewrite Hs in Hinv. simpl. now apply altsInv_lookbehindOk.
Qed.

Lemma settled_Ok {A : Type} skipLb (a : A) : settled skipLb (Ok a).
Proof. split; [| intros _]; discriminate. Qed.

Lemma settled_bind {A B : Type} skipLb (r : result A) (k : A -> result B) :
  settled skipLb r ->
  (forall a, r = Ok a -> settled skipLb (k a)) ->
  settled skipLb (r ≫= k).
Proof.
  intros [H1 H2] Hk. destruct r as [a | msg |]; simpl.
  - now apply Hk.
  - split; [discriminate |]. intros Hs [= ->]. now apply (H2 Hs).
  - contradiction.
Qed.

(** The tactic for the functions that throw their own messages. *)
Ltac settle :=
  repeat first
    [ apply settled_Ok
    | apply settled_bind; [| intros ? _]
    | match goal with
      | |- settled _ (Throw _) => split; [| intros _]; discriminate
      | |- settled _ (match ?x with _ => _ end) => destruct x
      | |- settled _ (let '(_, _) := ?x in _) => destruct x
      end ].

Lemma createAssertionFromToken_settled skipLb kind :
  settled skipLb (createAssertionFromToken kind).
Proof. unfold createAssertionFromToken. settle. Qed.

Lemma createCharacter_settled skipLb v b : settled skipLb (createCharacter v b).
Proof. unfold createCharacter. settle. Qed.

Lemma createDirective_settled skipLb k f : settled skipLb (createDirective k f).
Proof. unfold createDirective. settle. Qed.

Lemma parseCharacterSet_settled skipLb ctx k neg v :
  settled skipLb (parseCharacterSet PosixClassNames ctx k neg v).
Proof.
  unfold parseCharacterSet, createPosixClass, createUnicodeProperty. settle.
Qed.

Lemma parseBackreference_settled skipLb ctx raw :
  settled skipLb (parseBackreference ctx raw).
Proof. unfold parseBackreference. settle. Qed.

Lemma parseSubroutine_settled skipLb ctx raw : settled skipLb (parseSubroutine ctx raw).
Proof. unfold parseSubroutine. settle. Qed.

Lemma parseQuantifier_settled skipLb parent min max kind :
  settled skipLb (parseQuantifier parent min max kind).
Proof. unfold parseQuantifier. settle. Qed.

Lemma createByGroupKind_settled skipLb kind flags name negate number :
  settled skipLb (createByGroupKind isValidGroupName kind flags name negate number).
Proof. unfold createByGroupKind, createCapturingGroup. settle. Qed.

Lemma validateSubroutines_settled skipLb ctx subs :
  settled skipLb (validateSubroutines ctx subs).
Proof.
  induction subs as [| sub rest IH]; simpl; [apply settled_Ok |].
  apply settled_bind; [| intros _ _; exact IH].
  unfold validateSubroutine. settle.
Qed.

Lemma remaining_advance ctx ctx' :
  tokens ctx' = tokens ctx ->
  (current ctx < current ctx')%nat ->
  (current ctx < length (tokens ctx))%nat ->
  (remaining ctx' < remaining ctx)%nat.
Proof. unfold remaining. intros -> H1 H2. lia. Qed.

Lemma lookbehindViolation_skipped state l n child :
  lookbehindViolation true state l n child = false.
Proof. unfold lookbehindViolation. now rewrite andb_false_r. Qed.

Lemma parseCharacterClassHyphen_settled bound W ctx parent state :
  SettledWalk bound W ->
  (remaining ctx < bound)%nat ->
  settled (skipLookbehindValidation ctx) (parseCharacterClassHyphen W ctx parent state).
Proof.
  intros [HW HS] Hrem. unfold parseCharacterClassHyphen.
  rewrite createCharacter_hyphen. simpl.
  destruct (at_last parent) as [prev |]; [| apply settled_Ok].
  destruct (tokens ctx !! current ctx) as [next |]; [| apply settled_Ok].
  destruct (_ && negb (isClassBoundaryToken next)); [| apply settled_Ok].
  apply settled_bind; [now apply HS |].
  intros [[nextNode p1] ctx1] _.
  destruct (_ && _); [| split; [| intros _]; discriminate].
  apply settled_bind; [| intros; apply settled_Ok].
  unfold createCharacterClassRange. settle.
Qed.

Lemma settled_Throw {A : Type} skipLb msg :
  msg <> lookbehindMsg -> settled (A := A) skipLb (Throw msg).
Proof. intros Hne. split; [discriminate |]. intros _ [= ->]. now apply Hne. Qed.

Lemma unclosedCharacterClassMsg_other first :
  unclosedCharacterClassMsg first <> lookbehindMsg.
Proof. unfold unclosedCharacterClassMsg. repeat case_match; discriminate. Qed.

Lemma classLoop_settled bound W fuel :
  SettledWalk bound W ->
  forall ctx first classes state,
    (remaining ctx < fuel)%nat ->
    (remaining ctx < bound)%nat ->
    settled (skipLookbehindValidation ctx)
      (parseCharacterClassOpen_loop W fuel ctx first classes state).
Proof.
  intros [HW HS]. induction fuel as [| fuel IH]; intros ctx first classes state Hf Hb;
    [lia |].
  simpl. destruct (tokens ctx !! current ctx) as [tok |] eqn:Htok;
    [| apply settled_Throw, unclosedCharacterClassMsg_other].
  apply lookup_lt_Some in Htok.
  assert (Hstep :
            settled (skipLookbehindValidation ctx)
              (match at_last classes with
               | Some cc =>
                   match elements_of cc with
                   | Some els =>
                       '(node, els, ctx) ← W ctx els state;
                       parseCharacterClassOpen_loop W fuel ctx first
                         (set_last classes (set_elements cc (els ++ [node]))) state
                   | None => Throw TypeError
                   end
               | None => Throw TypeError
               end)).
  { destruct (at_last classes) as [cc |]; [| split; [| intros _]; discriminate].
    destruct (elements_of cc) as [els |]; [| split; [| intros _]; discriminate].
    apply settled_bind; [now apply HS |].
    intros [[node els'] ctx1] HWeq.
    apply (HW false) in HWeq as ([Ht Hs] & Hcur & _).
    pose proof (remaining_advance ctx ctx1 Ht Hcur Htok) as Hadv.
    rewrite <- Hs. apply IH; lia. }
  destruct tok; try exact Hstep.
  - apply settled_Ok.
  - apply (IH (set_current ctx (S (current ctx)))); unfold remaining in *; simpl; lia.
Qed.

Lemma groupLoop_settled bound W fuel :
  SettledWalk bound W ->
  forall ctx node state a l n,
    (remaining ctx < fuel)%nat ->
    (remaining ctx < bound)%nat ->
    settled (skipLookbehindValidation ctx)
      (parseGroupOpen_loop W fuel ctx node state a l n).
Proof.
  intros [HW HS]. induction fuel as [| fuel IH]; intros ctx node state a l n Hf Hb;
    [lia |].
  simpl. destruct (tokens ctx !! current ctx) as [tok |] eqn:Htok;
    [| split; [| intros _]; discriminate].
  apply lookup_lt_Some in Htok.
  assert (Hstep :
            settled (skipLookbehindValidation ctx)
              (match alternatives_of node ≫= at_last with
               | Some alt =>
                   match elements_of alt with
                   | Some els =>
                       '(child, els, ctx) ← W ctx els (childState state a l n);
                       let node :=
                         set_alternatives node
                           (set_last (default [] (alternatives_of node))
                              (set_elements alt (els ++ [child]))) in
                       if lookbehindViolation (skipLookbehindValidation ctx) state l n child
                       then Throw lookbehindMsg
                       else parseGroupOpen_loop W fuel ctx node state a l n
                   | None => Throw TypeError
                   end
               | None => Throw TypeError
               end)).
  { destruct (alternatives_of node ≫= at_last) as [alt |];
      [| split; [| intros _]; discriminate].
    destruct (elements_of alt) as [els |]; [| split; [| intros _]; discriminate].
    apply settled_bind; [now apply HS |].
    intros [[child els'] ctx1] HWeq.
    apply (HW true) in HWeq as ([Ht Hs] & Hcur & _).
    pose proof (remaining_advance ctx ctx1 Ht Hcur Htok) as Hadv.
    cbv zeta. rewrite Hs.
    destruct (lookbehindViolation (skipLookbehindValidation ctx) state l n child) eqn:Hv.
    - split; [discriminate |]. intros Hskip. rewrite Hskip in Hv.
      now rewrite lookbehindViolation_skipped in Hv.
    - rewrite <- Hs. apply IH; lia. }
  destruct tok; try exact Hstep.
  - apply (IH (set_current ctx (S (current ctx)))); unfold remaining in *; simpl; lia.
  - apply settled_Ok.
Qed.

(** With more fuel than tokens to read, [walk] returns or throws; and it
    does not throw the lookbehind error when the validation is skipped. *)
Lemma walk_settled fuel :
  forall ctx parent state,
    (remaining ctx < fuel)%nat ->
    settled (skipLookbehindValidation ctx) (walk fuel ctx parent state).
Proof.
  induction fuel as [| fuel IH]; intros ctx parent state Hf; [lia |].
  simpl. destruct (tokens ctx !! current ctx) as [tok |] eqn:Htok;
    [| split; [| intros _]; discriminate].
  apply lookup_lt_Some in Htok.
  assert (Hrem : (remaining (set_current ctx (S (current ctx))) < fuel)%nat)
    by (unfold remaining in *; simpl; lia).
  assert (HSW : SettledWalk fuel (walk fuel)) by (split; [apply walk_good | exact IH]).
  destruct tok.
  - apply settled_Ok.
  - apply settled_bind; [apply createAssertionFromToken_settled | intros; apply settled_Ok].
  - apply settled_bind; [apply parseBackreference_settled |].
    intros [? ?] _. apply settled_Ok.
  - apply settled_bind; [apply createCharacter_settled | intros; apply settled_Ok].
  - split; [| intros _]; discriminate.
  - now apply (parseCharacterClassHyphen_settled fuel _ (set_current ctx (S (current ctx)))).
  - split; [| intros _]; discriminate.
  - apply settled_bind; [| intros [? ?] _; apply settled_Ok].
    unfold parseCharacterClassOpen.
    apply settled_bind; [| intros [? ?] _; apply settled_Ok].
    now apply (classLoop_settled fuel _ fuel HSW (set_current ctx (S (current ctx)))).
  - apply settled_bind; [apply parseCharacterSet_settled | intros; apply settled_Ok].
  - apply settled_bind; [apply createDirective_settled | intros; apply settled_Ok].
  - split; [| intros _]; discriminate.
  - apply settled_bind; [| intros [? ?] _; apply settled_Ok].
    unfold parseGroupOpen.
    apply settled_bind; [apply createByGroupKind_settled |].
    intros node0 _. destruct (_ && _); [split; [| intros _]; discriminate |].
    apply settled_bind; [| intros [? ?] _; apply settled_Ok].
    assert (Hctx0 : forall ctx0,
               ctx0 = match node0 with
                      | CapturingGroup _ nm _ =>
                          push_capturingGroup (set_current ctx (S (current ctx))) node0 nm
                      | _ => set_current ctx (S (current ctx))
                      end ->
               skipLookbehindValidation ctx0 = skipLookbehindValidation ctx
               /\ remaining ctx0 = remaining (set_current ctx (S (current ctx)))).
    { intros ctx0 ->. destruct node0; split; reflexivity. }
    destruct (Hctx0 _ eq_refl) as [Hs0 Hr0].
    change (skipLookbehindValidation (set_current ctx (S (current ctx))))
      with (skipLookbehindValidation ctx).
    rewrite <- Hs0.
    apply (groupLoop_settled fuel _ fuel HSW); lia.
  - apply settled_bind; [apply parseQuantifier_settled |].
    intros [? ?] _. apply settled_Ok.
  - apply settled_bind; [apply parseSubroutine_settled |].
    intros [? ?] _. apply settled_Ok.
Qed.

Lemma parse_loop_settled bound W fuel :
  SettledWalk bound W ->
  forall ctx alts,
    (remaining ctx < fuel)%nat ->
    (remaining ctx < bound)%nat ->
    settled (skipLookbehindValidation ctx) (parse_loop W fuel ctx alts).
Proof.
  intros [HW HS]. induction fuel as [| fuel IH]; intros ctx alts Hf Hb; [lia |].
  simpl. destruct (current ctx <? length (tokens ctx))%nat eqn:Hlt; [| apply settled_Ok].
  apply Nat.ltb_lt in Hlt.
  destruct (at_last alts) as [top |]; [| now apply settled_Throw].
  destruct (elements_of top) as [els |]; [| now apply settled_Throw].
  apply settled_bind; [now apply HS |].
  intros [[node els'] ctx1] HWeq.
  apply (HW true) in HWeq as ([Ht Hs] & Hcur & _).
  pose proof (remaining_advance ctx ctx1 Ht Hcur Hlt) as Hadv.
  rewrite <- Hs. destruct (bool_decide _); apply IH; lia.
Qed.

(** [parseTokens] returns or throws, and it does not throw the
    lookbehind error when the validation is skipped. *)
Lemma parseTokens_settled tokenized opts :
  settled (opt_skipLookbehindValidation opts)
    (parseTokens PosixClassNames isValidGroupName tokenized opts).
Proof.
  unfold parseTokens, parseFuel.
  apply settled_bind.
  - apply (parse_loop_settled (S (length (tokenized_tokens tokenized))) _ _
             (conj (walk_good _) (walk_settled _))
             (initialContext opts (tokenized_tokens tokenized)));
      unfold remaining; simpl; lia.
  - intros [alts ctx'] _. destruct (_ && _); [now apply settled_Throw |].
    apply settled_bind; [apply validateSubroutines_settled | intros; apply settled_Ok].
Qed.

(** *** The option lifts the lookbehind error and nothing else

    The run with [skipLookbehindValidation] follows the run without it
    step by step, until the strict run throws the lookbehind error. *)

Lemma relaxes_bind {A B : Type} (f : A -> A) (g : B -> B) (r r' : result A)
    (k k' : A -> result B) :
  relaxes f r r' ->
  (forall a, r = Ok a -> relaxes g (k a) (k' (f a))) ->
  relaxes g (r ≫= k) (r' ≫= k').
Proof.
  intros Hr Hk. destruct r as [a | msg |]; simpl in *.
  - rewrite Hr. simpl. now apply Hk.
  - destruct Hr as [-> | ->]; [now left | now right].
  - now rewrite Hr.
Qed.

Lemma relaxes_same {A B : Type} (g : B -> B) (r : result A) (k k' : A -> result B) :
  (forall a, r = Ok a -> relaxes g (k a) (k' a)) ->
  relaxes g (r ≫= k) (r ≫= k').
Proof.
  intros Hk. destruct r as [a | msg |]; simpl; [now apply Hk | now right | reflexivity].
Qed.

Lemma parseBackreference_relaxes ctx raw :
  relaxes skipping1 (parseBackreference ctx raw) (parseBackreference (skipping ctx) raw).
Proof.
  unfold parseBackreference. cbn [skipping capturingGroups skipBackrefValidation
    namedGroupsByName].
  repeat case_match; simpl; try (now right); try reflexivity.
Qed.

Lemma parseSubroutine_relaxes ctx raw :
  relaxes skipping1 (parseSubroutine ctx raw) (parseSubroutine (skipping ctx) raw).
Proof.
  unfold parseSubroutine. cbn [skipping capturingGroups].
  repeat case_match; simpl; try (now right); try reflexivity.
Qed.

Lemma parseCharacterSet_skipping ctx kind negate value :
  parseCharacterSet PosixClassNames (skipping ctx) kind negate value
  = parseCharacterSet PosixClassNames ctx kind negate value.
Proof. reflexivity. Qed.

Lemma parseCharacterClassHyphen_relaxes W W' ctx parent state :
  RelaxedWalk W W' ->
  relaxes skipping1 (parseCharacterClassHyphen W ctx parent state)
    (parseCharacterClassHyphen W' (skipping ctx) parent state).
Proof.
  intros HW. unfold parseCharacterClassHyphen. cbn [skipping tokens current].
  destruct (at_last parent) as [prev |]; [| apply relaxes_same; intros; reflexivity].
  destruct (tokens ctx !! current ctx) as [next |];
    [| apply relaxes_same; intros; reflexivity].
  destruct (_ && negb (isClassBoundaryToken next));
    [| apply relaxes_same; intros; reflexivity].
  eapply relaxes_bind; [apply HW |].
  intros [[nextNode p1] ctx1] _. simpl.
  destruct (_ && _); [| now right].
  apply relaxes_same. intros; reflexivity.
Qed.

Lemma classLoop_relaxes W W' fuel :
  RelaxedWalk W W' ->
  forall ctx first classes state,
    relaxes skipping1 (parseCharacterClassOpen_loop W fuel ctx first classes state)
      (parseCharacterClassOpen_loop W' fuel (skipping ctx) first classes state).
Proof.
  intros HW. induction fuel as [| fuel IH]; intros ctx first classes state; [reflexivity |].
  simpl. destruct (tokens ctx !! current ctx) as [tok |]; [| now right].
  assert (Hstep :
    relaxes skipping1
      (match at_last classes with
       | Some cc =>
           match elements_of cc with
           | Some els =>
               '(node, els, ctx) ← W ctx els state;
               parseCharacterClassOpen_loop W fuel ctx first
                 (set_last classes (set_elements cc (els ++ [node]))) state
           | None => Throw TypeError
           end
       | None => Throw TypeError
       end)
      (match at_last classes with
       | Some cc =>
           match elements_of cc with
           | Some els =>
               '(node, els, ctx) ← W' (skipping ctx) els state;
               parseCharacterClassOpen_loop W' fuel ctx first
                 (set_last classes (set_elements cc (els ++ [node]))) state
           | None => Throw TypeError
           end
       | None => Throw TypeError
       end)).
  { destruct (at_last classes) as [cc |]; [| now right].
    destruct (elements_of cc) as [els |]; [| now right].
    eapply relaxes_bind; [apply HW |].
    intros [[node els'] ctx1] _. apply IH. }
  destruct tok; try exact Hstep.
  - reflexivity.
  - apply (IH (set_current ctx (S (current ctx)))).
Qed.

Lemma groupLoop_relaxes W W' fuel :
  RelaxedWalk W W' ->
  forall ctx node state a l n,
    relaxes skipping1 (parseGroupOpen_loop W fuel ctx node state a l n)
      (parseGroupOpen_loop W' fuel (skipping ctx) node state a l n).
Proof.
  intros HW. induction fuel as [| fuel IH]; intros ctx node state a l n; [reflexivity |].
  simpl. destruct (tokens ctx !! current ctx) as [tok |]; [| now right].
  assert (Hstep :
    relaxes skipping1
      (match alternatives_of node ≫= at_last with
       | Some alt =>
           match elements_of alt with
           | Some els =>
               '(child, els, ctx) ← W ctx els (childState state a l n);
               let node :=
                 set_alternatives node
                   (set_last (default [] (alternatives_of node))
                      (set_elements alt (els ++ [child]))) in
               if lookbehindViolation (skipLookbehindValidation ctx) state l n child
               then Throw lookbehindMsg
               else parseGroupOpen_loop W fuel ctx node state a l n
           | None => Throw TypeError
           end
       | None => Throw TypeError
       end)
      (match alternatives_of node ≫= at_last with
       | Some alt =>
           match elements_of alt with
           | Some els =>
               '(child, els, ctx) ← W' (skipping ctx) els (childState state a l n);
               let node :=
                 set_alternatives node
                   (set_last (default [] (alternatives_of node))
                      (set_elements alt (els ++ [child]))) in
               if lookbehindViolation (skipLookbehindValidation ctx) state l n child
               then Throw lookbehindMsg
               else parseGroupOpen_loop W' fuel ctx node state a l n
           | None => Throw TypeError
           end
       | None => Throw TypeError
       end)).
  { destruct (alternatives_of node ≫= at_last) as [alt |]; [| now right].
    destruct (elements_of alt) as [els |]; [| now right].
    eapply relaxes_bind; [apply HW |].
    intros [[child els'] ctx1] _. cbn [skipping1 skipping skipLookbehindValidation].
    cbv zeta. rewrite lookbehindViolation_skipped.
    destruct (lookbehindViolation _ _ _ _ _); [now left | apply IH]. }
  destruct tok; try exact Hstep.
  - apply (IH (set_current ctx (S (current ctx)))).
  - reflexivity.
Qed.

Lemma walk_relaxes fuel : RelaxedWalk (walk fuel) (walk fuel).
Proof.
  induction fuel as [| fuel IH]; intros ctx parent state; [reflexivity |].
  simpl. destruct (tokens ctx !! current ctx) as [tok |]; [| now right].
  change (set_current (skipping ctx) (S (current ctx)))
    with (skipping (set_current ctx (S (current ctx)))).
  set (ctx1 := set_current ctx (S (current ctx))).
  destruct tok.
  - reflexivity.
  - apply relaxes_same. intros; reflexivity.
  - eapply relaxes_bind; [apply parseBackreference_relaxes |].
    intros [? ?] _. reflexivity.
  - apply relaxes_same. intros; reflexivity.
  - now right.
  - now apply parseCharacterClassHyphen_relaxes.
  - now right.
  - eapply relaxes_bind with (f := skipping1); [| intros [? ?] _; reflexivity].
    unfold parseCharacterClassOpen.
    eapply relaxes_bind; [now apply classLoop_relaxes |].
    intros [? ?] _. reflexivity.
  - rewrite parseCharacterSet_skipping. apply relaxes_same. intros; reflexivity.
  - apply relaxes_same. intros; reflexivity.
  - now right.
  - eapply relaxes_bind with (f := skipping1); [| intros [? ?] _; reflexivity].
    unfold parseGroupOpen.
    apply relaxes_same. intros node0 _.
    destruct (_ && _); [now right |].
    eapply relaxes_bind with (f := skipping1); [| intros [? ?] _; reflexivity].
    destruct node0; now apply groupLoop_relaxes.
  - apply relaxes_same. intros [? ?] _. reflexivity.
  - eapply relaxes_bind; [apply parseSubroutine_relaxes |].
    intros [? ?] _. reflexivity.
Qed.

Lemma parse_loop_relaxes W W' fuel :
  RelaxedWalk W W' ->
  forall ctx alts,
    relaxes skipping1 (parse_loop W fuel ctx alts) (parse_loop W' fuel (skipping ctx) alts).
Proof.
  intros HW. induction fuel as [| fuel IH]; intros ctx alts; [reflexivity |].
  simpl. destruct (current ctx <? length (tokens ctx))%nat; [| reflexivity].
  destruct (at_last alts) as [top |]; [| now right].
  destruct (elements_of top) as [els |]; [| now right].
  eapply relaxes_bind; [apply HW |].
  intros [[node els'] ctx1] _. simpl. destruct (bool_decide _); apply IH.
Qed.

Lemma validateSubroutines_skipping ctx subs :
  validateSubroutines (skipping ctx) subs = validateSubroutines ctx subs.
Proof.
  induction subs as [| sub rest IH]; [reflexivity |].
  simpl. rewrite IH. reflexivity.
Qed.

Lemma parseTokens_relaxes tokenized opts :
  relaxes id
    (parseTokens PosixClassNames isValidGroupName tokenized opts)
    (parseTokens PosixClassNames isValidGroupName tokenized
       (with_skipLookbehindValidation opts true)).
Proof.
  unfold parseTokens.
  change (initialContext (with_skipLookbehindValidation opts true) (tokenized_tokens tokenized))
    with (skipping (initialContext opts (tokenized_tokens tokenized))).
  eapply relaxes_bind; [apply parse_loop_relaxes, walk_relaxes |].
  intros [alts ctx'] _. cbn [skipping1 skipping hasNumberedRef namedGroupsByName subroutines
    with_skipLookbehindValidation opt_captureGroup].
  destruct (_ && _); [now right |].
  rewrite validateSubroutines_skipping.
  apply relaxes_same. intros; reflexivity.
Qed.

(** *** No false alarm

    When the strict run throws the lookbehind error and the lenient run
    returns a tree, the tree breaks the rule: the child that the strict
    run refused stays in the tree. *)

Lemma LB_Character c state v : LB c state (Character v).
Proof. unfold LB. simpl. destruct c, (isInLookbehind state), (isInNegLookbehind state); reflexivity. Qed.

Lemma LB_Quantifier_element c state k a b q :
  LB c state (Quantifier k a b q) -> LB c state q.
Proof. unfold LB. simpl. intros H. now apply andb_true_iff in H as [_ H]. Qed.

Lemma parseCharacterClassHyphen_back W :
  BackWalk W ->
  forall c ctx parent state node parent' ctx',
    parseCharacterClassHyphen W ctx parent state = Ok (node, parent', ctx') ->
    (type_of node = Some TCharacter -> parent' = parent)
    /\ (Forall (LB c state) parent' -> LB c state node -> Forall (LB c state) parent).
Proof.
  intros HW c ctx parent state node parent' ctx' H. unfold parseCharacterClassHyphen in H.
  rewrite createCharacter_hyphen in H. simpl in H.
  assert (Hlit : Ok (Character 45, parent, ctx) = Ok (node, parent', ctx') ->
             (type_of node = Some TCharacter -> parent' = parent)
             /\ (Forall (LB c state) parent' -> LB c state node -> Forall (LB c state) parent)).
  { intros Hr. injection Hr as <- <- <-. split; [reflexivity | trivial]. }
  destruct (at_last parent) as [prev |] eqn:Hprev; [| now apply Hlit].
  destruct (tokens ctx !! current ctx) as [next |]; [| now apply Hlit].
  destruct (_ && negb (isClassBoundaryToken next)); [| now apply Hlit].
  apply bind_Ok in H as [[[nextNode p1] ctx1] [HWeq H]].
  apply (HW c) in HWeq as [Hsame _].
  destruct (hasType TCharacter prev && hasType TCharacter nextNode) eqn:Hty;
    [| discriminate].
  apply andb_true_iff in Hty as [Hp Hn].
  apply bool_decide_eq_true_1 in Hp, Hn.
  specialize (Hsame Hn). subst p1.
  destruct prev; try discriminate.
  apply bind_Ok in H as [range [Hrange H]]. injection H as <- <- <-.
  unfold createCharacterClassRange in Hrange. destruct nextNode; try discriminate.
  simpl in Hrange. destruct (_ <? _) in Hrange; [discriminate |]. injection Hrange as <-.
  split; [discriminate |]. intros Hp' _.
  apply at_last_Some_app in Hprev as [front ->].
  rewrite removelast_last in Hp'. apply Forall_app. split; [assumption |].
  apply Forall_singleton, LB_Character.
Qed.

Lemma walk_back fuel : BackWalk (walk fuel).
Proof.
  induction fuel as [| fuel IH]; intros c ctx parent state node parent' ctx' H;
    [discriminate |].
  simpl in H. destruct (tokens ctx !! current ctx) as [tok |] eqn:Htok; [| discriminate].
  destruct tok; try discriminate;
    try (apply bind_Ok in H as [x [_ H]]; try destruct x as [x ?]; injection H as <- <- <-;
         split; [reflexivity | trivial]; fail).
  - injection H as <- <- <-. split; [reflexivity | trivial].
  - exact (parseCharacterClassHyphen_back _ IH _ _ _ _ _ _ _ H).
  - apply bind_Ok in H as [[node0 parent0] [Hn H]]. injection H as <- <- <-.
    apply parseQuantifier_spec in Hn as (q & k & a & b & -> & ->).
    split; [discriminate |]. intros Hp Hq. apply Forall_app. split; [assumption |].
    apply Forall_singleton. eapply LB_Quantifier_element, Hq.
Qed.

Lemma LB_CharacterClass_elements c state k neg els :
  LB c state (CharacterClass k neg els) -> Forall (LB false state) els.
Proof.
  unfold LB. simpl. intros H. apply andb_true_iff in H as [_ H].
  now apply Forall_forallb_true.
Qed.

Lemma LB_Alternative_elements state els :
  LB false state (Alternative els) <-> Forall (LB true state) els.
Proof.
  unfold LB. simpl. split; [apply Forall_forallb_true | apply forallb_Forall_true].
Qed.

Lemma classLoop_back W fuel :
  BackWalk W ->
  forall ctx first classes state classes' ctx',
    parseCharacterClassOpen_loop W fuel ctx first classes state = Ok (classes', ctx') ->
    Forall isCharacterClass classes ->
    Forall isCharacterClass classes'
    /\ (Forall (LB false state) classes' -> Forall (LB false state) classes).
Proof.
  intros HW. induction fuel as [| fuel IH]; intros ctx first classes state classes' ctx' H Hsh;
    [discriminate |].
  simpl in H. destruct (tokens ctx !! current ctx) as [tok |] eqn:Htok; [| discriminate].
  assert (Hstep : forall r,
             r = (match at_last classes with
                  | Some cc =>
                      match elements_of cc with
                      | Some els =>
                          '(node, els, ctx) ← W ctx els state;
                          parseCharacterClassOpen_loop W fuel ctx first
                            (set_last classes (set_elements cc (els ++ [node]))) state
                      | None => Throw TypeError
                      end
                  | None => Throw TypeError
                  end) ->
             r = Ok (classes', ctx') ->
             Forall isCharacterClass classes'
             /\ (Forall (LB false state) classes' -> Forall (LB false state) classes)).
  { intros r -> Hr.
    destruct (at_last classes) as [cc |] eqn:Hcc; [| discriminate].
    apply at_last_Some_app in Hcc as [front ->].
    apply Forall_app in Hsh as [Hfront Hcc].
    apply Forall_inv in Hcc as (k & neg & els & ->).
    simpl in Hr.
    apply bind_Ok in Hr as [[[node els'] ctx1] [HWeq Hr]].
    apply (HW false) in HWeq as [_ Hback].
    rewrite set_last_app in Hr.
    apply IH in Hr as [Hsh' Hlb'].
    - split; [assumption |]. intros Hall. apply Hlb' in Hall.
      apply Forall_app in Hall as [Hf Hl]. apply Forall_inv in Hl.
      apply Forall_app. split; [assumption |]. apply Forall_singleton.
      apply LB_CharacterClass_elements in Hl. apply Forall_app in Hl as [H1 H2].
      apply Forall_inv in H2. now apply LB_CharacterClass, Hback.
    - apply Forall_app. split; [assumption |]. apply Forall_singleton.
      now exists k, neg, (els' ++ [node]). }
  destruct tok; try (now apply (Hstep _ eq_refl)).
  - injection H as <- <-. now split.
  - apply IH in H as [Hsh' Hlb'].
    + split; [assumption |]. intros Hall. apply Hlb' in Hall.
      now apply Forall_app in Hall as [Hall _].
    + apply Forall_app. split; [assumption |]. apply Forall_singleton.
      now exists NodeCharacterClassKinds.union, false, [].
Qed.

Lemma groupLoop_back W fuel :
  BackWalk W ->
  forall ctx node state a l n node' ctx' alts,
    parseGroupOpen_loop W fuel ctx node state a l n = Ok (node', ctx') ->
    alternatives_of node = Some alts ->
    Forall isAlternative alts ->
    exists alts',
      node' = set_alternatives node alts'
      /\ Forall isAlternative alts'
      /\ (Forall (LB false (childState state a l n)) alts' ->
          Forall (LB false (childState state a l n)) alts).
Proof.
  intros HW. induction fuel as [| fuel IH];
    intros ctx node state a l n node' ctx' alts H Halts Hsh; [discriminate |].
  simpl in H. destruct (tokens ctx !! current ctx) as [tok |] eqn:Htok; [| discriminate].
  assert (Hstep : forall r,
             r = (match alternatives_of node ≫= at_last with
                  | Some alt =>
                      match elements_of alt with
                      | Some els =>
                          '(child, els, ctx) ←
                            W ctx els (childState state a l n);
                          let node :=
                            set_alternatives node
                              (set_last (default [] (alternatives_of node))
                                 (set_elements alt (els ++ [child]))) in
                          if lookbehindViolation (skipLookbehindValidation ctx) state l n child
                          then Throw lookbehindMsg
                          else parseGroupOpen_loop W fuel ctx node state a l n
                      | None => Throw TypeError
                      end
                  | None => Throw TypeError
                  end) ->
             r = Ok (node', ctx') ->
             exists alts',
               node' = set_alternatives node alts'
               /\ Forall isAlternative alts'
               /\ (Forall (LB false (childState state a l n)) alts' ->
                   Forall (LB false (childState state a l n)) alts)).
  { intros r -> Hr. rewrite Halts in Hr. simpl in Hr.
    destruct (at_last alts) as [alt |] eqn:Halt; [| discriminate].
    apply at_last_Some_app in Halt as [front ->].
    apply Forall_app in Hsh as [Hfront Halt].
    apply Forall_inv in Halt as (els & ->).
    simpl in Hr.
    apply bind_Ok in Hr as [[[child els'] ctx1] [HWeq Hr]].
    apply (HW true) in HWeq as [_ Hback].
    rewrite set_last_app in Hr.
    destruct (lookbehindViolation _ _ _ _ _); [discriminate |].
    apply IH with (alts := front ++ [Alternative (els' ++ [child])]) in Hr
      as (alts' & -> & Hsh' & Hlb').
    - exists alts'. split; [apply (alternatives_of_set node _ _ Halts) |].
      split; [assumption |]. intros Hall. apply Hlb' in Hall.
      apply Forall_app in Hall as [Hf Hl]. apply Forall_inv in Hl.
      apply Forall_app. split; [assumption |]. apply Forall_singleton.
      apply LB_Alternative_elements in Hl. apply Forall_app in Hl as [H1 H2].
      apply Forall_inv in H2. now apply LB_Alternative_elements, Hback.
    - now apply (alternatives_of_set node _ _ Halts).
    - apply Forall_app. split; [assumption |]. apply Forall_singleton. now eexists. }
  destruct tok; try (now apply (Hstep _ eq_refl)).
  - rewrite Halts in H. simpl in H.
    apply IH with (alts := alts ++ [createAlternative]) in H as (alts' & -> & Hsh' & Hlb').
    + exists alts'. split; [apply (alternatives_of_set node _ _ Halts) |].
      split; [assumption |]. intros Hall. apply Hlb' in Hall.
      now apply Forall_app in Hall as [Hall _].
    + now apply (alternatives_of_set node _ _ Halts).
    + apply Forall_app. split; [assumption |]. apply Forall_singleton. now exists [].
  - injection H as Hn Hc. subst node' ctx'. exists alts. split; [| now split].
    destruct node; simpl in Halts; try discriminate; inversion Halts; reflexivity.
Qed.

Lemma LB_top n : LB true emptyState n <-> LB false emptyState n.
Proof.
  unfold LB. simpl. split; [apply lookbehindOk_weaken |].
  induction n; simpl; auto.
Qed.

Lemma parse_loop_back W fuel :
  BackWalk W ->
  forall ctx alts alts' ctx',
    parse_loop W fuel ctx alts = Ok (alts', ctx') ->
    Forall isAlternative alts ->
    Forall isAlternative alts'
    /\ (Forall (LB false emptyState) alts' -> Forall (LB false emptyState) alts).
Proof.
  intros HW. induction fuel as [| fuel IH]; intros ctx alts alts' ctx' H Hsh; [discriminate |].
  simpl in H. destruct (current ctx <? length (tokens ctx))%nat.
  2:{ injection H as <- <-. now split. }
  destruct (at_last alts) as [top |] eqn:Htop; [| discriminate].
  apply at_last_Some_app in Htop as [front ->].
  apply Forall_app in Hsh as [Hfront Htop].
  apply Forall_inv in Htop as (els & ->). simpl in H.
  apply bind_Ok in H as [[[node els'] ctx1] [HWeq H]].
  apply (HW true) in HWeq as [_ Hback].
  rewrite !set_last_app in H.
  destruct (bool_decide (type_of node = Some TAlternative)) eqn:Hty.
  - apply bool_decide_eq_true_1 in Hty.
    apply IH in H as [Hsh' Hlb'].
    + split; [assumption |]. intros Hall. apply Hlb' in Hall.
      apply Forall_app in Hall as [Hall Hnode]. apply Forall_inv in Hnode.
      apply Forall_app in Hall as [Hf Hl]. apply Forall_inv in Hl.
      apply Forall_app. split; [assumption |]. apply Forall_singleton.
      apply LB_Alternative_elements in Hl.
      apply LB_Alternative_elements, Hback; [assumption | now apply LB_top].
    + apply Forall_app. split.
      * apply Forall_app. split; [assumption |]. apply Forall_singleton. now eexists.
      * apply Forall_singleton. destruct node; try discriminate. now eexists.
  - apply IH in H as [Hsh' Hlb'].
    + split; [assumption |]. intros Hall. apply Hlb' in Hall.
      apply Forall_app in Hall as [Hf Hl]. apply Forall_inv in Hl.
      apply Forall_app. split; [assumption |]. apply Forall_singleton.
      apply LB_Alternative_elements in Hl. apply Forall_app in Hl as [H1 H2].
      apply Forall_inv in H2. now apply LB_Alternative_elements, Hback.
    + apply Forall_app. split; [assumption |]. apply Forall_singleton. now eexists.
Qed.

Lemma classLoop_alarm W W' fuel :
  RelaxedWalk W W' -> NoFalseAlarm W W' -> BackWalk W' ->
  forall ctx first classes state classes' ctx',
    parseCharacterClassOpen_loop W fuel ctx first classes state = Throw lookbehindMsg ->
    parseCharacterClassOpen_loop W' fuel (skipping ctx) first classes state
      = Ok (classes', ctx') ->
    Forall isCharacterClass classes ->
    ~ Forall (LB false state) classes'.
Proof.
  intros HR HA HB. induction fuel as [| fuel IH];
    intros ctx first classes state classes' ctx' Hs Hl Hsh; [discriminate |].
  simpl in Hs, Hl. destruct (tokens ctx !! current ctx) as [tok |] eqn:Htok; [| discriminate].
  assert (Hstep : forall rs rl,
             rs = (match at_last classes with
                   | Some cc =>
                       match elements_of cc with
                       | Some els =>
                           '(node, els, ctx) ← W ctx els state;
                           parseCharacterClassOpen_loop W fuel ctx first
                             (set_last classes (set_elements cc (els ++ [node]))) state
                       | None => Throw TypeError
                       end
                   | None => Throw TypeError
                   end) ->
             rl = (match at_last classes with
                   | Some cc =>
                       match elements_of cc with
                       | Some els =>
                           '(node, els, ctx) ← W' (skipping ctx) els state;
                           parseCharacterClassOpen_loop W' fuel ctx first
                             (set_last classes (set_elements cc (els ++ [node]))) state
                       | None => Throw TypeError
                       end
                   | None => Throw TypeError
                   end) ->
             rs = Throw lookbehindMsg -> rl = Ok (classes', ctx') ->
             ~ Forall (LB false state) classes').
  { intros rs rl -> -> Hs' Hl'.
    destruct (at_last classes) as [cc |] eqn:Hcc; [| discriminate].
    apply at_last_Some_app in Hcc as [front ->].
    apply Forall_app in Hsh as [Hfront Hcc].
    apply Forall_inv in Hcc as (k & neg & els & ->).
    simpl in Hs', Hl'.
    assert (Hsh1 : forall x, Forall isCharacterClass (front ++ [CharacterClass k neg x])).
    { intros x. apply Forall_app. split; [assumption |]. apply Forall_singleton.
      now exists k, neg, x. }
    pose proof (HR ctx els state) as Hrel.
    destruct (W ctx els state) as [[[node els'] ctx1] | msg |] eqn:HWs;
      simpl in Hrel, Hs'; [| | discriminate].
    - rewrite Hrel in Hl'. simpl in Hl'. rewrite set_last_app in Hs', Hl'.
      exact (IH _ _ _ _ _ _ Hs' Hl' (Hsh1 _)).
    - injection Hs' as ->.
      apply bind_Ok in Hl' as [[[node els'] ctx1'] [HWl Hl']].
      rewrite set_last_app in Hl'. intros Hall.
      apply (classLoop_back W' fuel HB) in Hl' as [_ Hback]; [| apply Hsh1].
      apply Hback in Hall. apply Forall_app in Hall as [_ Hall]. apply Forall_inv in Hall.
      apply LB_CharacterClass_elements in Hall. apply Forall_app in Hall as [_ Hall].
      apply Forall_inv in Hall.
      exact (HA false ctx els state node els' ctx1' HWs HWl Hall). }
  destruct tok; try (now apply (Hstep _ _ eq_refl eq_refl)).
  refine (IH (set_current ctx (S (current ctx))) _ _ _ _ _ Hs Hl _).
  apply Forall_app. split; [assumption |]. apply Forall_singleton.
    now exists NodeCharacterClassKinds.union, false, [].
Qed.

Lemma groupLoop_alarm W W' fuel :
  RelaxedWalk W W' -> NoFalseAlarm W W' -> BackWalk W' ->
  forall ctx node state a l n node' ctx' alts,
    parseGroupOpen_loop W fuel ctx node state a l n = Throw lookbehindMsg ->
    parseGroupOpen_loop W' fuel (skipping ctx) node state a l n = Ok (node', ctx') ->
    alternatives_of node = Some alts ->
    Forall isAlternative alts ->
    exists alts',
      node' = set_alternatives node alts'
      /\ ~ Forall (LB false (childState state a l n)) alts'.
Proof.
  intros HR HA HB. induction fuel as [| fuel IH];
    intros ctx node state a l n node' ctx' alts Hs Hl Halts Hsh; [discriminate |].
  simpl in Hs, Hl. destruct (tokens ctx !! current ctx) as [tok |] eqn:Htok; [| discriminate].
  assert (Hstep : forall rs rl,
             rs = (match alternatives_of node ≫= at_last with
                   | Some alt =>
                       match elements_of alt with
                       | Some els =>
                           '(child, els, ctx) ← W ctx els (childState state a l n);
                           let node :=
                             set_alternatives node
                               (set_last (default [] (alternatives_of node))
                                  (set_elements alt (els ++ [child]))) in
                           if lookbehindViolation (skipLookbehindValidation ctx) state l n child
                           then Throw lookbehindMsg
                           else parseGroupOpen_loop W fuel ctx node state a l n
                       | None => Throw TypeError
                       end
                   | None => Throw TypeError
                   end) ->
             rl = (match alternatives_of node ≫= at_last with
                   | Some alt =>
                       match elements_of alt with
                       | Some els =>
                           '(child, els, ctx) ←
                             W' (skipping ctx) els (childState state a l n);
                           let node :=
                             set_alternatives node
                               (set_last (default [] (alternatives_of node))
                                  (set_elements alt (els ++ [child]))) in
                           if lookbehindViolation (skipLookbehindValidation ctx) state l n child
                           then Throw lookbehindMsg
                           else parseGroupOpen_loop W' fuel ctx node state a l n
                       | None => Throw TypeError
                       end
                   | None => Throw TypeError
                   end) ->
             rs = Throw lookbehindMsg -> rl = Ok (node', ctx') ->
             exists alts',
               node' = set_alternatives node alts'
               /\ ~ Forall (LB false (childState state a l n)) alts').
  { intros rs rl -> -> Hs' Hl'. rewrite Halts in Hs', Hl'. simpl in Hs', Hl'.
    destruct (at_last alts) as [alt |] eqn:Halt; [| discriminate].
    apply at_last_Some_app in Halt as [front ->].
    apply Forall_app in Hsh as [Hfront Halt].
    apply Forall_inv in Halt as (els & ->).
    simpl in Hs', Hl'.
    assert (Hsh1 : forall x, Forall isAlternative (front ++ [Alternative x])).
    { intros x. apply Forall_app. split; [assumption |]. apply Forall_singleton.
      now exists x. }
    assert (Hbad : forall child els1 ctx1 node1,
               parseGroupOpen_loop W' fuel ctx1
                 (set_alternatives node (front ++ [Alternative (els1 ++ [child])]))
                 state a l n = Ok (node1, ctx') ->
               ~ LB true (childState state a l n) child ->
               exists alts',
                 node1 = set_alternatives node alts'
                 /\ ~ Forall (LB false (childState state a l n)) alts').
    { intros child els1 ctx1 node1 Hloop Hchild.
      eapply (groupLoop_back W' fuel HB) in Hloop as (alts' & -> & _ & Hback);
        [| now apply (alternatives_of_set node _ _ Halts) | apply Hsh1].
      exists alts'. split; [apply (alternatives_of_set node _ _ Halts) |].
      intros Hall. apply Hback in Hall. apply Forall_app in Hall as [_ Hall].
      apply Forall_inv in Hall. apply LB_Alternative_elements in Hall.
      apply Forall_app in Hall as [_ Hall]. apply Forall_inv in Hall. contradiction. }
    pose proof (HR ctx els (childState state a l n)) as Hrel.
    destruct (W ctx els (childState state a l n)) as [[[child els'] ctx1] | msg |] eqn:HWs;
      simpl in Hrel, Hs'; [| | discriminate].
    - rewrite Hrel in Hl'. simpl in Hl'. rewrite set_last_app in Hs', Hl'.
      rewrite lookbehindViolation_skipped in Hl'.
      destruct (lookbehindViolation (skipLookbehindValidation ctx1) state l n child) eqn:Hv.
      + apply (Hbad child els' _ _ Hl'). intros Hchild.
        unfold lookbehindViolation in Hv.
        destruct (skipLookbehindValidation ctx1);
          [now rewrite andb_false_r in Hv |].
        fold (lookbehindViolation false state l n child) in Hv.
        rewrite lookbehindViolation_allowed in Hv. apply negb_true_iff in Hv.
        unfold LB in Hchild. simpl in Hchild.
        destruct child; simpl in Hchild; apply andb_true_iff in Hchild as [Hc _];
          congruence.
      + destruct (IH _ _ _ _ _ _ _ _ _ Hs' Hl'
                    (proj1 (alternatives_of_set node _ _ Halts)) (Hsh1 _))
          as (alts' & -> & Hbad').
        exists alts'. split; [apply (alternatives_of_set node _ _ Halts) | assumption].
    - injection Hs' as ->.
      apply bind_Ok in Hl' as [[[child els'] ctx1'] [HWl Hl']].
      cbv zeta in Hl'. rewrite set_last_app in Hl'.
      destruct (lookbehindViolation _ _ _ _ _) in Hl'; [discriminate |].
      apply (Hbad child els' _ _ Hl').
      exact (HA true ctx els _ child els' ctx1' HWs HWl). }
  destruct tok; try (now apply (Hstep _ _ eq_refl eq_refl)).
  rewrite Halts in Hs, Hl. simpl in Hs, Hl.
  destruct (IH (set_current ctx (S (current ctx))) _ _ _ _ _ _ _ _ Hs Hl
              (proj1 (alternatives_of_set node _ _ Halts))) as (alts' & -> & Hbad').
  - apply Forall_app. split; [assumption |]. apply Forall_singleton. now exists [].
  - exists alts'. split; [apply (alternatives_of_set node _ _ Halts) | assumption].
Qed.

Lemma bind_quiet {A B : Type} (r : result A) (k : A -> result B) :
  settled true r ->
  (forall a, k a <> Throw lookbehindMsg) ->
  r ≫= k <> Throw lookbehindMsg.
Proof.
  intros [_ Hr] Hk. destruct r as [a | msg |]; simpl; [apply Hk | | discriminate].
  intros [= ->]. now apply (Hr eq_refl).
Qed.

Lemma parseCharacterClassHyphen_alarm W W' :
  RelaxedWalk W W' -> NoFalseAlarm W W' ->
  forall c ctx parent state node parent' ctx',
    parseCharacterClassHyphen W ctx parent state = Throw lookbehindMsg ->
    parseCharacterClassHyphen W' (skipping ctx) parent state = Ok (node, parent', ctx') ->
    ~ LB c state node.
Proof.
  intros HR HA c ctx parent state node parent' ctx' Hs Hl. exfalso.
  unfold parseCharacterClassHyphen in Hs, Hl.
  rewrite createCharacter_hyphen in Hs, Hl. simpl in Hs, Hl.
  destruct (at_last parent) as [prev |]; [| discriminate].
  destruct (tokens ctx !! current ctx) as [next |]; [| discriminate].
  destruct (_ && negb (isClassBoundaryToken next)); [| discriminate].
  pose proof (HR ctx parent (with_isCheckingRangeEnd state)) as Hrel.
  destruct (W ctx parent (with_isCheckingRangeEnd state))
    as [[[nextNode p1] ctx1] | msg |] eqn:HWs; simpl in Hrel, Hs; [| | discriminate].
  - destruct (_ && _) in Hs; [| discriminate].
    unfold createCharacterClassRange in Hs.
    repeat case_match; discriminate.
  - injection Hs as ->.
    apply bind_Ok in Hl as [[[nextNode p1] ctx1'] [HWl Hl]].
    destruct (hasType TCharacter prev && hasType TCharacter nextNode) eqn:Hty;
      [| discriminate].
    apply andb_true_iff in Hty as [_ Hn]. apply bool_decide_eq_true_1 in Hn.
    destruct nextNode; try discriminate.
    apply (HA c ctx parent _ _ _ _ HWs HWl). apply LB_Character.
Qed.

Lemma parseCharacterClassOpen_alarm W W' fuel :
  RelaxedWalk W W' -> NoFalseAlarm W W' -> BackWalk W' ->
  forall c ctx negate state node ctx',
    parseCharacterClassOpen W fuel ctx negate state = Throw lookbehindMsg ->
    parseCharacterClassOpen W' fuel (skipping ctx) negate state = Ok (node, ctx') ->
    ~ LB c state node.
Proof.
  intros HR HA HB c ctx negate state node ctx' Hs Hl.
  unfold parseCharacterClassOpen in Hs, Hl. cbn [skipping tokens current] in Hl.
  assert (Hsh0 : Forall isCharacterClass
                   [createCharacterClass NodeCharacterClassKinds.union false]).
  { apply Forall_singleton. now exists NodeCharacterClassKinds.union, false, []. }
  apply bind_Ok in Hl as [[classes ctx1] [Hloop Hl]]. injection Hl as <- <-.
  destruct (parseCharacterClassOpen_loop W fuel ctx _ _ state) as [[? ?] | msg |] eqn:Hloops;
    simpl in Hs; [discriminate | | discriminate].
  injection Hs as ->.
  pose proof (classLoop_alarm W W' fuel HR HA HB _ _ _ _ _ _ Hloops Hloop Hsh0) as Hbad.
  apply (classLoop_back W' fuel HB) in Hloop as [Hsh _]; [| exact Hsh0].
  intros Hnode. apply Hbad. clear Hbad Hloops.
  assert (Hmap : Forall (LB false state)
                   (map (fun cc => match elements_of cc with
                                   | Some [el] => el
                                   | _ => cc
                                   end) classes) ->
                 Forall (LB false state) classes).
  { clear Hnode. induction Hsh as [| cc rest (k & neg & els & ->) _ IH]; [trivial |].
    simpl. intros Hall. apply Forall_cons in Hall as [Hcc Hall].
    apply Forall_cons. split; [| now apply IH].
    destruct els as [| el [| el2 els]]; try assumption.
    apply LB_CharacterClass. now apply Forall_singleton. }
  destruct classes as [| cc [| cc2 rest]].
  - constructor.
  - apply Forall_inv in Hsh as (k & neg & els & ->). simpl in Hnode.
    apply Forall_singleton, LB_CharacterClass.
    now apply LB_CharacterClass_elements in Hnode.
  - apply Hmap. now apply LB_CharacterClass_elements in Hnode.
Qed.

Lemma parseGroupOpen_alarm W W' fuel :
  RelaxedWalk W W' -> NoFalseAlarm W W' -> BackWalk W' ->
  forall c ctx kind flags name negate number state node ctx',
    parseGroupOpen isValidGroupName W fuel ctx kind flags name negate number state
      = Throw lookbehindMsg ->
    parseGroupOpen isValidGroupName W' fuel (skipping ctx) kind flags name negate number
      state = Ok (node, ctx') ->
    ~ LB c state node.
Proof.
  intros HR HA HB c ctx kind flags name negate number state node ctx' Hs Hl.
  unfold parseGroupOpen in Hs, Hl.
  apply bind_Ok in Hl as [node0 [Hnode0 Hl]]. rewrite Hnode0 in Hs. simpl in Hs.
  destruct (_ && isInAbsentFunction state) in Hs, Hl; [discriminate |].
  apply bind_Ok in Hl as [[node1 ctx1] [Hloop Hl]]. injection Hl as <- <-.
  assert (Hnode0' :
            alternatives_of node0 = Some [createAlternative]
            /\ match node0 with
               | AbsentFunction _ _ | CapturingGroup _ _ _ | Group _ _ _
               | LookaroundAssertion _ _ _ => True
               | _ => False
               end).
  { unfold createByGroupKind, createCapturingGroup in Hnode0.
    destruct kind; repeat case_match; inversion Hnode0; subst; split; reflexivity || exact I. }
  destruct Hnode0' as [Halts Hshape].
  assert (Hsh0 : Forall isAlternative [createAlternative])
    by (apply Forall_singleton; now exists []).
  match type of Hs with
  | (?loop ≫= _) = _ => destruct loop as [[? ?] | msg |] eqn:Hloops
  end; simpl in Hs; [discriminate | | discriminate].
  injection Hs as ->.
  assert (Hl' : parseGroupOpen_loop W' fuel
                  (skipping match node0 with
                            | CapturingGroup _ nm _ => push_capturingGroup ctx node0 nm
                            | _ => ctx
                            end) node0 state
                  (bool_decide (type_of node0 = Some TAbsentFunction)) (isLookbehind node0)
                  (isLookbehind node0 && negate_of node0) = Ok (node1, ctx1)).
  { destruct node0; exact Hloop. }
  destruct (groupLoop_alarm W W' fuel HR HA HB _ _ _ _ _ _ _ _ _ Hloops Hl' Halts Hsh0)
    as (alts' & -> & Hbad).
  intros Hnode. apply Hbad. clear - Hnode Hshape.
  destruct node0; try contradiction; unfold LB in *; simpl in *;
    apply andb_true_iff in Hnode as [_ Hnode]; apply Forall_forallb_true in Hnode;
    rewrite ?orb_false_r; exact Hnode.
Qed.

(** No call of [walk] raises a false alarm. *)
Lemma walk_alarm fuel : NoFalseAlarm (walk fuel) (walk fuel).
Proof.
  induction fuel as [| fuel IH]; intros c ctx parent state node parent' ctx' Hs Hl;
    [discriminate |].
  simpl in Hs, Hl. destruct (tokens ctx !! current ctx) as [tok |] eqn:Htok; [| discriminate].
  change (set_current (skipping ctx) (S (current ctx)))
    with (skipping (set_current ctx (S (current ctx)))) in Hl.
  destruct tok; try discriminate.
  - exfalso. revert Hs. apply bind_quiet; [apply createAssertionFromToken_settled |].
    discriminate.
  - exfalso. revert Hs. apply bind_quiet; [apply parseBackreference_settled |].
    intros [? ?]. discriminate.
  - exfalso. revert Hs. apply bind_quiet; [apply createCharacter_settled |]. discriminate.
  - exact (parseCharacterClassHyphen_alarm _ _ (walk_relaxes fuel) IH _ _ _ _ _ _ _ Hs Hl).
  - apply bind_Ok in Hl as [[node0 ctx0] [Hn Hl]]. injection Hl as <- <- <-.
    match type of Hs with
    | (?r ≫= _) = _ => destruct r as [[? ?] | msg |] eqn:Hr
    end; simpl in Hs; [discriminate | | discriminate].
    injection Hs as ->.
    exact (parseCharacterClassOpen_alarm _ _ fuel (walk_relaxes fuel) IH (walk_back fuel)
             _ _ _ _ _ _ Hr Hn).
  - exfalso. revert Hs. apply bind_quiet; [apply parseCharacterSet_settled |]. discriminate.
  - exfalso. revert Hs. apply bind_quiet; [apply createDirective_settled |]. discriminate.
  - apply bind_Ok in Hl as [[node0 ctx0] [Hn Hl]]. injection Hl as <- <- <-.
    match type of Hs with
    | (?r ≫= _) = _ => destruct r as [[? ?] | msg |] eqn:Hr
    end; simpl in Hs; [discriminate | | discriminate].
    injection Hs as ->.
    exact (parseGroupOpen_alarm _ _ fuel (walk_relaxes fuel) IH (walk_back fuel)
             _ _ _ _ _ _ _ _ _ _ Hr Hn).
  - exfalso. revert Hs. apply bind_quiet; [apply parseQuantifier_settled |].
    intros [? ?]. discriminate.
  - exfalso. revert Hs. apply bind_quiet; [apply parseSubroutine_settled |].
    intros [? ?]. discriminate.
Qed.

Lemma parse_loop_alarm W W' fuel :
  RelaxedWalk W W' -> NoFalseAlarm W W' -> BackWalk W' ->
  forall ctx alts alts' ctx',
    parse_loop W fuel ctx alts = Throw lookbehindMsg ->
    parse_loop W' fuel (skipping ctx) alts = Ok (alts', ctx') ->
    Forall isAlternative alts ->
    ~ Forall (LB false emptyState) alts'.
Proof.
  intros HR HA HB. induction fuel as [| fuel IH]; intros ctx alts alts' ctx' Hs Hl Hsh;
    [discriminate |].
  simpl in Hs, Hl. destruct (current ctx <? length (tokens ctx))%nat; [| discriminate].
  destruct (at_last alts) as [top |] eqn:Htop; [| discriminate].
  apply at_last_Some_app in Htop as [front ->].
  apply Forall_app in Hsh as [Hfront Htop].
  apply Forall_inv in Htop as (els & ->). simpl in Hs, Hl.
  assert (Hsh1 : forall x, Forall isAlternative (front ++ [Alternative x])).
  { intros x. apply Forall_app. split; [assumption |]. apply Forall_singleton.
    now exists x. }
  assert (Hsh2 : forall x node, type_of node = Some TAlternative ->
                   Forall isAlternative ((front ++ [Alternative x]) ++ [node])).
  { intros x node Hty. apply Forall_app. split; [apply Hsh1 |]. apply Forall_singleton.
    destruct node; try discriminate. now eexists. }
  pose proof (HR ctx els emptyState) as Hrel.
  destruct (W ctx els emptyState) as [[[node els'] ctx1] | msg |] eqn:HWs;
    simpl in Hrel, Hs; [| | discriminate].
  - rewrite Hrel in Hl. simpl in Hl. rewrite !set_last_app in Hs, Hl.
    destruct (bool_decide (type_of node = Some TAlternative)) eqn:Hty.
    + apply bool_decide_eq_true_1 in Hty. exact (IH _ _ _ _ Hs Hl (Hsh2 _ _ Hty)).
    + exact (IH _ _ _ _ Hs Hl (Hsh1 _)).
  - injection Hs as ->.
    apply bind_Ok in Hl as [[[node els'] ctx1'] [HWl Hl]].
    rewrite !set_last_app in Hl.
    pose proof (HA true ctx els emptyState node els' ctx1' HWs HWl) as Hnode.
    intros Hall. apply Hnode. apply LB_top.
    destruct (bool_decide (type_of node = Some TAlternative)) eqn:Hty.
    + apply bool_decide_eq_true_1 in Hty.
      apply (parse_loop_back W' fuel HB) in Hl as [_ Hback]; [| now apply Hsh2].
      apply Hback in Hall. apply Forall_app in Hall as [_ Hall]. now apply Forall_inv in Hall.
    + apply (parse_loop_back W' fuel HB) in Hl as [_ Hback]; [| apply Hsh1].
      apply Hback in Hall. apply Forall_app in Hall as [_ Hall]. apply Forall_inv in Hall.
      apply LB_Alternative_elements in Hall. apply Forall_app in Hall as [_ Hall].
      apply Forall_inv in Hall. now apply LB_top.
Qed.

(** When the strict parse throws the lookbehind error and the lenient
    parse returns a tree, the tree breaks the rule. *)
Lemma parseTokens_alarm tokenized opts ast :
  parseTokens PosixClassNames isValidGroupName tokenized opts = Throw lookbehindMsg ->
  parseTokens PosixClassNames isValidGroupName tokenized
    (with_skipLookbehindValidation opts true) = Ok ast ->
  lookbehindOk false false false ast = false.
Proof.
  unfold parseTokens. intros Hs Hl.
  change (initialContext (with_skipLookbehindValidation opts true) (tokenized_tokens tokenized))
    with (skipping (initialContext opts (tokenized_tokens tokenized))) in Hl.
  apply bind_Ok in Hl as [[alts ctx'] [Hloop Hl]].
  destruct (_ && _) in Hl; [discriminate |].
  apply bind_Ok in Hl as [_ [_ Hl]]. injection Hl as <-.
  match type of Hs with
  | (?r ≫= _) = _ => destruct r as [[alts0 ctx0] | msg |] eqn:Hloops
  end; simpl in Hs; [| | discriminate].
  - exfalso. destruct (_ && _) in Hs; [discriminate |].
    revert Hs. apply bind_quiet; [apply validateSubroutines_settled | discriminate].
  - injection Hs as ->.
    assert (Hsh0 : Forall isAlternative (default [] (alternatives_of createPattern)))
      by (apply Forall_singleton; now exists []).
    pose proof (parse_loop_alarm _ _ _ (walk_relaxes _) (walk_alarm _) (walk_back _)
                  _ _ _ _ Hloops Hloop Hsh0) as Hbad.
    apply not_true_is_false. intros Hok. apply Hbad.
    simpl in Hok. now apply Forall_forallb_true in Hok.
Qed.

(** The factories of the alternative containers start with one empty
    alternative. *)
Lemma factories_one_empty_alternative :
  alternatives_of createPattern = Some [Alternative []]
  /\ (forall atomic flags, alternatives_of (createGroup atomic flags) = Some [Alternative []])
  /\ (forall behind negate,
        alternatives_of (createLookaroundAssertion behind negate) = Some [Alternative []])
  /\ (forall kind, alternatives_of (createAbsentFunction kind) = Some [Alternative []])
  /\ (forall number name node,
        createCapturingGroup isValidGroupName number name = Ok node ->
        alternatives_of node = Some [Alternative []]).
Proof.
  repeat split. intros number name node H. unfold createCapturingGroup in H.
  repeat case_match; inversion H; reflexivity.
Qed.

Variable tokenize : string -> TokenizerOptions -> string + Tokenized.

(** C10.  A node that [parse] returns, or that one of the factories of the
    alternative containers builds, has no alternative container with an
    empty [alternatives] array anywhere in it; and what a factory builds
    has exactly one alternative, an empty one. *)
Theorem alternatives_never_empty pattern opts node :
  parse PosixClassNames isValidGroupName tokenize pattern opts = Ok node
  \/ node = createPattern
  \/ (exists atomic flags, node = createGroup atomic flags)
  \/ (exists behind negate, node = createLookaroundAssertion behind negate)
  \/ (exists kind, node = createAbsentFunction kind)
  \/ (exists number name, createCapturingGroup isValidGroupName number name = Ok node) ->
  alternativesNonEmpty node = true
  /\ (parse PosixClassNames isValidGroupName tokenize pattern opts = Ok node \/ alternatives_of node = Some [Alternative []]).
Proof.
  intros [H | [-> | [(a & f & ->) | [(b & n & ->) | [(k & ->) | (num & nm & H)]]]]].
  - split; [| now left]. unfold parse in H.
    destruct (tokenize _ _) as [msg | tokenized]; [discriminate |].
    now apply parseTokens_invariants in H as [H _].
  - split; [reflexivity | now right].
  - split; [reflexivity | now right].
  - split; [reflexivity | now right].
  - split; [reflexivity | now right].
  - unfold createCapturingGroup in H.
    repeat case_match; inversion H; (split; [reflexivity | now right]).
Qed.

(** C6.  On a token stream, take the parse without the option
    [skipLookbehindValidation], [strict], and the parse with it,
    [lenient]; the lenient parse returns or throws.  When it returns a
    tree, the strict parse throws the lookbehind error if the tree breaks
    the lookbehind rule somewhere (a lookahead or a negative lookbehind in
    a positive lookbehind, a lookahead or a capturing group in a negative
    one, at any depth), and returns the same tree if it does not.  The
    lenient parse never throws the lookbehind error: what it throws, the
    strict parse throws too unless it throws the lookbehind error
    first. *)
Theorem lookbehind_validation pattern opts tokenized :
  tokenize pattern {| tk_flags := opt_flags opts;
                      tk_captureGroup := opt_captureGroup opts;
                      tk_singleline := opt_singleline opts |} = inr tokenized ->
  let strict :=
    parse PosixClassNames isValidGroupName tokenize pattern
      (with_skipLookbehindValidation opts false) in
  let lenient :=
    parse PosixClassNames isValidGroupName tokenize pattern
      (with_skipLookbehindValidation opts true) in
  match lenient with
  | Ok ast =>
      strict = if lookbehindOk false false false ast then Ok ast else Throw lookbehindMsg
  | Throw msg =>
      msg <> lookbehindMsg /\ (strict = Throw msg \/ strict = Throw lookbehindMsg)
  | OutOfFuel => False
  end.
Proof.
  intros Htok. unfold parse.
  cbn [with_skipLookbehindValidation opt_flags opt_captureGroup opt_singleline].
  rewrite Htok.
  pose proof (parseTokens_relaxes tokenized (with_skipLookbehindValidation opts false))
    as Hrel.
  pose proof (parseTokens_alarm tokenized (with_skipLookbehindValidation opts false))
    as Halarm.
  change (with_skipLookbehindValidation (with_skipLookbehindValidation opts false) true)
    with (with_skipLookbehindValidation opts true) in Hrel, Halarm.
  pose proof (parseTokens_settled tokenized (with_skipLookbehindValidation opts true))
    as [Hfuel Hmsg].
  pose proof (parseTokens_invariants tokenized (with_skipLookbehindValidation opts false))
    as Hinv.
  specialize (Hmsg eq_refl).
  set (strict := parseTokens PosixClassNames isValidGroupName tokenized
                   (with_skipLookbehindValidation opts false)) in *.
  set (lenient := parseTokens PosixClassNames isValidGroupName tokenized
                    (with_skipLookbehindValidation opts true)) in *.
  cbv zeta.
  destruct lenient as [ast | msg |]; [| | contradiction].
  - destruct strict as [ast0 | msg0 |]; simpl in Hrel.
    + injection Hrel as ->. destruct (Hinv ast0 eq_refl) as [_ Hok].
      now rewrite (Hok eq_refl).
    + destruct Hrel as [-> | Hrel]; [| discriminate].
      now rewrite (Halarm ast eq_refl eq_refl).
    + discriminate.
  - split; [congruence |].
    destruct strict as [ast0 | msg0 |]; simpl in Hrel; [discriminate | | discriminate].
    destruct Hrel as [-> | Hrel]; [now right |]. left. congruence.
Qed.

End ParserInvariants.

(** The five sample patterns with a forbidden nesting throw the lookbehind
    error, and parse with the option set. *)
Example forbidden_nestings_rejected :
  Forall (fun toks =>
            sampleParse toks defaultOptions = Throw lookbehindMsg
            /\ returned (sampleParse toks skippingLookbehindValidation))
    forbiddenInLookbehind.
Proof.
  unfold forbiddenInLookbehind.
  repeat (apply List.Forall_cons; [split; [vm_compute; reflexivity | vm_compute; exact I] |]).
  apply List.Forall_nil.
Qed.

(** A nesting the rule allows parses to the same tree with and without
    the option. *)
Example allowed_nesting_accepted :
  exists ast,
    sampleParse allowedInPositiveLookbehind defaultOptions = Ok ast
    /\ sampleParse allowedInPositiveLookbehind skippingLookbehindValidation = Ok ast
    /\ lookbehindOk false false false ast = true.
Proof. eexists. repeat split; vm_compute; reflexivity. Qed.

(** The rule tells the trees of the forbidden nestings apart from a tree
    it allows. *)
Example forbidden_nestings_not_ok :
  Forall (fun toks =>
            exists ast, sampleParse toks skippingLookbehindValidation = Ok ast
                        /\ lookbehindOk false false false ast = false)
    forbiddenInLookbehind.
Proof.
  unfold forbiddenInLookbehind.
  repeat (apply List.Forall_cons; [eexists; split; vm_compute; reflexivity |]).
  apply List.Forall_nil.
Qed.

Lemma alternatives_never_empty_witness :
  alternativesNonEmpty
    (Regex (Pattern [Alternative [Group false None [Alternative [Character 97];
                                                     Alternative [Character 98]]]])
       (Flags noFlags)) = true.
Proof.
  refine (proj1 (alternatives_never_empty samplePosixClassNames anyGroupName
                   (sampleTokenizer [groupOpen; CharacterToken 97; AlternatorToken;
                                     CharacterToken 98; GroupCloseToken])
                   "(?:a|b)" defaultOptions _ _)).
  left. vm_compute. reflexivity.
Defined.

Lemma lookbehind_validation_witness :
  sampleParse [lookbehindOpen true; groupOpen; captureOpen 1; CharacterToken 97;
               GroupCloseToken; GroupCloseToken; GroupCloseToken] defaultOptions
  = Throw lookbehindMsg.
Proof.
  pose proof (lookbehind_validation samplePosixClassNames anyGroupName
                (sampleTokenizer [lookbehindOpen true; groupOpen; captureOpen 1;
                                  CharacterToken 97; GroupCloseToken; GroupCloseToken;
                                  GroupCloseToken])
                "" defaultOptions _ eq_refl) as H.
  cbv zeta in H.
  destruct (parse samplePosixClassNames anyGroupName _ "" (with_skipLookbehindValidation _ true))
    as [ast | msg |] eqn:Hl in H; vm_compute in Hl; [| discriminate | discriminate].
  injection Hl as <-. exact H.
Defined.

(** ** The traverser *)

Section TraverserUnfold.

Context {St : Type}.
Implicit Types (visitor : Visitor St) (s : St).

Lemma invoke_callbackResult (recur : TraverseNode St) fn original fr s :
  invoke recur fn original fr s
  = runActions recur (callbackResult fn (view original fr) s).1 fr
      (callbackResult fn (view original fr) s).2.
Proof.
  unfold invoke, callbackResult. destruct fn as [f |]; [| reflexivity].
  now destruct (f (view original fr) s).
Qed.

(** One step of [traverseNode], with the four callbacks named. *)
Lemma traverseNode_unfold visitor fuel node loc s ty :
  type_of node = Some ty ->
  traverseNode visitor (S fuel) node loc s
  = ('(fr, s) ← invoke (traverseNode visitor fuel) (enterAllFn visitor) node
                  (newFrame node loc) s;
     '(fr, s) ← invoke (traverseNode visitor fuel) (enterThisFn visitor ty) node fr s;
     '(fr, s) ←
       (if fr_skip fr then Ok (fr, s)
        else
          '(nodeNow, s) ← traverseKids (traverseNode visitor fuel) fuel (up_from fr)
                            (fr_node fr) s;
          Ok (write_back fr nodeNow, s));
     '(fr, s) ← invoke (traverseNode visitor fuel) (exitAllFn visitor) node fr s;
     '(fr, s) ← invoke (traverseNode visitor fuel) (exitThisFn visitor ty) node fr s;
     Ok (fr, s)).
Proof. intros Hty. simpl. now rewrite Hty. Qed.

Lemma traverseArray_unfold (recur : TraverseNode St) fuel i array up parent s :
  traverseArray recur (S fuel) i array up parent s
  = match array !! i with
    | None => Ok (array, s)
    | Some node =>
        '(fr, s) ← recur node (InArray up parent i array) s;
        traverseArray recur fuel
          (Z.to_nat (Z.max (-1) (Z.of_nat i + fr_keyShift fr) + 1))
          (container_of (fr_loc fr) array) up parent s
    end.
Proof. reflexivity. Qed.

End TraverserUnfold.

Arguments view : simpl never.
Arguments callbackResult : simpl never.
Arguments enterAllFn : simpl never.
Arguments enterThisFn : simpl never.
Arguments exitAllFn : simpl never.
Arguments exitThisFn : simpl never.
Arguments invoke : simpl never.
Arguments traverseKids : simpl never.
Arguments traverseNode : simpl never.
Arguments traverseArray : simpl never.
Arguments applyAction : simpl never.
Arguments shiftedKey : simpl never.

Section TraverserFacts.

Context {St : Type}.
Implicit Types (visitor : Visitor St) (s : St).

Lemma shiftedKey_0 i : shiftedKey i 0 = i.
Proof. unfold shiftedKey. lia. Qed.

Lemma runActions_nil (recur : TraverseNode St) fr s : runActions recur [] fr s = Ok (fr, s).
Proof. reflexivity. Qed.

Lemma runActions_remove (recur : TraverseNode St) up parent i array node s :
  runActions recur [remove] (newFrame node (InArray up parent i array)) s
  = Ok (removedFrame up parent i array node, s).
Proof. unfold runActions, applyAction. simpl. now rewrite shiftedKey_0. Qed.

(** The call of a callback whose operations are known, and the
    sequencing of what follows. *)
Ltac run := rewrite ?runActions_nil; cbn [mbind result_bind].
Ltac call fn H := rewrite (invoke_callbackResult _ fn), H; cbn [fst snd].

Lemma app_singleton_cases {A : Type} (l1 l2 : list A) (x : A) :
  l1 ++ l2 = [x] -> (l1 = [x] /\ l2 = []) \/ (l1 = [] /\ l2 = [x]).
Proof.
  destruct l1 as [| y l1]; simpl; intros H; [now right |].
  injection H as -> H. apply app_eq_nil in H as [-> ->]. now left.
Qed.



Lemma array_set_occupied (container : list Node) i node newNode :
  container !! i = Some node -> array_set container i newNode = <[i := newNode]> container.
Proof.
  intros H. apply lookup_lt_Some in H. unfold array_set.
  destruct (i <? length container)%nat eqn:E; [reflexivity |].
  apply Nat.ltb_ge in E. lia.
Qed.

Lemma runActions_replaceWith (recur : TraverseNode St) loc node newNode s :
  occupies node loc ->
  runActions recur [replaceWith newNode] (newFrame node loc) s
  = Ok (replacedFrame loc newNode, s).
Proof.
  intros Hocc. unfold runActions, applyAction. destruct loc as [| up parent key | up parent key c];
    simpl in *; [contradiction | reflexivity |].
  rewrite shiftedKey_0. now rewrite (array_set_occupied _ _ _ _ Hocc).
Qed.

(** [replaceWith] in a visitor without [exit] callbacks.  When the
    [enter] callbacks of a node call [replaceWith(newNode)] and nothing
    else, [newNode] takes the place of the node in its container or in
    the slot of its parent, and the traverser walks the children of
    [newNode]: the walk goes on with the new node.  The tree keeps
    [newNode] as this walk leaves it. *)
Lemma replaceWith_walks_new_children
    visitor fuel loc node ty newNode s a1 s1 a2 s2 nodeNow s3 :
  occupies node loc ->
  type_of node = Some ty ->
  let fr0 := newFrame node loc in
  let frW := replacedFrame loc newNode in
  callbackResult (enterAllFn visitor) (view node fr0) s = (a1, s1) ->
  callbackResult (enterThisFn visitor ty)
    (view node (match a1 with [] => fr0 | _ => frW end)) s1 = (a2, s2) ->
  a1 ++ a2 = [replaceWith newNode] ->
  traverseKids (traverseNode visitor fuel) fuel (up_from frW) newNode s2
    = Ok (nodeNow, s3) ->
  exitAllFn visitor = None ->
  exitThisFn visitor ty = None ->
  traverseNode visitor (S fuel) node loc s = Ok (write_back frW nodeNow, s3).
Proof.
  intros Hocc Hty fr0 frW He1 He2 Hacts Hkids Hx1 Hx2.
  rewrite (traverseNode_unfold _ _ _ _ _ _ Hty). fold fr0. rewrite Hx1, Hx2.
  apply app_singleton_cases in Hacts as [[-> ->] | [-> ->]].
  - call (enterAllFn visitor) He1. unfold fr0 at 1.
    rewrite (runActions_replaceWith _ _ _ _ _ Hocc). fold frW. run.
    call (enterThisFn visitor ty) He2. run.
    change (fr_skip frW) with false. change (fr_node frW) with newNode.
    cbn iota. rewrite Hkids. run. reflexivity.
  - call (enterAllFn visitor) He1. run.
    call (enterThisFn visitor ty) He2. unfold fr0 at 1.
    rewrite (runActions_replaceWith _ _ _ _ _ Hocc). fold frW. run.
    change (fr_skip frW) with false. change (fr_node frW) with newNode.
    cbn iota. rewrite Hkids. run. reflexivity.
Qed.

Lemma runActions_replaceWithMultiple (recur : TraverseNode St) up parent i array node
    newNodes (traverseNew : bool) s acc array' s' :
  (if traverseNew
   then traverseInserted recur newNodes up parent i 0 (splice_1 array i newNodes) s
   else Ok (0, splice_1 array i newNodes, s)) = Ok (acc, array', s' : St) ->
  runActions recur [replaceWithMultiple newNodes traverseNew]
    (newFrame node (InArray up parent i array)) s
  = Ok (multipliedFrame up parent i array' node (length newNodes) acc, s').
Proof.
  intros H. unfold runActions, applyAction, applyReplaceWithMultiple. simpl.
  rewrite shiftedKey_0, H. simpl.
  unfold multipliedFrame. repeat f_equal.
Qed.

End TraverserFacts.

Section LoggerFacts.

Variable skips : CallbackKind -> Node -> bool.

Lemma path_node_view original fr :
  path_node (view original fr) = if fr_replaced fr then original else fr_node fr.
Proof. unfold view. now destruct (fr_loc fr). Qed.

Lemma invoke_logCallback (recur : TraverseNode (list Event)) kind original fr log :
  fr_replaced fr = false ->
  invoke recur (Some (logCallback kind (skips kind))) original fr log
  = Ok (if skips kind (fr_node fr)
        then {| fr_node := fr_node fr; fr_keyShift := fr_keyShift fr; fr_skip := true;
                fr_replaced := false; fr_loc := fr_loc fr |}
        else fr,
        log ++ [(kind, fr_node fr)]).
Proof.
  intros Hr. rewrite invoke_callbackResult. unfold callbackResult, logCallback. cbn [fst snd].
  rewrite path_node_view, Hr.
  destruct (skips kind (fr_node fr)); [| reflexivity].
  unfold runActions, applyAction. cbn [mbind result_bind]. now rewrite Hr.
Qed.

Lemma nodeFuel_elem (l : list Node) el :
  el ∈ l -> (nodeFuel el <= list_sum (map nodeFuel l))%nat.
Proof.
  induction 1 as [el l | el el' l _ IH]; simpl; lia.
Qed.

Lemma nodeFuel_length (l : list Node) : (length l <= list_sum (map nodeFuel l))%nat.
Proof.
  induction l as [| el l IH]; simpl; [lia |].
  assert (2 <= nodeFuel el)%nat by (destruct el; simpl; lia). lia.
Qed.

Lemma set_slot_get parent key child :
  get_slot parent key = Some child -> set_slot parent key child = parent.
Proof.
  destruct parent; simpl; intros H; try discriminate;
    repeat (case_bool_decide; simplify_eq); try reflexivity; discriminate.
Qed.

(** The place of a node the logger has walked is the place it had. *)
Lemma loggedFrame_array n up parent i array :
  array !! i = Some n ->
  fr_loc (loggedFrame skips n (InArray up parent i array)) = InArray up parent i array.
Proof.
  intros Hel. unfold loggedFrame. cbn [fr_loc]. destruct (skipsKids skips n); [reflexivity |].
  cbn [write_back newFrame fr_loc fr_keyShift].
  now rewrite shiftedKey_0, (list_insert_id _ _ _ Hel).
Qed.

Lemma loggedFrame_slot n up parent key :
  get_slot parent key = Some n ->
  fr_loc (loggedFrame skips n (InSlot up parent key)) = InSlot up parent key.
Proof.
  intros Hget. unfold loggedFrame. cbn [fr_loc]. destruct (skipsKids skips n); [reflexivity |].
  cbn [write_back newFrame fr_loc]. now rewrite (set_slot_get _ _ _ Hget).
Qed.

Lemma logger_traverseArray fuel recur :
  Records skips fuel recur ->
  forall loopFuel i array up parent log,
    (forall el, el ∈ array -> (nodeFuel el <= fuel)%nat /\ noHoles el = true) ->
    (length array - i < loopFuel)%nat ->
    traverseArray recur loopFuel i array up parent log
    = Ok (array, log ++ flat_map (firedOrder skips) (drop i array)).
Proof.
  intros Hrec. induction loopFuel as [| loopFuel IH]; intros i array up parent log Hels Hfuel;
    [lia |].
  rewrite traverseArray_unfold.
  destruct (array !! i) as [el |] eqn:Hel.
  - destruct (Hels el) as [Hf Hh]; [eapply list_elem_of_lookup_2, Hel |].
    rewrite (Hrec el Hf Hh). cbn [mbind result_bind].
    rewrite (loggedFrame_array _ _ _ _ _ Hel).
    cbn [loggedFrame fr_keyShift container_of].
    replace (Z.to_nat (Z.max (-1) (Z.of_nat i + 0) + 1)) with (S i) by lia.
    pose proof (lookup_lt_Some _ _ _ Hel).
    rewrite IH by (assumption || lia).
    rewrite (drop_S _ _ _ Hel). simpl. now rewrite app_assoc.
  - apply lookup_ge_None in Hel. rewrite drop_ge by assumption.
    simpl. now rewrite app_nil_r.
Qed.

Lemma logger_traverseSlot fuel recur up parent key child log :
  Records skips fuel recur ->
  get_slot parent key = Some child ->
  (nodeFuel child <= fuel)%nat ->
  noHoles child = true ->
  traverseSlot recur up parent key log = Ok (parent, log ++ firedOrder skips child).
Proof.
  intros Hrec Hget Hf Hh. unfold traverseSlot. rewrite Hget. cbn [default].
  rewrite (Hrec child Hf Hh). cbn [mbind result_bind].
  now rewrite (loggedFrame_slot _ _ _ _ Hget).
Qed.

Lemma firedOrder_kidsFired n :
  firedOrder skips n
  = [(WildcardEnter, n); (TypeEnter, n)]
    ++ (if skipsKids skips n then [] else kidsFired skips n)
    ++ [(WildcardExit, n); (TypeExit, n)].
Proof. destruct n; reflexivity. Qed.

Lemma logger_traverseKids fuel recur up n log :
  Records skips fuel recur ->
  (nodeFuel n <= S fuel)%nat ->
  noHoles n = true ->
  traverseKids recur fuel up n log = Ok (n, log ++ kidsFired skips n).
Proof.
  intros Hrec Hf Hh.
  assert (Harray : forall els up' parent,
             (2 + list_sum (map nodeFuel els) <= S fuel)%nat ->
             forallb noHoles els = true ->
             traverseArray recur fuel 0 els up' parent log
             = Ok (els, log ++ flat_map (firedOrder skips) els)).
  { intros els up' parent Hsum Hall.
    rewrite (logger_traverseArray fuel recur Hrec fuel 0 els up' parent log).
    - now rewrite drop_0.
    - intros el Hel. split.
      + pose proof (nodeFuel_elem els el Hel). lia.
      + rewrite forallb_forall in Hall. now apply Hall, list_elem_of_In.
    - pose proof (nodeFuel_length els). lia. }
  destruct n; unfold traverseKids; simpl in Hf, Hh; try discriminate;
    try (now rewrite app_nil_r);
    try (rewrite Harray by assumption; reflexivity).
  - apply andb_true_iff in Hh as [H1 H2].
    rewrite (logger_traverseSlot fuel recur up _ "min" n1) by (assumption || reflexivity || lia).
    cbn [mbind result_bind].
    rewrite (logger_traverseSlot fuel recur up _ "max" n2) by (assumption || reflexivity || lia).
    simpl. now rewrite app_assoc.
  - rewrite (logger_traverseSlot fuel recur up _ "element" n) by (assumption || reflexivity || lia).
    reflexivity.
  - apply andb_true_iff in Hh as [H1 H2].
    rewrite (logger_traverseSlot fuel recur up _ "pattern" n1) by (assumption || reflexivity || lia).
    cbn [mbind result_bind].
    rewrite (logger_traverseSlot fuel recur up _ "flags" n2) by (assumption || reflexivity || lia).
    simpl. now rewrite app_assoc.
Qed.

Ltac log_cbn :=
  cbn [mbind result_bind newFrame write_back fr_node fr_skip fr_keyShift fr_replaced
       fr_loc orb].
Ltac log_step := rewrite invoke_logCallback by reflexivity; log_cbn.

Lemma logger_records fuel : Records skips fuel (traverseNode (logger skips) fuel).
Proof.
  induction fuel as [| fuel IH]; intros n Hf Hh loc log.
  - destruct n; simpl in Hf; lia.
  - destruct (type_of n) as [ty |] eqn:Hty; [| destruct n; discriminate].
    rewrite (traverseNode_unfold _ _ _ _ _ _ Hty).
    change (enterAllFn (logger skips))
      with (Some (logCallback WildcardEnter (skips WildcardEnter))).
    change (enterThisFn (logger skips) ty)
      with (Some (logCallback TypeEnter (skips TypeEnter))).
    change (exitAllFn (logger skips))
      with (Some (logCallback WildcardExit (skips WildcardExit))).
    change (exitThisFn (logger skips) ty)
      with (Some (logCallback TypeExit (skips TypeExit))).
    rewrite firedOrder_kidsFired. unfold loggedFrame, skipsKids.
    log_step. destruct (skips WildcardEnter n);
      log_step; destruct (skips TypeEnter n); log_cbn;
      rewrite ?(logger_traverseKids fuel _ _ n _ IH Hf Hh); log_cbn;
      log_step; destruct (skips WildcardExit n); log_cbn;
      log_step; destruct (skips TypeExit n); log_cbn;
      rewrite <- ?app_assoc; reflexivity.
Qed.

(** C2, as the code has it.  On every tree the walk of [logger skips],
    whose wildcard and type callbacks all record their calls and call
    [skip()] where [skips] says so, leaves the tree as it is and the record
    [firedOrder]: at each node wildcard-enter, type-enter, the walks of
    the children in their order unless an [enter] callback has called
    [skip()], then wildcard-exit and then type-exit; the two [exit]
    callbacks are called on a skipped node too. *)
Theorem callbacks_fire_in_order ast fuel log :
  noHoles ast = true ->
  (nodeFuel ast <= fuel)%nat ->
  traverse fuel ast log (logger skips) = Ok (ast, log ++ firedOrder skips ast).
Proof.
  intros Hh Hf. unfold traverse. now rewrite (logger_records fuel ast Hf Hh).
Qed.

End LoggerFacts.

Section RemoverFacts.

Variable doomed : Node -> bool.

Lemma remover_traverseArray fuel recur :
  Removes doomed fuel recur ->
  forall rest loopFuel pre up parent log,
    (forall el, el ∈ rest -> (nodeFuel el <= fuel)%nat /\ removable doomed el = true) ->
    (length rest < loopFuel)%nat ->
    traverseArray recur loopFuel (length pre) (pre ++ rest) up parent log
    = Ok (pre ++ keptOf doomed rest, log ++ enteredOf doomed rest).
Proof.
  intros Hrec. induction rest as [| el rest IH]; intros loopFuel pre up parent log Hels Hfuel;
    (destruct loopFuel as [| loopFuel]; [simpl in Hfuel; lia |]);
    rewrite traverseArray_unfold.
  - rewrite app_nil_r. rewrite lookup_ge_None_2 by lia. simpl. now rewrite !app_nil_r.
  - rewrite list_lookup_middle by reflexivity.
    destruct (Hels el) as [Hf Hr]; [left |].
    destruct (Hrec el Hf Hr (InArray up parent (length pre) (pre ++ el :: rest)) log)
      as [Hkeep Hremove].
    assert (Hrest : forall el', el' ∈ rest ->
                      (nodeFuel el' <= fuel)%nat /\ removable doomed el' = true)
      by (intros el' Hel'; apply Hels; now right).
    simpl in Hfuel.
    destruct (doomed el) eqn:Hd.
    + rewrite (Hremove eq_refl up parent _ _ eq_refl). cbn [mbind result_bind].
      cbn [removedFrame fr_keyShift fr_loc container_of].
      replace (Z.to_nat (Z.max (-1) (Z.of_nat (length pre) + -1) + 1)) with (length pre) by lia.
      replace (delete (length pre) (pre ++ el :: rest)) with (pre ++ rest).
      2:{ rewrite delete_middle. reflexivity. }
      rewrite IH by (assumption || lia).
      unfold keptOf, enteredOf. simpl. rewrite Hd. simpl. now rewrite <- app_assoc.
    + rewrite (Hkeep eq_refl). cbn [mbind result_bind].
      cbn [write_back newFrame fr_keyShift fr_loc container_of].
      rewrite shiftedKey_0.
      replace (Z.to_nat (Z.max (-1) (Z.of_nat (length pre) + 0) + 1)) with (S (length pre))
        by lia.
      replace (<[length pre := kept doomed el]> (pre ++ el :: rest))
        with ((pre ++ [kept doomed el]) ++ rest).
      2:{ rewrite insert_app_r_alt by lia. rewrite Nat.sub_diag. simpl.
          now rewrite <- app_assoc. }
      replace (S (length pre)) with (length (pre ++ [kept doomed el]))
        by (rewrite length_app; simpl; lia).
      rewrite IH by (assumption || lia).
      unfold keptOf, enteredOf. simpl. rewrite Hd. simpl.
      now rewrite <- !app_assoc.
Qed.

Lemma remover_traverseSlot fuel recur up parent key child log :
  Removes doomed fuel recur ->
  get_slot parent key = Some child ->
  (nodeFuel child <= fuel)%nat ->
  removable doomed child = true ->
  doomed child = false ->
  traverseSlot recur up parent key log
  = Ok (set_slot parent key (kept doomed child), log ++ entered doomed child).
Proof.
  intros Hrec Hget Hf Hr Hd. unfold traverseSlot. rewrite Hget. change (default Undefined (Some child)) with child.
  destruct (Hrec child Hf Hr (InSlot up parent key) log) as [Hkeep _].
  rewrite (Hkeep Hd). reflexivity.
Qed.

Lemma remover_traverseKids fuel recur up n log :
  Removes doomed fuel recur ->
  (nodeFuel n <= S fuel)%nat ->
  removable doomed n = true ->
  traverseKids recur fuel up n log = Ok (kept doomed n, log ++ tail (entered doomed n)).
Proof.
  intros Hrec Hf Hr.
  assert (Harray : forall els up' parent,
             (2 + list_sum (map nodeFuel els) <= S fuel)%nat ->
             forallb (removable doomed) els = true ->
             traverseArray recur fuel 0 els up' parent log
             = Ok (keptOf doomed els, log ++ enteredOf doomed els)).
  { intros els up' parent Hsum Hall.
    apply (remover_traverseArray fuel recur Hrec els fuel [] up' parent log).
    - intros el Hel. split.
      + pose proof (nodeFuel_elem els el Hel). lia.
      + rewrite forallb_forall in Hall. now apply Hall, list_elem_of_In.
    - pose proof (nodeFuel_length els). lia. }
  destruct n; unfold traverseKids; simpl in Hf, Hr; try discriminate;
    try (simpl; now rewrite app_nil_r);
    try (rewrite Harray by assumption; reflexivity).
  - apply andb_true_iff in Hr as [Hr H4]. apply andb_true_iff in Hr as [Hr H3].
    apply andb_true_iff in Hr as [H1 H2]. apply negb_true_iff in H1, H2.
    rewrite (remover_traverseSlot fuel recur up _ "min" n1)
      by (assumption || reflexivity || lia).
    cbn [mbind result_bind].
    rewrite (remover_traverseSlot fuel recur up _ "max" n2)
      by (assumption || reflexivity || lia).
    simpl. now rewrite app_assoc.
  - apply andb_true_iff in Hr as [H1 H2]. apply negb_true_iff in H1.
    rewrite (remover_traverseSlot fuel recur up _ "element" n)
      by (assumption || reflexivity || lia).
    reflexivity.
  - apply andb_true_iff in Hr as [Hr H4]. apply andb_true_iff in Hr as [Hr H3].
    apply andb_true_iff in Hr as [H1 H2]. apply negb_true_iff in H1, H2.
    rewrite (remover_traverseSlot fuel recur up _ "pattern" n1)
      by (assumption || reflexivity || lia).
    cbn [mbind result_bind].
    rewrite (remover_traverseSlot fuel recur up _ "flags" n2)
      by (assumption || reflexivity || lia).
    simpl. now rewrite app_assoc.
Qed.

Lemma remover_removes fuel : Removes doomed fuel (traverseNode (remover doomed) fuel).
Proof.
  induction fuel as [| fuel IH]; intros n Hf Hr loc log.
  - destruct n; simpl in Hf; lia.
  - destruct (type_of n) as [ty |] eqn:Hty; [| destruct n; discriminate].
    rewrite (traverseNode_unfold _ _ _ _ _ _ Hty).
    rewrite (invoke_callbackResult _ (enterAllFn (remover doomed))).
    change (callbackResult (enterAllFn (remover doomed)) (view n (newFrame n loc)) log)
      with (if doomed (path_node (view n (newFrame n loc))) then [remove] else [],
            log ++ [path_node (view n (newFrame n loc))]).
    rewrite path_node_view. cbn [fst snd newFrame fr_replaced fr_node].
    change (enterThisFn (remover doomed) ty) with (@None (Callback (list Node))).
    change (exitAllFn (remover doomed)) with (@None (Callback (list Node))).
    change (exitThisFn (remover doomed) ty) with (@None (Callback (list Node))).
    split; intros Hd; rewrite Hd.
    + rewrite runActions_nil. cbn [mbind result_bind].
      change (invoke (traverseNode (remover doomed) fuel) None n ?fr ?s) with (Ok (fr, s)).
      cbn [mbind result_bind newFrame fr_skip fr_node].
      rewrite (remover_traverseKids fuel _ _ n _ IH Hf Hr). cbn [mbind result_bind].
      unfold invoke. cbn [mbind result_bind].
      f_equal. f_equal. rewrite <- app_assoc. f_equal. now destruct n.
    + intros up parent i array ->.
      rewrite (runActions_remove). cbn [mbind result_bind].
      unfold invoke. cbn [mbind result_bind removedFrame fr_skip]. reflexivity.
Qed.

End RemoverFacts.

(** The whole walk of a visitor that removes: on every tree, whatever
    the nodes it removes, [remover doomed] enters every element of every
    array it walks once and in the order of the array, the next sibling
    right after a removed node, and it enters nothing below a removed node;
    it leaves the tree without the removed nodes. *)
Theorem remove_visits_each_sibling_once doomed ast fuel log :
  removable doomed ast = true ->
  doomed ast = false ->
  (nodeFuel ast <= fuel)%nat ->
  traverse fuel ast log (remover doomed) = Ok (kept doomed ast, log ++ entered doomed ast).
Proof.
  intros Hr Hd Hf. unfold traverse.
  destruct (remover_removes doomed fuel ast Hf Hr AtRoot log) as [Hkeep _].
  now rewrite (Hkeep Hd).
Qed.



(** The walk of the array of the witness: every element is entered once
    and in order, the character 5 under the removed group is not, and the
    array is left with the characters 1 and 3. *)
Example remove_scenario :
  traverse 6 (Alternative oneTwoThree) [] removingVisitor
  = Ok (Alternative [Character 1; Character 3],
        [Alternative oneTwoThree; Character 1; Character 2; groupOf [Character 5];
         Character 3]).
Proof. vm_compute. reflexivity. Qed.

(** C2 as stated fails: on the character [a] the wildcard [exit] is called
    before the type [exit], not after it. *)
Lemma callbacks_order_counterexample :
  traverse 2 (Character 97) [] (logger neverSkips)
  = Ok (Character 97,
        [(WildcardEnter, Character 97); (TypeEnter, Character 97);
         (WildcardExit, Character 97); (TypeExit, Character 97)])
  /\ traverse 2 (Character 97) [] (logger neverSkips)
     <> Ok (Character 97, claimedOrder neverSkips (Character 97)).
Proof. split; [reflexivity |]. vm_compute. discriminate. Qed.

Lemma callbacks_fire_in_order_witness :
  let skips := fun kind n =>
    match kind, n with
    | TypeEnter, Quantifier _ _ _ _ => true
    | _, _ => false
    end in
  let quantified := Quantifier greedy (Int 1) Infinity (Character 97) in
  traverse 12 (Alternative [quantified; Character 98]) [] (logger skips)
  = Ok (Alternative [quantified; Character 98],
        [(WildcardEnter, Alternative [quantified; Character 98]);
         (TypeEnter, Alternative [quantified; Character 98]);
         (WildcardEnter, quantified); (TypeEnter, quantified);
         (WildcardExit, quantified); (TypeExit, quantified);
         (WildcardEnter, Character 98); (TypeEnter, Character 98);
         (WildcardExit, Character 98); (TypeExit, Character 98);
         (WildcardExit, Alternative [quantified; Character 98]);
         (TypeExit, Alternative [quantified; Character 98])]).
Proof.
  intros skips quantified.
  apply (callbacks_fire_in_order skips (Alternative [quantified; Character 98]) 12 []).
  - reflexivity.
  - vm_compute. lia.
Defined.

(** C3.  [replaceWith] is called with a node and no option, and the walk
    goes below the new node all the same.  On the alternative with the
    character 1, [replacingVisitor] replaces the character with the group
    around the character 2 and is then called on the alternative of the
    group and on the character 2: the new node is in the array, and its
    children are entered.  [replaceWith] of the traverser has one
    parameter; it sets [node] to the new node, and the switch on
    [node.type] follows. *)
Theorem replaceWith_descends_without_option :
  traverse 6 (Alternative [Character 1]) [] replacingVisitor
  = Ok (Alternative [groupOf [Character 2]],
        [Alternative [Character 1]; Character 1; Alternative [Character 2]; Character 2]).
Proof. vm_compute. reflexivity. Qed.

(** ** The whole walk of a visitor that unwraps the groups *)

Section UnwrapperFacts.

Variable traverseNew : bool.

Lemma unwrapped_single n :
  isGroup n = false -> unwrapped traverseNew n = [walked traverseNew n].
Proof. unfold walked. destruct n; try discriminate; reflexivity. Qed.

Lemma splice_1_middle (pre rest : list Node) n newNodes :
  splice_1 (pre ++ n :: rest) (length pre) newNodes = pre ++ newNodes ++ rest.
Proof.
  unfold splice_1. rewrite take_app_length. do 2 f_equal.
  rewrite drop_app_ge by lia.
  replace (S (length pre) - length pre)%nat with 1%nat by lia. reflexivity.
Qed.

(** The walk of one element of an array, a group or not. *)
Lemma unwraps_element fuel recur el up parent pre rest log :
  Unwraps traverseNew fuel recur ->
  (nodeFuel el <= fuel)%nat ->
  unwrappable traverseNew el = true ->
  exists fr,
    recur el (InArray up parent (length pre) (pre ++ el :: rest)) log
    = Ok (fr, log ++ unwrapLog traverseNew el)
    /\ fr_keyShift fr = Z.of_nat (length (unwrapped traverseNew el)) - 1
    /\ fr_loc fr
       = InArray up parent (length pre) (pre ++ unwrapped traverseNew el ++ rest).
Proof.
  intros Hrec Hf Hu.
  destruct (Hrec el Hf Hu (InArray up parent (length pre) (pre ++ el :: rest)) log)
    as [Hkeep Hgroup].
  destruct (isGroup el) eqn:Hg.
  - rewrite (Hgroup eq_refl up parent pre rest eq_refl). eexists. split; [reflexivity |].
    split; reflexivity.
  - rewrite (Hkeep eq_refl). eexists. split; [reflexivity |].
    rewrite (unwrapped_single _ Hg). split; [reflexivity |].
    cbn [write_back newFrame fr_loc fr_keyShift]. rewrite shiftedKey_0.
    rewrite insert_app_r_alt by lia. rewrite Nat.sub_diag. reflexivity.
Qed.

Lemma unwrapper_traverseArray fuel recur :
  Unwraps traverseNew fuel recur ->
  forall rest loopFuel pre up parent log,
    (forall el, el ∈ rest -> (nodeFuel el <= fuel)%nat /\ unwrappable traverseNew el = true) ->
    (length rest < loopFuel)%nat ->
    traverseArray recur loopFuel (length pre) (pre ++ rest) up parent log
    = Ok (pre ++ flat_map (unwrapped traverseNew) rest,
          log ++ flat_map (unwrapLog traverseNew) rest).
Proof.
  intros Hrec. induction rest as [| el rest IH]; intros loopFuel pre up parent log Hels Hfuel;
    (destruct loopFuel as [| loopFuel]; [simpl in Hfuel; lia |]);
    rewrite traverseArray_unfold.
  - rewrite app_nil_r. rewrite lookup_ge_None_2 by lia. simpl. now rewrite !app_nil_r.
  - rewrite list_lookup_middle by reflexivity.
    destruct (Hels el) as [Hf Hu]; [left |].
    destruct (unwraps_element fuel recur el up parent pre rest log Hrec Hf Hu)
      as (fr & -> & Hshift & Hloc).
    cbn [mbind result_bind]. rewrite Hshift, Hloc. cbn [container_of].
    replace (Z.to_nat (Z.max (-1)
               (Z.of_nat (length pre) + (Z.of_nat (length (unwrapped traverseNew el)) - 1))
             + 1))
      with (length (pre ++ unwrapped traverseNew el)) by (rewrite length_app; lia).
    rewrite app_assoc. simpl in Hfuel.
    rewrite IH by (try lia; intros el' Hel'; apply Hels; now right).
    simpl. now rewrite <- !app_assoc.
Qed.

(** The walks of the inserted nodes: [done] is what the nodes walked so
    far have left. *)
Lemma unwrapper_traverseInserted fuel recur :
  Unwraps traverseNew fuel recur ->
  forall els done pre rest up parent key acc log,
    (forall el, el ∈ els -> (nodeFuel el <= fuel)%nat /\ unwrappable traverseNew el = true) ->
    Z.of_nat key + acc = Z.of_nat (length (pre ++ done)) ->
    traverseInserted recur els up parent key acc (pre ++ done ++ els ++ rest) log
    = Ok (acc + Z.of_nat (length (flat_map (unwrapped traverseNew) els))
          - Z.of_nat (length els),
          pre ++ done ++ flat_map (unwrapped traverseNew) els ++ rest,
          log ++ flat_map (unwrapLog traverseNew) els).
Proof.
  intros Hrec. induction els as [| el els IH]; intros done pre rest up parent key acc log
    Hels Hkey.
  - simpl. rewrite app_nil_r. repeat f_equal. lia.
  - cbn [traverseInserted].
    replace (shiftedKey key acc) with (length (pre ++ done)) by (unfold shiftedKey; lia).
    destruct (Hels el) as [Hf Hu]; [left |].
    replace (pre ++ done ++ (el :: els) ++ rest) with ((pre ++ done) ++ el :: els ++ rest)
      by (now rewrite <- app_assoc).
    destruct (unwraps_element fuel recur el up parent (pre ++ done) (els ++ rest) log
                Hrec Hf Hu) as (fr & -> & Hshift & Hloc).
    cbn [mbind result_bind]. rewrite Hshift, Hloc. cbn [container_of].
    replace ((pre ++ done) ++ unwrapped traverseNew el ++ els ++ rest)
      with (pre ++ (done ++ unwrapped traverseNew el) ++ els ++ rest)
      by (now rewrite <- !app_assoc).
    rewrite IH.
    + cbn [flat_map length]. rewrite !length_app, <- !app_assoc.
      do 2 f_equal. f_equal. lia.
    + intros el' Hel'. apply Hels. now right.
    + rewrite !length_app in *. lia.
Qed.

Lemma unwrapper_traverseSlot fuel recur up parent key child log :
  Unwraps traverseNew fuel recur ->
  get_slot parent key = Some child ->
  (nodeFuel child <= fuel)%nat ->
  unwrappable traverseNew child = true ->
  isGroup child = false ->
  traverseSlot recur up parent key log
  = Ok (set_slot parent key (walked traverseNew child), log ++ unwrapLog traverseNew child).
Proof.
  intros Hrec Hget Hf Hu Hg. unfold traverseSlot. rewrite Hget.
  change (default Undefined (Some child)) with child.
  destruct (Hrec child Hf Hu (InSlot up parent key) log) as [Hkeep _].
  rewrite (Hkeep Hg). reflexivity.
Qed.

Lemma unwrapper_traverseKids fuel recur up n log :
  Unwraps traverseNew fuel recur ->
  (nodeFuel n <= S fuel)%nat ->
  unwrappable traverseNew n = true ->
  isGroup n = false ->
  traverseKids recur fuel up n log
  = Ok (walked traverseNew n, log ++ tail (unwrapLog traverseNew n)).
Proof.
  intros Hrec Hf Hu Hg.
  assert (Harray : forall els up' parent,
             (2 + list_sum (map nodeFuel els) <= S fuel)%nat ->
             forallb (unwrappable traverseNew) els = true ->
             traverseArray recur fuel 0 els up' parent log
             = Ok (flat_map (unwrapped traverseNew) els,
                   log ++ flat_map (unwrapLog traverseNew) els)).
  { intros els up' parent Hsum Hall.
    apply (unwrapper_traverseArray fuel recur Hrec els fuel [] up' parent log).
    - intros el Hel. split.
      + pose proof (nodeFuel_elem els el Hel). lia.
      + rewrite forallb_forall in Hall. now apply Hall, list_elem_of_In.
    - pose proof (nodeFuel_length els). lia. }
  destruct n; unfold traverseKids, walked; simpl in Hf, Hu, Hg; try discriminate;
    try (simpl; now rewrite app_nil_r);
    try (rewrite Harray by assumption; reflexivity).
  - apply andb_true_iff in Hu as [Hu H4]. apply andb_true_iff in Hu as [Hu H3].
    apply andb_true_iff in Hu as [H1 H2]. apply negb_true_iff in H1, H2.
    rewrite (unwrapper_traverseSlot fuel recur up _ "min" n1)
      by (assumption || reflexivity || lia).
    cbn [mbind result_bind].
    rewrite (unwrapper_traverseSlot fuel recur up _ "max" n2)
      by (assumption || reflexivity || lia).
    simpl. now rewrite app_assoc.
  - apply andb_true_iff in Hu as [H1 H2]. apply negb_true_iff in H1.
    rewrite (unwrapper_traverseSlot fuel recur up _ "element" n)
      by (assumption || reflexivity || lia).
    reflexivity.
  - apply andb_true_iff in Hu as [Hu H4]. apply andb_true_iff in Hu as [Hu H3].
    apply andb_true_iff in Hu as [H1 H2]. apply negb_true_iff in H1, H2.
    rewrite (unwrapper_traverseSlot fuel recur up _ "pattern" n1)
      by (assumption || reflexivity || lia).
    cbn [mbind result_bind].
    rewrite (unwrapper_traverseSlot fuel recur up _ "flags" n2)
      by (assumption || reflexivity || lia).
    simpl. now rewrite app_assoc.
Qed.

End UnwrapperFacts.

Section UnwrapperWalk.

Variables inWildcard traverseNew : bool.

Lemma unwrapCalls_other n : isGroup n = false -> unwrapCalls traverseNew n = [].
Proof. destruct n; try discriminate; reflexivity. Qed.

Lemma unwrapper_enterThisFn_other n ty :
  isGroup n = false -> type_of n = Some ty ->
  enterThisFn (unwrapper inWildcard traverseNew) ty = None.
Proof. destruct n; try discriminate; intros _ [= <-]; reflexivity. Qed.

Lemma unwrapper_exitThisFn ty : exitThisFn (unwrapper inWildcard traverseNew) ty = None.
Proof. now destruct ty. Qed.

Lemma unwrapLog_head n : unwrapLog traverseNew n = n :: tail (unwrapLog traverseNew n).
Proof. now destruct n. Qed.

(** What [replaceWithMultiple] of the elements [els] of a group does
    between [pre] and [rest]. *)
Lemma unwrapper_replaceWithMultiple fuel recur up parent pre rest kind flags els alts log :
  Unwraps traverseNew fuel recur ->
  (nodeFuel (Group kind flags (Alternative els :: alts)) <= S fuel)%nat ->
  unwrappable traverseNew (Group kind flags (Alternative els :: alts)) = true ->
  let n := Group kind flags (Alternative els :: alts) in
  runActions recur [replaceWithMultiple els traverseNew]
    (newFrame n (InArray up parent (length pre) (pre ++ n :: rest))) (log ++ [n])
  = Ok (unwrappedFrame traverseNew up parent pre rest n, log ++ unwrapLog traverseNew n).
Proof.
  intros Hrec Hf Hu n.
  rewrite (runActions_replaceWithMultiple recur up parent (length pre) (pre ++ n :: rest) n
             els traverseNew (log ++ [n])
             (Z.of_nat (length (unwrapped traverseNew n)) - Z.of_nat (length els))
             (pre ++ unwrapped traverseNew n ++ rest)
             (log ++ unwrapLog traverseNew n)).
  - unfold multipliedFrame, unwrappedFrame. do 3 f_equal. lia.
  - rewrite splice_1_middle. subst n. cbn [unwrapped unwrapLog unwrappable] in *.
    destruct traverseNew.
    + change (pre ++ els ++ rest) with (pre ++ [] ++ els ++ rest).
      rewrite (unwrapper_traverseInserted true fuel recur Hrec els [] pre rest up parent
                 (length pre) 0 (log ++ [Group kind flags (Alternative els :: alts)])).
      * rewrite <- app_assoc. reflexivity.
      * intros el Hel. split.
        -- pose proof (nodeFuel_elem els el Hel). simpl in Hf. lia.
        -- rewrite forallb_forall in Hu. now apply Hu, list_elem_of_In.
      * rewrite app_nil_r. lia.
    + repeat f_equal. lia.
Qed.

Lemma unwrapper_unwraps fuel :
  Unwraps traverseNew fuel (traverseNode (unwrapper inWildcard traverseNew) fuel).
Proof.
  induction fuel as [| fuel IH]; intros n Hf Hu loc log.
  - destruct n; simpl in Hf; lia.
  - destruct (type_of n) as [ty |] eqn:Hty; [| destruct n; discriminate].
    rewrite (traverseNode_unfold _ _ _ _ _ _ Hty).
    rewrite (invoke_callbackResult _ (enterAllFn (unwrapper inWildcard traverseNew))).
    change (callbackResult (enterAllFn (unwrapper inWildcard traverseNew))
              (view n (newFrame n loc)) log)
      with (if inWildcard
            then unwrapCalls traverseNew (path_node (view n (newFrame n loc))) else [],
            log ++ [path_node (view n (newFrame n loc))]).
    rewrite path_node_view. cbn [fst snd newFrame fr_replaced fr_node].
    change (exitAllFn (unwrapper inWildcard traverseNew)) with (@None (Callback (list Node))).
    rewrite unwrapper_exitThisFn.
    split; intros Hg.
    + rewrite (unwrapper_enterThisFn_other n ty Hg Hty), (unwrapCalls_other n Hg).
      replace (if inWildcard then [] else []) with (@nil Action)
        by now destruct inWildcard.
      rewrite runActions_nil. cbn [mbind result_bind].
      change (invoke (traverseNode (unwrapper inWildcard traverseNew) fuel) None n ?fr ?s)
        with (Ok (fr, s)).
      cbn [mbind result_bind newFrame fr_skip fr_node].
      rewrite (unwrapper_traverseKids traverseNew fuel _ _ n _ IH Hf Hu Hg).
      cbn [mbind result_bind]. unfold invoke. cbn [mbind result_bind].
      f_equal. f_equal. rewrite <- app_assoc. f_equal. symmetry. apply unwrapLog_head.
    + intros up parent pre rest ->.
      destruct n as [| | | | | | | | | | | kind flags alts | | | | | | |]; try discriminate.
      destruct alts as [| [| els | | | | | | | | | | | | | | | | |] alts]; try discriminate.
      injection Hty as <-.
      pose proof (unwrapper_replaceWithMultiple fuel _ up parent pre rest kind flags els alts
                    log IH Hf Hu) as Hrun.
      cbv zeta in Hrun.
      destruct inWildcard.
      * cbn [unwrapCalls head mbind option_bind elements_of]. rewrite Hrun. cbn [mbind result_bind].
        rewrite invoke_callbackResult.
        change (callbackResult (enterThisFn (unwrapper true traverseNew) TGroup) ?p ?l)
          with (@nil Action, l).
        cbn [fst snd]. rewrite runActions_nil.
        cbn [mbind result_bind unwrappedFrame fr_skip]. unfold invoke.
        cbn [mbind result_bind]. reflexivity.
      * rewrite runActions_nil. cbn [mbind result_bind].
        rewrite invoke_callbackResult.
        change (callbackResult (enterThisFn (unwrapper false traverseNew) TGroup) ?p ?l)
          with (unwrapCalls traverseNew (path_node p), l).
        rewrite path_node_view.
        cbn [fst snd newFrame fr_replaced fr_node unwrapCalls head mbind option_bind
             elements_of].
        change (runActions ?r ?a {| fr_node := ?n; fr_keyShift := 0; fr_skip := false;
                                    fr_replaced := false; fr_loc := ?l |})
          with (runActions r a (newFrame n l)).
        rewrite Hrun. cbn [mbind result_bind unwrappedFrame fr_skip]. unfold invoke.
        cbn [mbind result_bind]. reflexivity.
Qed.

End UnwrapperWalk.

(** C4.  Modelled from the spec, as [replaceWithMultiple] and the walk of
    the inserted nodes are.  The whole walk of a visitor that calls
    [replaceWithMultiple(elements, {traverse})] on every group, from its
    wildcard callback or from its callback on groups, with the elements of
    the group as new nodes: on every tree with no group in a single slot,
    the walk returns, its record is [unwrapLog] and its tree is [walked].
    So in every array every element the visitor found there is entered
    once and in the order of the array, and after a group the walk goes on
    with the node that stood right after it.  With [traverse: false] no
    inserted node is entered.  With [traverse: true] every inserted node is
    walked with the same visitor, groups among them unwrapped in turn, after
    the group is entered and before the node that stood after it. *)
Theorem replaceWithMultiple_visits_each_sibling_once
    (inWildcard traverseNew : bool) ast fuel log :
  unwrappable traverseNew ast = true ->
  isGroup ast = false ->
  (nodeFuel ast <= fuel)%nat ->
  traverse fuel ast log (unwrapper inWildcard traverseNew)
  = Ok (walked traverseNew ast, log ++ unwrapLog traverseNew ast).
Proof.
  intros Hu Hg Hf. unfold traverse.
  destruct (unwrapper_unwraps inWildcard traverseNew fuel ast Hf Hu AtRoot log) as [Hkeep _].
  now rewrite (Hkeep Hg).
Qed.

(** The test of the traverser, [(?:a(?:b))c], with both options: with
    [traverse: true] the walk leaves [abc], and with [traverse: false]
    it leaves [a(?:b)c] and enters neither [a] nor the inner group. *)
Lemma replaceWithMultiple_visits_each_sibling_once_witness :
  let a := Character 97 in
  let b := Character 98 in
  let c := Character 99 in
  let inner := groupOf [b] in
  let outer := groupOf [a; inner] in
  traverse 16 (Alternative [outer; c]) [] (unwrapper false true)
  = Ok (Alternative [a; b; c], [Alternative [outer; c]; outer; a; inner; b; c])
  /\ traverse 16 (Alternative [outer; c]) [] (unwrapper true false)
     = Ok (Alternative [a; inner; c], [Alternative [outer; c]; outer; c]).
Proof.
  intros a b c inner outer. split.
  - apply (replaceWithMultiple_visits_each_sibling_once false true
             (Alternative [outer; c]) 16 []); [reflexivity | reflexivity | vm_compute; lia].
  - apply (replaceWithMultiple_visits_each_sibling_once true false
             (Alternative [outer; c]) 16 []); [reflexivity | reflexivity | vm_compute; lia].
Defined.

(** The test of the traverser, with the record of the walk: [(?:a(?:b))]
    and [(?:a(?:bc))] become one alternative with the characters. *)
Example replaceWithMultiple_scenario :
  let a := Character 97 in
  let b := Character 98 in
  let c := Character 99 in
  (exists log,
      traverse 30 (regexOf [groupOf [a; groupOf [b]]] noFlags) [] (unwrapper false true)
      = Ok (regexOf [a; b] noFlags, log))
  /\ exists log,
       traverse 30 (regexOf [groupOf [a; groupOf [b; c]]] noFlags) [] (unwrapper false true)
       = Ok (regexOf [a; b; c] noFlags, log).
Proof. split; eexists; vm_compute; reflexivity. Qed.

(** ** The shorthands through the traverser *)

Lemma path_root_view original fr : path_root (view original fr) = None.
Proof. unfold view. now destruct (fr_loc fr). Qed.

Section ShorthandsWalk.

Context {St : Type}.
Variable visitor : Visitor St.
Hypothesis Hany : anyType visitor = None.
Hypothesis Hsets :
  thisType visitor TCharacterSet
  = Some {| enter := Some useShorthands_CharacterSet; exit := None |}.
Hypothesis Hothers :
  forall ty, ty <> TCharacterSet -> ty <> TCharacterClass -> thisType visitor ty = None.

Local Set Default Proof Using "All".

Ltac quiet := rewrite invoke_callbackResult; unfold callbackResult;
              cbn [fst snd runActions mbind result_bind].

(** A node the visitor has no callback for: the walk of its children. *)
Lemma shorthands_pass fuel n loc (s : St) ty :
  type_of n = Some ty -> ty <> TCharacterSet -> ty <> TCharacterClass ->
  traverseNode visitor (S fuel) n loc s
  = ('(nodeNow, s) ← traverseKids (traverseNode visitor fuel) fuel
                       (up_from (newFrame n loc)) n s;
     Ok (write_back (newFrame n loc) nodeNow, s)).
Proof.
  intros Hty H1 H2. rewrite (traverseNode_unfold _ _ _ _ _ _ Hty).
  unfold enterAllFn, enterThisFn, exitAllFn, exitThisFn.
  rewrite Hany, (Hothers ty H1 H2). cbn [mbind option_bind].
  quiet. quiet. cbn [newFrame fr_skip fr_node].
  destruct (traverseKids _ _ _ _ _) as [[nodeNow s'] | msg |]; cbn [mbind result_bind];
    [| reflexivity | reflexivity].
  quiet. quiet. reflexivity.
Qed.

(** The read of [root.flags] on a path of the traverser. *)
Lemma shorthands_throws fuel loc (s : St) value negate variableLength :
  value = "Decimal_Number" \/ value = "Nd" ->
  traverseNode visitor (S fuel)
    (CharacterSet NodeCharacterSetKinds.property (Some value) negate variableLength) loc s
  = Throw TypeError.
Proof.
  intros Hvalue. rewrite traverseNode_unfold with (ty := TCharacterSet) by reflexivity.
  unfold enterAllFn, enterThisFn, exitAllFn, exitThisFn.
  rewrite Hany, Hsets. cbn [mbind option_bind enter exit].
  quiet. rewrite invoke_callbackResult. unfold callbackResult.
  unfold useShorthands_CharacterSet, useShorthands_newNode, rootFlags.
  rewrite path_node_view, path_root_view. cbn [newFrame fr_replaced fr_node].
  destruct Hvalue as [-> | ->]; reflexivity.
Qed.

(** The POSIX form needs no flags. *)
Lemma shorthands_posix_digit fuel up parent (s : St) negate variableLength :
  let set := CharacterSet NodeCharacterSetKinds.posix (Some "digit") negate variableLength in
  let digitSet :=
    CharacterSet NodeCharacterSetKinds.digit None (Some (default false negate)) false in
  traverseNode visitor (S fuel) set (InArray up parent 0 [set]) s
  = Ok (write_back (replacedFrame (InArray up parent 0 [set]) digitSet) digitSet, s).
Proof.
  intros set digitSet. subst set digitSet.
  rewrite traverseNode_unfold with (ty := TCharacterSet) by reflexivity.
  unfold enterAllFn, enterThisFn, exitAllFn, exitThisFn.
  rewrite Hany, Hsets. cbn [mbind option_bind enter exit].
  quiet. rewrite invoke_callbackResult. unfold callbackResult.
  unfold useShorthands_CharacterSet, useShorthands_newNode.
  rewrite path_node_view. cbn [newFrame fr_replaced fr_node].
  change (bool_decide (NodeCharacterSetKinds.posix = NodeCharacterSetKinds.property)) with false.
  change (bool_decide (NodeCharacterSetKinds.posix = NodeCharacterSetKinds.posix)) with true.
  change (bool_decide (Some "digit" = Some "digit")) with true.
  cbn [andb orb mbind result_bind fst snd]. unfold createCharacterSet. cbn iota zeta.
  match goal with
  | |- context [runActions ?r [replaceWith ?x] (newFrame ?n ?loc) ?s0] =>
      rewrite (runActions_replaceWith r loc n x s0 eq_refl)
  end.
  cbn [mbind result_bind replacedFrame fr_skip fr_node].
  unfold traverseKids. cbn [mbind result_bind].
  quiet. quiet. reflexivity.
Qed.

Ltac pass t :=
  rewrite shorthands_pass with (ty := t) by (reflexivity || discriminate);
  unfold traverseKids; cbn [mbind result_bind].

(** The walk down to a set that is alone in its pattern. *)
Lemma shorthands_single_throws fuel set fl (s : St) msg :
  (forall loc, traverseNode visitor (S (S fuel)) set loc s = Throw msg) ->
  traverse (5 + fuel) (regexOf [set] fl) s visitor = Throw msg.
Proof.
  intros Hset. unfold traverse, regexOf.
  change (5 + fuel)%nat with (S (S (S (S (S fuel))))).
  pass TRegex. unfold traverseSlot.
  change (default Undefined (get_slot (Regex (Pattern [Alternative [set]]) (Flags fl))
                               "pattern"))
    with (Pattern [Alternative [set]]).
  pass TPattern. rewrite traverseArray_unfold. cbn [lookup list_lookup].
  pass TAlternative. rewrite traverseArray_unfold. cbn [lookup list_lookup].
  rewrite Hset. reflexivity.
Qed.

Lemma shorthands_single_replaces fuel set x fl (s : St) :
  (forall up parent,
      traverseNode visitor (S (S fuel)) set (InArray up parent 0 [set]) s
      = Ok (write_back (replacedFrame (InArray up parent 0 [set]) x) x, s)) ->
  traverse (5 + fuel) (regexOf [set] fl) s visitor = Ok (regexOf [x] fl, s).
Proof.
  intros Hset. unfold traverse, regexOf.
  change (5 + fuel)%nat with (S (S (S (S (S fuel))))).
  pass TRegex. unfold traverseSlot.
  change (default Undefined (get_slot (Regex (Pattern [Alternative [set]]) (Flags fl))
                               "pattern"))
    with (Pattern [Alternative [set]]).
  pass TPattern. rewrite traverseArray_unfold. cbn [lookup list_lookup].
  pass TAlternative. rewrite traverseArray_unfold. cbn [lookup list_lookup].
  rewrite Hset. cbn [mbind result_bind].
  cbn [write_back replacedFrame replacedLoc fr_loc fr_keyShift container_of].
  rewrite shiftedKey_0. cbn [insert list_insert].
  change (Z.to_nat (Z.max (-1) (Z.of_nat 0 + 0) + 1)) with 1%nat.
  rewrite traverseArray_unfold. cbn [lookup list_lookup mbind result_bind set_elements].
  cbn [write_back newFrame fr_loc fr_keyShift container_of].
  rewrite shiftedKey_0. cbn [insert list_insert].
  change (Z.to_nat (Z.max (-1) (Z.of_nat 0 + 0) + 1)) with 1%nat.
  rewrite traverseArray_unfold. cbn [lookup list_lookup mbind result_bind set_alternatives].
  cbn [write_back newFrame fr_loc parent_of set_slot].
  change (bool_decide ("pattern" = "pattern")) with true. cbn iota.
  change (default Undefined (get_slot (Regex (Pattern [Alternative [x]]) (Flags fl)) "flags"))
    with (Flags fl).
  pass TFlags. cbn [write_back newFrame fr_loc parent_of set_slot fr_node].
  reflexivity.
Qed.

End ShorthandsWalk.

(** C7.  The walk of the visitor [useShorthands] over a pattern that is
    one character set, under any flags: the walk of [\p{Decimal_Number}]
    and of [\p{Nd}] ends in a [TypeError], as the callback reads
    [root.flags] and the path of [traverse] has [ast] and no [root]; the
    walk of [\p{digit}] returns the pattern [\d], with the sign of the
    set.  The statement is about every visitor with the callback of
    [useShorthands] on character sets, whatever its entry for character
    classes. *)
Theorem useShorthands_digit_through_traverse {St : Type} (visitor : Visitor St) (s : St)
    fuel fl negate variableLength :
  anyType visitor = None ->
  thisType visitor TCharacterSet
  = Some {| enter := Some useShorthands_CharacterSet; exit := None |} ->
  (forall ty, ty <> TCharacterSet -> ty <> TCharacterClass -> thisType visitor ty = None) ->
  traverse (5 + fuel)
    (regexOf [CharacterSet NodeCharacterSetKinds.property (Some "Decimal_Number") negate
                variableLength] fl) s visitor
  = Throw TypeError
  /\ traverse (5 + fuel)
       (regexOf [CharacterSet NodeCharacterSetKinds.property (Some "Nd") negate
                   variableLength] fl) s visitor
     = Throw TypeError
  /\ traverse (5 + fuel)
       (regexOf [CharacterSet NodeCharacterSetKinds.posix (Some "digit") negate
                   variableLength] fl) s visitor
     = Ok (regexOf [CharacterSet NodeCharacterSetKinds.digit None
                      (Some (default false negate)) false] fl, s).
Proof.
  intros Hany Hsets Hothers. split; [| split].
  - apply (shorthands_single_throws visitor Hany Hsets Hothers). intros loc.
    apply (shorthands_throws visitor Hany Hsets Hothers). now left.
  - apply (shorthands_single_throws visitor Hany Hsets Hothers). intros loc.
    apply (shorthands_throws visitor Hany Hsets Hothers). now right.
  - apply (shorthands_single_replaces visitor Hany Hsets Hothers). intros up parent.
    apply (shorthands_posix_digit visitor Hany Hsets Hothers).
Qed.

(** [\p{Nd}], [\p{Decimal_Number}] and [\p{digit}] with no flag set, under
    the visitor that has the callback of [useShorthands] on character sets
    and no other. *)
Lemma useShorthands_digit_through_traverse_witness :
  let visitor : Visitor unit := {|
    anyType := None;
    thisType := fun ty =>
      match ty with
      | TCharacterSet => Some {| enter := Some useShorthands_CharacterSet; exit := None |}
      | _ => None
      end |} in
  let property value :=
    CharacterSet NodeCharacterSetKinds.property (Some value) (Some false) false in
  traverse 6 (regexOf [property "Decimal_Number"] noFlags) tt visitor = Throw TypeError
  /\ traverse 6 (regexOf [property "Nd"] noFlags) tt visitor = Throw TypeError
  /\ traverse 6
       (regexOf [CharacterSet NodeCharacterSetKinds.posix (Some "digit") (Some false) false]
          noFlags) tt visitor
     = Ok (regexOf [CharacterSet NodeCharacterSetKinds.digit None (Some false) false]
             noFlags, tt).
Proof.
  intros visitor property.
  apply (useShorthands_digit_through_traverse visitor tt 1 noFlags (Some false) false).
  - reflexivity.
  - reflexivity.
  - intros ty H1 H2. destruct ty; try reflexivity; contradiction.
Defined.

Section ParserTidy.

Variable PosixClassNames : gset string.
Variable isValidGroupName : string -> bool.

Local Abbreviation walk := (walk PosixClassNames isValidGroupName).
Local Abbreviation WF := (wellFormedNode PosixClassNames isValidGroupName).

Lemma Grown_refl ctx : Grown ctx ctx.
Proof. repeat split; auto. Qed.

Lemma Grown_trans ctx1 ctx2 ctx3 : Grown ctx1 ctx2 -> Grown ctx2 ctx3 -> Grown ctx1 ctx3.
Proof.
  intros (H1 & H2 & H3 & H4 & H5) (H6 & H7 & H8 & H9 & H10).
  split; [congruence |]. split; [intros name; specialize (H2 name); specialize (H7 name); lia |].
  repeat split; auto.
Qed.

Lemma Grown_set_current ctx c : Grown ctx (set_current ctx c).
Proof. repeat split; auto. Qed.

Lemma refKnown_Grown ctx ctx' r : Grown ctx ctx' -> refKnown ctx r -> refKnown ctx' r.
Proof.
  intros (_ & Hcount & _ & Hnum & _) [H1 H2]. split; [auto |].
  destruct r; try exact I. destruct ref as [ref | name]; [exact I |].
  specialize (Hcount (Some name)). lia.
Qed.

Lemma Tidy_Grown P N ctx ctx' n : Grown ctx ctx' -> Tidy P N ctx n -> Tidy P N ctx' n.
Proof.
  intros HG (Hwf & Hs & Hr). pose proof HG as (_ & Hcount & Hsub & _). split; [| split].
  - intros HN. apply Hwf. specialize (Hcount None). simpl in Hcount. lia.
  - eapply Forall_impl; [exact Hs | auto].
  - eapply Forall_impl; [exact Hr |]. intros r. now apply refKnown_Grown.
Qed.

Lemma Forall_Tidy_Grown P N ctx ctx' l :
  Grown ctx ctx' -> Forall (Tidy P N ctx) l -> Forall (Tidy P N ctx') l.
Proof.
  intros HG H. eapply Forall_impl; [exact H |]. intros n. now apply Tidy_Grown.
Qed.

Lemma allNodes_leaf Q n : isLeaf n = true -> allNodes Q n = Q n.
Proof.
  destruct n as [| els | | | | | | | | | | | | | | | | |]; simpl; intros H;
    try discriminate; try apply andb_true_r.
  destruct els; [apply andb_true_r | discriminate].
Qed.

Lemma countOf_leaf name n : isLeaf n = true -> countOf name n = 0%nat.
Proof.
  destruct n as [| els | | | | | | | | | | | | | | | | |]; simpl; intros H;
    try discriminate; try reflexivity.
  destruct els; [reflexivity | discriminate].
Qed.

Lemma subroutinesOf_leaf n :
  isLeaf n = true -> match n with Subroutine _ => False | _ => True end ->
  subroutinesOf n = [].
Proof.
  destruct n as [| els | | | | | | | | | | | | | | | | |]; simpl; intros H Hs;
    try discriminate; try reflexivity; try contradiction.
  destruct els; [reflexivity | discriminate].
Qed.

Lemma refsOf_leaf n :
  isLeaf n = true -> match n with Subroutine _ | Backreference _ _ => False | _ => True end ->
  refsOf n = [].
Proof.
  destruct n as [| els | | | | | | | | | | | | | | | | |]; simpl; intros H Hs;
    try discriminate; try reflexivity; try contradiction.
  destruct els; [reflexivity | discriminate].
Qed.

(** A leaf that is no reference is tidy when it is well formed. *)
Lemma Tidy_leaf P N ctx n :
  isLeaf n = true -> match n with Subroutine _ | Backreference _ _ => False | _ => True end ->
  ((length (capturingGroups ctx) <= N)%nat -> P N n = true) ->
  Tidy P N ctx n.
Proof.
  intros Hl Hs Hp. split; [| split].
  - intros HN. rewrite allNodes_leaf by assumption. now apply Hp.
  - rewrite subroutinesOf_leaf; [constructor | assumption | now destruct n].
  - rewrite refsOf_leaf by assumption. constructor.
Qed.

Lemma createAssertionFromToken_tidy kind node :
  createAssertionFromToken kind = Ok node ->
  isLeaf node = true /\ (forall ao N, WF ao N node = true)
  /\ match node with Subroutine _ | Backreference _ _ => False | _ => True end.
Proof.
  unfold createAssertionFromToken, createAssertion. intros H.
  repeat case_match; inversion H; repeat split.
Qed.

Lemma createCharacter_tidy v b node :
  createCharacter v b = Ok node ->
  isLeaf node = true /\ (forall ao N, WF ao N node = true)
  /\ match node with Subroutine _ | Backreference _ _ => False | _ => True end.
Proof.
  unfold createCharacter. intros H.
  destruct (0x10FFFF <? v) eqn:Hv.
  - repeat case_match; inversion H; repeat split.
  - inversion H. repeat split. intros ? ?. unfold wellFormedNode. simpl.
    rewrite !andb_true_r. apply Z.ltb_ge in Hv. now apply Z.leb_le.
Qed.

Lemma createDirective_tidy k f node :
  createDirective k f = Ok node ->
  isLeaf node = true /\ (forall ao N, WF ao N node = true)
  /\ match node with Subroutine _ | Backreference _ _ => False | _ => True end.
Proof.
  unfold createDirective. intros H. repeat case_match; inversion H; repeat split.
Qed.

Lemma parseCharacterSet_tidy ctx k neg v node :
  parseCharacterSet PosixClassNames ctx k neg v = Ok node ->
  isLeaf node = true /\ (forall ao N, WF ao N node = true)
  /\ match node with Subroutine _ | Backreference _ _ => False | _ => True end.
Proof.
  unfold parseCharacterSet, createPosixClass, createUnicodeProperty, createCharacterSet.
  intros H.
  repeat (case_match; simpl in H; try discriminate); inversion H; subst;
    repeat split; intros; unfold wellFormedNode; simpl; try reflexivity;
    rewrite ?andb_true_r; try assumption.
Qed.

Lemma digits_value_ge acc s n : 0 <= acc -> digits_value acc s = Some n -> acc <= n.
Proof.
  revert acc. induction s as [| c rest IH]; simpl; intros acc Hacc H.
  - injection H as <-. lia.
  - destruct (is_digit c) eqn:Hd; [| discriminate].
    unfold is_digit in Hd. apply andb_true_iff in Hd as [H1 H2].
    apply Nat.leb_le in H1, H2. apply IH in H; lia.
Qed.

Lemma drop_zeros_head s c rest : drop_zeros s = String c rest -> c <> "0"%char.
Proof.
  induction s as [| c' rest' IH]; simpl; [discriminate |].
  destruct c' as [[] [] [] [] [] [] [] []]; try exact IH;
    intros H; injection H as <- _; discriminate.
Qed.

(** The group [num] of the numbered references is at least 1. *)
Lemma match_num_positive s n : match_num s = Some n -> 1 <= n.
Proof.
  unfold match_num. destruct (drop_zeros s) as [| c rest] eqn:Hz; [discriminate |].
  apply drop_zeros_head in Hz. simpl.
  destruct (is_digit c) eqn:Hd; [| discriminate].
  unfold is_digit in Hd. apply andb_true_iff in Hd as [H1 H2].
  apply Nat.leb_le in H1, H2.
  intros H. apply digits_value_ge in H; [| lia].
  assert (Z.of_nat (nat_of_ascii c) - 48 <> 0); [| lia].
  intros Heq. apply Hz.
  assert (Hc : nat_of_ascii c = 48%nat) by lia.
  rewrite <- (ascii_nat_embedding c), Hc. reflexivity.
Qed.

Lemma Tidy_Backreference P N ctx ref orphan :
  ((length (capturingGroups ctx) <= N)%nat -> P N (Backreference ref orphan) = true) ->
  refKnown ctx (Backreference ref orphan) ->
  Tidy P N ctx (Backreference ref orphan).
Proof.
  intros Hp Hr. split; [| split].
  - intros HN. simpl. rewrite !andb_true_r. now apply Hp.
  - constructor.
  - simpl. now apply Forall_singleton.
Qed.

Lemma parseBackreference_tidy ctx raw node ctx' N :
  parseBackreference ctx raw = Ok (node, ctx') ->
  Grown ctx ctx'
  /\ (forall name, ctxCount name ctx' = ctxCount name ctx)
  /\ (forall name, countOf name node = 0%nat)
  /\ (namesInUse ctx -> Tidy (WF (skipBackrefValidation ctx)) N ctx' node).
Proof.
  unfold parseBackreference, createBackreference. intros H.
  assert (Hnum : forall num isRelative,
             (isRelative = true -> exists n, num = Int n /\ 1 <= n) ->
             (orphan ←
                (if num_gt num (Int (Z.of_nat (length (capturingGroups ctx))))
                 then (if skipBackrefValidation ctx then Ok true
                       else Throw "Not enough capturing groups defined to the left")
                 else Ok false);
              Ok (Backreference
                    (RefNum (if isRelative
                             then num_sub (num_add (Int (Z.of_nat (length (capturingGroups ctx))))
                                             (Int 1)) num
                             else num)) orphan,
                  set_hasNumberedRef ctx true)) = Ok (node, ctx') ->
             Grown ctx ctx'
             /\ (forall name, ctxCount name ctx' = ctxCount name ctx)
             /\ (forall name, countOf name node = 0%nat)
             /\ (namesInUse ctx -> Tidy (WF (skipBackrefValidation ctx)) N ctx' node)).
  { intros num isRelative Hrel Hr.
    assert (Hshape : forall orphan,
               (orphan = true -> skipBackrefValidation ctx = true) ->
               (orphan = false ->
                num_gt num (Int (Z.of_nat (length (capturingGroups ctx)))) = false) ->
               Ok (Backreference
                     (RefNum (if isRelative
                              then num_sub (num_add (Int (Z.of_nat (length (capturingGroups ctx))))
                                              (Int 1)) num
                              else num)) orphan,
                   set_hasNumberedRef ctx true) = Ok (node, ctx') ->
               Grown ctx ctx'
               /\ (forall name, ctxCount name ctx' = ctxCount name ctx)
               /\ (forall name, countOf name node = 0%nat)
               /\ (namesInUse ctx -> Tidy (WF (skipBackrefValidation ctx)) N ctx' node)).
    { intros orphan Ho1 Ho2 Heq. injection Heq as <- <-.
      split; [repeat split; auto |].
      split; [intros [name |]; reflexivity |]. split; [reflexivity |].
      intros _. apply Tidy_Backreference; [| split; [reflexivity | exact I]].
      unfold wellFormedNode. simpl. intros HN. rewrite !andb_true_r.
      destruct orphan; [now apply Ho1 |]. specialize (Ho2 eq_refl).
      apply negb_true_iff. destruct isRelative.
      - destruct (Hrel eq_refl) as (n & -> & Hn). simpl. apply Z.ltb_ge. lia.
      - unfold num_gt, num_lt in Ho2 |- *. destruct num; try reflexivity; try discriminate.
        apply Z.ltb_ge in Ho2. apply Z.ltb_ge. lia. }
    destruct (num_gt num _) eqn:Hgt; simpl in Hr.
    - destruct (skipBackrefValidation ctx) eqn:Hskip; [| discriminate].
      simpl in Hr. apply (Hshape true); [reflexivity | discriminate | exact Hr].
    - apply (Hshape false); [discriminate | reflexivity | exact Hr]. }
  destruct (hasKWrapper raw).
  - destruct (backref_numberedRef _) as [[sign num] |] eqn:Href.
    + apply (Hnum (Int num) sign); [| exact H].
      intros _. exists num. split; [reflexivity |].
      unfold backref_numberedRef in Href.
      repeat case_match; simplify_option_eq; eauto using match_num_positive.
    + destruct (has_sign _); [discriminate |].
      destruct (bool_decide _) eqn:Hhas; [| discriminate]. injection H as <- <-.
      apply bool_decide_eq_true_1 in Hhas as [groups Hgroups].
      split; [apply Grown_refl |]. split; [reflexivity |]. split; [reflexivity |].
      intros Huse. apply Tidy_Backreference; [reflexivity |].
      split; [discriminate |]. simpl. rewrite Hgroups. simpl.
      specialize (Huse _ _ Hgroups). destruct groups; [contradiction | simpl; lia].
  - apply (Hnum (Number (slice_1 raw)) false); [discriminate | exact H].
Qed.

Lemma parseSubroutine_tidy ctx raw node ctx' N :
  parseSubroutine ctx raw = Ok (node, ctx') ->
  Grown ctx ctx'
  /\ (forall name, ctxCount name ctx' = ctxCount name ctx)
  /\ (forall name, countOf name node = 0%nat)
  /\ Tidy (WF (skipBackrefValidation ctx)) N ctx' node.
Proof.
  unfold parseSubroutine, createSubroutine. intros H.
  apply bind_Ok in H as [[ref ctx1] [Href H]]. injection H as <- <-.
  assert (Hctx : (ctx1 = ctx \/ ctx1 = set_hasNumberedRef ctx true)
                 /\ subroutineNumbered (Subroutine ref) = true
                 /\ (isNumberedRef (Subroutine ref) = true -> hasNumberedRef ctx1 = true)).
  { destruct (subroutine_numberedRef _) as [[sign num] |].
    - simpl in Href.
      destruct (_ <? 1) eqn:Hr in Href; [discriminate |]. injection Href as <- <-.
      split; [now right |]. split; [| reflexivity].
      simpl. apply Z.ltb_ge in Hr. apply Z.leb_le. lia.
    - destruct (bool_decide _); injection Href as <- <-; repeat split; auto; discriminate. }
  destruct Hctx as (Hctx & Hwf & Hnum).
  assert (HG : Grown ctx ctx1) by (destruct Hctx as [-> | ->]; repeat split; auto).
  split; [| split; [| split]].
  - eapply Grown_trans; [exact HG |]. split; [reflexivity |].
    split; [intros [name |]; reflexivity |].
    split; [| split; auto]. intros s Hs. apply elem_of_app. now left.
  - intros [name |]; destruct Hctx as [-> | ->]; reflexivity.
  - reflexivity.
  - split; [intros _; simpl; rewrite ?andb_true_r; unfold wellFormedNode; simpl;
             rewrite ?andb_true_r; exact Hwf |]. split.
    + simpl. apply Forall_singleton. apply elem_of_app. right. now left.
    + simpl. apply Forall_singleton. split; [exact Hnum | exact I].
Qed.

Lemma countsOf_app name l1 l2 :
  countsOf name (l1 ++ l2) = (countsOf name l1 + countsOf name l2)%nat.
Proof. unfold countsOf. now rewrite map_app, list_sum_app. Qed.

Lemma countsOf_singleton name n : countsOf name [n] = countOf name n.
Proof. unfold countsOf. simpl. lia. Qed.

(** A node over an array is tidy when the node itself is well formed and
    the elements of the array are tidy. *)
Lemma Tidy_array P N ctx c ks :
  array_of c = Some ks ->
  P N c = true ->
  Forall (Tidy P N ctx) ks ->
  Tidy P N ctx c.
Proof.
  intros Ha Hp Hks.
  assert (Hall : (length (capturingGroups ctx) <= N)%nat -> forallb (allNodes (P N)) ks = true).
  { intros HN. apply forallb_Forall_true. eapply Forall_impl; [exact Hks |].
    intros n [Hn _]. now apply Hn. }
  assert (Hsub : Forall (fun s => s ∈ subroutines ctx) (flat_map subroutinesOf ks)).
  { apply Forall_flat_map. eapply Forall_impl; [exact Hks |]. now intros n (_ & Hn & _). }
  assert (Href : Forall (refKnown ctx) (flat_map refsOf ks)).
  { apply Forall_flat_map. eapply Forall_impl; [exact Hks |]. now intros n (_ & _ & Hn). }
  destruct c; simpl in Ha; try discriminate; injection Ha as <-;
    (split; [| split; [exact Hsub | exact Href]]);
    intros HN; simpl; rewrite Hp, (Hall HN); reflexivity.
Qed.

Lemma countOf_array name c ks :
  array_of c = Some ks -> countOf name c = (groupWeight name c + countsOf name ks)%nat.
Proof. destruct c; simpl; intros H; try discriminate; injection H as <-; reflexivity. Qed.

Lemma Tidy_Quantifier P N ctx k a b q :
  (forall M, P M (Quantifier k a b q) = true) ->
  Tidy P N ctx q -> Tidy P N ctx (Quantifier k a b q).
Proof.
  intros Hp (Hwf & Hs & Hr). split; [| split; [exact Hs | exact Hr]].
  intros HN. simpl. now rewrite Hp, (Hwf HN).
Qed.

Lemma parseQuantifier_tidy parent min max kind node parent' :
  parseQuantifier parent min max kind = Ok (node, parent') ->
  exists q k a b,
    parent = parent' ++ [q] /\ node = Quantifier k a b q
    /\ forall ao M, WF ao M node = true.
Proof.
  unfold parseQuantifier, createQuantifier. intros H.
  destruct (at_last parent) as [q |] eqn:Hq; [| discriminate].
  apply at_last_Some_app in Hq as [l' ->].
  destruct (notQuantifiable q) eqn:Hnq; [discriminate |].
  rewrite removelast_last in H.
  destruct (num_lt max min) eqn:Hlt; inversion H; subst; do 4 eexists;
    (split; [reflexivity |]); (split; [reflexivity |]); intros ao M;
    unfold wellFormedNode; simpl; rewrite Hnq, ?Hlt, ?andb_true_r; try reflexivity.
  apply negb_true_iff.
  unfold num_lt in *. destruct min, max; try reflexivity; try discriminate.
  apply Z.ltb_lt in Hlt. apply Z.ltb_ge. lia.
Qed.

Lemma Tidy_Character_value ao N ctx v :
  Tidy (WF ao) N ctx (Character v) -> (length (capturingGroups ctx) <= N)%nat ->
  (v <=? 0x10FFFF) = true.
Proof.
  intros [H _] HN. specialize (H HN). simpl in H. apply andb_true_iff in H as [H _].
  unfold wellFormedNode in H. simpl in H. now rewrite !andb_true_r in H.
Qed.

Lemma parseCharacterClassHyphen_tidy ao W :
  TidyWalk (wellFormedNode PosixClassNames isValidGroupName) ao W -> BackWalk W ->
  forall N ctx parent state node parent' ctx',
    parseCharacterClassHyphen W ctx parent state = Ok (node, parent', ctx') ->
    skipBackrefValidation ctx = ao ->
    Grown ctx ctx'
    /\ (forall name,
          ctxCount name ctx' + countsOf name parent
          = ctxCount name ctx + countOf name node + countsOf name parent')%nat
    /\ (namesInUse ctx ->
        Forall (Tidy (WF ao) N ctx) parent ->
        Tidy (WF ao) N ctx' node /\ Forall (Tidy (WF ao) N ctx') parent').
Proof.
  intros HW HB N ctx parent state node parent' ctx' H Hao.
  unfold parseCharacterClassHyphen in H.
  rewrite createCharacter_hyphen in H. simpl in H.
  assert (Hlit : Ok (Character 45, parent, ctx) = Ok (node, parent', ctx') ->
             Grown ctx ctx'
             /\ (forall name,
                   ctxCount name ctx' + countsOf name parent
                   = ctxCount name ctx + countOf name node + countsOf name parent')%nat
             /\ (namesInUse ctx ->
                 Forall (Tidy (WF ao) N ctx) parent ->
                 Tidy (WF ao) N ctx' node /\ Forall (Tidy (WF ao) N ctx') parent')).
  { intros Hr. injection Hr as <- <- <-. split; [apply Grown_refl |].
    split; [intros name; simpl; lia |]. intros _ Hp. split; [| assumption].
    apply Tidy_leaf; [reflexivity | exact I | reflexivity]. }
  destruct (at_last parent) as [prev |] eqn:Hprev; [| now apply Hlit].
  destruct (tokens ctx !! current ctx) as [next |]; [| now apply Hlit].
  destruct (_ && negb (isClassBoundaryToken next)); [| now apply Hlit].
  apply bind_Ok in H as [[[nextNode p1] ctx1] [HWeq H]].
  pose proof (HB false _ _ _ _ _ _ HWeq) as [Hsame _].
  apply (HW N) in HWeq as (HG & Hcount & Htidy); [| assumption].
  destruct (hasType TCharacter prev && hasType TCharacter nextNode) eqn:Hty;
    [| discriminate].
  apply andb_true_iff in Hty as [Hp Hn].
  apply bool_decide_eq_true_1 in Hp, Hn.
  specialize (Hsame Hn). subst p1.
  destruct prev as [| | | | |lo| | | | | | | | | | | | |]; try discriminate.
  destruct nextNode as [| | | | |hi| | | | | | | | | | | | |]; try discriminate.
  apply bind_Ok in H as [range [Hrange H]]. injection H as <- <- <-.
  unfold createCharacterClassRange in Hrange. simpl in Hrange.
  destruct (hi <? lo) eqn:Hord; [discriminate |]. injection Hrange as <-.
  apply at_last_Some_app in Hprev as [front ->]. rewrite removelast_last.
  split; [exact HG |]. split.
  - intros name. specialize (Hcount name).
    rewrite countsOf_app, countsOf_singleton in Hcount |- *. simpl in *. lia.
  - intros Huse Hparent. destruct (Htidy Huse Hparent) as [Hnext Hp1].
    apply Forall_app in Hp1 as [Hfront Hprev]. apply Forall_inv in Hprev.
    split; [| exact Hfront]. split; [| split; constructor].
    intros HN. unfold wellFormedNode. simpl.
    rewrite (Tidy_Character_value _ _ _ _ Hprev HN), (Tidy_Character_value _ _ _ _ Hnext HN).
    apply Z.ltb_ge in Hord. rewrite (proj2 (Z.leb_le lo hi)) by lia. reflexivity.
Qed.

Lemma Tidy_array_inv P N ctx c ks :
  array_of c = Some ks -> Tidy P N ctx c -> Forall (Tidy P N ctx) ks.
Proof.
  intros Ha (Hwf & Hs & Hr).
  assert (Hall : (length (capturingGroups ctx) <= N)%nat -> forallb (allNodes (P N)) ks = true).
  { intros HN. specialize (Hwf HN).
    destruct c; simpl in Ha; try discriminate; injection Ha as <-; simpl in Hwf;
      now apply andb_true_iff in Hwf as [_ Hwf]. }
  assert (Hsub : Forall (fun s => s ∈ subroutines ctx) (flat_map subroutinesOf ks)).
  { destruct c; simpl in Ha; try discriminate; injection Ha as <-; exact Hs. }
  assert (Href : Forall (refKnown ctx) (flat_map refsOf ks)).
  { destruct c; simpl in Ha; try discriminate; injection Ha as <-; exact Hr. }
  apply Forall_flat_map in Hsub, Href.
  apply Forall_forall. intros k Hk. split; [| split].
  - intros HN. specialize (Hall HN).
    apply Forall_forallb_true in Hall. rewrite Forall_forall in Hall. now apply Hall.
  - rewrite Forall_forall in Hsub. now apply Hsub.
  - rewrite Forall_forall in Href. now apply Href.
Qed.

Lemma Tidy_CharacterClass ao N ctx k neg els :
  Tidy (WF ao) N ctx (CharacterClass k neg els) <-> Forall (Tidy (WF ao) N ctx) els.
Proof.
  split.
  - now apply Tidy_array_inv.
  - now apply Tidy_array.
Qed.

Lemma Tidy_Alternative ao N ctx els :
  Tidy (WF ao) N ctx (Alternative els) <-> Forall (Tidy (WF ao) N ctx) els.
Proof.
  split.
  - now apply Tidy_array_inv.
  - now apply Tidy_array.
Qed.

Lemma namesInUse_Grown ctx ctx' : Grown ctx ctx' -> namesInUse ctx -> namesInUse ctx'.
Proof. intros (_ & _ & _ & _ & H). exact H. Qed.

Lemma classLoop_tidy ao W fuel :
  TidyWalk (wellFormedNode PosixClassNames isValidGroupName) ao W ->
  forall N ctx first classes state classes' ctx',
    parseCharacterClassOpen_loop W fuel ctx first classes state = Ok (classes', ctx') ->
    skipBackrefValidation ctx = ao ->
    Forall isCharacterClass classes ->
    Forall isCharacterClass classes'
    /\ Grown ctx ctx'
    /\ (forall name,
          ctxCount name ctx' + countsOf name classes
          = ctxCount name ctx + countsOf name classes')%nat
    /\ (namesInUse ctx ->
        Forall (Tidy (WF ao) N ctx) classes -> Forall (Tidy (WF ao) N ctx') classes').
Proof.
  intros HW N. induction fuel as [| fuel IH];
    intros ctx first classes state classes' ctx' H Hao Hsh; [discriminate |].
  simpl in H. destruct (tokens ctx !! current ctx) as [tok |] eqn:Htok; [| discriminate].
  assert (Hstep : forall r,
             r = (match at_last classes with
                  | Some cc =>
                      match elements_of cc with
                      | Some els =>
                          '(node, els, ctx) ← W ctx els state;
                          parseCharacterClassOpen_loop W fuel ctx first
                            (set_last classes (set_elements cc (els ++ [node]))) state
                      | None => Throw TypeError
                      end
                  | None => Throw TypeError
                  end) ->
             r = Ok (classes', ctx') ->
             Forall isCharacterClass classes'
             /\ Grown ctx ctx'
             /\ (forall name,
                   ctxCount name ctx' + countsOf name classes
                   = ctxCount name ctx + countsOf name classes')%nat
             /\ (namesInUse ctx ->
                 Forall (Tidy (WF ao) N ctx) classes ->
                 Forall (Tidy (WF ao) N ctx') classes')).
  { intros r -> Hr.
    destruct (at_last classes) as [cc |] eqn:Hcc; [| discriminate].
    apply at_last_Some_app in Hcc as [front ->].
    apply Forall_app in Hsh as [Hfront Hcc].
    apply Forall_inv in Hcc as (k & neg & els & ->).
    simpl in Hr.
    apply bind_Ok in Hr as [[[node els'] ctx1] [HWeq Hr]].
    apply (HW N) in HWeq as (HG1 & Hc1 & Ht1); [| assumption].
    rewrite set_last_app in Hr.
    apply IH in Hr as (Hsh' & HG2 & Hc2 & Ht2).
    - split; [assumption |]. split; [eapply Grown_trans; eassumption |]. split.
      + intros name. specialize (Hc1 name). specialize (Hc2 name).
        rewrite !countsOf_app, !countsOf_singleton in Hc2.
        rewrite !countsOf_app, !countsOf_singleton. simpl in *.
        fold (countsOf name els). fold (countsOf name (els' ++ [node])) in Hc2.
        rewrite countsOf_app, countsOf_singleton in Hc2. lia.
      + intros Huse Hall. apply Ht2; [now apply (namesInUse_Grown ctx) |].
        apply Forall_app in Hall as [Hf Hl]. apply Forall_inv in Hl.
        apply Forall_app. split; [now apply (Forall_Tidy_Grown _ _ ctx) |].
        apply Forall_singleton. apply Tidy_CharacterClass.
        apply Tidy_CharacterClass in Hl. destruct (Ht1 Huse Hl) as [Hn He].
        apply Forall_app. split; [assumption | now apply Forall_singleton].
    - destruct HG1 as [-> _]. assumption.
    - apply Forall_app. split; [assumption |]. apply Forall_singleton.
      now exists k, neg, (els' ++ [node]). }
  destruct tok; try (now apply (Hstep _ eq_refl)).
  - injection H as <- <-. split; [assumption |]. split; [apply Grown_refl |].
    split; [reflexivity | auto].
  - apply IH in H as (Hsh' & HG2 & Hc2 & Ht2).
    + split; [assumption |]. split; [eapply Grown_trans; [apply Grown_set_current | eassumption] |].
      split.
      * intros name. specialize (Hc2 name).
        rewrite countsOf_app, countsOf_singleton in Hc2.
        destruct name; simpl in *; lia.
      * intros Huse Hall. apply Ht2; [exact Huse |]. apply Forall_app. split.
        -- now apply (Forall_Tidy_Grown _ _ ctx); [apply Grown_set_current |].
        -- apply Forall_singleton. apply Tidy_CharacterClass. constructor.
    + assumption.
    + apply Forall_app. split; [assumption |]. apply Forall_singleton.
      now exists NodeCharacterClassKinds.union, false, [].
Qed.

Lemma countsOf_unwrapped name classes :
  Forall isCharacterClass classes ->
  countsOf name (map (fun cc => match elements_of cc with
                                | Some [el] => el
                                | _ => cc
                                end) classes)
  = countsOf name classes.
Proof.
  induction 1 as [| cc rest (k & neg & els & ->) _ IH]; [reflexivity |].
  unfold countsOf in *. rewrite !map_cons.
  change (list_sum (?a :: ?l)) with (a + list_sum l)%nat. rewrite IH. f_equal.
  destruct els as [| el [| el2 els]]; simpl; lia.
Qed.

Lemma parseCharacterClassOpen_tidy ao W fuel :
  TidyWalk (wellFormedNode PosixClassNames isValidGroupName) ao W ->
  forall N ctx negate state node ctx',
    parseCharacterClassOpen W fuel ctx negate state = Ok (node, ctx') ->
    skipBackrefValidation ctx = ao ->
    Grown ctx ctx'
    /\ (forall name, ctxCount name ctx' = (ctxCount name ctx + countOf name node)%nat)
    /\ (namesInUse ctx -> Tidy (WF ao) N ctx' node).
Proof.
  intros HW N ctx negate state node ctx' H Hao. unfold parseCharacterClassOpen in H.
  apply bind_Ok in H as [[classes ctx1] [Hloop H]]. injection H as <- <-.
  apply (classLoop_tidy _ _ _ HW N) in Hloop as (Hsh & HG & Hc & Ht); [| assumption |].
  2:{ apply Forall_singleton. now exists NodeCharacterClassKinds.union, false, []. }
  assert (Ht' : namesInUse ctx -> Forall (Tidy (WF ao) N ctx1) classes).
  { intros Huse. apply Ht; [exact Huse |].
    apply Forall_singleton, Tidy_CharacterClass. constructor. }
  clear Ht.
  assert (Hc' : forall name, ctxCount name (set_current ctx1 (S (current ctx1)))
                             = (ctxCount name ctx + countsOf name classes)%nat).
  { intros name. specialize (Hc name). rewrite countsOf_singleton in Hc.
    destruct name; simpl in *; lia. }
  clear Hc.
  split; [eapply Grown_trans; [eassumption | apply Grown_set_current] |].
  assert (Hmany : (forall name,
                     countOf name (CharacterClass NodeCharacterClassKinds.intersection negate
                       (map (fun cc => match elements_of cc with
                                       | Some [el] => el
                                       | _ => cc
                                       end) classes)) = countsOf name classes)
                  /\ (namesInUse ctx ->
                      Tidy (WF ao) N ctx1
                        (CharacterClass NodeCharacterClassKinds.intersection negate
                           (map (fun cc => match elements_of cc with
                                           | Some [el] => el
                                           | _ => cc
                                           end) classes)))).
  { split; [intros name; exact (countsOf_unwrapped name _ Hsh) |].
    intros Huse. apply Tidy_CharacterClass. apply Forall_map.
    eapply Forall_impl; [apply Forall_and; split; [exact Hsh | exact (Ht' Huse)] |].
    intros cc [(k & neg & els & ->) Hcc]. simpl.
    destruct els as [| el [| el2 els]]; try exact Hcc.
    apply Tidy_CharacterClass in Hcc. now apply Forall_inv in Hcc. }
  destruct classes as [| cc [| cc2 rest]].
  - destruct Hmany as [Hm1 Hm2]. split; [intros name; now rewrite Hc', <- Hm1 |].
    intros Huse. eapply Tidy_Grown; [apply Grown_set_current | exact (Hm2 Huse)].
  - apply Forall_inv in Hsh as (k & neg & els & ->).
    split.
    + intros name. rewrite Hc', countsOf_singleton. reflexivity.
    + intros Huse. specialize (Ht' Huse). apply Forall_inv in Ht'.
      eapply Tidy_Grown; [apply Grown_set_current |].
      apply Tidy_CharacterClass. now apply Tidy_CharacterClass in Ht'.
  - destruct Hmany as [Hm1 Hm2]. split; [intros name; now rewrite Hc', <- Hm1 |].
    intros Huse. eapply Tidy_Grown; [apply Grown_set_current | exact (Hm2 Huse)].
Qed.

Lemma groupLoop_tidy ao W fuel :
  TidyWalk (wellFormedNode PosixClassNames isValidGroupName) ao W ->
  forall N ctx node state a l n node' ctx' alts,
    parseGroupOpen_loop W fuel ctx node state a l n = Ok (node', ctx') ->
    skipBackrefValidation ctx = ao ->
    alternatives_of node = Some alts ->
    Forall isAlternative alts ->
    exists alts',
      node' = set_alternatives node alts'
      /\ Forall isAlternative alts'
      /\ Grown ctx ctx'
      /\ (forall name,
            ctxCount name ctx' + countsOf name alts
            = ctxCount name ctx + countsOf name alts')%nat
      /\ (namesInUse ctx ->
          Forall (Tidy (WF ao) N ctx) alts -> Forall (Tidy (WF ao) N ctx') alts').
Proof.
  intros HW N. induction fuel as [| fuel IH];
    intros ctx node state a l n node' ctx' alts H Hao Halts Hsh; [discriminate |].
  simpl in H. destruct (tokens ctx !! current ctx) as [tok |] eqn:Htok; [| discriminate].
  assert (Hstep : forall r,
             r = (match alternatives_of node ≫= at_last with
                  | Some alt =>
                      match elements_of alt with
                      | Some els =>
                          '(child, els, ctx) ←
                            W ctx els (childState state a l n);
                          let node :=
                            set_alternatives node
                              (set_last (default [] (alternatives_of node))
                                 (set_elements alt (els ++ [child]))) in
                          if lookbehindViolation (skipLookbehindValidation ctx) state l n child
                          then Throw lookbehindMsg
                          else parseGroupOpen_loop W fuel ctx node state a l n
                      | None => Throw TypeError
                      end
                  | None => Throw TypeError
                  end) ->
             r = Ok (node', ctx') ->
             exists alts',
               node' = set_alternatives node alts'
               /\ Forall isAlternative alts'
               /\ Grown ctx ctx'
               /\ (forall name,
                     ctxCount name ctx' + countsOf name alts
                     = ctxCount name ctx + countsOf name alts')%nat
               /\ (namesInUse ctx ->
                   Forall (Tidy (WF ao) N ctx) alts ->
                   Forall (Tidy (WF ao) N ctx') alts')).
  { intros r -> Hr. rewrite Halts in Hr. simpl in Hr.
    destruct (at_last alts) as [alt |] eqn:Halt; [| discriminate].
    apply at_last_Some_app in Halt as [front ->].
    apply Forall_app in Hsh as [Hfront Halt].
    apply Forall_inv in Halt as (els & ->).
    simpl in Hr.
    apply bind_Ok in Hr as [[[child els'] ctx1] [HWeq Hr]].
    apply (HW N) in HWeq as (HG1 & Hc1 & Ht1); [| assumption].
    rewrite set_last_app in Hr.
    destruct (lookbehindViolation _ _ _ _ _); [discriminate |].
    apply IH with (alts := front ++ [Alternative (els' ++ [child])]) in Hr
      as (alts' & -> & Hsh' & HG2 & Hc2 & Ht2).
    - exists alts'. split; [apply (alternatives_of_set node _ _ Halts) |].
      split; [assumption |]. split; [eapply Grown_trans; eassumption |]. split.
      + intros name. specialize (Hc1 name). specialize (Hc2 name).
        rewrite !countsOf_app, !countsOf_singleton in Hc2.
        rewrite !countsOf_app, !countsOf_singleton. simpl in *.
        fold (countsOf name els). fold (countsOf name (els' ++ [child])) in Hc2.
        rewrite countsOf_app, countsOf_singleton in Hc2. lia.
      + intros Huse Hall. apply Ht2; [now apply (namesInUse_Grown ctx) |].
        apply Forall_app in Hall as [Hf Hl]. apply Forall_inv in Hl.
        apply Forall_app. split; [now apply (Forall_Tidy_Grown _ _ ctx) |].
        apply Forall_singleton. apply Tidy_Alternative.
        apply Tidy_Alternative in Hl. destruct (Ht1 Huse Hl) as [Hn He].
        apply Forall_app. split; [assumption | now apply Forall_singleton].
    - destruct HG1 as [-> _]. assumption.
    - now apply (alternatives_of_set node _ _ Halts).
    - apply Forall_app. split; [assumption |]. apply Forall_singleton. now eexists. }
  destruct tok; try (now apply (Hstep _ eq_refl)).
  - rewrite Halts in H. simpl in H.
    apply IH with (alts := alts ++ [createAlternative]) in H
      as (alts' & -> & Hsh' & HG2 & Hc2 & Ht2).
    + exists alts'. split; [apply (alternatives_of_set node _ _ Halts) |].
      split; [assumption |].
      split; [eapply Grown_trans; [apply Grown_set_current | eassumption] |]. split.
      * intros name. specialize (Hc2 name).
        rewrite countsOf_app, countsOf_singleton in Hc2.
        destruct name; simpl in *; lia.
      * intros Huse Hall. apply Ht2; [exact Huse |]. apply Forall_app. split.
        -- now apply (Forall_Tidy_Grown _ _ ctx); [apply Grown_set_current |].
        -- apply Forall_singleton. apply Tidy_Alternative. constructor.
    + assumption.
    + now apply (alternatives_of_set node _ _ Halts).
    + apply Forall_app. split; [assumption |]. apply Forall_singleton. now exists [].
  - injection H as Hn Hc. subst node' ctx'. exists alts. split.
    { destruct node; simpl in Halts; try discriminate; inversion Halts; reflexivity. }
    split; [assumption |]. split; [apply Grown_refl |]. split; [reflexivity | auto].
Qed.

Lemma alternatives_typed alts :
  Forall isAlternative alts -> forallb isAlternativeNode alts = true.
Proof.
  intros H. apply forallb_forall. intros n Hin.
  rewrite Forall_forall in H. destruct (H n) as [els ->]; [| reflexivity].
  now apply list_elem_of_In.
Qed.

Lemma createByGroupKind_tidy kind flags name negate number node :
  createByGroupKind isValidGroupName kind flags name negate number = Ok node ->
  alternatives_of node = Some [createAlternative]
  /\ (forall ao M alts, forallb isAlternativeNode alts = true ->
                        WF ao M (set_alternatives node alts) = true)
  /\ (forall alts, array_of (set_alternatives node alts) = Some alts)
  /\ (forall nm alts, groupWeight nm (set_alternatives node alts) = groupWeight nm node).
Proof.
  unfold createByGroupKind, createCapturingGroup. intros H.
  destruct kind;
    try (injection H as <-; repeat split; try reflexivity; intros ao M alts Halts;
         unfold wellFormedNode; simpl; exact Halts).
  destruct name as [nm |].
  - destruct (isValidGroupName nm) eqn:Hnm; [| discriminate]. injection H as <-.
    split; [reflexivity |]. split; [| split; reflexivity]. intros ao M alts Halts.
    unfold wellFormedNode. simpl. now rewrite Hnm.
  - injection H as <-. repeat split; try reflexivity. intros ao M alts Halts.
    unfold wellFormedNode. simpl. exact Halts.
Qed.

(** The groups counted once a group is opened. *)
Lemma ctxCount_push name ctx number nm alts :
  ctxCount name (push_capturingGroup ctx (CapturingGroup number nm alts) nm)
  = (ctxCount name ctx + groupWeight name (CapturingGroup number nm alts))%nat.
Proof.
  destruct name as [name |]; simpl.
  - destruct nm as [[| c rest] |]; try lia.
    case_bool_decide as Heq.
    + subst name. rewrite lookup_insert_eq. simpl. rewrite length_app. simpl. lia.
    + rewrite lookup_insert_ne by assumption. lia.
  - rewrite length_app. simpl. lia.
Qed.

Lemma namesInUse_push ctx node nm :
  namesInUse ctx -> namesInUse (push_capturingGroup ctx node nm).
Proof.
  intros Huse name groups. simpl. destruct nm as [[| c rest] |]; try apply Huse.
  destruct (decide (String c rest = name)) as [<- | Hne].
  - rewrite lookup_insert_eq. intros [= <-]. now destruct (default [] _).
  - rewrite lookup_insert_ne by assumption. apply Huse.
Qed.

Lemma parseGroupOpen_tidy ao W fuel :
  TidyWalk (wellFormedNode PosixClassNames isValidGroupName) ao W ->
  forall N ctx kind flags name negate number state node ctx',
    parseGroupOpen isValidGroupName W fuel ctx kind flags name negate number state
      = Ok (node, ctx') ->
    skipBackrefValidation ctx = ao ->
    Grown ctx ctx'
    /\ (forall name, ctxCount name ctx' = (ctxCount name ctx + countOf name node)%nat)
    /\ (namesInUse ctx -> Tidy (WF ao) N ctx' node).
Proof.
  intros HW N ctx kind flags name negate number state node ctx' H Hao.
  unfold parseGroupOpen in H.
  apply bind_Ok in H as [node0 [Hcreate H]].
  apply createByGroupKind_tidy in Hcreate as (Halts & Hwf & Harr & Hweight).
  destruct (_ && isInAbsentFunction state); [discriminate |].
  apply bind_Ok in H as [[node1 ctx1] [Hloop H]]. injection H as <- <-.
  set (ctx0 := match node0 with
               | CapturingGroup _ nm _ => push_capturingGroup ctx node0 nm
               | _ => ctx
               end) in *.
  assert (Hcount0 : forall nm, ctxCount nm ctx0 = (ctxCount nm ctx + groupWeight nm node0)%nat).
  { intros nm. unfold ctx0. destruct node0; try (simpl; lia). apply ctxCount_push. }
  assert (HG0 : Grown ctx ctx0).
  { split; [unfold ctx0; now destruct node0 |].
    split; [intros nm; rewrite Hcount0; lia |].
    split; [unfold ctx0; now destruct node0 |].
    split; [unfold ctx0; now destruct node0 |].
    unfold ctx0. destruct node0; auto. apply namesInUse_push. }
  apply (groupLoop_tidy _ _ _ HW N) with (alts := [createAlternative]) in Hloop
    as (alts' & -> & Hsh & HG & Hc & Ht).
  - split; [eapply Grown_trans;
            [exact HG0 | eapply Grown_trans; [eassumption | apply Grown_set_current]] |].
    split.
    + intros nm. specialize (Hc nm). rewrite countsOf_singleton in Hc.
      rewrite (countOf_array _ _ _ (Harr alts')), Hweight.
      specialize (Hcount0 nm).
      replace (ctxCount nm (set_current ctx1 (S (current ctx1)))) with (ctxCount nm ctx1)
        by (now destruct nm).
      simpl in Hc. lia.
    + intros Huse. eapply Tidy_Grown; [apply Grown_set_current |].
      apply (Tidy_array _ _ _ _ alts');
        [apply Harr | apply Hwf; now apply alternatives_typed |].
      apply Ht; [now apply (namesInUse_Grown ctx) |].
      apply Forall_singleton. apply Tidy_Alternative. constructor.
  - unfold ctx0. destruct node0; assumption.
  - assumption.
  - apply Forall_singleton. now exists [].
Qed.

Lemma walk_tidy ao fuel :
  TidyWalk (wellFormedNode PosixClassNames isValidGroupName) ao (walk fuel).
Proof.
  induction fuel as [| fuel IH];
    intros N ctx parent state node parent' ctx' H Hao; [discriminate |].
  simpl in H. destruct (tokens ctx !! current ctx) as [tok |] eqn:Htok; [| discriminate].
  assert (Hleaf : forall n,
             isLeaf n = true -> (forall ao M, WF ao M n = true) ->
             match n with Subroutine _ | Backreference _ _ => False | _ => True end ->
             (n, parent, set_current ctx (S (current ctx))) = (node, parent', ctx') ->
             Grown ctx ctx'
             /\ (forall name,
                   ctxCount name ctx' + countsOf name parent
                   = ctxCount name ctx + countOf name node + countsOf name parent')%nat
             /\ (namesInUse ctx ->
                 Forall (Tidy (WF ao) N ctx) parent ->
                 Tidy (WF ao) N ctx' node /\ Forall (Tidy (WF ao) N ctx') parent')).
  { intros n Hl Hw Hs Heq. injection Heq as <- <- <-.
    split; [apply Grown_set_current |].
    split; [intros name; rewrite (countOf_leaf _ _ Hl); destruct name; simpl; lia |].
    intros _ Hp. split.
    - apply Tidy_leaf; auto.
    - now apply (Forall_Tidy_Grown _ _ ctx); [apply Grown_set_current |]. }
  assert (Hbranch : forall n ctx1,
             Grown (set_current ctx (S (current ctx))) ctx1 ->
             (forall name, ctxCount name ctx1
                           = (ctxCount name (set_current ctx (S (current ctx)))
                              + countOf name n)%nat) ->
             (namesInUse (set_current ctx (S (current ctx))) -> Tidy (WF ao) N ctx1 n) ->
             Ok (n, parent, ctx1) = Ok (node, parent', ctx') ->
             Grown ctx ctx'
             /\ (forall name,
                   ctxCount name ctx' + countsOf name parent
                   = ctxCount name ctx + countOf name node + countsOf name parent')%nat
             /\ (namesInUse ctx ->
                 Forall (Tidy (WF ao) N ctx) parent ->
                 Tidy (WF ao) N ctx' node /\ Forall (Tidy (WF ao) N ctx') parent')).
  { intros n ctx1 HG Hc Ht Heq. injection Heq as <- <- <-.
    assert (HG' : Grown ctx ctx1)
      by (eapply Grown_trans; [apply Grown_set_current | eassumption]).
    split; [assumption |].
    split; [intros name; rewrite Hc; destruct name; simpl; lia |].
    intros Huse Hp. split; [now apply Ht | now apply (Forall_Tidy_Grown _ _ ctx)]. }
  destruct tok; try discriminate.
  - injection H as <- <- <-. split; [apply Grown_set_current |].
    split; [intros name; destruct name; simpl; lia |]. intros _ Hp. split.
    + apply Tidy_Alternative. constructor.
    + now apply (Forall_Tidy_Grown _ _ ctx); [apply Grown_set_current |].
  - apply bind_Ok in H as [n [Hn H]].
    apply createAssertionFromToken_tidy in Hn as (Hl & Hw & Hs).
    apply (Hleaf n); auto. now injection H as <- <- <-.
  - apply bind_Ok in H as [[n ctx1] [Hn H]].
    apply (parseBackreference_tidy _ _ _ _ N) in Hn as (HG & Hcg & Hcount & Ht).
    cbn [skipBackrefValidation set_current] in Ht. rewrite Hao in Ht.
    apply (Hbranch n ctx1);
      [exact HG | intros name; rewrite Hcg, Hcount; lia | exact Ht | exact H].
  - apply bind_Ok in H as [n [Hn H]].
    apply createCharacter_tidy in Hn as (Hl & Hw & Hs).
    apply (Hleaf n); auto. now injection H as <- <- <-.
  - apply (parseCharacterClassHyphen_tidy ao _ IH (walk_back _ _ fuel) N) in H
      as (HG & Hc & Ht); [| assumption].
    split; [eapply Grown_trans; [apply Grown_set_current | eassumption] |].
    split; [intros name; specialize (Hc name); destruct name; simpl in *; lia |].
    intros Huse Hp. apply Ht; [exact Huse |].
    now apply (Forall_Tidy_Grown _ _ ctx); [apply Grown_set_current |].
  - apply bind_Ok in H as [[n ctx1] [Hn H]].
    apply (parseCharacterClassOpen_tidy _ _ _ IH N) in Hn as (HG & Hc & Ht); [| assumption].
    apply (Hbranch n ctx1); [exact HG | exact Hc | exact Ht | exact H].
  - apply bind_Ok in H as [n [Hn H]].
    apply parseCharacterSet_tidy in Hn as (Hl & Hw & Hs).
    apply (Hleaf n); auto. now injection H as <- <- <-.
  - apply bind_Ok in H as [n [Hn H]].
    apply createDirective_tidy in Hn as (Hl & Hw & Hs).
    apply (Hleaf n); auto. now injection H as <- <- <-.
  - apply bind_Ok in H as [[n ctx1] [Hn H]].
    apply (parseGroupOpen_tidy _ _ _ IH N) in Hn as (HG & Hc & Ht); [| assumption].
    apply (Hbranch n ctx1); [exact HG | exact Hc | exact Ht | exact H].
  - apply bind_Ok in H as [[n parent0] [Hn H]]. injection H as <- <- <-.
    apply parseQuantifier_tidy in Hn as (q & k & a & b & -> & -> & Hw).
    split; [apply Grown_set_current |]. split.
    + intros name. rewrite countsOf_app, countsOf_singleton. destruct name; simpl; lia.
    + intros _ Hp.
      apply (Forall_Tidy_Grown _ _ _ _ _ (Grown_set_current ctx (S (current ctx)))) in Hp.
      apply Forall_app in Hp as [Hfront Hq]. apply Forall_inv in Hq.
      split; [| assumption]. apply Tidy_Quantifier; auto.
  - apply bind_Ok in H as [[n ctx1] [Hn H]].
    apply (parseSubroutine_tidy _ _ _ _ N) in Hn as (HG & Hcg & Hcount & Ht).
    cbn [skipBackrefValidation set_current] in Ht. rewrite Hao in Ht.
    apply (Hbranch n ctx1);
      [exact HG | intros name; rewrite Hcg, Hcount; lia | intros _; exact Ht | exact H].
Qed.

Lemma parse_loop_tidy ao W fuel :
  TidyWalk (wellFormedNode PosixClassNames isValidGroupName) ao W ->
  forall N ctx alts alts' ctx',
    parse_loop W fuel ctx alts = Ok (alts', ctx') ->
    skipBackrefValidation ctx = ao ->
    Forall isAlternative alts ->
    Forall isAlternative alts'
    /\ Grown ctx ctx'
    /\ (forall name,
          ctxCount name ctx' + countsOf name alts
          = ctxCount name ctx + countsOf name alts')%nat
    /\ (namesInUse ctx ->
        Forall (Tidy (WF ao) N ctx) alts -> Forall (Tidy (WF ao) N ctx') alts').
Proof.
  intros HW N. induction fuel as [| fuel IH]; intros ctx alts alts' ctx' H Hao Hsh;
    [discriminate |].
  simpl in H. destruct (current ctx <? length (tokens ctx))%nat.
  2:{ injection H as <- <-. split; [assumption |]. split; [apply Grown_refl |].
      split; [reflexivity | auto]. }
  destruct (at_last alts) as [top |] eqn:Htop; [| discriminate].
  apply at_last_Some_app in Htop as [front ->].
  apply Forall_app in Hsh as [Hfront Htop].
  apply Forall_inv in Htop as (els & ->). simpl in H.
  apply bind_Ok in H as [[[node els'] ctx1] [HWeq H]].
  apply (HW N) in HWeq as (HG1 & Hc1 & Ht1); [| assumption].
  rewrite !set_last_app in H.
  assert (Hao1 : skipBackrefValidation ctx1 = ao) by (destruct HG1 as [-> _]; assumption).
  destruct (bool_decide (type_of node = Some TAlternative)) eqn:Hty.
  - apply bool_decide_eq_true_1 in Hty.
    apply IH in H as (Hsh' & HG2 & Hc2 & Ht2); [| assumption |].
    + split; [assumption |]. split; [eapply Grown_trans; eassumption |]. split.
      * intros name. specialize (Hc1 name). specialize (Hc2 name).
        repeat rewrite ?countsOf_app, ?countsOf_singleton in Hc2.
        rewrite !countsOf_app, !countsOf_singleton. simpl in *.
        fold (countsOf name els). fold (countsOf name els') in Hc2. lia.
      * intros Huse Hall. apply Ht2; [now apply (namesInUse_Grown ctx) |].
        apply Forall_app in Hall as [Hf Hl]. apply Forall_inv in Hl.
        apply Tidy_Alternative in Hl. destruct (Ht1 Huse Hl) as [Hn He].
        apply Forall_app. split; [| now apply Forall_singleton].
        apply Forall_app. split; [now apply (Forall_Tidy_Grown _ _ ctx) |].
        apply Forall_singleton. now apply Tidy_Alternative.
    + apply Forall_app. split.
      * apply Forall_app. split; [assumption |]. apply Forall_singleton. now eexists.
      * apply Forall_singleton. destruct node; try discriminate. now eexists.
  - apply IH in H as (Hsh' & HG2 & Hc2 & Ht2); [| assumption |].
    + split; [assumption |]. split; [eapply Grown_trans; eassumption |]. split.
      * intros name. specialize (Hc1 name). specialize (Hc2 name).
        repeat rewrite ?countsOf_app, ?countsOf_singleton in Hc2.
        rewrite !countsOf_app, !countsOf_singleton. simpl in *.
        fold (countsOf name els). fold (countsOf name (els' ++ [node])) in Hc2.
        rewrite countsOf_app, countsOf_singleton in Hc2. lia.
      * intros Huse Hall. apply Ht2; [now apply (namesInUse_Grown ctx) |].
        apply Forall_app in Hall as [Hf Hl]. apply Forall_inv in Hl.
        apply Tidy_Alternative in Hl. destruct (Ht1 Huse Hl) as [Hn He].
        apply Forall_app. split; [now apply (Forall_Tidy_Grown _ _ ctx) |].
        apply Forall_singleton. apply Tidy_Alternative.
        apply Forall_app. split; [assumption | now apply Forall_singleton].
    + apply Forall_app. split; [assumption |]. apply Forall_singleton. now eexists.
Qed.

Lemma validateSubroutines_Forall ctx subs :
  validateSubroutines ctx subs = Ok tt ->
  Forall (fun s => validateSubroutine ctx s = Ok tt) subs.
Proof.
  induction subs as [| s subs IH]; simpl; intros H; [constructor |].
  apply bind_Ok in H as [[] [Hs H]]. constructor; auto.
Qed.

(** The tree [parse] returns and the context it is checked in: the
    groups of the tree are the groups the parser has counted, all of them
    and name by name, the tree is tidy, every subroutine has passed the
    check at the end, and so has the rule on references by number. *)
Lemma parseTokens_tidy tokenized opts ast :
  parseTokens PosixClassNames isValidGroupName tokenized opts = Ok ast ->
  exists ctx,
    (forall name, countOf name ast = ctxCount name ctx)
    /\ Tidy (WF (opt_skipBackrefValidation opts)) (captureCount ast) ctx ast
    /\ namesInUse ctx
    /\ Forall (fun s => validateSubroutine ctx s = Ok tt) (subroutines ctx)
    /\ hasNumberedRef ctx
        && negb (bool_decide (size (namedGroupsByName ctx) = 0%nat))
        && negb (opt_captureGroup opts) = false.
Proof.
  unfold parseTokens. intros H.
  apply bind_Ok in H as [[alts ctx] [Hloop H]].
  destruct (_ && negb (opt_captureGroup opts)) eqn:Hrule; [discriminate |].
  apply bind_Ok in H as [[] [Hsubs H]]. injection H as <-.
  apply validateSubroutines_Forall in Hsubs.
  set (ao := opt_skipBackrefValidation opts).
  assert (Huse0 : namesInUse (initialContext opts (tokenized_tokens tokenized))).
  { intros name groups. simpl. now rewrite lookup_empty. }
  assert (Hfacts : forall N,
             (forall name, countsOf name alts = ctxCount name ctx)
             /\ namesInUse ctx
             /\ Forall (Tidy (WF ao) N ctx) alts
             /\ Forall isAlternative alts).
  { intros N.
    apply (parse_loop_tidy ao _ _ (walk_tidy ao _) N) in Hloop
      as (Hsh & HG & Hc & Ht); [| reflexivity |].
    - split; [| split; [| split; [| exact Hsh]]].
      + intros name. specialize (Hc name). unfold countsOf in *.
        destruct name; simpl in *; [rewrite lookup_empty in Hc; simpl in Hc |]; lia.
      + now apply (namesInUse_Grown _ _ HG).
      + apply Ht; [exact Huse0 |].
        apply Forall_singleton. apply Tidy_Alternative. constructor.
    - apply Forall_singleton. now exists []. }
  exists ctx.
  assert (Hcount : forall name,
             countOf name (createRegex (Pattern alts)
                             (createFlags (tokenized_flags tokenized)))
             = ctxCount name ctx).
  { intros name. destruct (Hfacts 0%nat) as [Hc _]. specialize (Hc name).
    unfold countsOf in Hc. simpl. lia. }
  split; [exact Hcount |].
  destruct (Hfacts (captureCount (createRegex (Pattern alts)
                                    (createFlags (tokenized_flags tokenized)))))
    as (_ & Huse & Ht & Hsh).
  split; [| split; [exact Huse | split; [exact Hsubs | exact Hrule]]].
  split; [| split].
  - intros HN. simpl. rewrite !andb_true_r. unfold wellFormedNode at 1. simpl.
    rewrite (alternatives_typed _ Hsh). simpl. apply forallb_Forall_true.
    eapply Forall_impl; [exact Ht |]. intros n [Hn _]. now apply Hn.
  - simpl. rewrite app_nil_r. apply Forall_flat_map.
    eapply Forall_impl; [exact Ht |]. now intros n (_ & Hn & _).
  - simpl. rewrite app_nil_r. apply Forall_flat_map.
    eapply Forall_impl; [exact Ht |]. now intros n (_ & _ & Hn).
Qed.

Lemma allNodes_impl (P Q : Node -> bool) :
  (forall n, P n = true -> Q n = true) ->
  forall n, allNodes P n = true -> allNodes Q n = true.
Proof.
  intros HPQ n. remember (nodeFuel n) as k eqn:Hk. revert n Hk.
  induction k as [k IH] using lt_wf_ind. intros n ->.
  assert (Hlist : forall l, (list_sum (map nodeFuel l) < nodeFuel n)%nat ->
            forallb (allNodes P) l = true -> forallb (allNodes Q) l = true).
  { intros l Hl H. apply forallb_Forall_true. apply Forall_forallb_true in H.
    rewrite Forall_forall in H |- *. intros x Hx.
    pose proof (nodeFuel_elem l x Hx).
    eapply IH; [| reflexivity | now apply H]. lia. }
  assert (Hkid : forall x, (nodeFuel x < nodeFuel n)%nat ->
            allNodes P x = true -> allNodes Q x = true).
  { intros x Hx. now apply (IH (nodeFuel x)). }
  destruct n; simpl; intros H; apply andb_true_iff in H as [H1 H2];
    rewrite (HPQ _ H1); simpl; trivial;
    try (apply Hlist; [simpl; lia | assumption]).
  - apply andb_true_iff in H2 as [Ha Hb].
    rewrite (Hkid n1), (Hkid n2); simpl; trivial; lia.
  - apply Hkid; [simpl; lia | assumption].
  - apply andb_true_iff in H2 as [Ha Hb].
    rewrite (Hkid n1), (Hkid n2); simpl; trivial; lia.
Qed.

Lemma allNodes_subroutines (P : Node -> bool) n :
  allNodes P n = true -> Forall (fun s => P s = true) (subroutinesOf n).
Proof.
  remember (nodeFuel n) as k eqn:Hk. revert n Hk.
  induction k as [k IH] using lt_wf_ind. intros n ->.
  assert (Hlist : forall l, (list_sum (map nodeFuel l) < nodeFuel n)%nat ->
            forallb (allNodes P) l = true ->
            Forall (fun s => P s = true) (flat_map subroutinesOf l)).
  { intros l Hl H. apply Forall_flat_map. apply Forall_forallb_true in H.
    rewrite Forall_forall in H |- *. intros x Hx.
    pose proof (nodeFuel_elem l x Hx).
    eapply IH; [| reflexivity | now apply H]. lia. }
  assert (Hkid : forall x, (nodeFuel x < nodeFuel n)%nat ->
            allNodes P x = true -> Forall (fun s => P s = true) (subroutinesOf x)).
  { intros x Hx. now apply (IH (nodeFuel x)). }
  destruct n; simpl; intros H; apply andb_true_iff in H as [H1 H2];
    try (constructor; fail); try (apply Hlist; [simpl; lia | assumption]).
  - apply andb_true_iff in H2 as [Ha Hb].
    apply Forall_app. split; apply Hkid; simpl; trivial; lia.
  - apply Hkid; [simpl; lia | assumption].
  - apply andb_true_iff in H2 as [Ha Hb].
    apply Forall_app. split; apply Hkid; simpl; trivial; lia.
  - now apply Forall_singleton.
Qed.

Variable tokenize : string -> TokenizerOptions -> string + Tokenized.

Lemma parse_tidy pattern opts ast :
  parse PosixClassNames isValidGroupName tokenize pattern opts = Ok ast ->
  exists ctx,
    (forall name, countOf name ast = ctxCount name ctx)
    /\ Tidy (WF (opt_skipBackrefValidation opts)) (captureCount ast) ctx ast
    /\ namesInUse ctx
    /\ Forall (fun s => validateSubroutine ctx s = Ok tt) (subroutines ctx)
    /\ hasNumberedRef ctx
        && negb (bool_decide (size (namedGroupsByName ctx) = 0%nat))
        && negb (opt_captureGroup opts) = false.
Proof.
  unfold parse. destruct (tokenize _ _); [discriminate | apply parseTokens_tidy].
Qed.

Lemma parse_well_formed pattern opts ast :
  parse PosixClassNames isValidGroupName tokenize pattern opts = Ok ast ->
  allNodes (WF (opt_skipBackrefValidation opts) (captureCount ast)) ast = true
  /\ Forall (fun s => match s with
                      | Subroutine (RefNum ref) =>
                          num_gt ref (Int (Z.of_nat (captureCount ast))) = false
                      | _ => True
                      end) (subroutinesOf ast).
Proof.
  intros H. apply parse_tidy in H as (ctx & Hcount & (Hwf & Hsub & _) & _ & Hsubs & _).
  pose proof (Hcount None) as Hlen. simpl in Hlen. fold (captureCount ast) in Hlen.
  split; [apply Hwf; lia |].
  eapply Forall_impl; [exact Hsub |]. intros s Hs. simpl in Hs.
  rewrite Forall_forall in Hsubs. specialize (Hsubs s Hs).
  destruct s; try exact I.
  destruct ref as [ref | name]; [| exact I]. cbn [validateSubroutine] in Hsubs.
  rewrite Hlen. destruct (num_gt ref _) eqn:E; [discriminate | reflexivity].
Qed.

Lemma parse_well_formed_part (Q : Node -> bool) pattern opts ast :
  (forall n, WF (opt_skipBackrefValidation opts) (captureCount ast) n = true -> Q n = true) ->
  parse PosixClassNames isValidGroupName tokenize pattern opts = Ok ast -> allNodes Q ast = true.
Proof.
  intros HQ H. apply parse_well_formed in H as [H _].
  exact (allNodes_impl _ _ HQ _ H).
Qed.

(** X1.  [parse] stops: whatever the tokenizer returns and whatever the
    options, the loops of [parse] and of [walk] run out of tokens, so the
    call returns a tree or throws. *)
Theorem parse_stops pattern opts :
  parse PosixClassNames isValidGroupName tokenize pattern opts <> OutOfFuel.
Proof.
  unfold parse. destruct (tokenize _ _) as [msg | tokenized]; [discriminate |].
  exact (proj1 (parseTokens_settled PosixClassNames isValidGroupName tokenized opts)).
Qed.

(** X2.  In a tree that [parse] returns, no character lies beyond the
    last code point, U+10FFFF. *)
Theorem parse_characters_in_range pattern opts ast :
  parse PosixClassNames isValidGroupName tokenize pattern opts = Ok ast -> allNodes characterInRange ast = true.
Proof.
  apply parse_well_formed_part. intros n H. unfold wellFormedNode in H.
  repeat (apply andb_true_iff in H as [H ?]). assumption.
Qed.

(** X3.  In a tree that [parse] returns, every range of a character class
    runs between two characters, and the first is not above the second. *)
Theorem parse_ranges_in_order pattern opts ast :
  parse PosixClassNames isValidGroupName tokenize pattern opts = Ok ast -> allNodes rangeInOrder ast = true.
Proof.
  apply parse_well_formed_part. intros n H. unfold wellFormedNode in H.
  repeat (apply andb_true_iff in H as [H ?]). assumption.
Qed.

(** X4.  In a tree that [parse] returns, no quantifier has its maximum
    below its minimum, and none repeats an assertion, a directive or a
    lookaround. *)
Theorem parse_quantifiers_in_order pattern opts ast :
  parse PosixClassNames isValidGroupName tokenize pattern opts = Ok ast -> allNodes quantifierInOrder ast = true.
Proof.
  apply parse_well_formed_part. intros n H. unfold wellFormedNode in H.
  repeat (apply andb_true_iff in H as [H ?]). assumption.
Qed.

(** X5.  In a tree that [parse] returns, a backreference is an orphan
    only if it is by number and [skipBackrefValidation] is set; a
    backreference by number that is no orphan has a number that is not
    above the number of capturing groups of the tree. *)
Theorem parse_backreferences_in_range pattern opts ast :
  parse PosixClassNames isValidGroupName tokenize pattern opts = Ok ast ->
  allNodes (backreferenceInRange (opt_skipBackrefValidation opts) (captureCount ast)) ast
  = true.
Proof.
  apply parse_well_formed_part. intros n H. unfold wellFormedNode in H.
  repeat (apply andb_true_iff in H as [H ?]). assumption.
Qed.

(** X6.  In a tree that [parse] returns, every POSIX character set
    carries one of the POSIX class names, and every named group a name
    that [isValidGroupName] accepts. *)
Theorem parse_names_valid pattern opts ast :
  parse PosixClassNames isValidGroupName tokenize pattern opts = Ok ast ->
  allNodes (namesValid PosixClassNames isValidGroupName) ast = true.
Proof.
  apply parse_well_formed_part. intros n H. unfold wellFormedNode in H.
  repeat (apply andb_true_iff in H as [H ?]). assumption.
Qed.

(** X7.  In a tree that [parse] returns, a subroutine by number calls a
    number from 0 (the whole pattern) to the number of capturing groups
    of the tree. *)
Theorem parse_subroutines_in_range pattern opts ast :
  parse PosixClassNames isValidGroupName tokenize pattern opts = Ok ast ->
  Forall (fun s => match s with
                   | Subroutine (RefNum ref) =>
                       exists r, ref = Int r /\ 0 <= r <= Z.of_nat (captureCount ast)
                   | _ => True
                   end) (subroutinesOf ast).
Proof.
  intros H. apply parse_well_formed in H as [Hwf Hsubs].
  apply allNodes_subroutines in Hwf.
  rewrite Forall_forall in Hwf, Hsubs |- *. intros s Hs.
  specialize (Hwf s Hs). specialize (Hsubs s Hs).
  destruct s; try exact I. destruct ref as [ref | name]; [| exact I].
  unfold wellFormedNode in Hwf. simpl in Hwf. rewrite ?andb_true_r in Hwf.
  destruct ref as [r | |]; try discriminate. exists r. split; [reflexivity |].
  apply Z.leb_le in Hwf. unfold num_gt, num_lt in Hsubs. apply Z.ltb_ge in Hsubs. lia.
Qed.

(** X16.  In a tree that [parse] returns, the name of a backreference by
    name is the name of a capturing group of the tree. *)
Theorem parse_named_backreferences pattern opts ast :
  parse PosixClassNames isValidGroupName tokenize pattern opts = Ok ast ->
  Forall (fun r => match r with
                   | Backreference (RefName name) _ => (1 <= namedCount name ast)%nat
                   | _ => True
                   end) (refsOf ast).
Proof.
  intros H. apply parse_tidy in H as (ctx & Hcount & (_ & _ & Href) & _).
  eapply Forall_impl; [exact Href |]. intros r [_ Hr].
  destruct r; try exact I. destruct ref as [ref | name]; [exact I |].
  unfold namedCount. now rewrite Hcount.
Qed.

(** X17.  In a tree that [parse] returns, the name of a subroutine by name
    is the name of one capturing group of the tree, and of one only. *)
Theorem parse_named_subroutines pattern opts ast :
  parse PosixClassNames isValidGroupName tokenize pattern opts = Ok ast ->
  Forall (fun s => match s with
                   | Subroutine (RefName name) => namedCount name ast = 1%nat
                   | _ => True
                   end) (subroutinesOf ast).
Proof.
  intros H. apply parse_tidy in H as (ctx & Hcount & (_ & Hsub & _) & Huse & Hsubs & _).
  eapply Forall_impl; [exact Hsub |]. intros s Hs. simpl in Hs.
  rewrite Forall_forall in Hsubs. specialize (Hsubs s Hs).
  destruct s; try exact I. destruct ref as [ref | name]; [exact I |].
  cbn [validateSubroutine] in Hsubs.
  destruct (namedGroupsByName ctx !! name) as [groups |] eqn:Hgroups; [| discriminate].
  destruct (1 <? length groups)%nat eqn:Hlen; [discriminate |].
  apply Nat.ltb_ge in Hlen. specialize (Huse _ _ Hgroups).
  unfold namedCount. rewrite Hcount. simpl. rewrite Hgroups. simpl.
  destruct groups; [contradiction | simpl in *; lia].
Qed.

(** X18.  References by number and named groups do not mix: unless the
    option [captureGroup] is set, a tree that [parse] returns with a
    backreference by number, or a subroutine that calls a group by its
    number, has no named group. *)
Theorem parse_numbered_or_named pattern opts ast name :
  parse PosixClassNames isValidGroupName tokenize pattern opts = Ok ast ->
  opt_captureGroup opts = false ->
  existsb isNumberedRef (refsOf ast) = true ->
  namedCount name ast = 0%nat.
Proof.
  intros H Hopt Hnum. apply parse_tidy in H as (ctx & Hcount & (_ & _ & Href) & _ & _ & Hrule).
  apply existsb_exists in Hnum as (r & Hin & Hr).
  rewrite Forall_forall in Href. destruct (Href r (proj2 (list_elem_of_In _ _) Hin)) as [Hflag _].
  rewrite (Hflag Hr), Hopt in Hrule. simpl in Hrule. rewrite andb_true_r in Hrule.
  apply negb_false_iff, bool_decide_eq_true_1, map_size_empty_iff in Hrule.
  unfold namedCount. rewrite Hcount. simpl. rewrite Hrule, lookup_empty. reflexivity.
Qed.


End ParserTidy.

Lemma parse_characters_in_range_witness :
  allNodes characterInRange
    (regexOf [CharacterClass NodeCharacterClassKinds.union false
                [CharacterClassRange (Character 97) (Character 1114111)]] noFlags) = true.
Proof.
  apply (parse_characters_in_range samplePosixClassNames anyGroupName
           (sampleTokenizer [CharacterClassOpenToken false; CharacterToken 97;
                             CharacterClassHyphenToken; CharacterToken 1200000;
                             CharacterClassCloseToken]) "" defaultOptions).
  vm_compute. reflexivity.
Defined.

Lemma parse_ranges_in_order_witness :
  allNodes rangeInOrder
    (regexOf [CharacterClass NodeCharacterClassKinds.union false
                [CharacterClassRange (Character 97) (Character 122)]] noFlags) = true.
Proof.
  apply (parse_ranges_in_order samplePosixClassNames anyGroupName
           (sampleTokenizer [CharacterClassOpenToken false; CharacterToken 97;
                             CharacterClassHyphenToken; CharacterToken 122;
                             CharacterClassCloseToken]) "" defaultOptions).
  vm_compute. reflexivity.
Defined.

Lemma parse_quantifiers_in_order_witness :
  allNodes quantifierInOrder
    (regexOf [Quantifier greedy (Int 1) Infinity (Character 97)] noFlags) = true.
Proof.
  apply (parse_quantifiers_in_order samplePosixClassNames anyGroupName
           (sampleTokenizer [CharacterToken 97; QuantifierToken (Int 1) Infinity greedy])
           "" defaultOptions).
  vm_compute. reflexivity.
Defined.

Lemma parse_backreferences_in_range_witness :
  allNodes (backreferenceInRange false 1)
    (regexOf [CapturingGroup 1 None [Alternative [Character 97]];
              Backreference (RefNum (Int 1)) false] noFlags) = true.
Proof.
  apply (parse_backreferences_in_range samplePosixClassNames anyGroupName
           (sampleTokenizer [captureOpen 1; CharacterToken 97; GroupCloseToken;
                             BackreferenceToken "\k<-1>"])
           "" defaultOptions
           (regexOf [CapturingGroup 1 None [Alternative [Character 97]];
                     Backreference (RefNum (Int 1)) false] noFlags)).
  vm_compute. reflexivity.
Defined.

Lemma parse_names_valid_witness :
  allNodes (namesValid samplePosixClassNames anyGroupName)
    (regexOf [CharacterSet NodeCharacterSetKinds.posix (Some "alpha") (Some false) false;
              CapturingGroup 1 (Some "n") [Alternative [Character 97]]] noFlags) = true.
Proof.
  apply (parse_names_valid samplePosixClassNames anyGroupName
           (sampleTokenizer [CharacterSetToken NodeCharacterSetKinds.posix false (Some "alpha");
                             GroupOpenToken TokenGroupKinds.capturing None (Some "n") false 1;
                             CharacterToken 97; GroupCloseToken])
           "" defaultOptions).
  vm_compute. reflexivity.
Defined.

Lemma parse_subroutines_in_range_witness :
  Forall (fun s => match s with
                   | Subroutine (RefNum ref) => exists r, ref = Int r /\ 0 <= r <= 1
                   | _ => True
                   end)
    [Subroutine (RefNum (Int 1)); Subroutine (RefNum (Int 0)); Subroutine (RefNum (Int 1))].
Proof.
  apply (parse_subroutines_in_range samplePosixClassNames anyGroupName
           (sampleTokenizer [captureOpen 1; CharacterToken 97; GroupCloseToken;
                             SubroutineToken "\g<1>"; SubroutineToken "\g<0>";
                             SubroutineToken "\g<-1>"])
           "" defaultOptions
           (regexOf [CapturingGroup 1 None [Alternative [Character 97]];
                     Subroutine (RefNum (Int 1)); Subroutine (RefNum (Int 0));
                     Subroutine (RefNum (Int 1))] noFlags)).
  vm_compute. reflexivity.
Defined.

Lemma parse_named_backreferences_witness :
  Forall (fun r => match r with
                   | Backreference (RefName name) _ =>
                       (1 <= namedCount name
                               (regexOf [CapturingGroup 1 (Some "n") [Alternative [Character 97]];
                                         Backreference (RefName "n") false] noFlags))%nat
                   | _ => True
                   end)
    [Backreference (RefName "n") false].
Proof.
  apply (parse_named_backreferences samplePosixClassNames anyGroupName
           (sampleTokenizer [GroupOpenToken TokenGroupKinds.capturing None (Some "n") false 1;
                             CharacterToken 97; GroupCloseToken;
                             BackreferenceToken "\k<n>"])
           "" defaultOptions
           (regexOf [CapturingGroup 1 (Some "n") [Alternative [Character 97]];
                     Backreference (RefName "n") false] noFlags)).
  vm_compute. reflexivity.
Defined.

Lemma parse_named_subroutines_witness :
  Forall (fun s => match s with
                   | Subroutine (RefName name) =>
                       namedCount name
                         (regexOf [CapturingGroup 1 (Some "n") [Alternative [Character 97]];
                                   Subroutine (RefName "n")] noFlags) = 1%nat
                   | _ => True
                   end)
    [Subroutine (RefName "n")].
Proof.
  apply (parse_named_subroutines samplePosixClassNames anyGroupName
           (sampleTokenizer [GroupOpenToken TokenGroupKinds.capturing None (Some "n") false 1;
                             CharacterToken 97; GroupCloseToken;
                             SubroutineToken "\g<n>"])
           "" defaultOptions
           (regexOf [CapturingGroup 1 (Some "n") [Alternative [Character 97]];
                     Subroutine (RefName "n")] noFlags)).
  vm_compute. reflexivity.
Defined.

Lemma parse_numbered_or_named_witness :
  namedCount "n" (regexOf [CapturingGroup 1 None [Alternative [Character 97]];
                           Backreference (RefNum (Int 1)) false] noFlags) = 0%nat.
Proof.
  apply (parse_numbered_or_named samplePosixClassNames anyGroupName
           (sampleTokenizer [captureOpen 1; CharacterToken 97; GroupCloseToken;
                             BackreferenceToken "\1"])
           "" defaultOptions).
  - vm_compute. reflexivity.
  - reflexivity.
  - reflexivity.
Defined.


(** ** The string helpers *)

Lemma toLowerCase_char_idem c :
  toLowerCase_char (toLowerCase_char c) = toLowerCase_char c
  /\ (is_separator c = false -> is_separator (toLowerCase_char c) = false).
Proof. destruct c as [[] [] [] [] [] [] [] []]; split; intros; try reflexivity; assumption. Qed.

Lemma toUpperCase_char_slug c :
  is_alpha c = true ->
  is_separator c = false
  /\ is_separator (toUpperCase_char c) = false
  /\ is_separator (toLowerCase_char c) = false
  /\ toLowerCase_char (toUpperCase_char c) = toLowerCase_char c.
Proof.
  destruct c as [[] [] [] [] [] [] [] []]; intros H; try discriminate H;
    repeat split; reflexivity.
Qed.

Lemma is_upper_not_separator c : is_upper c = true -> is_separator c = false.
Proof. destruct c as [[] [] [] [] [] [] [] []]; intros H; try discriminate H; reflexivity. Qed.

Lemma slug_collapse_separators b s : slug (collapse_separators b s) = slug s.
Proof.
  revert b. induction s as [| c s IH]; intros b; simpl; [reflexivity |].
  destruct (is_separator c) eqn:Hc.
  - destruct b; simpl; apply IH.
  - simpl. now rewrite Hc, IH.
Qed.

Lemma slug_camel_split st s : slug (camel_split st s) = slug s.
Proof.
  revert st. induction s as [| c s IH]; intros st; simpl; [reflexivity |].
  destruct (is_upper c) eqn:Hu.
  - rewrite (is_upper_not_separator _ Hu).
    destruct st; simpl; rewrite ?(is_upper_not_separator _ Hu), IH; reflexivity.
  - destruct (is_lower c); simpl; destruct (is_separator c); now rewrite ?IH.
Qed.

Lemma slug_title_case b s : slug (title_case b s) = slug s.
Proof.
  revert b. induction s as [| c s IH]; intros b; simpl; [reflexivity |].
  destruct (is_alpha c) eqn:Ha.
  - destruct (toUpperCase_char_slug _ Ha) as (H1 & H2 & H3 & H4).
    rewrite H1. destruct b; simpl.
    + rewrite H3, IH. f_equal. apply toLowerCase_char_idem.
    + rewrite H2, IH, H4. reflexivity.
  - simpl. destruct (is_separator c); now rewrite IH.
Qed.

Lemma slug_idempotent name : slug (slug name) = slug name.
Proof.
  induction name as [| c s IH]; simpl; [reflexivity |].
  destruct (is_separator c) eqn:Hc; [exact IH |].
  simpl. destruct (toLowerCase_char_idem c) as [H1 H2].
  now rewrite (H2 Hc), H1, IH.
Qed.

Lemma toLowerCase_char_lower c : is_upper (toLowerCase_char c) = false.
Proof. destruct c as [[] [] [] [] [] [] [] []]; reflexivity. Qed.

(** X8.  A slug is a lookup name: it has no space, hyphen or underscore
    and no capital letter, whatever the name it is made from. *)
Theorem slug_is_lookup_name name :
  Forall (fun c => is_separator c = false /\ is_upper c = false)
    (list_ascii_of_string (slug name)).
Proof.
  induction name as [| c s IH]; simpl; [constructor |].
  destruct (is_separator c) eqn:Hc; [exact IH |].
  simpl. constructor; [| exact IH]. split.
  - now apply toLowerCase_char_idem.
  - apply toLowerCase_char_lower.
Qed.

(** X9.  [normalizeUnicodePropertyName] keeps the lookup name: the
    normalized name has the slug of the trimmed name, so a name looks up
    the same entry of the property map before and after it is
    reformatted. *)
Theorem normalizeUnicodePropertyName_keeps_slug name :
  slug (normalizeUnicodePropertyName name) = slug (trim name).
Proof.
  unfold normalizeUnicodePropertyName.
  now rewrite slug_title_case, slug_camel_split, slug_collapse_separators.
Qed.

Section ReadOnlyFacts.

Context {St : Type}.
Implicit Types (visitor : Visitor St) (s : St).

Lemma runActions_skips (recur : TraverseNode St) acts n loc skipped s :
  Forall (fun a => a = skip) acts ->
  exists skipped', runActions recur acts (keptFrame n loc skipped) s
                   = Ok (keptFrame n loc skipped', s).
Proof.
  intros Hacts. revert skipped.
  induction Hacts as [| a acts -> _ IH]; intros skipped; [now exists skipped |].
  destruct (IH true) as [skipped' Hrest]. exists skipped'. exact Hrest.
Qed.

Lemma invoke_onlySkips (recur : TraverseNode St) fn n loc skipped s :
  onlySkips fn ->
  exists skipped' s', invoke recur fn n (keptFrame n loc skipped) s
                      = Ok (keptFrame n loc skipped', s').
Proof.
  intros H. rewrite invoke_callbackResult.
  destruct (runActions_skips recur _ n loc skipped
              (callbackResult fn (view n (keptFrame n loc skipped)) s).2
              (H (view n (keptFrame n loc skipped)) s))
    as [skipped' ->].
  eauto.
Qed.

Lemma preserves_traverseArray fuel (recur : TraverseNode St) :
  Preserves fuel recur ->
  forall loopFuel i array up parent s,
    (forall el, el ∈ array -> (nodeFuel el <= fuel)%nat /\ noHoles el = true) ->
    (length array - i < loopFuel)%nat ->
    exists s', traverseArray recur loopFuel i array up parent s = Ok (array, s').
Proof.
  intros Hrec. induction loopFuel as [| loopFuel IH]; intros i array up parent s Hels Hfuel;
    [lia |].
  rewrite traverseArray_unfold.
  destruct (array !! i) as [el |] eqn:Hel; [| eauto].
  destruct (Hels el) as [Hf Hh]; [eapply list_elem_of_lookup_2, Hel |].
  destruct (Hrec el Hf Hh (InArray up parent i array) s) as (skipped & s1 & ->);
    [right; exact Hel |].
  cbn [mbind result_bind keptFrame fr_keyShift fr_loc container_of].
  replace (Z.to_nat (Z.max (-1) (Z.of_nat i + 0) + 1)) with (S i) by lia.
  pose proof (lookup_lt_Some _ _ _ Hel).
  apply IH; [assumption | lia].
Qed.

Lemma preserves_traverseSlot fuel (recur : TraverseNode St) up parent key child s :
  Preserves fuel recur ->
  get_slot parent key = Some child ->
  (nodeFuel child <= fuel)%nat ->
  noHoles child = true ->
  exists s', traverseSlot recur up parent key s = Ok (parent, s').
Proof.
  intros Hrec Hget Hf Hh. unfold traverseSlot. rewrite Hget.
  change (default Undefined (Some child)) with child.
  destruct (Hrec child Hf Hh (InSlot up parent key) s) as (skipped & s1 & ->);
    [right; exact Hget |].
  cbn [mbind result_bind keptFrame fr_loc parent_of]. eauto.
Qed.

Lemma preserves_traverseKids fuel (recur : TraverseNode St) up n s :
  Preserves fuel recur ->
  (nodeFuel n <= S fuel)%nat ->
  noHoles n = true ->
  exists s', traverseKids recur fuel up n s = Ok (n, s').
Proof.
  intros Hrec Hf Hh.
  assert (Harray : forall els up' parent,
             (2 + list_sum (map nodeFuel els) <= S fuel)%nat ->
             forallb noHoles els = true ->
             exists s', traverseArray recur fuel 0 els up' parent s = Ok (els, s')).
  { intros els up' parent Hsum Hall.
    apply (preserves_traverseArray fuel recur Hrec).
    - intros el Hel. split.
      + pose proof (nodeFuel_elem els el Hel). lia.
      + rewrite forallb_forall in Hall. now apply Hall, list_elem_of_In.
    - pose proof (nodeFuel_length els). lia. }
  assert (Htwo : forall parent k1 k2 c1 c2,
             get_slot parent k1 = Some c1 -> get_slot parent k2 = Some c2 ->
             (nodeFuel c1 <= fuel)%nat -> (nodeFuel c2 <= fuel)%nat ->
             noHoles c1 = true -> noHoles c2 = true ->
             exists s', ('(node, s) ← traverseSlot recur up parent k1 s;
                         traverseSlot recur up node k2 s) = Ok (parent, s')).
  { intros parent k1 k2 c1 c2 H1 H2 Hf1 Hf2 Hh1 Hh2.
    destruct (preserves_traverseSlot fuel recur up parent k1 c1 s Hrec H1 Hf1 Hh1) as [s1 ->].
    cbn [mbind result_bind].
    apply (preserves_traverseSlot fuel recur up parent k2 c2 s1 Hrec H2 Hf2 Hh2). }
  destruct n; unfold traverseKids; simpl in Hf, Hh; try discriminate; eauto;
    try (match goal with
         | |- context [traverseArray recur fuel 0 ?els up ?p s] =>
             destruct (Harray els up p Hf Hh) as [s1 ->]
         end; cbn [mbind result_bind]; eauto; fail).
  - apply andb_true_iff in Hh as [H1 H2].
    apply (Htwo _ "min" "max" n1 n2); (reflexivity || assumption || lia).
  - apply (preserves_traverseSlot fuel recur up _ "element" n); (reflexivity || assumption || lia).
  - apply andb_true_iff in Hh as [H1 H2].
    apply (Htwo _ "pattern" "flags" n1 n2); (reflexivity || assumption || lia).
Qed.

Lemma write_back_kept n loc skipped :
  loc = AtRoot \/ occupies n loc ->
  write_back (keptFrame n loc skipped) n = keptFrame n loc skipped.
Proof.
  intros Hloc. unfold write_back, keptFrame. cbn [fr_loc fr_keyShift fr_skip fr_replaced].
  f_equal. destruct loc as [| up parent key | up parent key container]; [reflexivity | |].
  - destruct Hloc as [| Hocc]; [discriminate |]. simpl in Hocc.
    now rewrite (set_slot_get _ _ _ Hocc).
  - destruct Hloc as [| Hocc]; [discriminate |]. simpl in Hocc.
    now rewrite shiftedKey_0, (list_insert_id _ _ _ Hocc).
Qed.

Lemma readOnly_preserves visitor fuel :
  readOnly visitor -> Preserves fuel (traverseNode visitor fuel).
Proof.
  intros (He & Hx & Hty).
  induction fuel as [| fuel IH]; intros n Hf Hh loc s Hloc.
  - destruct n; simpl in Hf; lia.
  - destruct (type_of n) as [ty |] eqn:Htype; [| destruct n; discriminate].
    destruct (Hty ty) as [Het Hxt].
    rewrite (traverseNode_unfold _ _ _ _ _ _ Htype).
    change (newFrame n loc) with (keptFrame n loc false).
    destruct (invoke_onlySkips (traverseNode visitor fuel) _ n loc false s He)
      as (b1 & s1 & ->).
    cbn [mbind result_bind].
    destruct (invoke_onlySkips (traverseNode visitor fuel) _ n loc b1 s1 Het)
      as (b2 & s2 & ->).
    cbn [mbind result_bind].
    assert (Hkids : exists s3,
               (if fr_skip (keptFrame n loc b2) then Ok (keptFrame n loc b2, s2)
                else
                  '(nodeNow, s0) ← traverseKids (traverseNode visitor fuel) fuel
                                     (up_from (keptFrame n loc b2))
                                     (fr_node (keptFrame n loc b2)) s2;
                  Ok (write_back (keptFrame n loc b2) nodeNow, s0))
               = Ok (keptFrame n loc b2, s3)).
    { destruct b2; [now exists s2 |].
      change (fr_skip (keptFrame n loc false)) with false. cbv iota.
      change (fr_node (keptFrame n loc false)) with n.
      destruct (preserves_traverseKids fuel _ (up_from (keptFrame n loc false)) n s2
                  IH Hf Hh) as [s3 ->].
      cbn [mbind result_bind]. exists s3.
      now rewrite (write_back_kept n loc false Hloc). }
    destruct Hkids as [s3 ->]. cbn [mbind result_bind].
    destruct (invoke_onlySkips (traverseNode visitor fuel) _ n loc b2 s3 Hx)
      as (b3 & s4 & ->).
    cbn [mbind result_bind].
    destruct (invoke_onlySkips (traverseNode visitor fuel) _ n loc b3 s4 Hxt)
      as (b4 & s5 & ->).
    eauto.
Qed.

(** X10.  A visitor whose callbacks only read, as every [Callback] that
    calls no operation of the path but [skip()] does, gets its tree back:
    on every tree without a hole, the walk returns, with the tree as it
    was. *)
Theorem readOnly_keeps_tree visitor ast fuel s :
  readOnly visitor ->
  noHoles ast = true ->
  (nodeFuel ast <= fuel)%nat ->
  exists s', traverse fuel ast s visitor = Ok (ast, s').
Proof.
  intros Hro Hh Hf. unfold traverse.
  destruct (readOnly_preserves visitor fuel Hro ast Hf Hh AtRoot s) as (skipped & s' & ->);
    [now left |].
  eauto.
Qed.

End ReadOnlyFacts.

Section SweeperFacts.

Variables before after : Node -> bool.

Lemma sweeper_traverseArray fuel recur :
  Sweeps before after fuel recur ->
  forall rest loopFuel pre up parent log,
    (forall el, el ∈ rest -> (nodeFuel el <= fuel)%nat /\ sweepable before after el = true) ->
    (length rest < loopFuel)%nat ->
    traverseArray recur loopFuel (length pre) (pre ++ rest) up parent log
    = Ok (sweepArray before after (swept before after) pre rest,
          log ++ metArray after (met before after) rest).
Proof.
  intros Hrec. induction rest as [| el rest IH]; intros loopFuel pre up parent log Hels Hfuel;
    (destruct loopFuel as [| loopFuel]; [simpl in Hfuel; lia |]);
    rewrite traverseArray_unfold.
  - rewrite app_nil_r. rewrite lookup_ge_None_2 by lia. simpl. now rewrite !app_nil_r.
  - rewrite list_lookup_middle by reflexivity.
    destruct (Hels el) as [Hf Hr]; [left |].
    destruct (Hrec el Hf Hr (InArray up parent (length pre) (pre ++ el :: rest)) log)
      as [_ Hwalk].
    rewrite (Hwalk up parent pre rest eq_refl). cbn [mbind result_bind].
    cbn [sweptFrame fr_keyShift fr_loc container_of].
    assert (Hrest : forall el', el' ∈ rest ->
                      (nodeFuel el' <= fuel)%nat /\ sweepable before after el' = true)
      by (intros el' Hel'; apply Hels; now right).
    simpl in Hfuel.
    set (acc := (if before el then [] else pre) ++ [swept before after el]).
    replace (Z.to_nat (Z.max (-1) (Z.of_nat (length pre)
               + (if before el then - Z.of_nat (length pre) else 0)) + 1))
      with (length acc)
      by (unfold acc; destruct (before el); rewrite length_app; simpl; lia).
    replace ((if before el then [] else pre)
             ++ swept before after el :: (if after el then [] else rest))
      with (acc ++ (if after el then [] else rest))
      by (unfold acc; now rewrite <- app_assoc).
    cbn [sweepArray metArray]. fold acc.
    destruct (after el).
    + destruct loopFuel as [| loopFuel]; [lia |].
      rewrite traverseArray_unfold, app_nil_r.
      rewrite lookup_ge_None_2 by lia. now rewrite app_nil_r.
    + rewrite IH by (assumption || lia). now rewrite <- app_assoc.
Qed.

Lemma sweeper_traverseSlot fuel recur up parent key child log :
  Sweeps before after fuel recur ->
  get_slot parent key = Some child ->
  (nodeFuel child <= fuel)%nat ->
  sweepable before after child = true ->
  negb (before child) && negb (after child) = true ->
  traverseSlot recur up parent key log
  = Ok (set_slot parent key (swept before after child), log ++ met before after child).
Proof.
  intros Hrec Hget Hf Hr Hplain. unfold traverseSlot. rewrite Hget.
  change (default Undefined (Some child)) with child.
  apply andb_true_iff in Hplain as [Hb Ha]. apply negb_true_iff in Hb, Ha.
  destruct (Hrec child Hf Hr (InSlot up parent key) log) as [Hkeep _].
  rewrite (Hkeep Hb Ha). reflexivity.
Qed.

Lemma sweeper_traverseKids fuel recur up n log :
  Sweeps before after fuel recur ->
  (nodeFuel n <= S fuel)%nat ->
  sweepable before after n = true ->
  traverseKids recur fuel up n log
  = Ok (swept before after n, log ++ tail (met before after n)).
Proof.
  intros Hrec Hf Hr.
  assert (Harray : forall els up' parent,
             (2 + list_sum (map nodeFuel els) <= S fuel)%nat ->
             forallb (sweepable before after) els = true ->
             traverseArray recur fuel 0 els up' parent log
             = Ok (sweepArray before after (swept before after) [] els,
                   log ++ metArray after (met before after) els)).
  { intros els up' parent Hsum Hall.
    apply (sweeper_traverseArray fuel recur Hrec els fuel [] up' parent log).
    - intros el Hel. split.
      + pose proof (nodeFuel_elem els el Hel). lia.
      + rewrite forallb_forall in Hall. now apply Hall, list_elem_of_In.
    - pose proof (nodeFuel_length els). lia. }
  destruct n; unfold traverseKids; simpl in Hf, Hr; try discriminate;
    try (simpl; now rewrite app_nil_r);
    try (rewrite Harray by assumption; reflexivity).
  - apply andb_true_iff in Hr as [Hr H4]. apply andb_true_iff in Hr as [Hr H3].
    apply andb_true_iff in Hr as [H1 H2].
    rewrite (sweeper_traverseSlot fuel recur up _ "min" n1)
      by (assumption || reflexivity || lia).
    cbn [mbind result_bind].
    rewrite (sweeper_traverseSlot fuel recur up _ "max" n2)
      by (assumption || reflexivity || lia).
    simpl. now rewrite app_assoc.
  - apply andb_true_iff in Hr as [H1 H2].
    rewrite (sweeper_traverseSlot fuel recur up _ "element" n)
      by (assumption || reflexivity || lia).
    reflexivity.
  - apply andb_true_iff in Hr as [Hr H4]. apply andb_true_iff in Hr as [Hr H3].
    apply andb_true_iff in Hr as [H1 H2].
    rewrite (sweeper_traverseSlot fuel recur up _ "pattern" n1)
      by (assumption || reflexivity || lia).
    cbn [mbind result_bind].
    rewrite (sweeper_traverseSlot fuel recur up _ "flags" n2)
      by (assumption || reflexivity || lia).
    simpl. now rewrite app_assoc.
Qed.

Lemma take_S_middle (pre rest : list Node) n :
  take (S (length pre)) (pre ++ n :: rest) = pre ++ [n].
Proof.
  change (pre ++ n :: rest) with (pre ++ [n] ++ rest). rewrite app_assoc.
  rewrite take_app_length'; [reflexivity | rewrite length_app; simpl; lia].
Qed.

Lemma drop_shifted (pre rest : list Node) :
  drop (Z.to_nat (Z.max 0 (Z.of_nat (length pre) + 0))) (pre ++ rest) = rest.
Proof. rewrite drop_app_length'; [reflexivity | lia]. Qed.

Lemma insert_middle (pre rest : list Node) n x :
  <[length pre := x]> (pre ++ n :: rest) = pre ++ x :: rest.
Proof. rewrite insert_app_r_alt by lia. now rewrite Nat.sub_diag. Qed.

Lemma sweeper_sweeps fuel :
  Sweeps before after fuel (traverseNode (sweeper before after) fuel).
Proof.
  induction fuel as [| fuel IH]; intros n Hf Hr loc log.
  - destruct n; simpl in Hf; lia.
  - destruct (type_of n) as [ty |] eqn:Hty; [| destruct n; discriminate].
    rewrite (traverseNode_unfold _ _ _ _ _ _ Hty).
    rewrite (invoke_callbackResult _ (enterAllFn (sweeper before after))).
    change (callbackResult (enterAllFn (sweeper before after)) (view n (newFrame n loc)) log)
      with ((if after (path_node (view n (newFrame n loc)))
             then [removeAllNextSiblings] else [])
            ++ (if before (path_node (view n (newFrame n loc)))
                then [removeAllPrevSiblings] else []),
            log ++ [path_node (view n (newFrame n loc))]).
    rewrite path_node_view. cbn [fst snd newFrame fr_replaced fr_node].
    change (enterThisFn (sweeper before after) ty) with (@None (Callback (list Node))).
    change (exitAllFn (sweeper before after)) with (@None (Callback (list Node))).
    change (exitThisFn (sweeper before after) ty) with (@None (Callback (list Node))).
    assert (Hkids : forall up,
               traverseKids (traverseNode (sweeper before after) fuel) fuel up n (log ++ [n])
               = Ok (swept before after n, log ++ met before after n)).
    { intros up. rewrite (sweeper_traverseKids fuel _ _ n _ IH Hf Hr).
      rewrite <- app_assoc. f_equal. f_equal. f_equal. now destruct n. }
    split.
    + intros Hb Ha. rewrite Hb, Ha. simpl app. rewrite runActions_nil.
      cbn [mbind result_bind].
      change (invoke (traverseNode (sweeper before after) fuel) None n ?fr ?s)
        with (Ok (fr, s)).
      cbn [mbind result_bind newFrame fr_skip fr_node].
      rewrite Hkids. cbn [mbind result_bind].
      unfold invoke. cbn [mbind result_bind]. reflexivity.
    + intros up parent pre rest ->. unfold sweptFrame.
      destruct (after n), (before n); simpl app; unfold runActions, applyAction;
        cbn [newFrame fr_loc fr_keyShift fr_node fr_skip fr_replaced mbind result_bind];
        rewrite ?take_S_middle, ?drop_shifted;
        change (invoke (traverseNode (sweeper before after) fuel) None n ?fr ?s)
          with (Ok (fr, s));
        cbn [mbind result_bind fr_skip fr_node];
        rewrite Hkids; cbn [mbind result_bind];
        unfold invoke, write_back;
        cbn [mbind result_bind fr_loc fr_keyShift fr_node fr_skip fr_replaced];
        cbn [newFrame mbind result_bind fr_loc fr_keyShift fr_node fr_skip fr_replaced];
        repeat f_equal; try lia;
        try (unfold shiftedKey; replace (Z.to_nat _) with 0%nat by lia; reflexivity);
        rewrite shiftedKey_0; first [apply insert_middle | apply (insert_middle pre [])].
Qed.

(** X11.  [removeAllPrevSiblings()] and [removeAllNextSiblings()] in the
    walk of [sweeper before after], which calls [removeAllNextSiblings()]
    first where it calls both: the walk returns the tree [swept] and the
    record [met].  In every array an element the visitor calls
    [removeAllPrevSiblings()] on becomes the first one and the walk goes
    on with the element that followed it; after an element it calls
    [removeAllNextSiblings()] on the walk of the array ends; every
    element up to there is entered once, in order, with what is below
    it. *)
Theorem sweeper_walk ast fuel log :
  sweepable before after ast = true ->
  before ast = false ->
  after ast = false ->
  (nodeFuel ast <= fuel)%nat ->
  traverse fuel ast log (sweeper before after)
  = Ok (swept before after ast, log ++ met before after ast).
Proof.
  intros Hr Hb Ha Hf. unfold traverse.
  destruct (sweeper_sweeps fuel ast Hf Hr AtRoot log) as [Hkeep _].
  rewrite (Hkeep Hb Ha). reflexivity.
Qed.

End SweeperFacts.

(** The two operations in the other order, on the third of five
    characters: [removeAllPrevSiblings()] leaves the character first of
    three, and [removeAllNextSiblings()] then cuts after the index 2 the
    call received, where the array ends, so the walk goes on with the
    characters 4 and 5.  In the order of [sweeper] the character is left
    alone. *)
Example removeAllNextSiblings_reads_key :
  let five := [Character 1; Character 2; Character 3; Character 4; Character 5] in
  let onThird (acts : list Action) : Visitor (list Node) := {|
    anyType :=
      Some {| enter := Some (fun path log =>
                         (match path_node path with
                          | Character 3 => acts
                          | _ => []
                          end, log ++ [path_node path]));
              exit := None |};
    thisType := fun _ => None |} in
  traverse 20 (Alternative five) [] (onThird [removeAllPrevSiblings; removeAllNextSiblings])
  = Ok (Alternative [Character 3; Character 4; Character 5],
        [Alternative five; Character 1; Character 2; Character 3; Character 4; Character 5])
  /\ traverse 20 (Alternative five) []
       (onThird [removeAllNextSiblings; removeAllPrevSiblings])
     = Ok (Alternative [Character 3],
           [Alternative five; Character 1; Character 2; Character 3]).
Proof. split; vm_compute; reflexivity. Qed.

Lemma readOnly_keeps_tree_witness :
  let counter : Visitor nat := {|
    anyType := Some {| enter := Some (fun path count =>
                                  (match path_node path with
                                   | Group _ _ _ => [skip]
                                   | _ => []
                                   end, S count));
                       exit := None |};
    thisType := fun _ => None |} in
  exists count,
    traverse 20 (regexOf [Character 97; groupOf [Character 98]] noFlags) 0%nat counter
    = Ok (regexOf [Character 97; groupOf [Character 98]] noFlags, count).
Proof.
  intros counter. apply (readOnly_keeps_tree counter).
  - split; [| split; [| split]]; intros path s; simpl; try constructor.
    destruct (path_node path); repeat constructor.
  - reflexivity.
  - vm_compute. lia.
Defined.

Lemma sweeper_walk_witness :
  let before := fun n => match n with Character 2 => true | _ => false end in
  let after := fun n => match n with Character 4 => true | _ => false end in
  let five := [Character 1; Character 2; Character 3; Character 4; Character 5] in
  traverse 20 (regexOf five noFlags) [] (sweeper before after)
  = Ok (regexOf [Character 2; Character 3; Character 4] noFlags,
        [regexOf five noFlags; Pattern [Alternative five]; Alternative five;
         Character 1; Character 2; Character 3; Character 4; Flags noFlags]).
Proof.
  intros before after five.
  apply (sweeper_walk before after (regexOf five noFlags) 20 []).
  - reflexivity.
  - reflexivity.
  - reflexivity.
  - vm_compute. lia.
Defined.

(** ** The shorthands, once used *)

(** X12.  A shorthand is final: the set that the [CharacterSet] callback
    of [useShorthands] puts in place keeps the sign of the set it
    replaces, and the callback has nothing to replace it with, on any
    path and under any flags. *)
Theorem useShorthands_settles path newNode :
  useShorthands_newNode path = Ok (Some newNode) ->
  match path_node path, newNode with
  | CharacterSet _ _ negate _, CharacterSet _ _ negate' _ =>
      negate' = Some (default false negate)
  | _, _ => False
  end
  /\ forall path', path_node path' = newNode -> useShorthands_newNode path' = Ok None.
Proof.
  unfold useShorthands_newNode at 1.
  destruct (path_node path) as [| | | | | | | |kind value negate vl| | | | | | | | | |];
    try discriminate.
  assert (Hfinal : forall k negate',
             match k with
             | NodeCharacterSetKinds.digit | NodeCharacterSetKinds.hex
             | NodeCharacterSetKinds.space => True
             | _ => False
             end ->
             Ok (Some (createCharacterSet k negate')) = Ok (Some newNode) ->
             match newNode with
             | CharacterSet _ _ negate'' _ => negate'' = Some negate'
             | _ => False
             end
             /\ forall path', path_node path' = newNode ->
                  useShorthands_newNode path' = Ok None).
  { intros k negate' Hk Heq. injection Heq as <-.
    destruct k; try contradiction; (split; [reflexivity |]);
      intros path' Hp; unfold useShorthands_newNode; rewrite Hp; reflexivity. }
  intros H.
  repeat match type of H with
         | (if ?b then _ else _) = _ => destruct b
         | ((if ?b then _ else _) ≫= _) = _ => destruct b
         | (rootFlags path ≫= _) ≫= _ = _ =>
             destruct (rootFlags path); cbn [mbind result_bind] in H; try discriminate
         | Ok (Some (createCharacterSet _ _)) = _ => apply Hfinal in H; [exact H | exact I]
         | _ => cbn [mbind result_bind] in H
         end;
    try discriminate.
  all: injection H as <-; (split; [reflexivity |]);
    intros path' Hp; unfold useShorthands_newNode; rewrite Hp; reflexivity.
Qed.

Lemma useShorthands_settles_witness :
  useShorthands_newNode
    {| path_node := CharacterSet NodeCharacterSetKinds.space None (Some true) false;
       path_parent := None; path_key := KeyNull; path_container := None;
       path_ast := Undefined; path_root := None |}
  = Ok None.
Proof.
  apply (proj2 (useShorthands_settles
                  {| path_node := CharacterSet NodeCharacterSetKinds.posix (Some "space")
                                    (Some true) false;
                     path_parent := None; path_key := KeyNull; path_container := None;
                     path_ast := Undefined; path_root := None |}
                  (CharacterSet NodeCharacterSetKinds.space None (Some true) false)
                  eq_refl)).
  reflexivity.
Defined.

Section ClassReplacerFacts.

Context {St : Type}.
Variable visitor : Visitor St.
Variable newNode : Node -> Node -> option Node.
Hypothesis Hvisitor : replacesClasses visitor newNode.
Hypothesis Hshell : readsShell newNode.
Hypothesis Hleaf : returnsLeaf newNode.

Local Set Default Proof Using "All".

Lemma shell_set_array parent array : shell (set_array parent array) = shell parent.
Proof. now destruct parent. Qed.

Lemma shell_set_slot parent key v : shell (set_slot parent key v) = shell parent.
Proof. destruct parent; simpl; repeat case_bool_decide; reflexivity. Qed.

Lemma newNodeOf_shell parent parent' c :
  shell parent = shell parent' -> newNodeOf newNode parent c = newNodeOf newNode parent' c.
Proof.
  intros H. unfold newNodeOf. destruct c; try reflexivity.
  now rewrite (Hshell parent), (Hshell parent'), H.
Qed.

Lemma rewriteChild_shell parent parent' c :
  shell parent = shell parent' -> rewriteChild newNode parent c = rewriteChild newNode parent' c.
Proof. intros H. unfold rewriteChild. now rewrite (newNodeOf_shell _ _ _ H). Qed.

Lemma replacer_traverseArray fuel (recur : TraverseNode St) :
  ReplacesClasses newNode fuel recur ->
  forall rest loopFuel pre up parent P s,
    shell parent = shell P ->
    (forall el, el ∈ rest -> (nodeFuel el <= fuel)%nat /\ noHoles el = true) ->
    (length rest < loopFuel)%nat ->
    traverseArray recur loopFuel (length pre) (pre ++ rest) up parent s
    = Ok (pre ++ map (rewriteChild newNode P) rest, s).
Proof.
  intros Hrec. induction rest as [| el rest IH]; intros loopFuel pre up parent P s HP Hels Hfuel;
    (destruct loopFuel as [| loopFuel]; [simpl in Hfuel; lia |]);
    rewrite traverseArray_unfold.
  - rewrite app_nil_r. rewrite lookup_ge_None_2 by lia. simpl. now rewrite !app_nil_r.
  - rewrite list_lookup_middle by reflexivity.
    destruct (Hels el) as [Hf Hh]; [left |].
    pose proof (Hrec el Hf Hh (InArray up parent (length pre) (pre ++ el :: rest)) s) as Hwalk.
    cbn [parentAt] in Hwalk. rewrite Hwalk by (simpl; now apply list_lookup_middle).
    cbn [mbind result_bind fr_keyShift fr_loc replacedLoc container_of].
    replace (Z.to_nat (Z.max (-1) (Z.of_nat (length pre) + 0) + 1)) with (S (length pre))
      by lia.
    rewrite insert_middle.
    rewrite (rewriteChild_shell _ P) by (now rewrite shell_set_array).
    replace (pre ++ rewriteChild newNode P el :: rest)
      with ((pre ++ [rewriteChild newNode P el]) ++ rest) by (now rewrite <- app_assoc).
    replace (S (length pre)) with (length (pre ++ [rewriteChild newNode P el]))
      by (rewrite length_app; simpl; lia).
    simpl in Hfuel.
    rewrite (IH loopFuel _ up parent P s HP) by (try lia; intros el' Hel'; apply Hels; now right).
    simpl. now rewrite <- app_assoc.
Qed.

Lemma replacer_traverseSlot fuel (recur : TraverseNode St) up parent P key child s :
  ReplacesClasses newNode fuel recur ->
  shell parent = shell P ->
  get_slot parent key = Some child ->
  (nodeFuel child <= fuel)%nat ->
  noHoles child = true ->
  traverseSlot recur up parent key s
  = Ok (set_slot parent key (rewriteChild newNode P child), s).
Proof.
  intros Hrec HP Hget Hf Hh. unfold traverseSlot. rewrite Hget.
  change (default Undefined (Some child)) with child.
  pose proof (Hrec child Hf Hh (InSlot up parent key) s) as Hwalk.
  cbn [parentAt] in Hwalk. rewrite Hwalk by exact Hget.
  cbn [mbind result_bind fr_loc replacedLoc parent_of].
  now rewrite (rewriteChild_shell _ P).
Qed.

Lemma rewriteChild_fold n c :
  match newNodeOf newNode n c with
  | Some x => x
  | None => rewriteClasses newNode c
  end = rewriteChild newNode n c.
Proof. reflexivity. Qed.

Lemma replacer_traverseKids fuel (recur : TraverseNode St) up n s :
  ReplacesClasses newNode fuel recur ->
  (nodeFuel n <= S fuel)%nat ->
  noHoles n = true ->
  traverseKids recur fuel up n s = Ok (rewriteClasses newNode n, s).
Proof.
  intros Hrec Hf Hh.
  assert (Harray : forall els up' parent,
             shell parent = shell n ->
             (2 + list_sum (map nodeFuel els) <= S fuel)%nat ->
             forallb noHoles els = true ->
             traverseArray recur fuel 0 els up' parent s
             = Ok (map (rewriteChild newNode n) els, s)).
  { intros els up' parent HP Hsum Hall.
    apply (replacer_traverseArray fuel recur Hrec els fuel [] up' parent n s HP).
    - intros el Hel. split.
      + pose proof (nodeFuel_elem els el Hel). lia.
      + rewrite forallb_forall in Hall. now apply Hall, list_elem_of_In.
    - pose proof (nodeFuel_length els). lia. }
  destruct n; unfold traverseKids; simpl in Hf, Hh; try discriminate; try reflexivity;
    try (rewrite (Harray _ up _ eq_refl) by assumption; reflexivity).
  - apply andb_true_iff in Hh as [H1 H2].
    rewrite (replacer_traverseSlot fuel recur up _ (CharacterClassRange n1 n2) "min" n1)
      by (assumption || reflexivity || lia).
    cbn [mbind result_bind].
    rewrite (replacer_traverseSlot fuel recur up _ (CharacterClassRange n1 n2) "max" n2)
      by (assumption || reflexivity || lia).
    reflexivity.
  - rewrite (replacer_traverseSlot fuel recur up _ (Quantifier kind min max n) "element" n)
      by (assumption || reflexivity || lia).
    reflexivity.
  - apply andb_true_iff in Hh as [H1 H2].
    rewrite (replacer_traverseSlot fuel recur up _ (Regex n1 n2) "pattern" n1)
      by (assumption || reflexivity || lia).
    cbn [mbind result_bind].
    rewrite (replacer_traverseSlot fuel recur up _ (Regex n1 n2) "flags" n2)
      by (assumption || reflexivity || lia).
    reflexivity.
Qed.

Lemma set_slot_twice parent key x : set_slot (set_slot parent key x) key x = set_slot parent key x.
Proof. destruct parent; simpl; repeat (case_bool_decide; simpl); try reflexivity; congruence. Qed.

Lemma write_back_replaced loc x :
  write_back (replacedFrame loc x) x = replacedFrame loc x.
Proof.
  unfold write_back, replacedFrame. cbn [fr_loc fr_keyShift fr_skip fr_replaced].
  f_equal. destruct loc as [| up parent key | up parent key container]; simpl; [reflexivity | |].
  - now rewrite set_slot_twice.
  - now rewrite shiftedKey_0, list_insert_insert_eq.
Qed.

Lemma write_back_new n loc n' : fr_loc (write_back (newFrame n loc) n') = replacedLoc loc n'.
Proof. destruct loc; simpl; [reflexivity | reflexivity |]. now rewrite shiftedKey_0. Qed.

Lemma path_parent_view original fr : path_parent (view original fr) = parentAt (fr_loc fr).
Proof. unfold view. now destruct (fr_loc fr). Qed.

Lemma replacer_replaces fuel : ReplacesClasses newNode fuel (traverseNode visitor fuel).
Proof.
  destruct Hvisitor as (Hea & Hxa & Hxt & Het & Hcall).
  induction fuel as [| fuel IH]; intros n Hf Hh loc s.
  { destruct n; simpl in Hf; lia. }
  destruct (type_of n) as [ty |] eqn:Hty; [| destruct n; discriminate].
  rewrite (traverseNode_unfold _ _ _ _ _ _ Hty).
  rewrite Hea, Hxa, Hxt.
  change (invoke (traverseNode visitor fuel) None n ?fr ?s) with (Ok (fr, s)).
  cbn [mbind result_bind].
  destruct (parentAt loc) as [parent |] eqn:Hparent.
  - intros Hocc.
    destruct (decide (ty = TCharacterClass)) as [-> | Hne].
    + rewrite (invoke_callbackResult _ (enterThisFn visitor TCharacterClass)).
      rewrite (Hcall _ s parent)
        by (rewrite path_parent_view; exact Hparent).
      rewrite path_node_view. cbn [fst snd newFrame fr_replaced fr_node].
      assert (Hof : newNodeOf newNode parent n = newNode parent n)
        by (destruct n; try discriminate; reflexivity).
      unfold rewriteChild. rewrite Hof.
      destruct (newNode parent n) as [x |] eqn:Hnew.
      * rewrite (runActions_replaceWith _ _ _ _ _ Hocc). cbn [mbind result_bind].
        change (fr_skip (replacedFrame loc x)) with false. cbn iota.
        change (fr_node (replacedFrame loc x)) with x.
        assert (Hkids : forall up, traverseKids (traverseNode visitor fuel) fuel up x s
                                   = Ok (x, s)).
        { intros up. pose proof (Hleaf _ _ _ Hnew) as Hx. destruct x; try contradiction;
            reflexivity. }
        rewrite Hkids. cbn [mbind result_bind]. rewrite write_back_replaced.
        reflexivity.
      * rewrite runActions_nil. cbn [mbind result_bind newFrame fr_skip fr_node].
        rewrite (replacer_traverseKids fuel _ _ n s IH Hf Hh). cbn [mbind result_bind].
        f_equal. f_equal. unfold write_back. cbn [fr_keyShift fr_skip fr_replaced fr_loc].
        f_equal. destruct loc; simpl; [reflexivity | reflexivity |]. now rewrite shiftedKey_0.
    + assert (Hof : newNodeOf newNode parent n = None).
      { destruct n; try reflexivity. simpl in Hty. congruence. }
      unfold rewriteChild. rewrite Hof, (Het ty Hne).
      change (invoke (traverseNode visitor fuel) None n ?fr ?s) with (Ok (fr, s)).
      cbn [mbind result_bind newFrame fr_skip fr_node].
      rewrite (replacer_traverseKids fuel _ _ n s IH Hf Hh). cbn [mbind result_bind].
      f_equal. f_equal. unfold write_back. cbn [fr_keyShift fr_skip fr_replaced fr_loc].
      f_equal. destruct loc; simpl; [reflexivity | reflexivity |]. now rewrite shiftedKey_0.
  - intros Hne. rewrite (Het ty) by congruence.
    change (invoke (traverseNode visitor fuel) None n ?fr ?s) with (Ok (fr, s)).
    cbn [mbind result_bind newFrame fr_skip fr_node].
    rewrite (replacer_traverseKids fuel _ _ n s IH Hf Hh). reflexivity.
Qed.

Lemma replacer_walk ast fuel s :
  noHoles ast = true ->
  type_of ast <> Some TCharacterClass ->
  (nodeFuel ast <= fuel)%nat ->
  traverse fuel ast s visitor = Ok (rewriteClasses newNode ast, s).
Proof.
  intros Hh Hty Hf. unfold traverse.
  pose proof (replacer_replaces fuel ast Hf Hh AtRoot s) as Hwalk.
  cbn [parentAt] in Hwalk. rewrite (Hwalk Hty). reflexivity.
Qed.

End ClassReplacerFacts.

Lemma type_of_shell n : type_of (shell n) = type_of n.
Proof. now destruct n. Qed.

Lemma unwrapClasses_replaces {St : Type} :
  replacesClasses (@UnwrapClasses.transform St) UnwrapClasses.newNode.
Proof.
  split; [reflexivity |]. split; [reflexivity |].
  split; [intros ty; now destruct ty |].
  split; [intros ty Hty; destruct ty; try reflexivity; contradiction |].
  intros path s parent Hparent.
  change (callbackResult (enterThisFn UnwrapClasses.transform TCharacterClass) path s)
    with (@UnwrapClasses.CharacterClass St path s).
  unfold UnwrapClasses.CharacterClass. rewrite Hparent.
  now destruct (UnwrapClasses.newNode parent (path_node path)).
Qed.

Lemma unwrapClasses_readsShell : readsShell UnwrapClasses.newNode.
Proof. intros parent node. unfold UnwrapClasses.newNode. now rewrite type_of_shell. Qed.

Lemma unwrapClasses_returnsLeaf : returnsLeaf UnwrapClasses.newNode.
Proof.
  intros parent node x. unfold UnwrapClasses.newNode.
  repeat case_match; intros Hx; try discriminate; now injection Hx as <-.
Qed.

(** X13.  The walk of the transform of unwrap-classes.js, on a tree
    without a hole whose root is no class: it returns, leaves the state
    alone, and leaves the tree in which every class that is not negated,
    is a union, has one element, a character or a character set, and does
    not stand in a class has given way to that element; nothing else
    changes. *)
Theorem unwrapClasses_walk {St : Type} ast fuel (s : St) :
  noHoles ast = true ->
  type_of ast <> Some TCharacterClass ->
  (nodeFuel ast <= fuel)%nat ->
  traverse fuel ast s UnwrapClasses.transform
  = Ok (rewriteClasses UnwrapClasses.newNode ast, s).
Proof.
  apply replacer_walk.
  - apply unwrapClasses_replaces.
  - apply unwrapClasses_readsShell.
  - apply unwrapClasses_returnsLeaf.
Qed.

Lemma unwrapNegationWrappers_replaces {St : Type} :
  replacesClasses (@unwrapNegationWrappers St) unwrapNegationWrappers_newNode.
Proof.
  split; [reflexivity |]. split; [reflexivity |].
  split; [intros ty; now destruct ty |].
  split; [intros ty Hty; destruct ty; try reflexivity; contradiction |].
  intros path s parent Hparent.
  change (callbackResult (enterThisFn unwrapNegationWrappers TCharacterClass) path s)
    with (@unwrapNegationWrappers_CharacterClass St path s).
  unfold unwrapNegationWrappers_CharacterClass, unwrapNegationWrappers_newNode.
  rewrite Hparent.
  destruct (path_node path) as [| | | | | |kind negate elements| | | | | | | | | | | |];
    try reflexivity.
  destruct kind, negate; try reflexivity.
  destruct elements as [| kid [| kid2 elements]]; try reflexivity.
  destruct kid; try reflexivity;
    destruct (negb _ && _); try reflexivity; simpl;
    destruct (notUnderNonLazyQuantifier parent); reflexivity.
Qed.

Lemma notUnderNonLazyQuantifier_shell parent :
  notUnderNonLazyQuantifier (shell parent) = notUnderNonLazyQuantifier parent.
Proof. now destruct parent. Qed.

Lemma unwrapNegationWrappers_readsShell : readsShell unwrapNegationWrappers_newNode.
Proof.
  intros parent node. unfold unwrapNegationWrappers_newNode.
  now rewrite type_of_shell, notUnderNonLazyQuantifier_shell.
Qed.

Lemma unwrapNegationWrappers_returnsLeaf : returnsLeaf unwrapNegationWrappers_newNode.
Proof.
  intros parent node x. unfold unwrapNegationWrappers_newNode.
  repeat case_match; intros Hx; try discriminate; now injection Hx as <-.
Qed.

(** X14.  The walk of [unwrapNegationWrappers], on a tree without a hole
    whose root is no class: it returns, leaves the state alone, and
    leaves the tree in which every negated union class around one
    character set has given way to that set with its sign flipped, and
    every negated union class around the newline, outside a class and not
    right under a greedy or possessive quantifier, to the negated newline
    set; nothing else changes. *)
Theorem unwrapNegationWrappers_walk {St : Type} ast fuel (s : St) :
  noHoles ast = true ->
  type_of ast <> Some TCharacterClass ->
  (nodeFuel ast <= fuel)%nat ->
  traverse fuel ast s unwrapNegationWrappers
  = Ok (rewriteClasses unwrapNegationWrappers_newNode ast, s).
Proof.
  apply replacer_walk.
  - apply unwrapNegationWrappers_replaces.
  - apply unwrapNegationWrappers_readsShell.
  - apply unwrapNegationWrappers_returnsLeaf.
Qed.

Lemma unwrapClasses_walk_witness :
  let digit := CharacterSet NodeCharacterSetKinds.digit None (Some false) false in
  let class := CharacterClass NodeCharacterClassKinds.union in
  traverse 30
    (regexOf [class false [Character 97]; class true [Character 98];
              class false [class false [digit]];
              Quantifier greedy (Int 0) Infinity (class false [digit])] noFlags)
    tt UnwrapClasses.transform
  = Ok (regexOf [Character 97; class true [Character 98];
                 class false [class false [digit]];
                 Quantifier greedy (Int 0) Infinity digit] noFlags, tt).
Proof.
  intros digit class.
  apply (unwrapClasses_walk
           (regexOf [class false [Character 97]; class true [Character 98];
                     class false [class false [digit]];
                     Quantifier greedy (Int 0) Infinity (class false [digit])] noFlags)
           30 tt).
  - reflexivity.
  - discriminate.
  - vm_compute. lia.
Defined.

Lemma unwrapNegationWrappers_walk_witness :
  let digit := CharacterSet NodeCharacterSetKinds.digit None (Some false) false in
  let notDigit := CharacterSet NodeCharacterSetKinds.digit None (Some true) false in
  let class := CharacterClass NodeCharacterClassKinds.union in
  traverse 30
    (regexOf [class true [digit]; class true [Character 10];
              Quantifier greedy (Int 2) (Int 2) (class true [Character 10]);
              class false [class true [Character 10]]] noFlags)
    tt unwrapNegationWrappers
  = Ok (regexOf [notDigit; CharacterSet NodeCharacterSetKinds.newline None (Some true) false;
                 Quantifier greedy (Int 2) (Int 2) (class true [Character 10]);
                 class false [class true [Character 10]]] noFlags, tt).
Proof.
  intros digit notDigit class.
  apply (unwrapNegationWrappers_walk
           (regexOf [class true [digit]; class true [Character 10];
                     Quantifier greedy (Int 2) (Int 2) (class true [Character 10]);
                     class false [class true [Character 10]]] noFlags)
           30 tt).
  - reflexivity.
  - discriminate.
  - vm_compute. lia.
Defined.

(** What the walk leaves of [[^\n]] as a child of [parent]. *)
Lemma rewriteChild_notNewlineClass parent :
  rewriteChild unwrapNegationWrappers_newNode parent notNewlineClass
  = if bool_decide (type_of parent = Some TCharacterClass) then notNewlineClass
    else if notUnderNonLazyQuantifier parent then notNewlineSet
    else notNewlineClass.
Proof.
  unfold rewriteChild, newNodeOf, notNewlineClass, unwrapNegationWrappers_newNode.
  cbn [isNewlineCharacter andb].
  destruct (bool_decide (type_of parent = Some TCharacterClass)); cbn [negb andb];
    [reflexivity |].
  destruct (notUnderNonLazyQuantifier parent); reflexivity.
Qed.

(** C8.  The walk of [unwrapNegationWrappers] on a tree without a hole
    whose root is no class returns the tree [rewriteClasses
    unwrapNegationWrappers_newNode ast], in which every child [c] of every
    node [parent] has become [rewriteChild unwrapNegationWrappers_newNode
    parent c].  For the child [[^\n]], the negated union class whose one
    element is the character 10, that is the negated newline set [\N]
    when the parent is no class and is no greedy or possessive quantifier,
    and the class as it was under such a quantifier and in a class. *)
Theorem unwrapNegationWrappers_newline {St : Type} ast fuel (s : St) :
  noHoles ast = true ->
  type_of ast <> Some TCharacterClass ->
  (nodeFuel ast <= fuel)%nat ->
  traverse fuel ast s unwrapNegationWrappers
  = Ok (rewriteClasses unwrapNegationWrappers_newNode ast, s)
  /\ forall parent,
       rewriteChild unwrapNegationWrappers_newNode parent notNewlineClass
       = match parent with
         | CharacterClass _ _ _ => notNewlineClass
         | Quantifier greedy _ _ _ | Quantifier possessive _ _ _ => notNewlineClass
         | _ => notNewlineSet
         end.
Proof.
  intros Hh Hty Hf. split.
  - apply replacer_walk; [apply unwrapNegationWrappers_replaces
                         | apply unwrapNegationWrappers_readsShell
                         | apply unwrapNegationWrappers_returnsLeaf
                         | assumption | assumption | assumption].
  - intros parent. rewrite rewriteChild_notNewlineClass.
    destruct parent as [| | | | | | | | | | | | | |kind ? ? ?| | | |]; try reflexivity.
    destruct kind; reflexivity.
Qed.

(** [[^\n]] as an element of the pattern, under the greedy [{2}], under
    the lazy [{2}?] and in a class. *)
Lemma unwrapNegationWrappers_newline_witness :
  let ast :=
    regexOf [notNewlineClass;
             Quantifier greedy (Int 2) (Int 2) notNewlineClass;
             Quantifier lazy (Int 2) (Int 2) notNewlineClass;
             CharacterClass NodeCharacterClassKinds.union false
               [notNewlineClass; Character 97]] noFlags in
  traverse 40 ast tt unwrapNegationWrappers
  = Ok (regexOf [notNewlineSet;
                 Quantifier greedy (Int 2) (Int 2) notNewlineClass;
                 Quantifier lazy (Int 2) (Int 2) notNewlineSet;
                 CharacterClass NodeCharacterClassKinds.union false
                   [notNewlineClass; Character 97]] noFlags, tt).
Proof.
  intros ast.
  apply (proj1 (unwrapNegationWrappers_newline ast 40 tt eq_refl
                  ltac:(discriminate) ltac:(vm_compute; lia))).
Defined.

Lemma Node_ind_children (P : Node -> Prop) :
  (forall n, Forall P (childrenOf n) -> P n) -> forall n, P n.
Proof.
  intros Hstep n. remember (nodeFuel n) as k eqn:Hk. revert n Hk.
  induction k as [k IH] using lt_wf_ind. intros n ->.
  apply Hstep. apply Forall_forall. intros c Hc.
  apply (IH (nodeFuel c)); [| reflexivity].
  destruct n; simpl in Hc |- *;
    try (pose proof (nodeFuel_elem _ _ Hc); lia);
    try (apply elem_of_nil in Hc; contradiction);
    repeat (apply elem_of_cons in Hc as [-> | Hc]; [lia |]);
    apply elem_of_nil in Hc; contradiction.
Qed.

Lemma rewriteClasses_unfold newNode n :
  rewriteClasses newNode n
  = let child := rewriteChild newNode n in
    match n with
    | Regex pattern flags => Regex (child pattern) (child flags)
    | Alternative elements => Alternative (map child elements)
    | CharacterClass kind negate elements => CharacterClass kind negate (map child elements)
    | AbsentFunction kind alternatives => AbsentFunction kind (map child alternatives)
    | CapturingGroup number name alternatives =>
        CapturingGroup number name (map child alternatives)
    | Group atomic flags alternatives => Group atomic flags (map child alternatives)
    | Pattern alternatives => Pattern (map child alternatives)
    | LookaroundAssertion kind negate alternatives =>
        LookaroundAssertion kind negate (map child alternatives)
    | CharacterClassRange min max => CharacterClassRange (child min) (child max)
    | Quantifier kind min max element => Quantifier kind min max (child element)
    | _ => n
    end.
Proof. now destruct n. Qed.

Section RewriteClassesFacts.

Variable newNode : Node -> Node -> option Node.
Hypothesis Hshell : readsShell newNode.
Hypothesis Hleaf : returnsLeaf newNode.

Local Set Default Proof Using "All".

Lemma shell_rewriteClasses n : shell (rewriteClasses newNode n) = shell n.
Proof. now destruct n. Qed.

Lemma newNodeOf_leaf parent c x :
  newNodeOf newNode parent c = Some x ->
  match x with
  | Character _ | CharacterSet _ _ _ _ => True
  | _ => False
  end.
Proof. unfold newNodeOf. destruct c; try discriminate. apply Hleaf. Qed.

Lemma rewriteChild_noHoles parent c :
  noHoles (rewriteClasses newNode c) = true -> noHoles (rewriteChild newNode parent c) = true.
Proof.
  unfold rewriteChild. destruct (newNodeOf newNode parent c) as [x |] eqn:Hx; [| trivial].
  intros _. apply newNodeOf_leaf in Hx. now destruct x.
Qed.

Lemma rewriteChild_nodeFuel parent c :
  (nodeFuel (rewriteClasses newNode c) <= nodeFuel c)%nat ->
  (nodeFuel (rewriteChild newNode parent c) <= nodeFuel c)%nat.
Proof.
  unfold rewriteChild. destruct (newNodeOf newNode parent c) as [x |] eqn:Hx; [| trivial].
  intros _. apply newNodeOf_leaf in Hx.
  assert (2 <= nodeFuel c)%nat by (destruct c; simpl; lia).
  destruct x; try contradiction; simpl; lia.
Qed.

Lemma rewriteClasses_noHoles n : noHoles n = true -> noHoles (rewriteClasses newNode n) = true.
Proof.
  induction n as [n IH] using Node_ind_children. intros Hh.
  assert (Hlist : forall P els,
             Forall (fun c => noHoles c = true -> noHoles (rewriteClasses newNode c) = true) els ->
             forallb noHoles els = true ->
             forallb noHoles (map (rewriteChild newNode P) els) = true).
  { intros P els Hels Hall. apply forallb_Forall_true. apply Forall_map.
    apply Forall_forallb_true in Hall.
    eapply Forall_impl; [apply Forall_and; split; [exact Hels | exact Hall] |].
    intros c [H1 H2]. apply rewriteChild_noHoles. now apply H1. }
  destruct n; rewrite rewriteClasses_unfold; cbv beta iota zeta; simpl in IH, Hh;
    cbn [noHoles]; try discriminate; try reflexivity; try (now apply Hlist).
  - apply andb_true_iff in Hh as [H1 H2].
    apply Forall_cons in IH as [I1 IH]. apply Forall_cons in IH as [I2 _].
    rewrite !rewriteChild_noHoles; auto.
  - apply Forall_cons in IH as [I1 _]. apply rewriteChild_noHoles. auto.
  - apply andb_true_iff in Hh as [H1 H2].
    apply Forall_cons in IH as [I1 IH]. apply Forall_cons in IH as [I2 _].
    rewrite !rewriteChild_noHoles; auto.
Qed.

Lemma rewriteClasses_nodeFuel n : (nodeFuel (rewriteClasses newNode n) <= nodeFuel n)%nat.
Proof.
  induction n as [n IH] using Node_ind_children.
  assert (Hlist : forall P els,
             Forall (fun c => (nodeFuel (rewriteClasses newNode c) <= nodeFuel c)%nat) els ->
             (list_sum (map nodeFuel (map (rewriteChild newNode P) els))
              <= list_sum (map nodeFuel els))%nat).
  { intros P els Hels. induction Hels as [| c els Hc _ IHels]; simpl; [lia |].
    pose proof (rewriteChild_nodeFuel P c Hc). lia. }
  destruct n; rewrite rewriteClasses_unfold; cbv beta iota zeta; simpl in IH;
    cbn [nodeFuel]; try lia;
    try (match goal with
         | |- context [map (rewriteChild newNode ?P) ?els] => pose proof (Hlist P els IH)
         end; lia).
  - apply Forall_cons in IH as [I1 IH]. apply Forall_cons in IH as [I2 _].
    pose proof (rewriteChild_nodeFuel (CharacterClassRange n1 n2) n1 I1).
    pose proof (rewriteChild_nodeFuel (CharacterClassRange n1 n2) n2 I2). lia.
  - apply Forall_cons in IH as [I1 _].
    pose proof (rewriteChild_nodeFuel (Quantifier kind min max n) n I1). lia.
  - apply Forall_cons in IH as [I1 IH]. apply Forall_cons in IH as [I2 _].
    pose proof (rewriteChild_nodeFuel (Regex n1 n2) n1 I1).
    pose proof (rewriteChild_nodeFuel (Regex n1 n2) n2 I2). lia.
Qed.

Hypothesis Hsettled : settledOn newNode.

Lemma rewriteChild_again parent parent' c :
  shell parent' = shell parent ->
  rewriteClasses newNode (rewriteClasses newNode c) = rewriteClasses newNode c ->
  rewriteChild newNode parent' (rewriteChild newNode parent c) = rewriteChild newNode parent c.
Proof.
  intros HP IH. unfold rewriteChild at 2 3.
  destruct (newNodeOf newNode parent c) as [x |] eqn:Hx.
  - apply newNodeOf_leaf in Hx. now destruct x.
  - unfold rewriteChild.
    assert (Hnone : newNodeOf newNode parent' (rewriteClasses newNode c) = None).
    { unfold newNodeOf in *. destruct (rewriteClasses newNode c) eqn:Hc; try reflexivity.
      rewrite (Hshell parent'), HP, <- (Hshell parent), <- Hc.
      pose proof (Hsettled parent c) as Hs. unfold newNodeOf in Hs.
      rewrite Hc in Hs. rewrite Hc. apply Hs. exact Hx. }
    now rewrite Hnone.
Qed.

Lemma rewriteClasses_again n :
  rewriteClasses newNode (rewriteClasses newNode n) = rewriteClasses newNode n.
Proof.
  induction n as [n IH] using Node_ind_children.
  assert (Hlist : forall P P' els,
             shell P' = shell P ->
             Forall (fun c => rewriteClasses newNode (rewriteClasses newNode c)
                              = rewriteClasses newNode c) els ->
             map (rewriteChild newNode P') (map (rewriteChild newNode P) els)
             = map (rewriteChild newNode P) els).
  { intros P P' els HP Hels. induction Hels as [| c els Hc _ IHels]; simpl; [reflexivity |].
    now rewrite IHels, (rewriteChild_again P P' c HP Hc). }
  destruct n;
    match goal with
    | |- rewriteClasses newNode (rewriteClasses newNode ?m) = _ =>
        rewrite (rewriteClasses_unfold newNode m)
    end;
    cbv beta iota zeta; simpl in IH; try reflexivity;
    match goal with
    | |- rewriteClasses newNode ?m = _ => rewrite (rewriteClasses_unfold newNode m)
    end; cbv beta iota zeta;
    try (f_equal; now apply Hlist).
  - apply Forall_cons in IH as [I1 IH]. apply Forall_cons in IH as [I2 _].
    f_equal; now apply rewriteChild_again.
  - apply Forall_cons in IH as [I1 _]. f_equal. now apply rewriteChild_again.
  - apply Forall_cons in IH as [I1 IH]. apply Forall_cons in IH as [I2 _].
    f_equal; now apply rewriteChild_again.
Qed.

End RewriteClassesFacts.

Lemma type_of_rewriteClasses newNode n : type_of (rewriteClasses newNode n) = type_of n.
Proof. now destruct n. Qed.

Lemma unwrapClasses_settled : settledOn UnwrapClasses.newNode.
Proof.
  intros parent c Hnone.
  destruct c as [| | | | | |kind negate elements| | | | | | | | | | | |]; try reflexivity.
  rewrite rewriteClasses_unfold. cbv beta iota zeta.
  unfold newNodeOf, UnwrapClasses.newNode in *. rewrite length_map.
  destruct (negb _ && negb negate && _ && bool_decide (length elements = 1%nat));
    [| reflexivity].
  destruct elements as [| firstEl elements]; [reflexivity |].
  cbn [map]. unfold rewriteChild at 1, newNodeOf.
  destruct firstEl; try discriminate; reflexivity.
Qed.

(** X15.  One pass of the transform of unwrap-classes.js is enough: the
    tree a walk leaves is one a second walk leaves as it is. *)
Theorem unwrapClasses_one_pass {St : Type} ast fuel (s : St) :
  noHoles ast = true ->
  type_of ast <> Some TCharacterClass ->
  (nodeFuel ast <= fuel)%nat ->
  exists ast',
    traverse fuel ast s UnwrapClasses.transform = Ok (ast', s)
    /\ traverse fuel ast' s UnwrapClasses.transform = Ok (ast', s).
Proof.
  intros Hh Hty Hf. exists (rewriteClasses UnwrapClasses.newNode ast).
  assert (Hwalk : forall ast0,
             noHoles ast0 = true -> type_of ast0 <> Some TCharacterClass ->
             (nodeFuel ast0 <= fuel)%nat ->
             traverse fuel ast0 s UnwrapClasses.transform
             = Ok (rewriteClasses UnwrapClasses.newNode ast0, s)).
  { intros ast0. apply replacer_walk.
    - apply unwrapClasses_replaces.
    - apply unwrapClasses_readsShell.
    - apply unwrapClasses_returnsLeaf. }
  split; [now apply Hwalk |].
  rewrite Hwalk.
  - f_equal. f_equal.
    apply rewriteClasses_again;
      [apply unwrapClasses_readsShell | apply unwrapClasses_returnsLeaf
      | apply unwrapClasses_settled].
  - apply rewriteClasses_noHoles;
      [apply unwrapClasses_readsShell | apply unwrapClasses_returnsLeaf | assumption].
  - now rewrite type_of_rewriteClasses.
  - pose proof (rewriteClasses_nodeFuel _ unwrapClasses_readsShell
                  unwrapClasses_returnsLeaf ast). lia.
Qed.

Lemma unwrapClasses_one_pass_witness :
  exists ast',
    traverse 20 (regexOf [CharacterClass NodeCharacterClassKinds.union false [Character 97]]
                   noFlags) tt UnwrapClasses.transform = Ok (ast', tt)
    /\ traverse 20 ast' tt UnwrapClasses.transform = Ok (ast', tt).
Proof.
  apply (unwrapClasses_one_pass
           (regexOf [CharacterClass NodeCharacterClassKinds.union false [Character 97]]
              noFlags) 20 tt).
  - reflexivity.
  - discriminate.
  - vm_compute. lia.
Defined.

(** X19.  Outside an array there is nothing to remove: when the first
    operation that the [enter] callbacks of a node call is [remove()],
    [removeAllNextSiblings()] or [removeAllPrevSiblings()], and the node
    is the root or the child in a slot of its parent (a pattern, the
    flags, a bound of a range, the element of a quantifier), the walk
    throws. *)
Theorem container_expected {St : Type} (visitor : Visitor St) fuel node loc (s : St) ty
    op rest s1 s2 :
  type_of node = Some ty ->
  match loc with InArray _ _ _ _ => False | _ => True end ->
  needsContainer op = true ->
  callbackResult (enterAllFn visitor) (view node (newFrame node loc)) s = (op :: rest, s1)
  \/ (callbackResult (enterAllFn visitor) (view node (newFrame node loc)) s = ([], s1)
      /\ callbackResult (enterThisFn visitor ty) (view node (newFrame node loc)) s1
         = (op :: rest, s2)) ->
  traverseNode visitor (S fuel) node loc s = Throw "Container expected".
Proof.
  intros Hty Hloc Hop Hcall.
  rewrite (traverseNode_unfold _ _ _ _ _ _ Hty).
  assert (Hthrow : forall s', runActions (traverseNode visitor fuel) (op :: rest)
                                (newFrame node loc) s' = Throw "Container expected").
  { intros s'. destruct loc; try contradiction; destruct op; try discriminate; reflexivity. }
  destruct Hcall as [H1 | [H1 H2]].
  - rewrite (invoke_callbackResult _ (enterAllFn visitor)), H1. cbn [fst snd].
    now rewrite Hthrow.
  - rewrite (invoke_callbackResult _ (enterAllFn visitor)), H1. cbn [fst snd].
    rewrite runActions_nil. cbn [mbind result_bind].
    rewrite (invoke_callbackResult _ (enterThisFn visitor ty)), H2. cbn [fst snd].
    now rewrite Hthrow.
Qed.

Lemma container_expected_witness :
  traverse 20 (regexOf [Character 97] noFlags) [] (remover (fun _ => true))
  = Throw "Container expected".
Proof.
  unfold traverse.
  rewrite (container_expected (remover (fun _ => true)) 19 (regexOf [Character 97] noFlags)
             AtRoot [] TRegex remove [] [regexOf [Character 97] noFlags] []);
    [reflexivity | reflexivity | exact I | reflexivity | left; reflexivity].
Defined.

Section AlternationToClassFacts.

Variable universal : NodeCharacterSetKind -> bool.

Lemma singleLengthKid_Some elements kid :
  singleLengthKid universal elements = Some kid ->
  elements = [kid] /\ isSingleLength universal kid = true.
Proof.
  unfold singleLengthKid. destruct elements as [| k [| k2 rest]]; try discriminate.
  destruct (isSingleLength universal k) eqn:Hk; [| discriminate].
  intros [= <-]. now split.
Qed.

Lemma isSingle_elements alt :
  isSingle universal alt = true ->
  exists kid, alt = Alternative [kid] /\ isSingleLength universal kid = true.
Proof.
  unfold isSingle. destruct alt as [| [| kid [| k2 rest]] | | | | | | | | | | | | | | | | |];
    try discriminate.
  intros H. now exists kid.
Qed.

Lemma fused_snoc l x :
  fused universal l ->
  (forall y, at_last l = Some y -> isSingle universal y = true -> isSingle universal x = false) ->
  steady universal x ->
  fused universal (l ++ [x]).
Proof.
  induction l as [| a l IH]; intros Hl Hlast Hx.
  - simpl. now split.
  - simpl in Hl |- *. destruct Hl as (Ha & Hadj & Hl). split; [exact Ha |]. split.
    + destruct l as [| b l]; simpl; [| exact Hadj].
      intros Hsingle. now apply (Hlast a).
    + apply IH; [exact Hl | | exact Hx].
      intros y Hy. apply Hlast. unfold at_last in *. simpl.
      destruct l; [discriminate | exact Hy].
Qed.

Lemma combined_single ccNodes :
  ccNodes <> [] ->
  Forall (fun kid => isSingleLength universal kid = true) ccNodes ->
  isSingle universal (createAlternativeWithCombinedNodes ccNodes) = true.
Proof.
  intros Hne Hall. destruct ccNodes as [| k [| k2 rest]]; [contradiction | |].
  - now apply Forall_inv in Hall.
  - reflexivity.
Qed.

Lemma steady_single alt : isSingle universal alt = true -> steady universal alt.
Proof.
  intros H. unfold steady. destruct (isSingle_elements _ H) as (kid & -> & _). now right.
Qed.

Lemma fused_flushed newAlts ccNodes :
  fused universal newAlts ->
  (forall y, at_last newAlts = Some y -> isSingle universal y = false) ->
  Forall (fun kid => isSingleLength universal kid = true) ccNodes ->
  fused universal (flushed newAlts ccNodes).
Proof.
  intros Hf Hlast Hall. unfold flushed. destruct ccNodes as [| k rest] eqn:Hcc; [exact Hf |].
  rewrite <- Hcc in *. assert (Hne : ccNodes <> []) by (rewrite Hcc; discriminate).
  apply fused_snoc; [exact Hf | | apply steady_single, combined_single; assumption].
  intros y Hy Hsingle. rewrite (Hlast y Hy) in Hsingle. discriminate.
Qed.

(** What the loop returns has no two single alternatives side by
    side. *)
Lemma loop_fused alternatives :
  forall newAlts ccNodes out,
    alternationToClass_loop universal alternatives newAlts ccNodes = Ok out ->
    fused universal newAlts ->
    (forall y, at_last newAlts = Some y -> isSingle universal y = false) ->
    Forall (fun kid => isSingleLength universal kid = true) ccNodes ->
    fused universal out.
Proof.
  induction alternatives as [| alt rest IH]; intros newAlts ccNodes out H Hf Hlast Hall.
  - injection H as <-. now apply fused_flushed.
  - simpl in H. destruct (elements_of alt) as [elements |] eqn:Hels; [| discriminate].
    destruct (singleLengthKid universal elements) as [kid |] eqn:Hkid.
    + apply (IH _ _ _ H Hf Hlast). apply Forall_app. split; [exact Hall |].
      apply Forall_singleton. now apply singleLengthKid_Some in Hkid.
    + assert (Hnot : isSingle universal alt = false).
      { destruct (isSingle universal alt) eqn:Hs; [| reflexivity].
        destruct (isSingle_elements _ Hs) as (k & -> & Hk). simpl in Hels.
        injection Hels as <-. simpl in Hkid. rewrite Hk in Hkid. discriminate. }
      apply (IH _ _ _ H).
      * apply fused_snoc; [now apply fused_flushed | intros; exact Hnot |].
        unfold steady. rewrite Hels. now left.
      * intros y Hy. unfold at_last in Hy. rewrite last_snoc in Hy. now injection Hy as <-.
      * constructor.
Qed.

(** On such alternatives the loop returns them as they are. *)
Lemma loop_steady alternatives :
  forall newAlts,
    fused universal alternatives ->
    alternationToClass_loop universal alternatives newAlts [] = Ok (newAlts ++ alternatives)
    /\ forall kid,
         isSingleLength universal kid = true ->
         (forall next, head alternatives = Some next -> isSingle universal next = false) ->
         alternationToClass_loop universal alternatives newAlts [kid]
         = Ok (newAlts ++ Alternative [kid] :: alternatives).
Proof.
  induction alternatives as [| alt rest IH]; intros newAlts Hf.
  - split; [simpl; now rewrite app_nil_r |]. intros kid _ _. reflexivity.
  - simpl in Hf. destruct Hf as (Halt & Hadj & Hrest). unfold steady in Halt.
    destruct (elements_of alt) as [elements |] eqn:Hels; [| contradiction].
    split.
    + simpl. rewrite Hels.
      destruct (singleLengthKid universal elements) as [kid |] eqn:Hkid.
      * destruct Halt as [Hnone | Hsingle]; [discriminate |].
        destruct (isSingle_elements _ Hsingle) as (k & -> & Hk). simpl in Hels.
        injection Hels as <-. simpl in Hkid. rewrite Hk in Hkid. injection Hkid as <-.
        destruct (IH newAlts Hrest) as [_ Hpending]. apply Hpending; [exact Hk |].
        intros next Hnext. destruct rest as [| b rest]; [discriminate |].
        injection Hnext as <-. now apply Hadj.
      * destruct (IH (newAlts ++ [alt]) Hrest) as [Hplain _]. simpl.
        rewrite Hplain. now rewrite <- app_assoc.
    + intros kid0 Hkid0 Hhead. specialize (Hhead alt eq_refl). simpl. rewrite Hels.
      destruct (singleLengthKid universal elements) as [kid |] eqn:Hkid.
      * destruct Halt as [Hnone | Hsingle]; [discriminate | congruence].
      * destruct (IH ((newAlts ++ [Alternative [kid0]]) ++ [alt]) Hrest) as [Hplain _].
        simpl. change (createAlternativeWithCombinedNodes [kid0]) with (Alternative [kid0]).
        rewrite Hplain. now rewrite <- !app_assoc.
Qed.

(** X20.  [alternationToClass] is done in one go: the node its callback
    leaves is one the callback leaves as it is. *)
Theorem alternationToClass_once node node' :
  alternationToClass_node universal node = Ok node' ->
  alternationToClass_node universal node' = Ok node'.
Proof.
  unfold alternationToClass_node at 1.
  destruct (alternatives_of node) as [alternatives |] eqn:Halts.
  - intros H. apply bind_Ok in H as [out [Hloop H]]. injection H as <-.
    assert (Hfused : fused universal out).
    { apply (loop_fused _ _ _ _ Hloop); [exact I | discriminate | constructor]. }
    destruct (alternatives_of_set node _ out Halts) as [Hout Hset].
    unfold alternationToClass_node. rewrite Hout.
    destruct (loop_steady out [] Hfused) as [-> _]. simpl. now rewrite Hset.
  - intros H. injection H as <-. unfold alternationToClass_node. now rewrite Halts.
Qed.

End AlternationToClassFacts.

Lemma alternationToClass_once_witness :
  alternationToClass_node (fun _ => true)
    (Pattern [Alternative [CharacterClass NodeCharacterClassKinds.union false
                             [Character 97; Character 98]];
              Alternative [Character 99; Character 100];
              Alternative [Character 101]])
  = Ok (Pattern [Alternative [CharacterClass NodeCharacterClassKinds.union false
                                [Character 97; Character 98]];
                 Alternative [Character 99; Character 100];
                 Alternative [Character 101]]).
Proof.
  apply (alternationToClass_once (fun _ => true)
           (Pattern [Alternative [Character 97]; Alternative [Character 98];
                     Alternative [Character 99; Character 100];
                     Alternative [Character 101]])).
  reflexivity.
Defined.

(** ** The shorthands of a class, once used *)

Lemma orAssign_same flag : orAssign flag (Ok false) = Ok flag.
Proof. now destruct flag. Qed.

Lemma hasAfter_flags has kid has' :
  hasAfter has kid = Ok has' <->
  kid <> Undefined
  /\ orAssign (range0To10FFFF has) (isRange kid 0 1114111) = Ok (range0To10FFFF has')
  /\ orAssign (rangeDigit0To9 has) (isRange kid 48 57) = Ok (rangeDigit0To9 has')
  /\ orAssign (rangeAToFLower has) (isRange kid 97 102) = Ok (rangeAToFLower has')
  /\ orAssign (rangeAToFUpper has) (isRange kid 65 70) = Ok (rangeAToFUpper has')
  /\ orAssign (unicodeL has) (isUnicode kid ["L"] false false) = Ok (unicodeL has')
  /\ orAssign (unicodeM has) (isUnicode kid ["M"] false false) = Ok (unicodeM has')
  /\ orAssign (unicodeN has) (isUnicode kid ["N"] false false) = Ok (unicodeN has')
  /\ orAssign (unicodePc has) (isUnicode kid ["Pc"] true false) = Ok (unicodePc has').
Proof.
  split.
  - intros H. split; [intros ->; discriminate |].
    destruct kid; cbn [hasAfter] in H; try discriminate;
      try (injection H as <-; cbn [isRange isUnicode]; rewrite !orAssign_same;
           repeat split).
    + apply bind_Ok in H as [r0 [E0 H]]. apply bind_Ok in H as [r1 [E1 H]].
      apply bind_Ok in H as [r2 [E2 H]]. apply bind_Ok in H as [r3 [E3 H]].
      injection H as <-. cbn [isUnicode]. rewrite !orAssign_same. now repeat split.
    + apply bind_Ok in H as [r0 [E0 H]]. apply bind_Ok in H as [r1 [E1 H]].
      apply bind_Ok in H as [r2 [E2 H]]. apply bind_Ok in H as [r3 [E3 H]].
      injection H as <-. cbn [isRange]. rewrite !orAssign_same. now repeat split.
  - intros (Hd & E0 & E1 & E2 & E3 & E4 & E5 & E6 & E7).
    destruct has as [a0 a1 a2 a3 a4 a5 a6 a7], has' as [b0 b1 b2 b3 b4 b5 b6 b7].
    cbn [range0To10FFFF rangeDigit0To9 rangeAToFLower rangeAToFUpper
         unicodeL unicodeM unicodeN unicodePc] in *.
    destruct kid; try contradiction; cbn [hasAfter];
      cbn [range0To10FFFF rangeDigit0To9 rangeAToFLower rangeAToFUpper
           unicodeL unicodeM unicodeN unicodePc];
      try (cbn [isRange isUnicode] in *; rewrite !orAssign_same in *; congruence).
    + rewrite E0, E1, E2, E3. cbn [mbind result_bind].
      cbn [isUnicode] in *. rewrite !orAssign_same in *. congruence.
    + rewrite E4, E5, E6, E7. cbn [mbind result_bind].
      cbn [isRange] in *. rewrite !orAssign_same in *. congruence.
Qed.

Lemma hasOf_flags elements : forall has has',
  hasOf has elements = Ok has' <->
  Forall (fun kid => kid <> Undefined) elements
  /\ flagOf (fun kid => isRange kid 0 1114111) (range0To10FFFF has) elements
     = Ok (range0To10FFFF has')
  /\ flagOf (fun kid => isRange kid 48 57) (rangeDigit0To9 has) elements
     = Ok (rangeDigit0To9 has')
  /\ flagOf (fun kid => isRange kid 97 102) (rangeAToFLower has) elements
     = Ok (rangeAToFLower has')
  /\ flagOf (fun kid => isRange kid 65 70) (rangeAToFUpper has) elements
     = Ok (rangeAToFUpper has')
  /\ flagOf (fun kid => isUnicode kid ["L"] false false) (unicodeL has) elements
     = Ok (unicodeL has')
  /\ flagOf (fun kid => isUnicode kid ["M"] false false) (unicodeM has) elements
     = Ok (unicodeM has')
  /\ flagOf (fun kid => isUnicode kid ["N"] false false) (unicodeN has) elements
     = Ok (unicodeN has')
  /\ flagOf (fun kid => isUnicode kid ["Pc"] true false) (unicodePc has) elements
     = Ok (unicodePc has').
Proof.
  induction elements as [| kid rest IH]; intros has has'.
  - cbn [hasOf flagOf]. split.
    + intros [= <-]. now repeat split.
    + intros (_ & E). destruct has, has'.
      cbn [range0To10FFFF rangeDigit0To9 rangeAToFLower rangeAToFUpper
           unicodeL unicodeM unicodeN unicodePc] in E.
      destruct E as (E0 & E1 & E2 & E3 & E4 & E5 & E6 & E7). congruence.
  - cbn [hasOf flagOf]. split.
    + intros H. apply bind_Ok in H as [has1 [Hk H]].
      apply hasAfter_flags in Hk as (Hd & E0 & E1 & E2 & E3 & E4 & E5 & E6 & E7).
      apply IH in H as (Hds & F).
      rewrite E0, E1, E2, E3, E4, E5, E6, E7. cbn [mbind result_bind].
      split; [now constructor | exact F].
    + intros (Hds & F0 & F1 & F2 & F3 & F4 & F5 & F6 & F7).
      apply Forall_cons in Hds as [Hd Hds].
      apply bind_Ok in F0 as [b0 [E0 F0]]. apply bind_Ok in F1 as [b1 [E1 F1]].
      apply bind_Ok in F2 as [b2 [E2 F2]]. apply bind_Ok in F3 as [b3 [E3 F3]].
      apply bind_Ok in F4 as [b4 [E4 F4]]. apply bind_Ok in F5 as [b5 [E5 F5]].
      apply bind_Ok in F6 as [b6 [E6 F6]]. apply bind_Ok in F7 as [b7 [E7 F7]].
      assert (Hk : hasAfter has kid
                   = Ok {| range0To10FFFF := b0; rangeDigit0To9 := b1;
                           rangeAToFLower := b2; rangeAToFUpper := b3;
                           unicodeL := b4; unicodeM := b5; unicodeN := b6;
                           unicodePc := b7 |}).
      { apply hasAfter_flags. now repeat split. }
      rewrite Hk. cbn [mbind result_bind]. apply IH. now repeat split.
Qed.

Lemma flagOf_true test elements : flagOf test true elements = Ok true.
Proof. induction elements; [reflexivity | exact IHelements]. Qed.

Lemma flagOf_app test elements more : forall flag,
  flagOf test flag (elements ++ more)
  = flag' ← flagOf test flag elements; flagOf test flag' more.
Proof.
  induction elements as [| kid rest IH]; intros flag; [reflexivity |].
  cbn [app flagOf]. destruct (orAssign flag (test kid)) as [b | msg |];
    cbn [mbind result_bind]; [apply IH | reflexivity | reflexivity].
Qed.

(** A filter that drops no element on which the test holds leaves the
    property as it is. *)
Lemma flagOf_kept test drop elements : forall kept flag b,
  filterKids drop elements = Ok kept ->
  test Undefined <> Ok true ->
  (forall kid, drop kid = Ok true -> test kid <> Ok true) ->
  flagOf test flag elements = Ok b -> flagOf test flag kept = Ok b.
Proof.
  induction elements as [| kid rest IH]; intros kept flag b Hf Hu Hdrop H.
  - injection Hf as <-. exact H.
  - destruct flag; [rewrite flagOf_true in H |- *; exact H |].
    cbn [flagOf orAssign] in H. apply bind_Ok in H as [b1 [Ht H]].
    assert (Hskip : forall kept', filterKids drop rest = Ok kept' ->
                                  b1 = false -> flagOf test false kept' = Ok b).
    { intros kept' Hf' ->. now apply (IH kept' false b). }
    assert (Hkeep : forall kept', filterKids drop rest = Ok kept' ->
                                  flagOf test false (kid :: kept') = Ok b).
    { intros kept' Hf'. cbn [flagOf orAssign]. rewrite Ht. cbn [mbind result_bind].
      now apply (IH kept' b1 b). }
    destruct kid; cbn [filterKids] in Hf;
      try (apply bind_Ok in Hf as [d [Hd Hf]]; apply bind_Ok in Hf as [kept' [Hf' Hf]];
           injection Hf as <-; destruct d;
           [apply Hskip; [exact Hf' |]; destruct b1; [| reflexivity];
            exfalso; exact (Hdrop _ Hd Ht)
           | now apply Hkeep]).
    apply Hskip; [exact Hf |]. destruct b1; [| reflexivity]. contradiction.
Qed.

(** A filter that drops every element on which the test holds or
    throws leaves nothing of the property. *)
Lemma flagOf_dropped test drop elements : forall kept,
  filterKids drop elements = Ok kept ->
  (forall kid, kid <> Undefined -> drop kid = Ok false -> test kid = Ok false) ->
  flagOf test false kept = Ok false.
Proof.
  induction elements as [| kid rest IH]; intros kept Hf Hdrop.
  - injection Hf as <-. reflexivity.
  - destruct kid; cbn [filterKids] in Hf;
      try (apply bind_Ok in Hf as [d [Hd Hf]]; apply bind_Ok in Hf as [kept' [Hf' Hf]];
           injection Hf as <-; destruct d;
           [now apply IH
           | cbn [flagOf orAssign]; rewrite Hdrop; [| discriminate | exact Hd];
             cbn [mbind result_bind]; now apply IH]).
    now apply IH.
Qed.

Lemma flagOf_returns test elements flag :
  Forall (fun kid => exists b, test kid = Ok b) elements ->
  exists b, flagOf test flag elements = Ok b.
Proof.
  intros H. revert flag. induction H as [| kid rest [b Hb] _ IH]; intros flag.
  - now exists flag.
  - cbn [flagOf]. destruct flag; cbn [orAssign mbind result_bind]; [apply IH |].
    rewrite Hb. apply IH.
Qed.

Lemma filterKids_defined drop elements : forall kept,
  filterKids drop elements = Ok kept -> Forall (fun kid => kid <> Undefined) kept.
Proof.
  induction elements as [| kid rest IH]; intros kept Hf.
  - injection Hf as <-. constructor.
  - destruct kid; cbn [filterKids] in Hf;
      try (apply bind_Ok in Hf as [d [Hd Hf]]; apply bind_Ok in Hf as [kept' [Hf' Hf]];
           injection Hf as <-; destruct d;
           [now apply IH | constructor; [discriminate | now apply IH]]).
    now apply IH.
Qed.

Lemma flagOf_push test flag elements newKid b :
  test newKid = Ok false ->
  flagOf test flag elements = Ok b -> flagOf test flag (elements ++ [newKid]) = Ok b.
Proof.
  intros Hn H. rewrite flagOf_app, H. cbn [mbind result_bind flagOf].
  now rewrite Hn, orAssign_same.
Qed.

Lemma hasValue_true node value :
  hasValue node value = Ok true -> node = Character value.
Proof.
  destruct node; try discriminate. cbn [hasValue]. intros [= H].
  apply Z.eqb_eq in H. now subst.
Qed.

Lemma isRange_true kid min max :
  isRange kid min max = Ok true ->
  kid = CharacterClassRange (Character min) (Character max).
Proof.
  destruct kid; try discriminate. cbn [isRange]. intros H.
  apply bind_Ok in H as [atMin [Hmin H]]. destruct atMin; [| discriminate].
  apply hasValue_true in Hmin, H. now subst.
Qed.

Lemma isRange_set kind value negate variableLength min max :
  isRange (CharacterSet kind value negate variableLength) min max = Ok false.
Proof. reflexivity. Qed.

Lemma isHexRange_true kid :
  isHexRange kid = Ok true ->
  kid = CharacterClassRange (Character 48) (Character 57)
  \/ kid = CharacterClassRange (Character 97) (Character 102)
  \/ kid = CharacterClassRange (Character 65) (Character 70).
Proof.
  unfold isHexRange. intros H.
  apply bind_Ok in H as [[] [Hd H]]; [left; now apply isRange_true |].
  apply bind_Ok in H as [[] [Hl H]]; [right; left; now apply isRange_true |].
  right; right; now apply isRange_true.
Qed.

Lemma isHexRange_false kid :
  isHexRange kid = Ok false ->
  isRange kid 48 57 = Ok false /\ isRange kid 97 102 = Ok false
  /\ isRange kid 65 70 = Ok false.
Proof.
  unfold isHexRange. intros H.
  apply bind_Ok in H as [[] [Hd H]]; [discriminate |].
  apply bind_Ok in H as [[] [Hl H]]; [discriminate |]. auto.
Qed.

Lemma isUnicode_true kid names supers subs :
  isUnicode kid names supers subs = Ok true ->
  exists kind value negate variableLength,
    kid = CharacterSet kind value negate variableLength.
Proof. destruct kid; try discriminate. intros _. eauto. Qed.

Lemma isUnicode_returns kid names supers subs :
  kid <> Undefined -> exists b, isUnicode kid names supers subs = Ok b.
Proof. destruct kid; try contradiction; intros _; cbn [isUnicode]; eauto. Qed.

Lemma isUnicode_range lo hi names supers subs :
  isUnicode (CharacterClassRange lo hi) names supers subs = Ok false.
Proof. reflexivity. Qed.

(** The names of one category are among the names that the filter of
    the last rewrite drops. *)
Lemma isWordProperty_false kid name :
  name = "L" \/ name = "M" \/ name = "N" ->
  isWordProperty kid = Ok false -> isUnicode kid [name] false false = Ok false.
Proof.
  intros Hname. unfold isWordProperty. destruct kid; try discriminate; try reflexivity.
  cbn [isUnicode]. intros [= H]. f_equal.
  destruct (bool_decide (kind = NodeCharacterSetKinds.property)); [| reflexivity].
  destruct (negb (default false negate)); [| reflexivity].
  destruct value as [v |]; [| reflexivity]. cbn [andb] in *.
  apply bool_decide_eq_false in H. apply bool_decide_eq_false. intros Hin. apply H.
  destruct Hname as [-> | [-> | ->]];
    repeat match goal with
           | H : context [expandedNames ?a ?b ?c] |- _ =>
               let l := eval vm_compute in (expandedNames a b c) in
               change (expandedNames a b c) with l in H
           | |- context [expandedNames ?a ?b ?c] =>
               let l := eval vm_compute in (expandedNames a b c) in
               change (expandedNames a b c) with l
           end;
    rewrite !elem_of_cons, elem_of_nil in Hin; rewrite !elem_of_cons; tauto.
Qed.

Ltac has_fields :=
  cbn [range0To10FFFF rangeDigit0To9 rangeAToFLower rangeAToFUpper
       unicodeL unicodeM unicodeN unicodePc hasNothing] in *.

(** [has], read again once the three ranges of the hexadecimal digits
    have made room for [\h]. *)
Lemma hex_step elements elements1 has :
  hasOf hasNothing elements = Ok has ->
  (if rangeDigit0To9 has && rangeAToFUpper has && rangeAToFLower has
   then kept ← filterKids isHexRange elements;
        Ok (kept ++ [createCharacterSet NodeCharacterSetKinds.hex false])
   else Ok elements) = Ok elements1 ->
  exists has1,
    hasOf hasNothing elements1 = Ok has1
    /\ rangeDigit0To9 has1 && rangeAToFUpper has1 && rangeAToFLower has1 = false
    /\ range0To10FFFF has1 = range0To10FFFF has
    /\ unicodeL has1 = unicodeL has /\ unicodeM has1 = unicodeM has
    /\ unicodeN has1 = unicodeN has /\ unicodePc has1 = unicodePc has.
Proof.
  intros Hhas H.
  destruct (rangeDigit0To9 has && rangeAToFUpper has && rangeAToFLower has) eqn:Hc.
  2:{ injection H as <-. exists has. now repeat split. }
  apply bind_Ok in H as [kept [Hf H]]. injection H as <-.
  apply hasOf_flags in Hhas as (Hd & F0 & F1 & F2 & F3 & F4 & F5 & F6 & F7).
  exists {| range0To10FFFF := range0To10FFFF has; rangeDigit0To9 := false;
            rangeAToFLower := false; rangeAToFUpper := false;
            unicodeL := unicodeL has; unicodeM := unicodeM has;
            unicodeN := unicodeN has; unicodePc := unicodePc has |}.
  split; [| now repeat split]. apply hasOf_flags. has_fields.
  assert (Hrange : forall min max b,
             (min, max) <> (48, 57) -> (min, max) <> (97, 102) -> (min, max) <> (65, 70) ->
             flagOf (fun kid => isRange kid min max) false elements = Ok b ->
             flagOf (fun kid => isRange kid min max) false
               (kept ++ [createCharacterSet NodeCharacterSetKinds.hex false]) = Ok b).
  { intros min max b H1 H2 H3 F. apply flagOf_push; [reflexivity |].
    apply (flagOf_kept _ _ _ _ _ _ Hf); [discriminate | | exact F].
    intros kid Hk Ht. apply isRange_true in Ht. subst kid.
    apply isHexRange_true in Hk as [Hk | [Hk | Hk]]; congruence. }
  assert (Hhex : forall min max,
             (forall kid, isHexRange kid = Ok false -> isRange kid min max = Ok false) ->
             flagOf (fun kid => isRange kid min max) false
               (kept ++ [createCharacterSet NodeCharacterSetKinds.hex false]) = Ok false).
  { intros min max Hm. apply flagOf_push; [reflexivity |].
    apply (flagOf_dropped _ _ _ _ Hf). intros kid _. apply Hm. }
  assert (Hunicode : forall names supers b,
             flagOf (fun kid => isUnicode kid names supers false) false elements = Ok b ->
             flagOf (fun kid => isUnicode kid names supers false) false
               (kept ++ [createCharacterSet NodeCharacterSetKinds.hex false]) = Ok b).
  { intros names supers b F. apply flagOf_push; [reflexivity |].
    apply (flagOf_kept _ _ _ _ _ _ Hf); [discriminate | | exact F].
    intros kid Hk Ht. apply isUnicode_true in Ht as (k & v & n & vl & ->).
    apply isHexRange_true in Hk as [Hk | [Hk | Hk]]; discriminate. }
  split.
  { apply Forall_app. split; [exact (filterKids_defined _ _ _ Hf) |].
    apply Forall_singleton. discriminate. }
  split; [apply Hrange; [discriminate .. | exact F0] |].
  split; [apply Hhex; intros kid Hk; apply isHexRange_false in Hk; tauto |].
  split; [apply Hhex; intros kid Hk; apply isHexRange_false in Hk; tauto |].
  split; [apply Hhex; intros kid Hk; apply isHexRange_false in Hk; tauto |].
  repeat split; now apply Hunicode.
Qed.

(** [has], read again once the range of all code points has made room
    for [\p{Any}]. *)
Lemma any_step elements1 elements2 has1 (c : bool) :
  hasOf hasNothing elements1 = Ok has1 ->
  c = range0To10FFFF has1 ->
  (if c
   then kept ← filterKids isAnyRange elements1;
        anySet ← createUnicodeProperty "Any" false false false None;
        Ok (kept ++ [anySet])
   else Ok elements1) = Ok elements2 ->
  exists has2,
    hasOf hasNothing elements2 = Ok has2
    /\ range0To10FFFF has2 = false
    /\ rangeDigit0To9 has2 = rangeDigit0To9 has1
    /\ rangeAToFLower has2 = rangeAToFLower has1
    /\ rangeAToFUpper has2 = rangeAToFUpper has1
    /\ unicodeL has2 = unicodeL has1 /\ unicodeM has2 = unicodeM has1
    /\ unicodeN has2 = unicodeN has1 /\ unicodePc has2 = unicodePc has1.
Proof.
  intros Hhas Hc H. destruct c.
  2:{ injection H as <-. exists has1. now repeat split. }
  apply bind_Ok in H as [kept [Hf H]].
  change (createUnicodeProperty "Any" false false false None)
    with (Ok (CharacterSet NodeCharacterSetKinds.property (Some "Any") (Some false) false))
    in H.
  cbn [mbind result_bind] in H. injection H as <-.
  apply hasOf_flags in Hhas as (Hd & F0 & F1 & F2 & F3 & F4 & F5 & F6 & F7).
  exists {| range0To10FFFF := false; rangeDigit0To9 := rangeDigit0To9 has1;
            rangeAToFLower := rangeAToFLower has1; rangeAToFUpper := rangeAToFUpper has1;
            unicodeL := unicodeL has1; unicodeM := unicodeM has1;
            unicodeN := unicodeN has1; unicodePc := unicodePc has1 |}.
  split; [| now repeat split]. apply hasOf_flags. has_fields.
  assert (Hrange : forall min max b,
             (min, max) <> (0, 1114111) ->
             flagOf (fun kid => isRange kid min max) false elements1 = Ok b ->
             flagOf (fun kid => isRange kid min max) false
               (kept ++ [CharacterSet NodeCharacterSetKinds.property (Some "Any")
                           (Some false) false]) = Ok b).
  { intros min max b H1 F. apply flagOf_push; [reflexivity |].
    apply (flagOf_kept _ _ _ _ _ _ Hf); [discriminate | | exact F].
    intros kid Hk Ht. apply isRange_true in Ht. subst kid.
    unfold isAnyRange in Hk. apply isRange_true in Hk. congruence. }
  assert (Hunicode : forall names supers b,
             isUnicode (CharacterSet NodeCharacterSetKinds.property (Some "Any")
                          (Some false) false) names supers false = Ok false ->
             flagOf (fun kid => isUnicode kid names supers false) false elements1 = Ok b ->
             flagOf (fun kid => isUnicode kid names supers false) false
               (kept ++ [CharacterSet NodeCharacterSetKinds.property (Some "Any")
                           (Some false) false]) = Ok b).
  { intros names supers b Hany F. apply flagOf_push; [exact Hany |].
    apply (flagOf_kept _ _ _ _ _ _ Hf); [discriminate | | exact F].
    intros kid Hk Ht. apply isUnicode_true in Ht as (k & v & n & vl & ->).
    discriminate. }
  split.
  { apply Forall_app. split; [exact (filterKids_defined _ _ _ Hf) |].
    apply Forall_singleton. discriminate. }
  split.
  { apply flagOf_push; [reflexivity |]. apply (flagOf_dropped _ _ _ _ Hf).
    intros kid _ Hk. exact Hk. }
  split; [apply Hrange; [discriminate | exact F1] |].
  split; [apply Hrange; [discriminate | exact F2] |].
  split; [apply Hrange; [discriminate | exact F3] |].
  repeat split; (apply Hunicode; [vm_compute; reflexivity | assumption]).
Qed.

(** [has], read again once the four properties of a word character
    have made room for [\w]. *)
Lemma word_step elements2 elements3 has2 (c : bool) :
  hasOf hasNothing elements2 = Ok has2 ->
  (if c
   then kept ← filterKids isWordProperty elements2;
        Ok (kept ++ [createCharacterSet NodeCharacterSetKinds.word false])
   else Ok elements2) = Ok elements3 ->
  exists has3,
    hasOf hasNothing elements3 = Ok has3
    /\ range0To10FFFF has3 = range0To10FFFF has2
    /\ rangeDigit0To9 has3 = rangeDigit0To9 has2
    /\ rangeAToFLower has3 = rangeAToFLower has2
    /\ rangeAToFUpper has3 = rangeAToFUpper has2
    /\ (if c then unicodeL has3 = false
        else unicodeL has3 = unicodeL has2 /\ unicodeM has3 = unicodeM has2
             /\ unicodeN has3 = unicodeN has2 /\ unicodePc has3 = unicodePc has2).
Proof.
  intros Hhas H. destruct c.
  2:{ injection H as <-. exists has2. now repeat split. }
  apply bind_Ok in H as [kept [Hf H]]. injection H as <-.
  apply hasOf_flags in Hhas as (Hd & F0 & F1 & F2 & F3 & F4 & F5 & F6 & F7).
  assert (Hdef : Forall (fun kid => kid <> Undefined)
                   (kept ++ [createCharacterSet NodeCharacterSetKinds.word false])).
  { apply Forall_app. split; [exact (filterKids_defined _ _ _ Hf) |].
    apply Forall_singleton. discriminate. }
  destruct (flagOf_returns (fun kid => isUnicode kid ["Pc"] true false)
              (kept ++ [createCharacterSet NodeCharacterSetKinds.word false]) false)
    as [pc Hpc].
  { eapply Forall_impl; [exact Hdef |]. intros kid Hk. now apply isUnicode_returns. }
  exists {| range0To10FFFF := range0To10FFFF has2; rangeDigit0To9 := rangeDigit0To9 has2;
            rangeAToFLower := rangeAToFLower has2; rangeAToFUpper := rangeAToFUpper has2;
            unicodeL := false; unicodeM := false; unicodeN := false; unicodePc := pc |}.
  split; [| now repeat split]. apply hasOf_flags. has_fields.
  assert (Hrange : forall min max b,
             flagOf (fun kid => isRange kid min max) false elements2 = Ok b ->
             flagOf (fun kid => isRange kid min max) false
               (kept ++ [createCharacterSet NodeCharacterSetKinds.word false]) = Ok b).
  { intros min max b F. apply flagOf_push; [reflexivity |].
    apply (flagOf_kept _ _ _ _ _ _ Hf); [discriminate | | exact F].
    intros kid Hk Ht. apply isRange_true in Ht. subst kid. discriminate. }
  assert (Hword : forall name,
             name = "L" \/ name = "M" \/ name = "N" ->
             flagOf (fun kid => isUnicode kid [name] false false) false
               (kept ++ [createCharacterSet NodeCharacterSetKinds.word false]) = Ok false).
  { intros name Hname. apply flagOf_push; [reflexivity |].
    apply (flagOf_dropped _ _ _ _ Hf). intros kid _. now apply isWordProperty_false. }
  split; [exact Hdef |].
  split; [now apply Hrange |]. split; [now apply Hrange |].
  split; [now apply Hrange |]. split; [now apply Hrange |].
  split; [apply Hword; tauto |]. split; [apply Hword; tauto |].
  split; [apply Hword; tauto | exact Hpc].
Qed.

(** What [has] holds of the elements that the callback leaves. *)
Lemma useShorthands_elements_has flags elements elements' :
  useShorthands_elements flags elements = Ok elements' ->
  exists has,
    hasOf hasNothing elements' = Ok has
    /\ rangeDigit0To9 has && rangeAToFUpper has && rangeAToFLower has = false
    /\ range0To10FFFF has = false
    /\ (if unicodeL has && unicodeM has && unicodeN has && unicodePc has
        then fl ← flags; Ok (negb (wordIsAscii fl) && negb (posixIsAscii fl))
        else Ok false) = Ok false.
Proof.
  unfold useShorthands_elements. intros H.
  apply bind_Ok in H as [has [Hhas H]].
  apply bind_Ok in H as [elements1 [H1 H]].
  apply bind_Ok in H as [elements2 [H2 H]].
  apply bind_Ok in H as [unicodeWord [Hw H]].
  destruct (hex_step _ _ _ Hhas H1) as (has1 & Hhas1 & Hhex & Hany & HL & HM & HN & HPc).
  destruct (any_step _ _ _ _ Hhas1 (eq_sym Hany) H2)
    as (has2 & Hhas2 & Hany2 & Hd2 & Hl2 & Hu2 & HL2 & HM2 & HN2 & HPc2).
  destruct (word_step _ _ _ _ Hhas2 H)
    as (has3 & Hhas3 & Hany3 & Hd3 & Hl3 & Hu3 & Hword).
  exists has3. split; [exact Hhas3 |].
  rewrite Hd3, Hl3, Hu3, Hd2, Hl2, Hu2, Hhex, Hany3, Hany2.
  split; [reflexivity |]. split; [reflexivity |].
  destruct unicodeWord.
  - rewrite Hword. reflexivity.
  - destruct Hword as (-> & -> & -> & ->).
    rewrite HL2, HM2, HN2, HPc2, HL, HM, HN, HPc. exact Hw.
Qed.

Lemma useShorthands_elements_settles flags elements elements' :
  useShorthands_elements flags elements = Ok elements' ->
  useShorthands_elements flags elements' = Ok elements'.
Proof.
  intros H. apply useShorthands_elements_has in H as (has & Hhas & Hhex & Hany & Hword).
  unfold useShorthands_elements. rewrite Hhas. cbn [mbind result_bind].
  rewrite Hhex, Hany. cbn [mbind result_bind]. rewrite Hword. reflexivity.
Qed.

(** A property that the loop leaves unset holds of no element. *)
Lemma flagOf_found test kid elements : forall flag b,
  flagOf test flag elements = Ok b -> kid ∈ elements -> test kid = Ok true -> b = true.
Proof.
  induction elements as [| kid' rest IH]; intros flag b H Hin Ht.
  - now apply elem_of_nil in Hin.
  - destruct flag; [rewrite flagOf_true in H; congruence |].
    cbn [flagOf orAssign] in H. apply bind_Ok in H as [b1 [Ht' H]].
    apply elem_of_cons in Hin as [-> | Hin]; [| exact (IH _ _ H Hin Ht)].
    rewrite Ht in Ht'. injection Ht' as <-. rewrite flagOf_true in H. congruence.
Qed.

Lemma rootFlags_same path path' :
  path_root path' = path_root path -> rootFlags path' = rootFlags path.
Proof. unfold rootFlags. now intros ->. Qed.

(** X22.  The callback of [useShorthands] on character classes is done
    in one call: called on the class it has left, under the same root,
    it leaves that class again. *)
Theorem useShorthands_class_settles path path' node' :
  useShorthands_CharacterClass path = Ok node' ->
  path_node path' = node' -> path_root path' = path_root path ->
  useShorthands_CharacterClass path' = Ok node'.
Proof.
  unfold useShorthands_CharacterClass. intros H Hnode Hroot.
  rewrite Hnode, (rootFlags_same _ _ Hroot).
  destruct (path_node path) as [| | | | | |kind negate elements| | | | | | | | | | | |];
    try (injection H as <-; reflexivity).
  destruct kind; [| injection H as <-; reflexivity].
  apply bind_Ok in H as [elements' [H Hn]]. injection Hn as <-.
  now rewrite (useShorthands_elements_settles _ _ _ H).
Qed.

(** X23.  The union that the callback of [useShorthands] on character
    classes leaves has no range of all code points, not the three ranges
    of the hexadecimal digits together, and the four properties of a word
    character together only under a root whose flags make [\w] or the
    POSIX classes ASCII. *)
Theorem useShorthands_class_rewritten path negate elements :
  useShorthands_CharacterClass path
  = Ok (CharacterClass NodeCharacterClassKinds.union negate elements) ->
  (CharacterClassRange (Character 0) (Character 1114111) ∉ elements)
  /\ ~ (CharacterClassRange (Character 48) (Character 57) ∈ elements
        /\ CharacterClassRange (Character 97) (Character 102) ∈ elements
        /\ CharacterClassRange (Character 65) (Character 70) ∈ elements)
  /\ (let property name :=
        CharacterSet NodeCharacterSetKinds.property (Some name) (Some false) false in
      property "L" ∈ elements -> property "M" ∈ elements ->
      property "N" ∈ elements -> property "Pc" ∈ elements ->
      exists fl, rootFlags path = Ok fl /\ wordIsAscii fl || posixIsAscii fl = true).
Proof.
  unfold useShorthands_CharacterClass. intros H.
  destruct (path_node path) as [| | | | | |kind negate0 elements0| | | | | | | | | | | |];
    try discriminate.
  destruct kind; [| discriminate].
  apply bind_Ok in H as [elements' [H Hn]]. injection Hn as <- <-.
  apply useShorthands_elements_has in H as (has & Hhas & Hhex & Hany & Hword).
  apply hasOf_flags in Hhas as (_ & F0 & F1 & F2 & F3 & F4 & F5 & F6 & F7).
  has_fields. split; [| split].
  - intros Hin. pose proof (flagOf_found _ _ _ _ _ F0 Hin eq_refl). congruence.
  - intros (H1 & H2 & H3).
    rewrite (flagOf_found _ _ _ _ _ F1 H1 eq_refl),
      (flagOf_found _ _ _ _ _ F2 H2 eq_refl),
      (flagOf_found _ _ _ _ _ F3 H3 eq_refl) in Hhex.
    discriminate.
  - intros HL HM HN HPc.
    rewrite (flagOf_found _ _ _ _ _ F4 HL eq_refl),
      (flagOf_found _ _ _ _ _ F5 HM eq_refl),
      (flagOf_found _ _ _ _ _ F6 HN eq_refl),
      (flagOf_found _ _ _ _ _ F7 HPc eq_refl) in Hword.
    cbn [andb] in Hword. apply bind_Ok in Hword as [fl [Hfl Hword]].
    exists fl. split; [exact Hfl |]. injection Hword as Hword.
    now destruct (wordIsAscii fl), (posixIsAscii fl).
Qed.

Lemma useShorthands_class_settles_witness :
  let pathTo node :=
    {| path_node := node; path_parent := None; path_key := KeyNull;
       path_container := None; path_ast := Undefined; path_root := None |} in
  let class := CharacterClass NodeCharacterClassKinds.union false in
  useShorthands_CharacterClass
    (pathTo (class [Character 120; CharacterSet NodeCharacterSetKinds.hex None (Some false) false]))
  = Ok (class [Character 120; CharacterSet NodeCharacterSetKinds.hex None (Some false) false]).
Proof.
  intros pathTo class.
  apply (useShorthands_class_settles
           (pathTo (class [CharacterClassRange (Character 48) (Character 57);
                           Character 120;
                           CharacterClassRange (Character 97) (Character 102);
                           CharacterClassRange (Character 65) (Character 70)])));
    reflexivity.
Defined.

Lemma useShorthands_class_rewritten_witness :
  let property name :=
    CharacterSet NodeCharacterSetKinds.property (Some name) (Some false) false in
  let class := CharacterClass NodeCharacterClassKinds.union false in
  let elements :=
    [CharacterClassRange (Character 0) (Character 1114111);
     property "L"; property "M"; property "N"; property "Pc"] in
  let path :=
    {| path_node := class elements; path_parent := None; path_key := KeyNull;
       path_container := None; path_ast := regexOf [class elements] noFlags;
       path_root := Some (regexOf [class elements] noFlags) |} in
  let elements' :=
    [property "Any"; CharacterSet NodeCharacterSetKinds.word None (Some false) false] in
  (CharacterClassRange (Character 0) (Character 1114111) ∉ elements')
  /\ ~ (CharacterClassRange (Character 48) (Character 57) ∈ elements'
        /\ CharacterClassRange (Character 97) (Character 102) ∈ elements'
        /\ CharacterClassRange (Character 65) (Character 70) ∈ elements')
  /\ (property "L" ∈ elements' -> property "M" ∈ elements' ->
      property "N" ∈ elements' -> property "Pc" ∈ elements' ->
      exists fl, rootFlags path = Ok fl /\ wordIsAscii fl || posixIsAscii fl = true).
Proof.
  intros property class elements path elements'.
  apply (useShorthands_class_rewritten path false elements'). reflexivity.
Defined.
